(** * lecp: the streaming CBOR (RFC 8949) parser of lib/misc/lecp.c

    A shallow embedding of [lecp.c]: the parser context and its frame stack
    as records, the fixed arrays of the context as lists with checked
    indexing, the callback as a function pointer resolved in a table, and the
    C control flow (the [goto] labels of [lecp_parse] included) as a small
    state-and-failure monad over the context and the log of delivered
    callback events. *)

From Stdlib Require Import ZArith List Bool Lia.
Import ListNotations.
Local Open Scope Z_scope.

(** ** Constants *)

(** Modelled from the spec: the head-byte constants of [lws-lecp.h] (the
    header is not part of the sources at hand); the values are those of
    RFC 8949 as the spec's head-byte table gives them. *)
Definition LWS_CBOR_MAJTYP_UINT : Z := 0.
Definition LWS_CBOR_MAJTYP_INT_NEG : Z := 32.
Definition LWS_CBOR_MAJTYP_BSTR : Z := 64.
Definition LWS_CBOR_MAJTYP_TSTR : Z := 96.
Definition LWS_CBOR_MAJTYP_ARRAY : Z := 128.
Definition LWS_CBOR_MAJTYP_MAP : Z := 160.
Definition LWS_CBOR_MAJTYP_TAG : Z := 192.
Definition LWS_CBOR_MAJTYP_FLOAT : Z := 224.
Definition LWS_CBOR_MAJTYP_MASK : Z := 224.
Definition LWS_CBOR_SUBMASK : Z := 31.
Definition LWS_CBOR_1 : Z := 24.
Definition LWS_CBOR_RESERVED : Z := 28.
Definition LWS_CBOR_INDETERMINITE : Z := 31.
Definition LWS_CBOR_SWK_FALSE : Z := 20.
Definition LWS_CBOR_SWK_TRUE : Z := 21.
Definition LWS_CBOR_SWK_NULL : Z := 22.
Definition LWS_CBOR_SWK_UNDEFINED : Z := 23.
Definition LWS_CBOR_M7_SUBTYP_SIMPLE_X8 : Z := 24.
Definition LWS_CBOR_M7_SUBTYP_FLOAT16 : Z := 25.
Definition LWS_CBOR_M7_SUBTYP_FLOAT32 : Z := 26.
Definition LWS_CBOR_M7_SUBTYP_FLOAT64 : Z := 27.
Definition LWS_CBOR_M7_BREAK : Z := 31.

(** Modelled from the spec: the callback reasons of [enum lecp_callbacks]
    in [lws-lecp.h] (not part of the sources at hand).  [lecp.c] relies on
    three facts about them, all kept here: a reason of 0 passed to
    [lecp_push] or stored in [pop_iss] means that no event is issued; the
    CHUNK reason is the END reason minus one; and the BLOB reasons are the
    STR reasons shifted by one common offset. *)
Definition LECPCB_CONSTRUCTED : Z := 0.
Definition LECPCB_DESTRUCTED : Z := 1.
Definition LECPCB_COMPLETE : Z := 3.
Definition LECPCB_FAILED : Z := 4.
Definition LECPCB_VAL_TRUE : Z := 5.
Definition LECPCB_VAL_FALSE : Z := 6.
Definition LECPCB_VAL_NULL : Z := 7.
Definition LECPCB_VAL_NUM_INT : Z := 8.
Definition LECPCB_VAL_STR_START : Z := 10.
Definition LECPCB_VAL_STR_CHUNK : Z := 11.
Definition LECPCB_VAL_STR_END : Z := 12.
Definition LECPCB_ARRAY_START : Z := 13.
Definition LECPCB_ARRAY_END : Z := 14.
Definition LECPCB_OBJECT_START : Z := 15.
Definition LECPCB_OBJECT_END : Z := 16.
Definition LECPCB_TAG_START : Z := 17.
Definition LECPCB_TAG_END : Z := 18.
Definition LECPCB_VAL_NUM_UINT : Z := 19.
Definition LECPCB_VAL_UNDEFINED : Z := 20.
Definition LECPCB_VAL_FLOAT16 : Z := 21.
Definition LECPCB_VAL_FLOAT32 : Z := 22.
Definition LECPCB_VAL_FLOAT64 : Z := 23.
Definition LECPCB_VAL_SIMPLE : Z := 24.
Definition LECPCB_VAL_BLOB_START : Z := 25.
Definition LECPCB_VAL_BLOB_CHUNK : Z := 26.
Definition LECPCB_VAL_BLOB_END : Z := 27.

(** Modelled from the spec: the return codes of [enum lecp_reasons]; their
    magnitudes are the indices of the messages in [parser_errs]. *)
Definition LECP_CONTINUE : Z := -1.
Definition LECP_REJECT_BAD_CODING : Z := -2.
Definition LECP_REJECT_UNKNOWN : Z := -3.
Definition LECP_REJECT_CALLBACK : Z := -4.
Definition LECP_STACK_OVERFLOW : Z := -5.

(** The sizes of the fixed arrays of [struct lecp_ctx] are compile-time
    constants of the absent header; the model takes them as a parameter.
    [LECP_STRING_CHUNK + 1] is [sizeof(ctx->buf)]. *)
Record lecp_limits := {
  LECP_MAX_DEPTH : Z;
  LECP_MAX_INDEX_DEPTH : Z;
  LECP_MAX_PATH : Z;
  LECP_STRING_CHUNK : Z
}.

(** The defaults of the library, used for concrete runs. *)
Definition lecp_defaults : lecp_limits :=
  {| LECP_MAX_DEPTH := 12; LECP_MAX_INDEX_DEPTH := 8;
     LECP_MAX_PATH := 128; LECP_STRING_CHUNK := 254 |}.

(** ** Machine integers *)

Definition u8 (x : Z) : Z := x mod 256.
Definition u16 (x : Z) : Z := x mod 65536.
Definition u32 (x : Z) : Z := x mod 4294967296.
Definition u64 (x : Z) : Z := x mod 18446744073709551616.

(** The [int64_t] view of the 64 bits [x] of the item union, and back. *)
Definition i64_of_u64 (x : Z) : Z :=
  if x <? 9223372036854775808 then x else x - 18446744073709551616.

(** [(-1ll) - x] on the bits of an [int64_t], as bits again. *)
Definition negate_i64 (x : Z) : Z := u64 (-1 - i64_of_u64 x).

(** The byte of significance [k] of a 64-bit value, and the value after that
    byte has been overwritten with [c]. *)
Definition byte_of (v k : Z) : Z := (v / 2 ^ (8 * k)) mod 256.
Definition store_byte (v k c : Z) : Z := v + (c - byte_of v k) * 2 ^ (8 * k).

(** ** Data *)

Inductive lecp_states :=
| LECP_OPC | LECP_COLLECT | LECP_SIMPLEX8 | LECP_COLLATE | LECP_ONLY_SAME.

Definition lecp_states_eqb (a b : lecp_states) : bool :=
  match a, b with
  | LECP_OPC, LECP_OPC | LECP_COLLECT, LECP_COLLECT
  | LECP_SIMPLEX8, LECP_SIMPLEX8 | LECP_COLLATE, LECP_COLLATE
  | LECP_ONLY_SAME, LECP_ONLY_SAME => true
  | _, _ => false
  end.

(** [struct _lecp_stack]; field [x] of the source is [st_x] here. *)
Record lecp_stack := {
  st_s : lecp_states;
  st_p : Z;
  st_indet : Z;
  st_intermediate : Z;
  st_pop_iss : Z;
  st_tag : Z;
  st_collect_rem : Z;
  st_ordinal : Z;
  st_opcode : Z
}.

(** [struct lecp_ctx].  [cb], [paths], [count_paths] and [ppos] are the
    members of [ctx->pst[ctx->pst_sp]]: [lecp.c] never moves [pst_sp] from 0.
    [item_u64] holds the eight bytes of the union [item.u] as the host reads
    them through [u.u64]; [collect_tgt] is a byte offset into that union.
    [cb] is a function pointer, 0 being the null pointer.  [paths] lists the
    patterns that the array of pointers holds, one per stride, each as its
    characters without the terminator. *)
Record lecp_ctx := {
  user : Z;
  collect_tgt : Z;
  cb : Z;
  paths : list (list Z);
  count_paths : Z;
  ppos : Z;
  st : list lecp_stack;
  i : list Z;
  wild : list Z;
  path : list Z;
  item_u64 : Z;
  item_opcode : Z;
  path_stride : Z;
  npos : Z;
  sp : Z;
  ipos : Z;
  path_match : Z;
  path_match_len : Z;
  wildcount : Z;
  present : Z;
  be : bool;
  buf : list Z
}.

Definition set_st_s (v : lecp_states) (f : lecp_stack) : lecp_stack :=
  {| st_s := v; st_p := st_p f; st_indet := st_indet f; st_intermediate := st_intermediate f; st_pop_iss := st_pop_iss f; st_tag := st_tag f; st_collect_rem := st_collect_rem f; st_ordinal := st_ordinal f; st_opcode := st_opcode f |}.
Definition set_st_p (v : Z) (f : lecp_stack) : lecp_stack :=
  {| st_s := st_s f; st_p := v; st_indet := st_indet f; st_intermediate := st_intermediate f; st_pop_iss := st_pop_iss f; st_tag := st_tag f; st_collect_rem := st_collect_rem f; st_ordinal := st_ordinal f; st_opcode := st_opcode f |}.
Definition set_st_indet (v : Z) (f : lecp_stack) : lecp_stack :=
  {| st_s := st_s f; st_p := st_p f; st_indet := v; st_intermediate := st_intermediate f; st_pop_iss := st_pop_iss f; st_tag := st_tag f; st_collect_rem := st_collect_rem f; st_ordinal := st_ordinal f; st_opcode := st_opcode f |}.
Definition set_st_intermediate (v : Z) (f : lecp_stack) : lecp_stack :=
  {| st_s := st_s f; st_p := st_p f; st_indet := st_indet f; st_intermediate := v; st_pop_iss := st_pop_iss f; st_tag := st_tag f; st_collect_rem := st_collect_rem f; st_ordinal := st_ordinal f; st_opcode := st_opcode f |}.
Definition set_st_pop_iss (v : Z) (f : lecp_stack) : lecp_stack :=
  {| st_s := st_s f; st_p := st_p f; st_indet := st_indet f; st_intermediate := st_intermediate f; st_pop_iss := v; st_tag := st_tag f; st_collect_rem := st_collect_rem f; st_ordinal := st_ordinal f; st_opcode := st_opcode f |}.
Definition set_st_tag (v : Z) (f : lecp_stack) : lecp_stack :=
  {| st_s := st_s f; st_p := st_p f; st_indet := st_indet f; st_intermediate := st_intermediate f; st_pop_iss := st_pop_iss f; st_tag := v; st_collect_rem := st_collect_rem f; st_ordinal := st_ordinal f; st_opcode := st_opcode f |}.
Definition set_st_collect_rem (v : Z) (f : lecp_stack) : lecp_stack :=
  {| st_s := st_s f; st_p := st_p f; st_indet := st_indet f; st_intermediate := st_intermediate f; st_pop_iss := st_pop_iss f; st_tag := st_tag f; st_collect_rem := v; st_ordinal := st_ordinal f; st_opcode := st_opcode f |}.
Definition set_st_ordinal (v : Z) (f : lecp_stack) : lecp_stack :=
  {| st_s := st_s f; st_p := st_p f; st_indet := st_indet f; st_intermediate := st_intermediate f; st_pop_iss := st_pop_iss f; st_tag := st_tag f; st_collect_rem := st_collect_rem f; st_ordinal := v; st_opcode := st_opcode f |}.
Definition set_st_opcode (v : Z) (f : lecp_stack) : lecp_stack :=
  {| st_s := st_s f; st_p := st_p f; st_indet := st_indet f; st_intermediate := st_intermediate f; st_pop_iss := st_pop_iss f; st_tag := st_tag f; st_collect_rem := st_collect_rem f; st_ordinal := st_ordinal f; st_opcode := v |}.

Definition set_user (v : Z) (c : lecp_ctx) : lecp_ctx :=
  {| user := v; collect_tgt := collect_tgt c; cb := cb c; paths := paths c; count_paths := count_paths c; ppos := ppos c; st := st c; i := i c; wild := wild c; path := path c; item_u64 := item_u64 c; item_opcode := item_opcode c; path_stride := path_stride c; npos := npos c; sp := sp c; ipos := ipos c; path_match := path_match c; path_match_len := path_match_len c; wildcount := wildcount c; present := present c; be := be c; buf := buf c |}.
Definition set_collect_tgt (v : Z) (c : lecp_ctx) : lecp_ctx :=
  {| user := user c; collect_tgt := v; cb := cb c; paths := paths c; count_paths := count_paths c; ppos := ppos c; st := st c; i := i c; wild := wild c; path := path c; item_u64 := item_u64 c; item_opcode := item_opcode c; path_stride := path_stride c; npos := npos c; sp := sp c; ipos := ipos c; path_match := path_match c; path_match_len := path_match_len c; wildcount := wildcount c; present := present c; be := be c; buf := buf c |}.
Definition set_cb (v : Z) (c : lecp_ctx) : lecp_ctx :=
  {| user := user c; collect_tgt := collect_tgt c; cb := v; paths := paths c; count_paths := count_paths c; ppos := ppos c; st := st c; i := i c; wild := wild c; path := path c; item_u64 := item_u64 c; item_opcode := item_opcode c; path_stride := path_stride c; npos := npos c; sp := sp c; ipos := ipos c; path_match := path_match c; path_match_len := path_match_len c; wildcount := wildcount c; present := present c; be := be c; buf := buf c |}.
Definition set_paths (v : list (list Z)) (c : lecp_ctx) : lecp_ctx :=
  {| user := user c; collect_tgt := collect_tgt c; cb := cb c; paths := v; count_paths := count_paths c; ppos := ppos c; st := st c; i := i c; wild := wild c; path := path c; item_u64 := item_u64 c; item_opcode := item_opcode c; path_stride := path_stride c; npos := npos c; sp := sp c; ipos := ipos c; path_match := path_match c; path_match_len := path_match_len c; wildcount := wildcount c; present := present c; be := be c; buf := buf c |}.
Definition set_count_paths (v : Z) (c : lecp_ctx) : lecp_ctx :=
  {| user := user c; collect_tgt := collect_tgt c; cb := cb c; paths := paths c; count_paths := v; ppos := ppos c; st := st c; i := i c; wild := wild c; path := path c; item_u64 := item_u64 c; item_opcode := item_opcode c; path_stride := path_stride c; npos := npos c; sp := sp c; ipos := ipos c; path_match := path_match c; path_match_len := path_match_len c; wildcount := wildcount c; present := present c; be := be c; buf := buf c |}.
Definition set_ppos (v : Z) (c : lecp_ctx) : lecp_ctx :=
  {| user := user c; collect_tgt := collect_tgt c; cb := cb c; paths := paths c; count_paths := count_paths c; ppos := v; st := st c; i := i c; wild := wild c; path := path c; item_u64 := item_u64 c; item_opcode := item_opcode c; path_stride := path_stride c; npos := npos c; sp := sp c; ipos := ipos c; path_match := path_match c; path_match_len := path_match_len c; wildcount := wildcount c; present := present c; be := be c; buf := buf c |}.
Definition set_st (v : list lecp_stack) (c : lecp_ctx) : lecp_ctx :=
  {| user := user c; collect_tgt := collect_tgt c; cb := cb c; paths := paths c; count_paths := count_paths c; ppos := ppos c; st := v; i := i c; wild := wild c; path := path c; item_u64 := item_u64 c; item_opcode := item_opcode c; path_stride := path_stride c; npos := npos c; sp := sp c; ipos := ipos c; path_match := path_match c; path_match_len := path_match_len c; wildcount := wildcount c; present := present c; be := be c; buf := buf c |}.
Definition set_i (v : list Z) (c : lecp_ctx) : lecp_ctx :=
  {| user := user c; collect_tgt := collect_tgt c; cb := cb c; paths := paths c; count_paths := count_paths c; ppos := ppos c; st := st c; i := v; wild := wild c; path := path c; item_u64 := item_u64 c; item_opcode := item_opcode c; path_stride := path_stride c; npos := npos c; sp := sp c; ipos := ipos c; path_match := path_match c; path_match_len := path_match_len c; wildcount := wildcount c; present := present c; be := be c; buf := buf c |}.
Definition set_wild (v : list Z) (c : lecp_ctx) : lecp_ctx :=
  {| user := user c; collect_tgt := collect_tgt c; cb := cb c; paths := paths c; count_paths := count_paths c; ppos := ppos c; st := st c; i := i c; wild := v; path := path c; item_u64 := item_u64 c; item_opcode := item_opcode c; path_stride := path_stride c; npos := npos c; sp := sp c; ipos := ipos c; path_match := path_match c; path_match_len := path_match_len c; wildcount := wildcount c; present := present c; be := be c; buf := buf c |}.
Definition set_path (v : list Z) (c : lecp_ctx) : lecp_ctx :=
  {| user := user c; collect_tgt := collect_tgt c; cb := cb c; paths := paths c; count_paths := count_paths c; ppos := ppos c; st := st c; i := i c; wild := wild c; path := v; item_u64 := item_u64 c; item_opcode := item_opcode c; path_stride := path_stride c; npos := npos c; sp := sp c; ipos := ipos c; path_match := path_match c; path_match_len := path_match_len c; wildcount := wildcount c; present := present c; be := be c; buf := buf c |}.
Definition set_item_u64 (v : Z) (c : lecp_ctx) : lecp_ctx :=
  {| user := user c; collect_tgt := collect_tgt c; cb := cb c; paths := paths c; count_paths := count_paths c; ppos := ppos c; st := st c; i := i c; wild := wild c; path := path c; item_u64 := v; item_opcode := item_opcode c; path_stride := path_stride c; npos := npos c; sp := sp c; ipos := ipos c; path_match := path_match c; path_match_len := path_match_len c; wildcount := wildcount c; present := present c; be := be c; buf := buf c |}.
Definition set_item_opcode (v : Z) (c : lecp_ctx) : lecp_ctx :=
  {| user := user c; collect_tgt := collect_tgt c; cb := cb c; paths := paths c; count_paths := count_paths c; ppos := ppos c; st := st c; i := i c; wild := wild c; path := path c; item_u64 := item_u64 c; item_opcode := v; path_stride := path_stride c; npos := npos c; sp := sp c; ipos := ipos c; path_match := path_match c; path_match_len := path_match_len c; wildcount := wildcount c; present := present c; be := be c; buf := buf c |}.
Definition set_path_stride (v : Z) (c : lecp_ctx) : lecp_ctx :=
  {| user := user c; collect_tgt := collect_tgt c; cb := cb c; paths := paths c; count_paths := count_paths c; ppos := ppos c; st := st c; i := i c; wild := wild c; path := path c; item_u64 := item_u64 c; item_opcode := item_opcode c; path_stride := v; npos := npos c; sp := sp c; ipos := ipos c; path_match := path_match c; path_match_len := path_match_len c; wildcount := wildcount c; present := present c; be := be c; buf := buf c |}.
Definition set_npos (v : Z) (c : lecp_ctx) : lecp_ctx :=
  {| user := user c; collect_tgt := collect_tgt c; cb := cb c; paths := paths c; count_paths := count_paths c; ppos := ppos c; st := st c; i := i c; wild := wild c; path := path c; item_u64 := item_u64 c; item_opcode := item_opcode c; path_stride := path_stride c; npos := v; sp := sp c; ipos := ipos c; path_match := path_match c; path_match_len := path_match_len c; wildcount := wildcount c; present := present c; be := be c; buf := buf c |}.
Definition set_sp (v : Z) (c : lecp_ctx) : lecp_ctx :=
  {| user := user c; collect_tgt := collect_tgt c; cb := cb c; paths := paths c; count_paths := count_paths c; ppos := ppos c; st := st c; i := i c; wild := wild c; path := path c; item_u64 := item_u64 c; item_opcode := item_opcode c; path_stride := path_stride c; npos := npos c; sp := v; ipos := ipos c; path_match := path_match c; path_match_len := path_match_len c; wildcount := wildcount c; present := present c; be := be c; buf := buf c |}.
Definition set_ipos (v : Z) (c : lecp_ctx) : lecp_ctx :=
  {| user := user c; collect_tgt := collect_tgt c; cb := cb c; paths := paths c; count_paths := count_paths c; ppos := ppos c; st := st c; i := i c; wild := wild c; path := path c; item_u64 := item_u64 c; item_opcode := item_opcode c; path_stride := path_stride c; npos := npos c; sp := sp c; ipos := v; path_match := path_match c; path_match_len := path_match_len c; wildcount := wildcount c; present := present c; be := be c; buf := buf c |}.
Definition set_path_match (v : Z) (c : lecp_ctx) : lecp_ctx :=
  {| user := user c; collect_tgt := collect_tgt c; cb := cb c; paths := paths c; count_paths := count_paths c; ppos := ppos c; st := st c; i := i c; wild := wild c; path := path c; item_u64 := item_u64 c; item_opcode := item_opcode c; path_stride := path_stride c; npos := npos c; sp := sp c; ipos := ipos c; path_match := v; path_match_len := path_match_len c; wildcount := wildcount c; present := present c; be := be c; buf := buf c |}.
Definition set_path_match_len (v : Z) (c : lecp_ctx) : lecp_ctx :=
  {| user := user c; collect_tgt := collect_tgt c; cb := cb c; paths := paths c; count_paths := count_paths c; ppos := ppos c; st := st c; i := i c; wild := wild c; path := path c; item_u64 := item_u64 c; item_opcode := item_opcode c; path_stride := path_stride c; npos := npos c; sp := sp c; ipos := ipos c; path_match := path_match c; path_match_len := v; wildcount := wildcount c; present := present c; be := be c; buf := buf c |}.
Definition set_wildcount (v : Z) (c : lecp_ctx) : lecp_ctx :=
  {| user := user c; collect_tgt := collect_tgt c; cb := cb c; paths := paths c; count_paths := count_paths c; ppos := ppos c; st := st c; i := i c; wild := wild c; path := path c; item_u64 := item_u64 c; item_opcode := item_opcode c; path_stride := path_stride c; npos := npos c; sp := sp c; ipos := ipos c; path_match := path_match c; path_match_len := path_match_len c; wildcount := v; present := present c; be := be c; buf := buf c |}.
Definition set_present (v : Z) (c : lecp_ctx) : lecp_ctx :=
  {| user := user c; collect_tgt := collect_tgt c; cb := cb c; paths := paths c; count_paths := count_paths c; ppos := ppos c; st := st c; i := i c; wild := wild c; path := path c; item_u64 := item_u64 c; item_opcode := item_opcode c; path_stride := path_stride c; npos := npos c; sp := sp c; ipos := ipos c; path_match := path_match c; path_match_len := path_match_len c; wildcount := wildcount c; present := v; be := be c; buf := buf c |}.
Definition set_be (v : bool) (c : lecp_ctx) : lecp_ctx :=
  {| user := user c; collect_tgt := collect_tgt c; cb := cb c; paths := paths c; count_paths := count_paths c; ppos := ppos c; st := st c; i := i c; wild := wild c; path := path c; item_u64 := item_u64 c; item_opcode := item_opcode c; path_stride := path_stride c; npos := npos c; sp := sp c; ipos := ipos c; path_match := path_match c; path_match_len := path_match_len c; wildcount := wildcount c; present := present c; be := v; buf := buf c |}.
Definition set_buf (v : list Z) (c : lecp_ctx) : lecp_ctx :=
  {| user := user c; collect_tgt := collect_tgt c; cb := cb c; paths := paths c; count_paths := count_paths c; ppos := ppos c; st := st c; i := i c; wild := wild c; path := path c; item_u64 := item_u64 c; item_opcode := item_opcode c; path_stride := path_stride c; npos := npos c; sp := sp c; ipos := ipos c; path_match := path_match c; path_match_len := path_match_len c; wildcount := wildcount c; present := present c; be := be c; buf := v |}.

(** A delivered event: the reason and the context the callback was shown. *)
Definition event : Type := Z * lecp_ctx.

(** What the parser acts on: the context and the events delivered so far. *)
Record world := { ctx : lecp_ctx; log : list event }.

(** A callback sees the context and the reason and answers with a
    [signed char]; what it remembers of earlier calls is a function of the
    events it has been delivered.  It does not write to the context. *)
Definition lecp_callback : Type := list event -> lecp_ctx -> Z -> Z.

Definition reasons (w : world) : list Z := map fst (log w).

(** ** Checked arrays *)

Section Arrays.
Context {A : Type}.

Definition load (l : list A) (n : Z) : option A :=
  if n <? 0 then None else nth_error l (Z.to_nat n).

Fixpoint upd (l : list A) (n : nat) (v : A) : list A :=
  match l, n with
  | [], _ => []
  | _ :: t, O => v :: t
  | h :: t, S n' => h :: upd t n' v
  end.

(** A write outside the array is undefined behaviour: no result. *)
Definition store (l : list A) (n : Z) (v : A) : option (list A) :=
  if (0 <=? n) && (n <? Z.of_nat (length l))
  then Some (upd l (Z.to_nat n) v) else None.
End Arrays.

(** The C string held in a buffer: the characters before the first NUL. *)
Fixpoint cstr (l : list Z) : list Z :=
  match l with
  | [] => []
  | ch :: t => if ch =? 0 then [] else ch :: cstr t
  end.

(** ** The monad of the parser

    A computation reads and writes the world and either yields a value or
    has no result ([None]): a write outside an array, a call through a null
    callback pointer, or a failed [assert]. *)

Definition M (A : Type) : Type := world -> option (A * world).

Definition ret {A} (a : A) : M A := fun w => Some (a, w).

Definition bind {A B} (m : M A) (k : A -> M B) : M B :=
  fun w => match m w with
           | Some (a, w') => k a w'
           | None => None
           end.

Definition crash {A} : M A := fun _ => None.

Declare Scope lecp_scope.
Delimit Scope lecp_scope with lecp.
Notation "x <- m ;; k" := (bind m (fun x => k))
  (at level 61, m at next level, right associativity) : lecp_scope.
Notation "m ;; k" := (bind m (fun _ => k))
  (at level 61, right associativity) : lecp_scope.
Local Open Scope lecp_scope.

Definition getc : M lecp_ctx := fun w => Some (ctx w, w).

Definition modc (g : lecp_ctx -> lecp_ctx) : M unit :=
  fun w => Some (tt, {| ctx := g (ctx w); log := log w |}).

Definition assert (b : bool) : M unit := if b then ret tt else crash.

Definition lift {A} (o : option A) : M A :=
  match o with Some a => ret a | None => crash end.

Definition nonzero (x : Z) : bool := negb (x =? 0).

(** ** lecp.c *)

Section Lecp.

(** The functions that callback pointers designate, and the array sizes. *)
Variable fn : Z -> lecp_callback.
Variable L : lecp_limits.

(** [ctx->pst[ctx->pst_sp].cb(ctx, reason)] *)
Definition call_cb (reason : Z) : M Z :=
  fun w =>
    if cb (ctx w) =? 0 then None
    else Some (fn (cb (ctx w)) (log w) (ctx w) reason,
               {| ctx := ctx w; log := log w ++ [(reason, ctx w)] |}).

(** Reads and writes of the arrays of the context. *)
Definition st_get (n : Z) : M lecp_stack :=
  c <- getc ;; lift (load (st c) n).

Definition st_mod (n : Z) (g : lecp_stack -> lecp_stack) : M unit :=
  c <- getc ;;
  f <- lift (load (st c) n) ;;
  l <- lift (store (st c) n (g f)) ;;
  modc (set_st l).

(** [st], the pointer [&ctx->st[ctx->sp]] *)
Definition top : M lecp_stack := c <- getc ;; st_get (sp c).
Definition top_mod (g : lecp_stack -> lecp_stack) : M unit :=
  c <- getc ;; st_mod (sp c) g.

(** [lwcp_st_parent] *)
Definition lwcp_st_parent : M lecp_stack :=
  c <- getc ;; assert (nonzero (sp c)) ;; st_get (sp c - 1).

Definition path_put (n v : Z) : M unit :=
  c <- getc ;; l <- lift (store (path c) n v) ;; modc (set_path l).

Definition buf_put (n v : Z) : M unit :=
  c <- getc ;; l <- lift (store (buf c) n v) ;; modc (set_buf l).

Definition i_put (n v : Z) : M unit :=
  c <- getc ;; l <- lift (store (i c) n v) ;; modc (set_i l).

(** [memset(ctx, 0, sizeof *ctx - sizeof(ctx->buf))]: everything but
    [buf], which keeps what it held. *)
Definition frame0 : lecp_stack :=
  {| st_s := LECP_OPC; st_p := 0; st_indet := 0; st_intermediate := 0;
     st_pop_iss := 0; st_tag := 0; st_collect_rem := 0; st_ordinal := 0;
     st_opcode := 0 |}.

Definition zeros (n : Z) : list Z := repeat 0 (Z.to_nat n).

Definition memset0 (old_buf : list Z) : lecp_ctx :=
  {| user := 0; collect_tgt := 0; cb := 0; paths := []; count_paths := 0;
     ppos := 0; st := repeat frame0 (Z.to_nat (LECP_MAX_DEPTH L));
     i := zeros (LECP_MAX_INDEX_DEPTH L);
     wild := zeros (LECP_MAX_INDEX_DEPTH L);
     path := zeros (LECP_MAX_PATH L);
     item_u64 := 0; item_opcode := 0; path_stride := 0; npos := 0; sp := 0;
     ipos := 0; path_match := 0; path_match_len := 0; wildcount := 0;
     present := 0; be := false; buf := old_buf |}.

(** [lecp_construct]; [host_be] is what [*((uint8_t * )&x) == 0x12] finds
    on the host, [paths0] the patterns that [paths] points to. *)
Definition lecp_construct (host_be : bool) (cb0 user0 : Z)
           (paths0 : list (list Z)) (count_paths0 : Z) : M unit :=
  c <- getc ;;
  modc (fun _ =>
    set_user user0 (set_cb cb0 (set_paths paths0
      (set_count_paths (u8 count_paths0)
        (set_be host_be (memset0 (buf c))))))) ;;
  st_mod 0 (set_st_s LECP_OPC) ;;
  _ <- call_cb LECPCB_CONSTRUCTED ;;
  ret tt.



(** [ex]: every member of the union [item.u] starts at offset 0, so
    [start] is offset 0 in each call. *)
Definition ex (len : Z) : M unit :=
  top_mod (fun f => set_st_collect_rem (u8 len) (set_st_s LECP_COLLECT f)) ;;
  c <- getc ;;
  modc (set_collect_tgt (if be c then 0 else 0 + len - 1)).

(** *** lecp_check_path_match *)

(** The inner loop [while ( *p && ( *p != '.' || ! *q)) p++]; the cursor
    [p] is the rest of the path string and its offset from [ctx->path]. *)
Fixpoint skip_wild (q_end : bool) (p : list Z) (off : Z) : list Z * Z :=
  match p with
  | pc :: p' =>
      if negb (pc =? 46) || q_end then skip_wild q_end p' (off + 1)
      else (p, off)
  | [] => (p, off)
  end.

Definition at_end (q : list Z) : bool :=
  match q with [] => true | _ :: _ => false end.

(** The loop [while ( *p && *q)] and the test [if ( *p || *q)] after it:
    [true] when both cursors stopped on their terminators. *)
Fixpoint scan (q p : list Z) (off : Z) (c : lecp_ctx)
  : option (bool * lecp_ctx) :=
  match q, p with
  | qc :: q', pc :: p' =>
      if negb (qc =? 42) then
        if negb (pc =? qc) then Some (false, c)
        else scan q' p' (off + 1) c
      else
        match store (wild c) (wildcount c) (u16 off) with
        | None => None
        | Some l =>
            let c' := set_wildcount (u8 (wildcount c + 1)) (set_wild l c) in
            let '(p2, off2) := skip_wild (at_end q') p off in
            scan q' p2 off2 c'
        end
  | [], [] => Some (true, c)
  | _, _ => Some (false, c)
  end.

(** The [for] loop from pattern [n] on, with [k] patterns left to try;
    [true] when it left through the [return]. *)
Fixpoint match_from (k : nat) (n : Z) (c : lecp_ctx)
  : option (bool * lecp_ctx) :=
  match k with
  | O => Some (false, c)
  | S k' =>
      match load (paths c) n with
      | None => None
      | Some q =>
          match scan (cstr q) (cstr (path c)) 0 (set_wildcount 0 c) with
          | None => None
          | Some (true, c1) =>
              Some (true, set_path_match_len (ppos c1)
                            (set_path_match (u8 (n + 1)) c1))
          | Some (false, c1) => match_from k' (n + 1) c1
          end
      end
  end.

Definition check_path_match (c : lecp_ctx) : option lecp_ctx :=
  if nonzero (path_match c) then Some c
  else
    match match_from (Z.to_nat (count_paths c)) 0 c with
    | None => None
    | Some (true, c1) => Some c1
    | Some (false, c1) =>
        Some (if nonzero (path_match c1) then c1 else set_wildcount 0 c1)
    end.

Definition lecp_check_path_match : M unit :=
  c <- getc ;; c' <- lift (check_path_match c) ;; modc (fun _ => c').

(** *** lecp_push, lecp_pop, lwcp_completed *)

Definition lecp_push (s_start s_end : Z) (state : lecp_states) : M Z :=
  c <- getc ;;
  if sp c + 1 =? LECP_MAX_DEPTH L then ret LECP_STACK_OVERFLOW
  else
    r <- (if nonzero s_start then call_cb s_start else ret 0) ;;
    if nonzero r then ret LECP_REJECT_CALLBACK
    else
      top_mod (set_st_pop_iss s_end) ;;
      f <- top ;;
      c1 <- getc ;;
      l <- lift (store (st c1) (sp c1 + 1) f) ;;
      modc (set_st l) ;;
      modc (set_sp (u8 (sp c1 + 1))) ;;
      top_mod (fun f =>
        set_st_ordinal 0 (set_st_indet 0 (set_st_intermediate 0
          (set_st_collect_rem 0 (set_st_s state f))))) ;;
      ret 0.

Definition lecp_pop : M Z :=
  c <- getc ;;
  assert (nonzero (sp c)) ;;
  modc (set_sp (u8 (sp c - 1))) ;;
  f <- top ;;
  (if st_pop_iss f =? LECPCB_ARRAY_END then
     c1 <- getc ;;
     assert (nonzero (ipos c1)) ;;
     modc (set_ipos (u8 (ipos c1 - 1)))
   else ret tt) ;;
  modc (set_ppos (st_p f)) ;;
  path_put (st_p f) 0 ;;
  lecp_check_path_match ;;
  r <- (if nonzero (st_pop_iss f) then call_cb (st_pop_iss f) else ret 0) ;;
  if nonzero r then ret LECP_REJECT_CALLBACK else ret 0.

(** The [while (ctx->sp)] loop of [lwcp_completed].  [n] is the value of
    [ctx->sp] on entry: an iteration that does not leave the loop goes
    through [lecp_pop], which takes one off [ctx->sp]. *)
Fixpoint completed_walk (n : nat) (il indet : Z) : M Z :=
  match n with
  | O => ret 0
  | S n' =>
      c <- getc ;;
      parent <- lwcp_st_parent ;;
      st_mod (sp c - 1) (set_st_ordinal (u32 (st_ordinal parent + 1))) ;;
      il1 <- (if st_opcode parent =? LWS_CBOR_MAJTYP_ARRAY then
                assert (nonzero il) ;;
                c1 <- getc ;;
                v <- lift (load (i c1) (il - 1)) ;;
                i_put (il - 1) (u16 (v + 1)) ;;
                ret (il - 1)
              else ret il) ;;
      if negb (nonzero indet) && nonzero (st_indet parent) then ret 0
      else
        stop <- (if negb (nonzero (st_indet parent))
                    && nonzero (st_collect_rem parent) then
                   st_mod (sp c - 1)
                     (set_st_collect_rem (u64 (st_collect_rem parent - 1))) ;;
                   ret (nonzero (u64 (st_collect_rem parent - 1)))
                 else ret false) ;;
        if stop : bool then ret 0
        else
          st_mod (sp c - 1) (set_st_s LECP_OPC) ;;
          r <- lecp_pop ;;
          if nonzero r then ret r
          else completed_walk n' il1 0
  end.

Definition lwcp_completed (indet : Z) : M Z :=
  c <- getc ;;
  top_mod (set_st_s LECP_OPC) ;;
  completed_walk (Z.to_nat (sp c)) (ipos c) indet.

Definition is_string_opcode (o : Z) : bool :=
  (o =? LWS_CBOR_MAJTYP_BSTR) || (o =? LWS_CBOR_MAJTYP_TSTR).

Definition lwcp_is_indet_string : M bool :=
  f <- top ;;
  if nonzero (st_indet f) then ret true
  else
    c <- getc ;;
    if negb (nonzero (sp c)) then ret false
    else
      parent <- lwcp_st_parent ;;
      if negb (is_string_opcode (st_opcode parent)) then ret false
      else ret (nonzero (st_indet parent)).

(** *** lecp_parse *)

(** How one turn of the [while (len--)] loop ends: with [continue] (or by
    running off the end of the body), or with a [return]. *)
Inductive flow := Next | Return (r : Z).

(** The labels [reject_overflow], [bad_coding] and [reject_callback] set
    [ret] and meet at [reject]. *)
Definition reject (r : Z) : M flow :=
  _ <- call_cb LECPCB_FAILED ;; ret (Return r).

Definition start_tag_enclosure : M flow :=
  c <- getc ;;
  top_mod (set_st_p (ppos c)) ;;
  r <- lecp_push LECPCB_TAG_START LECPCB_TAG_END LECP_OPC ;;
  if nonzero r then ret (Return r) else ret Next.

Definition issue : M flow :=
  c <- getc ;;
  if item_opcode c =? LWS_CBOR_MAJTYP_TAG then
    top_mod (set_st_tag (item_u64 c)) ;;
    start_tag_enclosure
  else
    r <- call_cb (present c) ;;
    if nonzero r then reject LECP_REJECT_CALLBACK
    else _ <- lwcp_completed 0 ;; ret Next.

Definition i2 (sm : Z) : M flow :=
  if sm >=? LWS_CBOR_RESERVED then reject LECP_REJECT_BAD_CODING
  else
    modc (set_item_u64 0) ;;
    ex (u8 (Z.shiftl 1 (sm - LWS_CBOR_1))) ;;
    ret Next.

Definition clear_buf : M unit :=
  modc (set_npos 0) ;; buf_put 0 0.

(** [case LWS_CBOR_MAJTYP_BSTR] falling into [case LWS_CBOR_MAJTYP_TSTR];
    [to] is [LECPCB_VAL_BLOB_END - LECPCB_VAL_STR_END] or 0. *)
Definition opc_string (sm to : Z) : M flow :=
  clear_buf ;;
  c <- getc ;;
  fresh <- (if negb (nonzero (sp c)) then ret true
            else parent <- st_get (sp c - 1) ;;
                 ret (negb (nonzero (st_intermediate parent)))) ;;
  r <- (if fresh : bool then call_cb (LECPCB_VAL_STR_START + to)
        else ret 0) ;;
  if nonzero r then reject LECP_REJECT_CALLBACK
  else if negb (nonzero sm) then
    r <- call_cb (LECPCB_VAL_STR_END + to) ;;
    if nonzero r then reject LECP_REJECT_CALLBACK
    else _ <- lwcp_completed 0 ;; ret Next
  else if sm <? LWS_CBOR_1 then
    top_mod (fun f =>
      set_st_s LECP_COLLATE (set_st_collect_rem sm (set_st_indet 0 f))) ;;
    ret Next
  else if sm <? LWS_CBOR_RESERVED then i2 sm
  else if nonzero (sm - LWS_CBOR_INDETERMINITE) then
    reject LECP_REJECT_BAD_CODING
  else
    top_mod (fun f => set_st_p (ppos c) (set_st_indet 1 f)) ;;
    _ <- lecp_push 0 (LECPCB_VAL_STR_END + to) LECP_ONLY_SAME ;;
    ret Next.

Definition opc_array (sm : Z) : M flow :=
  clear_buf ;;
  c <- getc ;;
  if ppos c + 3 >=? LECP_MAX_PATH L then reject LECP_STACK_OVERFLOW
  else
    top_mod (set_st_p (ppos c)) ;;
    path_put (ppos c) 91 ;;
    path_put (u8 (ppos c + 1)) 93 ;;
    modc (set_ppos (u8 (ppos c + 2))) ;;
    path_put (u8 (ppos c + 2)) 0 ;;
    lecp_check_path_match ;;
    c1 <- getc ;;
    if ipos c1 + 1 >=? LECP_MAX_INDEX_DEPTH L then
      reject LECP_STACK_OVERFLOW
    else
      i_put (ipos c1) 0 ;;
      modc (set_ipos (u8 (ipos c1 + 1))) ;;
      r <- call_cb LECPCB_ARRAY_START ;;
      if nonzero r then reject LECP_REJECT_CALLBACK
      else if negb (nonzero sm) then
        r <- call_cb LECPCB_ARRAY_END ;;
        if nonzero r then reject LECP_REJECT_CALLBACK
        else
          f <- top ;;
          modc (set_ppos (st_p f)) ;;
          path_put (st_p f) 0 ;;
          c2 <- getc ;;
          modc (set_ipos (u8 (ipos c2 - 1))) ;;
          lecp_check_path_match ;;
          _ <- lwcp_completed 0 ;;
          ret Next
      else if sm <? LWS_CBOR_1 then
        top_mod (fun f => set_st_collect_rem sm (set_st_indet 0 f)) ;;
        _ <- lecp_push 0 LECPCB_ARRAY_END LECP_OPC ;;
        ret Next
      else if sm <? LWS_CBOR_RESERVED then i2 sm
      else if nonzero (sm - LWS_CBOR_INDETERMINITE) then
        reject LECP_REJECT_BAD_CODING
      else
        top_mod (set_st_indet 1) ;;
        _ <- lecp_push 0 LECPCB_ARRAY_END LECP_OPC ;;
        ret Next.

Definition opc_map (sm : Z) : M flow :=
  clear_buf ;;
  c <- getc ;;
  if ppos c + 1 >=? LECP_MAX_PATH L then reject LECP_STACK_OVERFLOW
  else
    top_mod (set_st_p (ppos c)) ;;
    path_put (ppos c) 46 ;;
    modc (set_ppos (u8 (ppos c + 1))) ;;
    path_put (u8 (ppos c + 1)) 0 ;;
    lecp_check_path_match ;;
    r <- call_cb LECPCB_OBJECT_START ;;
    if nonzero r then reject LECP_REJECT_CALLBACK
    else if negb (nonzero sm) then
      r <- call_cb LECPCB_OBJECT_END ;;
      if nonzero r then reject LECP_REJECT_CALLBACK
      else
        f <- top ;;
        modc (set_ppos (st_p f)) ;;
        path_put (st_p f) 0 ;;
        lecp_check_path_match ;;
        _ <- lwcp_completed 0 ;;
        ret Next
    else if sm <? LWS_CBOR_1 then
      top_mod (fun f => set_st_collect_rem (u64 (sm * 2)) (set_st_indet 0 f)) ;;
      _ <- lecp_push 0 LECPCB_OBJECT_END LECP_OPC ;;
      ret Next
    else if sm <? LWS_CBOR_RESERVED then i2 sm
    else if nonzero (sm - LWS_CBOR_INDETERMINITE) then
      reject LECP_REJECT_BAD_CODING
    else
      top_mod (set_st_indet 1) ;;
      _ <- lecp_push 0 LECPCB_OBJECT_END LECP_OPC ;;
      ret Next.

Definition opc_float (sm : Z) : M flow :=
  if sm =? LWS_CBOR_SWK_FALSE then
    modc (set_present LECPCB_VAL_FALSE) ;; issue
  else if sm =? LWS_CBOR_SWK_TRUE then
    modc (set_present LECPCB_VAL_TRUE) ;; issue
  else if sm =? LWS_CBOR_SWK_NULL then
    modc (set_present LECPCB_VAL_NULL) ;; issue
  else if sm =? LWS_CBOR_SWK_UNDEFINED then
    modc (set_present LECPCB_VAL_UNDEFINED) ;; issue
  else if sm =? LWS_CBOR_M7_SUBTYP_SIMPLE_X8 then
    top_mod (set_st_s LECP_SIMPLEX8) ;; ret Next
  else if sm =? LWS_CBOR_M7_SUBTYP_FLOAT16 then
    modc (set_present LECPCB_VAL_FLOAT16) ;; ex 2 ;; ret Next
  else if sm =? LWS_CBOR_M7_SUBTYP_FLOAT32 then
    modc (set_present LECPCB_VAL_FLOAT32) ;; ex 4 ;; ret Next
  else if sm =? LWS_CBOR_M7_SUBTYP_FLOAT64 then
    modc (set_present LECPCB_VAL_FLOAT64) ;; ex 8 ;; ret Next
  else if sm =? LWS_CBOR_M7_BREAK then
    c <- getc ;;
    bad <- (if negb (nonzero (sp c)) then ret true
            else parent <- st_get (sp c - 1) ;;
                 ret (negb (nonzero (st_indet parent)))) ;;
    if bad : bool then reject LECP_REJECT_BAD_CODING
    else _ <- lwcp_completed 1 ;; ret Next
  else
    modc (set_item_u64 sm) ;;
    r <- call_cb LECPCB_VAL_SIMPLE ;;
    if nonzero r then reject LECP_REJECT_CALLBACK else ret Next.

(** [case LECP_OPC] *)
Definition parse_opc (ch : Z) : M flow :=
  let opcode := Z.land ch LWS_CBOR_MAJTYP_MASK in
  let sm := Z.land ch LWS_CBOR_SUBMASK in
  modc (set_item_opcode opcode) ;;
  top_mod (set_st_opcode opcode) ;;
  if opcode =? LWS_CBOR_MAJTYP_UINT then
    modc (set_present LECPCB_VAL_NUM_UINT) ;;
    if sm <? LWS_CBOR_1 then modc (set_item_u64 sm) ;; issue
    else i2 sm
  else if opcode =? LWS_CBOR_MAJTYP_INT_NEG then
    modc (set_present LECPCB_VAL_NUM_INT) ;;
    if sm <? 24 then modc (set_item_u64 (negate_i64 sm)) ;; issue
    else i2 sm
  else if opcode =? LWS_CBOR_MAJTYP_BSTR then
    opc_string sm (LECPCB_VAL_BLOB_END - LECPCB_VAL_STR_END)
  else if opcode =? LWS_CBOR_MAJTYP_TSTR then opc_string sm 0
  else if opcode =? LWS_CBOR_MAJTYP_ARRAY then opc_array sm
  else if opcode =? LWS_CBOR_MAJTYP_MAP then opc_map sm
  else if opcode =? LWS_CBOR_MAJTYP_TAG then
    if sm <? LWS_CBOR_1 then
      top_mod (set_st_tag sm) ;;
      modc (set_item_u64 sm) ;;
      start_tag_enclosure
    else i2 sm
  else if opcode =? LWS_CBOR_MAJTYP_FLOAT then opc_float sm
  else ret Next.

(** [case LECP_COLLECT]; byte offset [collect_tgt] of the union is the
    byte of that significance on a little-endian host, of significance
    [7 - collect_tgt] on a big-endian one. *)
Definition parse_collect (ch : Z) : M flow :=
  c <- getc ;;
  assert ((0 <=? collect_tgt c) && (collect_tgt c <? 8)) ;;
  modc (set_item_u64
          (store_byte (item_u64 c)
             (if be c then 7 - collect_tgt c else collect_tgt c) ch)) ;;
  modc (set_collect_tgt
          (if be c then collect_tgt c + 1 else collect_tgt c - 1)) ;;
  f <- top ;;
  top_mod (set_st_collect_rem (u64 (st_collect_rem f - 1))) ;;
  if nonzero (u64 (st_collect_rem f - 1)) then ret Next
  else
    clear_buf ;;
    c1 <- getc ;;
    if is_string_opcode (st_opcode f) then
      top_mod (fun f =>
        set_st_s LECP_COLLATE (set_st_collect_rem (item_u64 c1) f)) ;;
      ret Next
    else if st_opcode f =? LWS_CBOR_MAJTYP_ARRAY then
      top_mod (set_st_collect_rem (item_u64 c1)) ;;
      _ <- lecp_push 0 LECPCB_ARRAY_END LECP_OPC ;;
      ret Next
    else if st_opcode f =? LWS_CBOR_MAJTYP_MAP then
      top_mod (set_st_collect_rem (u64 (item_u64 c1 * 2))) ;;
      _ <- lecp_push 0 LECPCB_OBJECT_END LECP_OPC ;;
      ret Next
    else if st_opcode f =? LWS_CBOR_MAJTYP_TAG then
      top_mod (set_st_tag (item_u64 c1)) ;;
      start_tag_enclosure
    else
      (if st_opcode f =? LWS_CBOR_MAJTYP_INT_NEG then
         modc (set_item_u64 (negate_i64 (item_u64 c1)))
       else ret tt) ;;
      issue.

(** [case LECP_SIMPLEX8] *)
Definition parse_simplex8 (ch : Z) : M flow :=
  if ch <=? LWS_CBOR_INDETERMINITE then reject LECP_REJECT_BAD_CODING
  else
    modc (set_item_u64 ch) ;;
    r <- call_cb LECPCB_VAL_SIMPLE ;;
    if nonzero r then reject LECP_REJECT_CALLBACK
    else _ <- lwcp_completed 0 ;; ret Next.

(** [memcpy(&ctx->path[pst->ppos], ctx->buf, n)] *)
Fixpoint copy_to_path (n : nat) (dst src : Z) : M unit :=
  match n with
  | O => ret tt
  | S n' =>
      c <- getc ;;
      v <- lift (load (buf c) src) ;;
      path_put dst v ;;
      copy_to_path n' (dst + 1) (src + 1)
  end.

(** [case LECP_COLLATE] *)
Definition parse_collate (ch : Z) : M flow :=
  c <- getc ;;
  buf_put (npos c) ch ;;
  modc (set_npos (u8 (npos c + 1))) ;;
  f <- top ;;
  (if nonzero (st_collect_rem f) then
     top_mod (set_st_collect_rem (u64 (st_collect_rem f - 1)))
   else ret tt) ;;
  f1 <- top ;;
  if negb (u8 (npos c + 1) =? (LECP_STRING_CHUNK L + 1) - 1)
     && nonzero (st_collect_rem f1) then ret Next
  else
    buf_put (u8 (npos c + 1)) 0 ;;
    key <- (if nonzero (sp c) then
              parent <- lwcp_st_parent ;;
              ret ((st_opcode parent =? LWS_CBOR_MAJTYP_MAP)
                   && negb (nonzero (Z.land (st_ordinal parent) 1)))
            else ret false) ;;
    over <- (if key : bool then
               parent <- lwcp_st_parent ;;
               (if nonzero (st_ordinal parent) then
                  modc (set_ppos (st_p f1))
                else ret tt) ;;
               c1 <- getc ;;
               top_mod (set_st_p (ppos c1)) ;;
               if ppos c1 + npos c1 >? LECP_MAX_PATH L then ret true
               else
                 copy_to_path (Z.to_nat (npos c1 + 1)) (ppos c1) 0 ;;
                 modc (set_ppos (u8 (ppos c1 + npos c1))) ;;
                 lecp_check_path_match ;;
                 ret false
             else ret false) ;;
    if over : bool then reject LECP_STACK_OVERFLOW
    else
      c2 <- getc ;;
      let to := if item_opcode c2 =? LWS_CBOR_MAJTYP_BSTR
                then LECPCB_VAL_BLOB_END - LECPCB_VAL_STR_END else 0 in
      more <- (if nonzero (st_collect_rem f1) then ret true
               else lwcp_is_indet_string) ;;
      (if nonzero (sp c2) then
         st_mod (sp c2 - 1)
           (set_st_intermediate (if more : bool then 1 else 0))
       else ret tt) ;;
      let o := if more : bool then u8 (u8 (LECPCB_VAL_STR_END + to) - 1)
               else u8 (LECPCB_VAL_STR_END + to) in
      r <- call_cb o ;;
      if nonzero r then reject LECP_REJECT_CALLBACK
      else
        clear_buf ;;
        top_mod (set_st_s LECP_OPC) ;;
        if o =? LECPCB_VAL_STR_END + to then
          _ <- lwcp_completed 0 ;; ret Next
        else ret Next.

(** [case LECP_ONLY_SAME] *)
Definition parse_only_same (ch : Z) : M flow :=
  c <- getc ;;
  assert (nonzero (sp c)) ;;
  if ch =? Z.lor LWS_CBOR_MAJTYP_FLOAT LWS_CBOR_M7_BREAK then
    parent <- st_get (sp c - 1) ;;
    if negb (nonzero (st_indet parent)) then reject LECP_REJECT_BAD_CODING
    else
      r <- lwcp_completed 1 ;;
      if nonzero r then reject LECP_REJECT_CALLBACK else ret Next
  else
    f <- top ;;
    parent <- lwcp_st_parent ;;
    if negb (st_opcode f =? st_opcode parent) then
      reject LECP_REJECT_BAD_CODING
    else
      let sm := Z.land ch LWS_CBOR_SUBMASK in
      if sm =? LWS_CBOR_INDETERMINITE then reject LECP_REJECT_BAD_CODING
      else if sm <? LWS_CBOR_1 then
        top_mod (fun f =>
          set_st_s LECP_COLLATE (set_st_collect_rem sm (set_st_indet 0 f))) ;;
        ret Next
      else if sm >=? LWS_CBOR_RESERVED then reject LECP_REJECT_BAD_CODING
      else i2 sm.

(** The body of the loop: [switch (st->s)] on the frame on top. *)
Definition parse_byte (ch : Z) : M flow :=
  f <- top ;;
  match st_s f with
  | LECP_OPC => parse_opc ch
  | LECP_COLLECT => parse_collect ch
  | LECP_SIMPLEX8 => parse_simplex8 ch
  | LECP_COLLATE => parse_collate ch
  | LECP_ONLY_SAME => parse_only_same ch
  end.

(** After the loop: 0 when the stack is empty and the frame expects a head
    byte, [LECP_CONTINUE] otherwise. *)
Definition parse_end : M Z :=
  c <- getc ;;
  if negb (nonzero (sp c)) then
    f <- st_get 0 ;;
    if lecp_states_eqb (st_s f) LECP_OPC then ret 0 else ret LECP_CONTINUE
  else ret LECP_CONTINUE.

Fixpoint lecp_parse (cbor : list Z) : M Z :=
  match cbor with
  | [] => parse_end
  | ch :: rest =>
      fl <- parse_byte ch ;;
      match fl with
      | Next => lecp_parse rest
      | Return r => ret r
      end
  end.

End Lecp.

(** ** Driving the parser *)

(** The return codes below [LECP_CONTINUE] are the errors. *)
Definition is_error (r : Z) : bool := r <? LECP_CONTINUE.

(** A caller feeding a document in several calls of [lecp_parse], the first
    chunk [cbor] and then those of [more]: it goes on to the next chunk
    while the parser answers 0 or [LECP_CONTINUE], and stops at an error,
    after which the context may not be fed again. *)
Fixpoint feed_chunks (fn : Z -> lecp_callback) (L : lecp_limits)
         (cbor : list Z) (more : list (list Z)) : M Z :=
  fun w =>
    match lecp_parse fn L cbor w with
    | None => None
    | Some (r, w') =>
        match more with
        | [] => Some (r, w')
        | next :: more' =>
            if is_error r then Some (r, w')
            else feed_chunks fn L next more' w'
        end
    end.

(** A caller that feeds every chunk whatever the parser answered. *)
Fixpoint feed_all (fn : Z -> lecp_callback) (L : lecp_limits)
         (cbor : list Z) (more : list (list Z)) : M Z :=
  fun w =>
    match lecp_parse fn L cbor w with
    | None => None
    | Some (r, w') =>
        match more with
        | [] => Some (r, w')
        | next :: more' => feed_all fn L next more' w'
        end
    end.

(** The memory a context is constructed in, a callback that accepts every
    event, one that refuses the events of one reason, and a run of the
    parser on a context constructed in that memory with callback pointer 1,
    on a little-endian host. *)
Definition blank (L : lecp_limits) : world :=
  {| ctx := memset0 L (zeros (LECP_STRING_CHUNK L + 1)); log := [] |}.

Definition accept_all : Z -> lecp_callback := fun _ _ _ _ => 0.

Definition refuse (reason : Z) : Z -> lecp_callback :=
  fun _ _ _ r => if r =? reason then 1 else 0.

Definition constructed (fn : Z -> lecp_callback) (L : lecp_limits)
           (host_be : bool) (paths0 : list (list Z)) : option world :=
  match lecp_construct fn L host_be 1 0 paths0 (Z.of_nat (length paths0))
                       (blank L) with
  | Some (_, w) => Some w
  | None => None
  end.

Definition feed (fn : Z -> lecp_callback) (L : lecp_limits)
           (paths0 : list (list Z)) (cbor : list Z) : option (Z * world) :=
  match constructed fn L false paths0 with
  | Some w => lecp_parse fn L cbor w
  | None => None
  end.

(** The return code and the reasons of the events delivered, in order. *)
Definition summary (o : option (Z * world)) : option (Z * list Z) :=
  match o with
  | Some (r, w) => Some (r, reasons w)
  | None => None
  end.



(** ** What a computation can return *)

Definition yields {A} (m : M A) (P : A -> Prop) : Prop :=
  forall w a w', m w = Some (a, w') -> P a.

Lemma yields_ret {A} (a : A) (P : A -> Prop) : P a -> yields (ret a) P.
Proof. intros H w a' w' E. inversion E; subst; exact H. Qed.

Lemma yields_bind {A B} (m : M A) (k : A -> M B) (P : A -> Prop)
      (Q : B -> Prop) :
  yields m P -> (forall a, P a -> yields (k a) Q) -> yields (bind m k) Q.
Proof.
  intros Hm Hk w b w' E. unfold bind in E.
  destruct (m w) as [[a w1]|] eqn:Em; [|discriminate].
  exact (Hk a (Hm _ _ _ Em) _ _ _ E).
Qed.

Lemma yields_tail {A B} (m : M A) (k : A -> M B) (Q : B -> Prop) :
  (forall a, yields (k a) Q) -> yields (bind m k) Q.
Proof.
  intros Hk. apply (yields_bind m k (fun _ => True)).
  - intros w a w' _. exact I.
  - intros a _. apply Hk.
Qed.

Definition flow_ok (fl : flow) : Prop :=
  match fl with
  | Next => True
  | Return r => is_error r = true
  end.

Definition code_ok (r : Z) : Prop := r = 0 \/ is_error r = true.

Ltac ystep :=
  cbv beta zeta;
  match goal with
  | |- yields (ret _) _ => apply yields_ret; try exact I; try reflexivity
  | |- yields (bind _ _) _ => apply yields_tail; intros
  | |- yields (if ?b then _ else _) _ => destruct b
  end.

Section ReturnCodes.
Variable fn : Z -> lecp_callback.
Variable L : lecp_limits.

Lemma reject_flow r : is_error r = true -> yields (reject fn r) flow_ok.
Proof. intros H. unfold reject. ystep. ystep. exact H. Qed.

Lemma lecp_push_code s_start s_end state :
  yields (lecp_push fn L s_start s_end state) code_ok.
Proof.
  unfold lecp_push. repeat ystep; try (right; reflexivity); left; reflexivity.
Qed.

Lemma start_tag_enclosure_flow : yields (start_tag_enclosure fn L) flow_ok.
Proof.
  unfold start_tag_enclosure. ystep. ystep.
  eapply yields_bind; [apply lecp_push_code|].
  intros r Hr. destruct (nonzero r) eqn:E; ystep.
  destruct Hr as [->|Hr]; [discriminate E|exact Hr].
Qed.

Lemma issue_flow : yields (issue fn L) flow_ok.
Proof.
  unfold issue. ystep. ystep.
  - ystep. apply start_tag_enclosure_flow.
  - ystep. ystep; [apply reject_flow; reflexivity|]. ystep. ystep.
Qed.

Lemma i2_flow sm : yields (i2 fn sm) flow_ok.
Proof.
  unfold i2. ystep; [apply reject_flow; reflexivity|]. repeat ystep.
Qed.

Ltac yflow :=
  repeat first
    [ apply reject_flow; reflexivity
    | apply issue_flow
    | apply i2_flow
    | apply start_tag_enclosure_flow
    | ystep ].

Lemma parse_byte_flow ch : yields (parse_byte fn L ch) flow_ok.
Proof.
  unfold parse_byte. ystep. destruct (st_s a).
  - unfold parse_opc, opc_string, opc_array, opc_map, opc_float. yflow.
  - unfold parse_collect. yflow.
  - unfold parse_simplex8. yflow.
  - unfold parse_collate. yflow.
  - unfold parse_only_same. yflow.
Qed.

(** [lecp_parse] returns from inside its loop with an error only, and
    from the end of the loop with 0 or [LECP_CONTINUE] and the world as
    the last byte left it. *)
Lemma parse_end_spec w :
  match parse_end w with
  | Some (r, w') => w' = w /\ is_error r = false
  | None => forall ch, parse_byte fn L ch w = None
  end.
Proof.
  unfold parse_end, parse_byte, top, st_get, bind, getc, lift, ret, crash.
  destruct (nonzero (sp (ctx w))) eqn:Hsp; cbn [negb].
  - split; reflexivity.
  - unfold nonzero in Hsp. apply negb_false_iff, Z.eqb_eq in Hsp.
    rewrite Hsp. destruct (load (st (ctx w)) 0) as [f|].
    + destruct (lecp_states_eqb (st_s f) LECP_OPC); split; reflexivity.
    + reflexivity.
Qed.

Lemma lecp_parse_app a b w :
  lecp_parse fn L (a ++ b) w =
  match lecp_parse fn L a w with
  | Some (r, w') => if is_error r then Some (r, w') else lecp_parse fn L b w'
  | None => None
  end.
Proof.
  revert w. induction a as [|ch a IH]; intros w; cbn [app lecp_parse].
  - pose proof (parse_end_spec w) as H.
    destruct (parse_end w) as [[r w']|] eqn:E.
    + destruct H as [-> ->]. reflexivity.
    + destruct b as [|ch b]; cbn [lecp_parse]; [exact E|].
      unfold bind. rewrite H. reflexivity.
  - unfold bind. pose proof (parse_byte_flow ch w) as H.
    destruct (parse_byte fn L ch w) as [[[|r] w1]|]; [apply IH| |reflexivity].
    specialize (H _ _ eq_refl). cbn in H. unfold ret. rewrite H. reflexivity.
Qed.

End ReturnCodes.

(** A run that does not end in an error fed every chunk: stopping at an
    error or not makes no difference to it. *)
Lemma feed_all_feed_chunks fn L more : forall cbor w,
  (forall r w', lecp_parse fn L (cbor ++ concat more) w = Some (r, w') ->
                is_error r = false) ->
  feed_all fn L cbor more w = feed_chunks fn L cbor more w.
Proof.
  induction more as [|next more IH]; intros cbor w Hok;
    cbn [feed_all feed_chunks]; [reflexivity|].
  cbn [concat] in Hok. rewrite lecp_parse_app in Hok.
  destruct (lecp_parse fn L cbor w) as [[r w']|]; [|reflexivity].
  destruct (is_error r) eqn:E.
  - rewrite (Hok r w' eq_refl) in E. discriminate E.
  - apply IH. exact Hok.
Qed.

(** C5.  Feeding a byte sequence in consecutive chunks, through successive
    calls of [lecp_parse] on the same context, delivers the same events to
    the callback and ends with the same return code as feeding the whole
    sequence in one call: the two runs end in the same return code and the
    same world (the context and the events delivered), whatever the context,
    the callback, the bytes and the way they are cut into chunks.  This
    holds for the caller that stops at the first error, after which a
    context may not be fed; and for the caller that feeds every chunk
    whenever the sequence fed in one call does not end in an error. *)
Theorem C5_chunking_is_transparent :
  forall fn L (cbor : list Z) (more : list (list Z)) (w : world),
    feed_chunks fn L cbor more w = lecp_parse fn L (cbor ++ concat more) w
    /\ ((forall r w', lecp_parse fn L (cbor ++ concat more) w = Some (r, w') ->
                      is_error r = false) ->
        feed_all fn L cbor more w = lecp_parse fn L (cbor ++ concat more) w).
Proof.
  intros fn L cbor more.
  assert (Hstop : forall cbor w,
             feed_chunks fn L cbor more w
             = lecp_parse fn L (cbor ++ concat more) w).
  { induction more as [|next more IH]; intros cbor0 w; cbn [feed_chunks concat].
    - rewrite app_nil_r.
      destruct (lecp_parse fn L cbor0 w) as [[r w']|]; reflexivity.
    - rewrite lecp_parse_app.
      destruct (lecp_parse fn L cbor0 w) as [[r w']|]; [|reflexivity].
      destruct (is_error r); [reflexivity|apply IH]. }
  intros w. split; [apply Hstop|].
  intros Hok. rewrite feed_all_feed_chunks by exact Hok. apply Hstop.
Qed.

(** A freshly constructed context: default sizes, no patterns, a callback
    that accepts every event. *)
Definition fresh : world :=
  match constructed accept_all lecp_defaults false [] with
  | Some w => w
  | None => blank lecp_defaults
  end.

(** The map [{"a": 1, "b": [2, 3]}] fed one byte at a time, every byte in a
    call of its own, and in one call. *)
Lemma C5_witness :
  feed_all accept_all lecp_defaults [162]
           [[97]; [97]; [1]; [97]; [98]; [130]; [2]; [3]] fresh
  = lecp_parse accept_all lecp_defaults
               ([162] ++ concat [[97]; [97]; [1]; [97]; [98]; [130]; [2]; [3]])
               fresh.
Proof.
  refine (proj2 (C5_chunking_is_transparent accept_all lecp_defaults [162]
                   [[97]; [97]; [1]; [97]; [98]; [130]; [2]; [3]] fresh) _).
  intros r w' H. vm_compute in H. injection H as <- _. reflexivity.
Defined.

(** ** Runs on concrete documents *)

(** C1.  Not every reject path delivers FAILED before it returns:
    [start_tag_enclosure] returns the code of [lecp_push] directly.  A tag
    head byte [0xC0] whose TAG_START event the callback refuses makes
    [lecp_parse] return [LECP_REJECT_CALLBACK], and twelve nested tags make
    it return [LECP_STACK_OVERFLOW], in both runs without a FAILED event;
    the reserved head byte [0x1C], which leaves through the [reject] label,
    does deliver FAILED. *)
Theorem C1_tag_enclosure_returns_without_FAILED :
  summary (feed (refuse LECPCB_TAG_START) lecp_defaults [] [192])
  = Some (LECP_REJECT_CALLBACK, [LECPCB_CONSTRUCTED; LECPCB_TAG_START])
  /\ summary (feed accept_all lecp_defaults [] (repeat 192 12))
     = Some (LECP_STACK_OVERFLOW,
             LECPCB_CONSTRUCTED :: repeat LECPCB_TAG_START 11)
  /\ summary (feed accept_all lecp_defaults [] [28])
     = Some (LECP_REJECT_BAD_CODING, [LECPCB_CONSTRUCTED; LECPCB_FAILED]).
Proof. repeat split; vm_compute; reflexivity. Qed.

(** C3.  Inside an indefinite-length byte string ([0x5F]) the head of a
    chunk of another major type is not refused.  The first inner head is
    compared through the opcode the child frame copied from its parent, so
    the text-string head [0x61] is taken as a one-byte chunk and delivered
    as VAL_BLOB_CHUNK; after a first chunk the frame is back in [LECP_OPC],
    where the unsigned integer [0x00] is delivered as VAL_NUM_UINT, a text
    chunk as VAL_STR_CHUNK, and a nested indefinite head [0x5F] is accepted.
    None of these runs fails with [LECP_REJECT_BAD_CODING]. *)
Theorem C3_foreign_chunk_heads_are_accepted :
  summary (feed accept_all lecp_defaults [] [95; 97; 97])
  = Some (LECP_CONTINUE,
          [LECPCB_CONSTRUCTED; LECPCB_VAL_BLOB_START; LECPCB_VAL_BLOB_CHUNK])
  /\ summary (feed accept_all lecp_defaults [] [95; 65; 1; 0])
     = Some (LECP_CONTINUE,
             [LECPCB_CONSTRUCTED; LECPCB_VAL_BLOB_START; LECPCB_VAL_BLOB_CHUNK;
              LECPCB_VAL_NUM_UINT])
  /\ summary (feed accept_all lecp_defaults [] [95; 65; 1; 97; 97])
     = Some (LECP_CONTINUE,
             [LECPCB_CONSTRUCTED; LECPCB_VAL_BLOB_START; LECPCB_VAL_BLOB_CHUNK;
              LECPCB_VAL_STR_CHUNK])
  /\ summary (feed accept_all lecp_defaults [] [95; 65; 1; 95])
     = Some (LECP_CONTINUE,
             [LECPCB_CONSTRUCTED; LECPCB_VAL_BLOB_START; LECPCB_VAL_BLOB_CHUNK]).
Proof. repeat split; vm_compute; reflexivity. Qed.

(** C4.  Exceeding a capacity of the context does not always end in
    [LECP_STACK_OVERFLOW].  With the frame stack full (eleven open tags) an
    array head [0x81] is accepted: the code of [lecp_push] is dropped and
    [lecp_parse] answers [LECP_CONTINUE]; so do twelve nested indefinite
    maps.  A map key that fills the path buffer to exactly its size passes
    the guard [ppos + npos > sizeof(path)] and the copy writes the
    terminator one past the end of [path] (the run has no result); one
    character less is copied in bounds and one more is refused. *)
Theorem C4_capacity_excess_is_not_always_Overflow :
  summary (feed accept_all lecp_defaults [] (repeat 192 11 ++ [129]))
  = Some (LECP_CONTINUE,
          LECPCB_CONSTRUCTED :: repeat LECPCB_TAG_START 11 ++ [LECPCB_ARRAY_START])
  /\ summary (feed accept_all lecp_defaults [] (repeat 191 12))
     = Some (LECP_CONTINUE,
             LECPCB_CONSTRUCTED :: repeat LECPCB_OBJECT_START 12)
  /\ summary (feed accept_all lecp_defaults []
                ([161; 120; 126] ++ repeat 97 126))
     = Some (LECP_CONTINUE,
             [LECPCB_CONSTRUCTED; LECPCB_OBJECT_START; LECPCB_VAL_STR_START;
              LECPCB_VAL_STR_END])
  /\ feed accept_all lecp_defaults [] ([161; 120; 127] ++ repeat 97 127) = None
  /\ summary (feed accept_all lecp_defaults []
                ([161; 120; 128] ++ repeat 97 128))
     = Some (LECP_STACK_OVERFLOW,
             [LECPCB_CONSTRUCTED; LECPCB_OBJECT_START; LECPCB_VAL_STR_START;
              LECPCB_FAILED]).
Proof. repeat split; vm_compute; reflexivity. Qed.

(** The write past the end, in the run of C4: before the last character of
    the key the path holds 1 character and [buf] 126, so that the key ends
    at the size of [path]; the guard lets it pass, and the terminator that
    the copy writes after the key has index 128 in an array of 128. *)
Lemma map_key_terminator_past_the_end :
  match feed accept_all lecp_defaults [] ([161; 120; 127] ++ repeat 97 126) with
  | Some (r, w) =>
      (r, ppos (ctx w), npos (ctx w), length (path (ctx w)))
      = (LECP_CONTINUE, 1, 126, 128%nat)
      /\ (ppos (ctx w) + (npos (ctx w) + 1) >? LECP_MAX_PATH lecp_defaults)
         = false
      /\ store (path (ctx w)) (ppos (ctx w) + (npos (ctx w) + 1)) 0 = None
      /\ parse_byte accept_all lecp_defaults 97 w = None
  | None => False
  end.
Proof. vm_compute. repeat split. Qed.

(** ** The lifecycle operations *)

(** The context [lecp_construct] leaves behind. *)
Definition initial (L : lecp_limits) (host_be : bool) (cb0 user0 : Z)
           (paths0 : list (list Z)) (count_paths0 : Z) (buf0 : list Z)
  : lecp_ctx :=
  set_user user0 (set_cb cb0 (set_paths paths0
    (set_count_paths (u8 count_paths0) (set_be host_be (memset0 L buf0))))).

Lemma to_nat_pos (n : Z) : 0 < n -> exists k, Z.to_nat n = S k.
Proof.
  intros H. exists (Nat.pred (Z.to_nat n)).
  assert (Hn : (0 < Z.to_nat n)%nat) by lia. lia.
Qed.

Lemma lecp_construct_spec fn L host_be cb0 user0 paths0 n w :
  cb0 <> 0 -> 0 < LECP_MAX_DEPTH L ->
  lecp_construct fn L host_be cb0 user0 paths0 n w =
  Some (tt, {| ctx := initial L host_be cb0 user0 paths0 n (buf (ctx w));
               log := log w ++ [(LECPCB_CONSTRUCTED,
                          initial L host_be cb0 user0 paths0 n (buf (ctx w)))] |}).
Proof.
  intros Hcb HD. destruct (to_nat_pos _ HD) as [k Hk].
  apply Z.eqb_neq in Hcb.
  unfold lecp_construct, st_mod, call_cb, bind, getc, modc, lift, ret, initial,
    memset0.
  rewrite Hk. cbn. rewrite Hcb. reflexivity.
Qed.


(** The callback that refuses every event: the three operations complete
    all the same. *)
Definition refuse_all : Z -> lecp_callback := fun _ _ _ _ => 1.


(** ** Sessions *)

(** A context constructed in the memory of [w] and then fed [cbor]. *)
Definition session (fn : Z -> lecp_callback) (L : lecp_limits)
           (host_be : bool) (cb0 user0 : Z) (paths0 : list (list Z))
           (count_paths0 : Z) (cbor : list Z) : M Z :=
  bind (lecp_construct fn L host_be cb0 user0 paths0 count_paths0)
       (fun _ => lecp_parse fn L cbor).

(** The state of the frame on top of the stack. *)
Definition top_state (c : lecp_ctx) : option lecp_states :=
  match load (st c) (sp c) with
  | Some f => Some (st_s f)
  | None => None
  end.

(** The callbacks that answer 0 to the events whose reason is in [ok];
    what they answer to the others is left to [g]. *)
Definition answering (ok : Z -> bool) (g : Z -> lecp_callback)
  : Z -> lecp_callback :=
  fun p lg c r => if ok r then 0 else g p lg c r.

Definition one_of (l : list Z) (r : Z) : bool := existsb (Z.eqb r) l.

(** The start of a session: the constructed world, with the frame at the
    bottom of its stack spelled out, and the parts of memory that a run only
    hands on replaced by variables. *)
Ltac start_session Hcb HD :=
  unfold session, bind;
  rewrite lecp_construct_spec by assumption;
  let k := fresh "k" in
  let Hk := fresh "Hk" in
  destruct (to_nat_pos _ HD) as [k Hk];
  unfold initial, memset0; rewrite Hk; clear Hk; cbn [repeat];
  repeat match goal with
         | H : buf (ctx ?w) <> [] |- _ =>
             destruct (buf (ctx w)) as [|? ?];
             [exfalso; apply H; reflexivity|clear H]
         | |- context [repeat frame0 ?k] => generalize (repeat frame0 k); intro
         | |- context [zeros ?n] => generalize (zeros n); intro
         | |- context [u8 ?n] => generalize (u8 n); intro
         | |- context [buf (ctx ?w)] =>
             is_var w; generalize (buf (ctx w)); intro
         | |- context [log ?w] => is_var w; generalize (log w); intro
         end;
  match goal with
  | |- context [set_cb ?c] =>
      let p := fresh "p" in
      destruct c as [|p|p]; [exfalso; apply Hcb; reflexivity| |]
  end.

(** The same for a session whose arrays have the sizes of
    [lecp_defaults]: the constructed world in full, but for the bytes that
    [buf] holds and the events delivered before. *)
Ltac start_default_session Hcb Hbuf :=
  unfold session, bind;
  rewrite lecp_construct_spec by (assumption || reflexivity);
  unfold initial, memset0;
  repeat match goal with
         | |- context [buf (ctx ?w)] =>
             is_var w;
             destruct (buf (ctx w)) as [|? ?];
             [exfalso; apply Hbuf; reflexivity|]
         | |- context [log ?w] => is_var w; generalize (log w); intro
         end;
  match goal with
  | |- context [set_cb ?c] =>
      let p := fresh "p" in
      destruct c as [|p|p]; [exfalso; apply Hcb; reflexivity| |]
  end.

(** Runs the parser of the goal on the world it is applied to; the bytes
    stored in the union, and the negation of its value, are left as they
    stand. *)
Ltac run_parser :=
  match goal with
  | |- context [lecp_parse ?f ?L ?bs ?w] =>
      let v := eval lazy -[app store_byte byte_of negate_i64]
               in (lecp_parse f L bs w) in
      change (lecp_parse f L bs w) with v
  end.

(** A property of every integer of a range, from its instances. *)
Lemma range_cases (P : Z -> Prop) (lo : Z) (n : nat) :
  Forall P (map (fun k => lo + Z.of_nat k) (seq 0 n)) ->
  forall x, lo <= x < lo + Z.of_nat n -> P x.
Proof.
  intros H x Hx. rewrite Forall_forall in H. apply H.
  apply in_map_iff. exists (Z.to_nat (x - lo)). split; [lia|].
  apply in_seq. lia.
Qed.

Ltac split_Forall :=
  repeat match goal with
         | |- Forall _ (_ :: _) => apply Forall_cons
         | |- Forall _ [] => apply Forall_nil
         end.

(** C9 (as the code has it).  Feeding the single byte [0x00] to a freshly
    constructed context, whose callback accepts the event, delivers
    VAL_NUM_UINT with the value 0 and nothing else, and [lecp_parse] returns
    0, the stack being empty and the frame in [LECP_OPC]; no COMPLETE event
    is delivered. *)
Theorem C9_single_zero_byte :
  forall g L host_be cb0 user0 paths0 n (w : world),
    cb0 <> 0 -> 0 < LECP_MAX_DEPTH L ->
    exists c w',
      session (answering (one_of [LECPCB_VAL_NUM_UINT]) g)
              L host_be cb0 user0 paths0 n [0] w = Some (0, w')
      /\ log w' = log w ++ [(LECPCB_CONSTRUCTED,
                             initial L host_be cb0 user0 paths0 n (buf (ctx w)));
                            (LECPCB_VAL_NUM_UINT, c)]
      /\ item_u64 c = 0
      /\ sp (ctx w') = 0 /\ top_state (ctx w') = Some LECP_OPC.
Proof.
  intros g L host_be cb0 user0 paths0 n w Hcb HD.
  start_session Hcb HD;
    run_parser; (eexists; eexists; split; [reflexivity|]);
    (split; [rewrite <- app_assoc; reflexivity|]);
    repeat split; reflexivity.
Qed.

Lemma C9_witness :
  exists c w',
    session (answering (one_of [LECPCB_VAL_NUM_UINT]) refuse_all)
            lecp_defaults false 1 0 [] 0 [0] (blank lecp_defaults)
    = Some (0, w')
    /\ reasons w' = [LECPCB_CONSTRUCTED; LECPCB_VAL_NUM_UINT]
    /\ nth_error (log w') 1 = Some (LECPCB_VAL_NUM_UINT, c)
    /\ item_u64 c = 0.
Proof.
  assert (Hcb : 1 <> 0) by discriminate.
  assert (HD : 0 < LECP_MAX_DEPTH lecp_defaults) by reflexivity.
  destruct (C9_single_zero_byte refuse_all lecp_defaults false 1 0 [] 0
              (blank lecp_defaults) Hcb HD)
    as (c & w' & Hrun & Hlog & Hval & _).
  exists c, w'. split; [exact Hrun|].
  unfold reasons. rewrite Hlog.
  split; [reflexivity|]. split; [reflexivity|exact Hval].
Defined.

(** C9, as stated: no COMPLETE event follows VAL_NUM_UINT; the events of
    the run are CONSTRUCTED and VAL_NUM_UINT. *)
Lemma C9_no_COMPLETE_event :
  summary (feed accept_all lecp_defaults [] [0])
  = Some (0, [LECPCB_CONSTRUCTED; LECPCB_VAL_NUM_UINT])
  /\ ~ In LECPCB_COMPLETE [LECPCB_CONSTRUCTED; LECPCB_VAL_NUM_UINT].
Proof.
  split; [vm_compute; reflexivity|].
  intros [H|[H|[]]]; discriminate H.
Qed.

(** ** Head bytes with a reserved minor *)






Lemma blank_buf : buf (ctx (blank lecp_defaults)) <> [].
Proof. vm_compute. discriminate. Qed.



(** ** The numeric items *)

(** The [n] bytes of the big-endian argument [arg], first byte first. *)
Fixpoint be_bytes (n : nat) (arg : Z) : list Z :=
  match n with
  | O => []
  | S m => byte_of arg (Z.of_nat m) :: be_bytes m arg
  end.

(** What [LECP_COLLECT] leaves in the union after the bytes [bs], written
    from significance [k] downwards over the value [v]. *)
Fixpoint collected (bs : list Z) (k v : Z) : Z :=
  match bs with
  | [] => v
  | b :: t => collected t (k - 1) (store_byte v k b)
  end.

Lemma be_bytes_O arg : be_bytes O arg = [].
Proof. reflexivity. Qed.

Lemma be_bytes_S m arg :
  be_bytes (S m) arg = byte_of arg (Z.of_nat m) :: be_bytes m arg.
Proof. reflexivity. Qed.

Lemma collected_nil k v : collected [] k v = v.
Proof. reflexivity. Qed.

Lemma collected_cons b t k v :
  collected (b :: t) k v = collected t (k - 1) (store_byte v k b).
Proof. reflexivity. Qed.

Lemma pow_8_succ m : 0 <= m -> 2 ^ (8 * (m + 1)) = 2 ^ (8 * m) * 256.
Proof.
  intros H. replace (8 * (m + 1)) with (8 * m + 8) by lia.
  rewrite Z.pow_add_r by lia. reflexivity.
Qed.

Lemma low_bytes_clear v m :
  0 < m -> v mod (m * 256) = 0 -> v mod m = 0 /\ (v / m) mod 256 = 0.
Proof.
  intros Hm Hv. rewrite Z.rem_mul_r in Hv by lia.
  assert (H0 : 0 <= v mod m < m) by (apply Z.mod_pos_bound; lia).
  assert (H1 : 0 <= (v / m) mod 256 < 256) by (apply Z.mod_pos_bound; lia).
  split; nia.
Qed.

(** On a value whose low [n] bytes are clear, the bytes of [arg] written
    from the top of those [n] down add [arg] (cut to [n] bytes). *)
Lemma collected_be_bytes n arg v :
  0 <= arg -> v mod 2 ^ (8 * Z.of_nat n) = 0 ->
  collected (be_bytes n arg) (Z.of_nat n - 1) v
  = v + arg mod 2 ^ (8 * Z.of_nat n).
Proof.
  revert v. induction n as [|m IH]; intros v Harg Hv.
  - cbn. rewrite Z.mod_1_r. lia.
  - rewrite be_bytes_S, collected_cons.
    replace (Z.of_nat (S m) - 1) with (Z.of_nat m) by lia.
    assert (Hp : 0 < 2 ^ (8 * Z.of_nat m)) by (apply Z.pow_pos_nonneg; lia).
    assert (Hs : 2 ^ (8 * Z.of_nat (S m)) = 2 ^ (8 * Z.of_nat m) * 256).
    { rewrite Nat2Z.inj_succ. apply pow_8_succ. lia. }
    rewrite Hs in Hv |- *.
    destruct (low_bytes_clear _ _ Hp Hv) as [Hv0 Hb].
    unfold store_byte, byte_of at 2. rewrite Hb.
    rewrite IH; [| assumption |].
    + rewrite (Z.rem_mul_r arg) by lia. unfold byte_of. lia.
    + rewrite Z.add_mod by lia. rewrite Hv0.
      rewrite Z.sub_0_r, Z.mod_mul by lia. reflexivity.
Qed.

Lemma collected_argument n arg :
  0 <= arg < 2 ^ (8 * Z.of_nat n) ->
  collected (be_bytes n arg) (Z.of_nat n - 1) 0 = arg.
Proof.
  intros H. rewrite collected_be_bytes; [|lia|apply Z.mod_0_l; lia].
  rewrite Z.mod_small by lia. reflexivity.
Qed.


(** The bytes collected from a big-endian argument make up the argument. *)
Ltac by_collected n arg Harg :=
  let Ha := fresh "Ha" in
  let Hc := fresh "Hc" in
  assert (Ha : 0 <= arg < 2 ^ (8 * Z.of_nat n)) by exact Harg;
  pose proof (collected_argument n arg Ha) as Hc;
  rewrite !be_bytes_S, be_bytes_O, !collected_cons, collected_nil in Hc;
  exact Hc.

(** A session on [w] that ends with return code 0 after delivering, past
    CONSTRUCTED, the one event [reason], the item being [value] when read
    through [view]. *)
Definition delivered (o : option (Z * world)) (w : world) (reason : Z)
           (view : Z -> Z) (value : Z) : Prop :=
  exists c0 c w',
    o = Some (0, w')
    /\ log w' = log w ++ [(LECPCB_CONSTRUCTED, c0); (reason, c)]
    /\ view (item_u64 c) = value.








(** On a big-endian host the bytes of a one-byte argument land in the top
    byte of the union: [0x18 0x2A] delivers 42 * 2^56, not 42. *)
Lemma big_endian_short_argument :
  match session accept_all lecp_defaults true 1 0 [] 0 [24; 42]
                (blank lecp_defaults) with
  | Some (r, w) => map (fun e => (fst e, item_u64 (snd e))) (log w)
  | None => []
  end
  = [(LECPCB_CONSTRUCTED, 0); (LECPCB_VAL_NUM_UINT, 42 * 2 ^ 56)].
Proof. vm_compute. reflexivity. Qed.

(** ** The recorded match *)

















Section KeepsMatch.
Variable fn : Z -> lecp_callback.
Variable L : lecp_limits.



















End KeepsMatch.





(** ** Matching a path against the patterns *)

(** A pattern [q] matches the path [p], whose first character is at offset
    [off], the wildcards starting at the offsets [ws].  A literal character
    matches itself; a [*] that ends the pattern takes the rest of the path;
    a [*] followed by more pattern takes the characters up to the next [.],
    none of them when the path is at a [.]; and both strings end together.
    With [lenient], a [*] also matches when no character of the path is
    left; without, it does not. *)
Inductive glob (lenient : bool) : list Z -> list Z -> Z -> list Z -> Prop :=
| glob_end off : glob lenient [] [] off []
| glob_literal ch q p off ws :
    ch <> 42 ->
    glob lenient q p (off + 1) ws ->
    glob lenient (ch :: q) (ch :: p) off ws
| glob_star_final p off :
    lenient = true \/ p <> [] ->
    glob lenient [42] p off [off]
| glob_star q run rest off ws :
    q <> [] ->
    lenient = true \/ run ++ rest <> [] ->
    ~ In 46 run ->
    rest = [] \/ (exists t, rest = 46 :: t) ->
    glob lenient q rest (off + Z.of_nat (length run)) ws ->
    glob lenient (42 :: q) (run ++ rest) off (off :: ws).

(** The matching of the spec's words, and that of the scan in
    [lecp_check_path_match]. *)
Definition glob_spec := glob true.
Definition glob_scan := glob false.

(** The scan without the context: the offsets it records when both cursors
    end together. *)
Fixpoint scan_offsets (q p : list Z) (off : Z) : option (list Z) :=
  match q, p with
  | qc :: q', pc :: p' =>
      if negb (qc =? 42) then
        if negb (pc =? qc) then None else scan_offsets q' p' (off + 1)
      else
        let '(p2, off2) := skip_wild (at_end q') p off in
        match scan_offsets q' p2 off2 with
        | Some ws => Some (off :: ws)
        | None => None
        end
  | [], [] => Some []
  | _, _ => None
  end.

(** The characters before the first [.], and the rest. *)
Fixpoint split_dot (p : list Z) : list Z * list Z :=
  match p with
  | [] => ([], [])
  | pc :: p' =>
      if pc =? 46 then ([], p)
      else let '(run, rest) := split_dot p' in (pc :: run, rest)
  end.

Lemma skip_wild_end p off :
  skip_wild true p off = ([], off + Z.of_nat (length p)).
Proof.
  revert off. induction p as [|pc p IH]; intros off; cbn [skip_wild length].
  - f_equal. lia.
  - rewrite orb_true_r, IH. f_equal. lia.
Qed.

Lemma skip_wild_dot p off :
  skip_wild false p off
  = (snd (split_dot p), off + Z.of_nat (length (fst (split_dot p)))).
Proof.
  revert off. induction p as [|pc p IH]; intros off; cbn [skip_wild split_dot].
  - cbn. f_equal. lia.
  - rewrite orb_false_r. destruct (pc =? 46); cbn [negb].
    + cbn. f_equal. lia.
    + rewrite IH. destruct (split_dot p) as [run rest]. cbn [fst snd length].
      f_equal. lia.
Qed.

Lemma split_dot_app p :
  p = fst (split_dot p) ++ snd (split_dot p).
Proof.
  induction p as [|pc p IH]; cbn [split_dot]; [reflexivity|].
  destruct (pc =? 46); [reflexivity|].
  destruct (split_dot p) as [run rest]. cbn [fst snd] in *. cbn. congruence.
Qed.

Lemma split_dot_unique run rest :
  ~ In 46 run -> rest = [] \/ (exists t, rest = 46 :: t) ->
  split_dot (run ++ rest) = (run, rest).
Proof.
  intros Hrun Hrest. induction run as [|ch run IH]; cbn [app split_dot].
  - destruct Hrest as [->|[t ->]]; [reflexivity|]. cbn. reflexivity.
  - destruct (ch =? 46) eqn:E.
    + apply Z.eqb_eq in E. exfalso. apply Hrun. left. exact E.
    + rewrite IH; [reflexivity|]. intros H. apply Hrun. right. exact H.
Qed.

Lemma split_dot_spec p :
  ~ In 46 (fst (split_dot p))
  /\ (snd (split_dot p) = [] \/ exists t, snd (split_dot p) = 46 :: t).
Proof.
  induction p as [|pc p IH]; cbn [split_dot].
  - cbn. split; [intros []|left; reflexivity].
  - destruct (pc =? 46) eqn:E.
    + apply Z.eqb_eq in E. subst pc. cbn. split; [intros []|right; eauto].
    + destruct (split_dot p) as [run rest]. cbn [fst snd] in *.
      destruct IH as [H1 H2]. split; [|exact H2].
      intros [H|H]; [|exact (H1 H)]. subst pc. discriminate E.
Qed.

Lemma at_end_false (q : list Z) : q <> [] -> at_end q = false.
Proof. destruct q; [congruence|reflexivity]. Qed.

(** The scan succeeds exactly on the matches of [glob_scan]. *)
Lemma scan_offsets_sound q : forall p off ws,
  scan_offsets q p off = Some ws -> glob_scan q p off ws.
Proof.
  induction q as [|qc q IH]; intros p off ws H.
  - destruct p; cbn in H; [|discriminate]. inversion H; subst. constructor.
  - destruct p as [|pc p]; [discriminate H|]. cbn [scan_offsets] in H.
    destruct (qc =? 42) eqn:Eq; cbn [negb] in H.
    + apply Z.eqb_eq in Eq. subst qc.
      destruct q as [|qc' q].
      * cbn [at_end] in H. rewrite skip_wild_end in H. cbn in H.
        inversion H; subst. apply glob_star_final. right. discriminate.
      * cbn [at_end] in H. rewrite skip_wild_dot in H.
        destruct (scan_offsets (qc' :: q) _ _) as [ws'|] eqn:E; [|discriminate].
        inversion H; subst. rewrite (split_dot_app (pc :: p)).
        destruct (split_dot_spec (pc :: p)) as [H1 H2].
        apply glob_star; try assumption; [discriminate| |].
        -- right. rewrite <- split_dot_app. discriminate.
        -- apply IH. exact E.
    + destruct (pc =? qc) eqn:Ep; cbn [negb] in H; [|discriminate].
      apply Z.eqb_eq in Ep. subst pc. apply Z.eqb_neq in Eq.
      apply glob_literal; [exact Eq|]. apply IH. exact H.
Qed.

Lemma scan_offsets_complete q p off ws :
  glob_scan q p off ws -> scan_offsets q p off = Some ws.
Proof.
  intros H. induction H as [off | ch q p off ws Hch H IH | p off Hp
                            | q run rest off ws Hq Hp Hrun Hrest H IH].
  - reflexivity.
  - cbn [scan_offsets]. apply Z.eqb_neq in Hch. rewrite Hch, Z.eqb_refl.
    exact IH.
  - destruct Hp as [Hp|Hp]; [discriminate Hp|].
    destruct p as [|pc p]; [congruence|].
    cbn [scan_offsets at_end]. rewrite skip_wild_end. reflexivity.
  - destruct Hp as [Hp|Hp]; [discriminate Hp|].
    destruct (run ++ rest) as [|pc p] eqn:E; [congruence|].
    cbn [scan_offsets]. rewrite (at_end_false _ Hq). cbn [Z.eqb Pos.eqb negb].
    rewrite skip_wild_dot, <- E, (split_dot_unique _ _ Hrun Hrest).
    cbn [fst snd]. rewrite IH. reflexivity.
Qed.

(** *** The scan on the context *)

Lemma upd_length {A} (l : list A) n v : length (upd l n v) = length l.
Proof.
  revert n. induction l as [|h t IH]; intros [|n]; cbn; try reflexivity.
  rewrite IH. reflexivity.
Qed.

Lemma firstn_upd_succ {A} (l : list A) n v :
  (n < length l)%nat -> firstn (S n) (upd l n v) = firstn n l ++ [v].
Proof.
  revert n. induction l as [|h t IH]; intros [|n] H; cbn in *; try lia.
  - reflexivity.
  - f_equal. apply IH. lia.
Qed.

Lemma store_in_range {A} (l : list A) n v :
  0 <= n < Z.of_nat (length l) -> store l n v = Some (upd l (Z.to_nat n) v).
Proof.
  intros H. unfold store.
  destruct (0 <=? n) eqn:E1; [|apply Z.leb_gt in E1; lia].
  destruct (n <? Z.of_nat (length l)) eqn:E2; [|apply Z.ltb_ge in E2; lia].
  reflexivity.
Qed.

Lemma set_wild_id c : set_wildcount (wildcount c) (set_wild (wild c) c) = c.
Proof. destruct c. reflexivity. Qed.

(** The [*] of a pattern. *)
Fixpoint stars (q : list Z) : nat :=
  match q with
  | [] => O
  | qc :: q' => (if qc =? 42 then S (stars q') else stars q')
  end.

Definition succeeded {A} (o : option A) : bool :=
  match o with Some _ => true | None => false end.

(** With room in [wild] for the [*] of the pattern, the scan has a result:
    it tells whether [scan_offsets] finds a match, touches [wild] and
    [wildcount] only, and on a match has appended the offsets of the match
    to what [wild] held. *)
Lemma scan_on_context q : forall p off c,
  0 <= wildcount c ->
  (Z.to_nat (wildcount c) + stars q <= length (wild c))%nat ->
  (length (wild c) <= 255)%nat ->
  exists l' n',
    scan q p off c
    = Some (succeeded (scan_offsets q p off), set_wildcount n' (set_wild l' c))
    /\ length l' = length (wild c)
    /\ forall ws, scan_offsets q p off = Some ws ->
         n' = wildcount c + Z.of_nat (length ws)
         /\ firstn (Z.to_nat (wildcount c) + length ws) l'
            = firstn (Z.to_nat (wildcount c)) (wild c) ++ map u16 ws.
Proof.
  induction q as [|qc q IH]; intros p off c Hwc Hroom Hcap.
  - exists (wild c), (wildcount c). rewrite set_wild_id.
    destruct p; cbn [scan scan_offsets succeeded];
      (split; [reflexivity|split; [reflexivity|]]); intros ws H;
      inversion H; subst; cbn [length map].
    rewrite Nat.add_0_r, app_nil_r. split; [lia|reflexivity].
  - destruct p as [|pc p].
    { exists (wild c), (wildcount c). rewrite set_wild_id. cbn.
      split; [reflexivity|split; [reflexivity|]]. intros ws H. discriminate H. }
    cbn [scan scan_offsets stars] in *.
    destruct (qc =? 42) eqn:Eq; cbn [negb].
    + rewrite store_in_range by lia.
      destruct (skip_wild (at_end q) (pc :: p) off) as [p2 off2].
      set (c1 := set_wildcount (u8 (wildcount c + 1))
                   (set_wild (upd (wild c) (Z.to_nat (wildcount c)) (u16 off)) c)).
      assert (Hu : u8 (wildcount c + 1) = wildcount c + 1).
      { unfold u8. apply Z.mod_small. lia. }
      destruct (IH p2 off2 c1) as (l' & n' & Hrun & Hlen & Hws).
      * cbn. rewrite Hu. lia.
      * cbn. rewrite Hu, upd_length. lia.
      * cbn. rewrite upd_length. exact Hcap.
      * exists l', n'. rewrite Hrun. cbn in Hlen. rewrite upd_length in Hlen.
        split; [|split; [exact Hlen|]].
        -- destruct (scan_offsets q p2 off2); reflexivity.
        -- intros ws H. destruct (scan_offsets q p2 off2) as [ws'|];
             [|discriminate H]. inversion H; subst.
           destruct (Hws ws' eq_refl) as [Hn Hf]. cbn in Hn, Hf.
           rewrite Hu in Hn, Hf. split; [cbn [length]; lia|].
           cbn [length map]. 
           replace (Z.to_nat (wildcount c) + S (length ws'))%nat
             with (Z.to_nat (wildcount c + 1) + length ws')%nat by lia.
           rewrite Hf.
           replace (Z.to_nat (wildcount c + 1)) with (S (Z.to_nat (wildcount c)))
             by lia.
           rewrite firstn_upd_succ by lia. rewrite <- app_assoc. reflexivity.
    + destruct (pc =? qc) eqn:Ep; cbn [negb].
      * apply (IH p (off + 1) c); assumption || lia.
      * exists (wild c), (wildcount c). rewrite set_wild_id. cbn.
        split; [reflexivity|split; [reflexivity|]]. intros ws H. discriminate H.
Qed.

(** *** The loop over the patterns *)

(** The first of the patterns [pats] whose scan of the path [p] succeeds,
    as the index that [path_match] takes (the first pattern having the index
    [n + 1]), with the offsets of its wildcards. *)
Fixpoint first_match (pats : list (list Z)) (p : list Z) (n : Z)
  : option (Z * list Z) :=
  match pats with
  | [] => None
  | q :: rest =>
      match scan_offsets (cstr q) p 0 with
      | Some ws => Some (n + 1, ws)
      | None => first_match rest p (n + 1)
      end
  end.

Lemma skipn_cons_nth {A} (l : list A) n q t :
  skipn n l = q :: t -> nth_error l n = Some q /\ skipn (S n) l = t.
Proof.
  revert n. induction l as [|h l IH]; intros [|n] H; cbn in *;
    try discriminate.
  - inversion H; subst. split; reflexivity.
  - apply IH. exact H.
Qed.

Lemma load_nth {A} (l : list A) n :
  0 <= n -> load l n = nth_error l (Z.to_nat n).
Proof.
  intros H. unfold load. destruct (n <? 0) eqn:E; [|reflexivity].
  apply Z.ltb_lt in E. lia.
Qed.

Lemma match_from_spec pats : forall n c,
  0 <= n -> n + Z.of_nat (length pats) <= 255 ->
  skipn (Z.to_nat n) (paths c) = pats ->
  (length (wild c) <= 255)%nat ->
  Forall (fun q => (stars (cstr q) <= length (wild c))%nat) pats ->
  exists l' n',
    length l' = length (wild c)
    /\ match first_match pats (cstr (path c)) n with
       | Some (idx, ws) =>
           match_from (length pats) n c
           = Some (true, set_path_match_len (ppos c)
                           (set_path_match idx
                              (set_wildcount n' (set_wild l' c))))
           /\ n' = Z.of_nat (length ws)
           /\ firstn (length ws) l' = map u16 ws
       | None =>
           match_from (length pats) n c
           = Some (false, set_wildcount n' (set_wild l' c))
       end.
Proof.
  induction pats as [|q pats IH]; intros n c Hn Hmax Hskip Hcap Hstars.
  - exists (wild c), (wildcount c). rewrite set_wild_id.
    split; reflexivity.
  - cbn [length] in Hmax. destruct (skipn_cons_nth _ _ _ _ Hskip) as [Hq Hrest].
    cbn [match_from first_match length].
    rewrite load_nth, Hq by exact Hn.
    pose proof (Forall_inv Hstars) as Hs.
    pose proof (Forall_inv_tail Hstars) as Hstars'. cbv beta in Hs.
    destruct (scan_on_context (cstr q) (cstr (path c)) 0 (set_wildcount 0 c))
      as (l1 & n1 & Hrun & Hlen & Hws);
      [cbn; lia | cbn; exact Hs | exact Hcap |].
    cbn [path set_wildcount] in Hrun. rewrite Hrun. cbn in Hlen.
    destruct (scan_offsets (cstr q) (cstr (path c)) 0) as [ws|] eqn:E;
      cbn [succeeded].
    + exists l1, n1. split; [exact Hlen|].
      destruct (Hws ws eq_refl) as [Hn1 Hf]. cbn in Hn1, Hf.
      assert (Hu : u8 (n + 1) = n + 1) by (unfold u8; apply Z.mod_small; lia).
      rewrite Hu. split; [reflexivity|]. split; [lia|exact Hf].
    + destruct (IH (n + 1) (set_wildcount n1 (set_wild l1 (set_wildcount 0 c))))
        as (l2 & n2 & Hlen2 & Hm).
      * lia.
      * lia.
      * cbn. replace (Z.to_nat (n + 1)) with (S (Z.to_nat n)) by lia.
        exact Hrest.
      * cbn. rewrite Hlen. exact Hcap.
      * cbn. rewrite Hlen. exact Hstars'.
      * exists l2, n2. cbn in Hlen2. split; [congruence|].
        cbn [path ppos set_wildcount set_wild] in Hm.
        destruct (first_match pats (cstr (path c)) (n + 1)) as [[idx ws]|];
          exact Hm.
Qed.

(** What [first_match] finds, in terms of the patterns. *)
Lemma first_match_spec pats p : forall n,
  match first_match pats p n with
  | Some (idx, ws) =>
      exists k q,
        nth_error pats k = Some q /\ idx = n + Z.of_nat k + 1
        /\ scan_offsets (cstr q) p 0 = Some ws
        /\ forall m q', (m < k)%nat -> nth_error pats m = Some q' ->
                        scan_offsets (cstr q') p 0 = None
  | None =>
      forall m q', nth_error pats m = Some q' ->
                   scan_offsets (cstr q') p 0 = None
  end.
Proof.
  induction pats as [|q pats IH]; intros n; cbn [first_match].
  - intros [|m] q' H; discriminate H.
  - destruct (scan_offsets (cstr q) p 0) as [ws|] eqn:E.
    + exists O, q. repeat split; [lia|exact E|]. intros m q' Hm. lia.
    + specialize (IH (n + 1)).
      destruct (first_match pats p (n + 1)) as [[idx ws]|].
      * destruct IH as (k & q0 & Hk & Hidx & Hs & Hfirst).
        exists (S k), q0. repeat split; [exact Hk|lia|exact Hs|].
        intros [|m] q' Hm Hq'; cbn in Hq'.
        -- inversion Hq'; subst. exact E.
        -- apply (Hfirst m); [lia|exact Hq'].
      * intros [|m] q' Hq'; cbn in Hq'.
        -- inversion Hq'; subst. exact E.
        -- apply (IH m). exact Hq'.
Qed.

(** What [lecp_check_path_match] has recorded in [c'] for the path and the
    patterns of [c]: the index, one-based, of the first pattern that matches
    the path, with the length of the path and the offsets of the wildcards
    of that match; or index 0 and no wildcard when no pattern matches. *)
Definition records_first_match (c c' : lecp_ctx) : Prop :=
  (exists k q ws,
      nth_error (paths c) k = Some q
      /\ glob_scan (cstr q) (cstr (path c)) 0 ws
      /\ (forall m q' ws', (m < k)%nat -> nth_error (paths c) m = Some q' ->
                           ~ glob_scan (cstr q') (cstr (path c)) 0 ws')
      /\ path_match c' = Z.of_nat k + 1
      /\ path_match_len c' = ppos c
      /\ wildcount c' = Z.of_nat (length ws)
      /\ firstn (length ws) (wild c') = map u16 ws)
  \/ ((forall m q' ws', nth_error (paths c) m = Some q' ->
                        ~ glob_scan (cstr q') (cstr (path c)) 0 ws')
      /\ path_match c' = 0 /\ wildcount c' = 0).

(** C6 (as the code has it).  When no match is active, with at most 255
    patterns and room in [wild] for the [*] of each,
    [lecp_check_path_match] records the one-based index of the first pattern
    that matches the path, 0 when none does, the offsets where the [*] of
    that pattern began in [wild], their number in [wildcount] and the
    length of the path.  A pattern matches when the scan takes both strings
    to their ends: a literal character matches itself, a [*] takes the
    characters up to the next [.], or all of them when it ends the pattern;
    but a [*] reached when no character of the path is left does not
    match. *)
Theorem C6_first_matching_pattern :
  forall c : lecp_ctx,
    path_match c = 0 ->
    count_paths c = Z.of_nat (length (paths c)) ->
    count_paths c <= 255 ->
    (length (wild c) <= 255)%nat ->
    Forall (fun q => (stars (cstr q) <= length (wild c))%nat) (paths c) ->
    exists c', check_path_match c = Some c' /\ records_first_match c c'.
Proof.
  intros c Hno Hcount Hmax Hcap Hstars.
  destruct (match_from_spec (paths c) 0 c) as (l' & n' & Hlen & Hm);
    [lia | lia | reflexivity | exact Hcap | exact Hstars |].
  unfold check_path_match, nonzero. rewrite Hno. cbn [Z.eqb negb].
  rewrite Hcount, Nat2Z.id.
  pose proof (first_match_spec (paths c) (cstr (path c)) 0) as Hf.
  destruct (first_match (paths c) (cstr (path c)) 0) as [[idx ws]|].
  - destruct Hm as (Hrun & Hn' & Hw). rewrite Hrun.
    destruct Hf as (k & q & Hk & Hidx & Hs & Hfirst).
    eexists. split; [reflexivity|]. left. exists k, q, ws.
    split; [exact Hk|]. split; [apply scan_offsets_sound; exact Hs|].
    split.
    { intros m q' ws' Hlt Hq' Hg. apply scan_offsets_complete in Hg.
      rewrite (Hfirst m q' Hlt Hq') in Hg. discriminate Hg. }
    cbn. repeat split; [lia | exact Hn' | exact Hw].
  - rewrite Hm. cbn [path_match set_wildcount set_wild]. rewrite Hno.
    cbn [Z.eqb negb]. eexists. split; [reflexivity|]. right.
    split; [|split; [exact Hno | reflexivity]].
    intros m q' ws' Hq' Hg. apply scan_offsets_complete in Hg.
    rewrite (Hf m q' Hq') in Hg. discriminate Hg.
Qed.

(** A context at the path [".a"] with the patterns [".b"] and [".*"]. *)
Definition at_key : lecp_ctx :=
  set_paths [[46; 98]; [46; 42]]
    (set_count_paths 2
       (set_ppos 2 (set_path [46; 97; 0; 0] (memset0 lecp_defaults [])))).

Lemma C6_witness :
  exists c', check_path_match at_key = Some c'
             /\ records_first_match at_key c'.
Proof.
  apply C6_first_matching_pattern.
  - reflexivity.
  - reflexivity.
  - vm_compute. discriminate.
  - vm_compute. lia.
  - repeat constructor.
Defined.

(** C6, as stated: in the map [{"a": ...}] the path is [".a"] once the key
    is read.  The pattern [".a*"] matches it in the spec's words, the [*]
    taking the empty rest of the path at offset 2, so the first matching
    pattern has index 1; but the scan stops at the end of the path with the
    [*] unread, and the index recorded is 0.  And the index recorded is not
    that of the live path while a match is active: after [0x81 0x00], with
    the pattern ["[]"], the path is empty, which the pattern does not match,
    and the index recorded is still 1. *)
Lemma C6_star_at_end_of_path :
  (option_map (fun rw => (cstr (path (ctx (snd rw))), path_match (ctx (snd rw))))
              (feed accept_all lecp_defaults [[46; 97; 42]] [161; 97; 97])
   = Some ([46; 97], 0)
   /\ glob_spec [46; 97; 42] [46; 97] 0 [2])
  /\ (option_map (fun rw => (cstr (path (ctx (snd rw))), path_match (ctx (snd rw))))
                 (feed accept_all lecp_defaults [[91; 93]] [129; 0])
      = Some ([], 1)
      /\ forall ws, ~ glob_spec [91; 93] [] 0 ws).
Proof.
  split; split; try (vm_compute; reflexivity).
  - apply glob_literal; [discriminate|].
    apply glob_literal; [discriminate|].
    apply glob_star_final. left. reflexivity.
  - intros ws H. inversion H.
Qed.

(** Without room in [wild] the scan writes past its end: at the path ["."]
    a pattern of nine [*] has each of them start at the [.], and the ninth
    offset has no slot in an array of eight. *)
Lemma wildcards_beyond_the_array :
  check_path_match
    (set_paths [[42; 42; 42; 42; 42; 42; 42; 42; 42]]
       (set_count_paths 1
          (set_ppos 1 (set_path [46; 0; 0; 0] (memset0 lecp_defaults [])))))
  = None.
Proof. vm_compute. reflexivity. Qed.

(** ** The return codes of a feed *)

(** The three errors that [lecp_parse] returns. *)
Definition parse_error (r : Z) : Prop :=
  r = LECP_REJECT_BAD_CODING \/ r = LECP_REJECT_CALLBACK
  \/ r = LECP_STACK_OVERFLOW.

Definition flow_code (fl : flow) : Prop :=
  match fl with
  | Next => True
  | Return r => parse_error r
  end.

Definition push_code (r : Z) : Prop :=
  r = 0 \/ r = LECP_REJECT_CALLBACK \/ r = LECP_STACK_OVERFLOW.

Section Codes.
Variable fn : Z -> lecp_callback.
Variable L : lecp_limits.

Lemma reject_code r : parse_error r -> yields (reject fn r) flow_code.
Proof. intros H. unfold reject. ystep. ystep. exact H. Qed.

Lemma lecp_push_codes s_start s_end state :
  yields (lecp_push fn L s_start s_end state) push_code.
Proof.
  unfold lecp_push, push_code.
  repeat ystep; auto.
Qed.

Lemma start_tag_enclosure_code : yields (start_tag_enclosure fn L) flow_code.
Proof.
  unfold start_tag_enclosure. ystep. ystep.
  eapply yields_bind; [apply lecp_push_codes|].
  intros r Hr. destruct (nonzero r) eqn:E; ystep.
  destruct Hr as [->|[->| ->]]; [discriminate E| |];
    unfold flow_code, parse_error; auto.
Qed.

Lemma issue_code : yields (issue fn L) flow_code.
Proof.
  unfold issue. ystep. ystep.
  - ystep. apply start_tag_enclosure_code.
  - ystep. ystep; [apply reject_code; unfold parse_error; auto|]. ystep. ystep.
Qed.

Lemma i2_code sm : yields (i2 fn sm) flow_code.
Proof.
  unfold i2. ystep; [apply reject_code; unfold parse_error; auto|]. repeat ystep.
Qed.

Ltac ycode :=
  repeat first
    [ apply reject_code; unfold parse_error; solve [auto]
    | apply issue_code
    | apply i2_code
    | apply start_tag_enclosure_code
    | ystep ].

Lemma parse_byte_code ch : yields (parse_byte fn L ch) flow_code.
Proof.
  unfold parse_byte. ystep. destruct (st_s a).
  - unfold parse_opc, opc_string, opc_array, opc_map, opc_float. ycode.
  - unfold parse_collect. ycode.
  - unfold parse_simplex8. ycode.
  - unfold parse_collate. ycode.
  - unfold parse_only_same. ycode.
Qed.

End Codes.

(** Whether a context is idle: nothing open on the stack and the frame at
    its bottom waiting for a head byte. *)
Definition idle (c : lecp_ctx) : bool :=
  (sp c =? 0)
  && match load (st c) 0 with
     | Some f => lecp_states_eqb (st_s f) LECP_OPC
     | None => false
     end.

(** X1.  What [lecp_parse] returns is 0, [LECP_CONTINUE] or one of the
    three errors [LECP_REJECT_BAD_CODING], [LECP_REJECT_CALLBACK] and
    [LECP_STACK_OVERFLOW], never [LECP_REJECT_UNKNOWN] nor any other value;
    and it is 0 exactly when the bytes ran out on an idle context, the stack
    empty and the frame at its bottom waiting for a head byte, and
    [LECP_CONTINUE] when they ran out anywhere else. *)
Theorem lecp_parse_return_codes :
  forall fn L (cbor : list Z) (w w' : world) (r : Z),
    lecp_parse fn L cbor w = Some (r, w') ->
    (r = 0 /\ idle (ctx w') = true)
    \/ (r = LECP_CONTINUE /\ idle (ctx w') = false)
    \/ parse_error r.
Proof.
  intros fn L cbor. induction cbor as [|ch rest IH]; intros w w' r H;
    cbn [lecp_parse] in H.
  - unfold parse_end, st_get, bind, getc, lift, ret, crash, nonzero in H.
    unfold idle.
    destruct (sp (ctx w) =? 0) eqn:Hsp; cbn [negb] in H.
    + destruct (load (st (ctx w)) 0) as [f|] eqn:Hf; cbv beta iota in H;
        [|discriminate H].
      destruct (lecp_states_eqb (st_s f) LECP_OPC) eqn:Hs;
        inversion H; subst; rewrite Hsp, Hf, Hs; auto.
    + inversion H; subst. rewrite Hsp. auto.
  - unfold bind in H.
    destruct (parse_byte fn L ch w) as [[[|r0] w1]|] eqn:E; [| |discriminate H].
    + exact (IH _ _ _ H).
    + inversion H; subst. right. right.
      exact (parse_byte_code fn L ch _ _ _ E).
Qed.

(** The world and the return code after [cbor] has been fed to a fresh
    context. *)
Definition fed (cbor : list Z) : world :=
  match lecp_parse accept_all lecp_defaults cbor fresh with
  | Some (_, w) => w
  | None => fresh
  end.

Definition code_of (cbor : list Z) : Z :=
  match lecp_parse accept_all lecp_defaults cbor fresh with
  | Some (r, _) => r
  | None => LECP_REJECT_UNKNOWN
  end.

Lemma lecp_parse_return_codes_witness :
  (code_of [24] = 0 /\ idle (ctx (fed [24])) = true)
  \/ (code_of [24] = LECP_CONTINUE /\ idle (ctx (fed [24])) = false)
  \/ parse_error (code_of [24]).
Proof.
  apply (lecp_parse_return_codes accept_all lecp_defaults [24] fresh).
  vm_compute. reflexivity.
Defined.

(** ** What the path matcher writes *)

(** Everything of a context but the four members that record a match. *)
Definition outside_match (c : lecp_ctx) :=
  (user c, collect_tgt c, cb c, paths c, count_paths c, ppos c, st c, i c,
   path c, (item_u64 c, item_opcode c, path_stride c, npos c, sp c, ipos c,
            present c, be c, buf c)).

Lemma scan_outside q : forall p off c b c',
  scan q p off c = Some (b, c') -> outside_match c' = outside_match c.
Proof.
  induction q as [|qc q IH]; intros p off c b c' H.
  - destruct p; cbn in H; inversion H; subst; reflexivity.
  - destruct p as [|pc p]; [cbn in H; inversion H; subst; reflexivity|].
    cbn [scan] in H. destruct (negb (qc =? 42)).
    + destruct (negb (pc =? qc)); [inversion H; subst; reflexivity|].
      exact (IH _ _ _ _ _ H).
    + destruct (store (wild c) (wildcount c) (u16 off)) as [l|];
        [|discriminate H].
      destruct (skip_wild (at_end q) (pc :: p) off) as [p2 off2].
      rewrite (IH _ _ _ _ _ H). reflexivity.
Qed.

Lemma match_from_outside k : forall n c b c',
  match_from k n c = Some (b, c') -> outside_match c' = outside_match c.
Proof.
  induction k as [|k IH]; intros n c b c' H; cbn [match_from] in H.
  - inversion H; subst. reflexivity.
  - destruct (load (paths c) n) as [q|]; [|discriminate H].
    destruct (scan (cstr q) (cstr (path c)) 0 (set_wildcount 0 c))
      as [[[|] c1]|] eqn:E; [| |discriminate H].
    + inversion H; subst. apply scan_outside in E. exact E.
    + apply scan_outside in E. rewrite (IH _ _ _ _ H). exact E.
Qed.

Lemma check_path_match_outside c c' :
  check_path_match c = Some c' -> outside_match c' = outside_match c.
Proof.
  intros H. unfold check_path_match in H.
  destruct (nonzero (path_match c)); [inversion H; subst; reflexivity|].
  destruct (match_from (Z.to_nat (count_paths c)) 0 c) as [[[|] c1]|] eqn:E;
    [| |discriminate H]; apply match_from_outside in E;
    inversion H; subst; [exact E|].
  destruct (nonzero (path_match c1)); exact E.
Qed.

(** X2.  [lecp_check_path_match] writes the four members that record a
    match, [path_match], [path_match_len], [wildcount] and [wild], and
    nothing else of the context. *)
Theorem check_path_match_writes_match_only :
  forall c c', check_path_match c = Some c' ->
    outside_match c' = outside_match c.
Proof.
  intros c c' H. unfold check_path_match in H.
  destruct (nonzero (path_match c)) eqn:Ea.
  - (* a match is active: nothing is written *)
    inversion H; subst. reflexivity.
  - destruct (match_from (Z.to_nat (count_paths c)) 0 c) as [[hit c1]|] eqn:E;
      [|discriminate H].
    pose proof (match_from_outside _ _ _ _ _ E) as Hout.
    destruct hit; inversion H; subst; [exact Hout|].
    destruct (nonzero (path_match c1)); exact Hout.
Qed.

Lemma check_path_match_writes_match_only_witness :
  outside_match
    (match check_path_match at_key with Some c' => c' | None => at_key end)
  = outside_match at_key.
Proof.
  apply (check_path_match_writes_match_only at_key). vm_compute. reflexivity.
Defined.

(** ** What the parser leaves as it was *)

(** The members that [lecp_construct] and [lecp_change_callback] set up. *)
Definition setup_of (c : lecp_ctx) :=
  (user c, cb c, paths c, count_paths c, path_stride c, be c).

Definition keeps_setup {A} (m : M A) : Prop :=
  forall w a w', m w = Some (a, w') -> setup_of (ctx w') = setup_of (ctx w).

Lemma setup_ret {A} (a : A) : keeps_setup (ret a).
Proof. intros w a' w' E. inversion E; subst. reflexivity. Qed.

Lemma setup_crash {A} : keeps_setup (@crash A).
Proof. intros w a w' E. discriminate E. Qed.

Lemma setup_bind {A B} (m : M A) (k : A -> M B) :
  keeps_setup m -> (forall a, keeps_setup (k a)) -> keeps_setup (bind m k).
Proof.
  intros Hm Hk w b w' E. unfold bind in E.
  destruct (m w) as [[a w1]|] eqn:Em; [|discriminate].
  rewrite (Hk a _ _ _ E). exact (Hm _ _ _ Em).
Qed.

Lemma setup_getc : keeps_setup getc.
Proof. intros w a w' E. inversion E; subst. reflexivity. Qed.

Lemma setup_modc (g : lecp_ctx -> lecp_ctx) :
  (forall c, setup_of (g c) = setup_of c) -> keeps_setup (modc g).
Proof. intros Hg w a w' E. inversion E; subst. apply Hg. Qed.

Lemma setup_assert b : keeps_setup (assert b).
Proof. destruct b; [apply setup_ret|apply setup_crash]. Qed.

Lemma setup_lift {A} (o : option A) : keeps_setup (lift o).
Proof. destruct o; [apply setup_ret|apply setup_crash]. Qed.

Lemma setup_call_cb fn reason : keeps_setup (call_cb fn reason).
Proof.
  intros w a w' E. unfold call_cb in E.
  destruct (cb (ctx w) =? 0); inversion E; subst. reflexivity.
Qed.

Lemma setup_check : keeps_setup lecp_check_path_match.
Proof.
  intros w a w' E. unfold lecp_check_path_match, bind, getc, lift in E.
  destruct (check_path_match (ctx w)) as [c'|] eqn:Ec; [|discriminate E].
  inversion E; subst. cbn [ctx].
  apply check_path_match_outside in Ec.
  unfold outside_match in Ec. unfold setup_of. congruence.
Qed.

Ltac setup :=
  repeat first
    [ match goal with
      | H : context [keeps_setup] |- keeps_setup _ => apply H
      end
    | apply setup_ret
    | apply setup_crash
    | apply setup_getc
    | apply setup_assert
    | apply setup_lift
    | apply setup_call_cb
    | apply setup_check
    | apply setup_modc; intros; reflexivity
    | apply setup_bind; [|intros]
    | progress cbv beta zeta
    | match goal with
      | |- keeps_setup (if ?b then _ else _) => destruct b
      | |- keeps_setup (match ?x with Next => _ | Return _ => _ end) =>
          destruct x
      | |- keeps_setup (match st_s ?f with _ => _ end) => destruct (st_s f)
      end ].

Section KeepsSetup.
Variable fn : Z -> lecp_callback.
Variable L : lecp_limits.

Lemma setup_st_mod n g : keeps_setup (st_mod n g).
Proof. unfold st_mod. setup. Qed.

Lemma setup_walk n :
  forall il indet, keeps_setup (completed_walk fn n il indet).
Proof.
  pose proof setup_st_mod.
  induction n as [|n IH]; intros il indet; cbn [completed_walk].
  - setup.
  - unfold lwcp_st_parent, st_get, i_put, lecp_pop, top, path_put. setup.
Qed.

Lemma setup_copy n : forall dst src, keeps_setup (copy_to_path n dst src).
Proof.
  induction n as [|n IH]; intros dst src; cbn [copy_to_path];
    unfold path_put; setup.
Qed.

Lemma setup_parse_byte ch : keeps_setup (parse_byte fn L ch).
Proof.
  pose proof setup_st_mod. pose proof setup_walk. pose proof setup_copy.
  unfold parse_byte, parse_opc, opc_string, opc_array, opc_map, opc_float,
    parse_collect, parse_simplex8, parse_collate, parse_only_same, issue, i2,
    start_tag_enclosure, reject, lwcp_completed, lwcp_is_indet_string,
    lecp_push, clear_buf, ex, lwcp_st_parent, top_mod, top, st_get, path_put,
    buf_put, i_put.
  setup.
Qed.

Lemma setup_parse cbor : keeps_setup (lecp_parse fn L cbor).
Proof.
  induction cbor as [|ch rest IH]; cbn [lecp_parse].
  - unfold parse_end, st_get. setup.
  - pose proof (setup_parse_byte ch). setup.
Qed.
End KeepsSetup.

(** X3.  [lecp_parse] leaves alone what the context was set up with: the
    user pointer, the callback, the patterns with their count and stride,
    and the endianness found at construction. *)
Theorem lecp_parse_keeps_setup :
  forall fn L (cbor : list Z) (w w' : world) (r : Z),
    lecp_parse fn L cbor w = Some (r, w') ->
    setup_of (ctx w') = setup_of (ctx w).
Proof. intros fn L cbor w w' r H. exact (setup_parse fn L cbor _ _ _ H). Qed.

Lemma lecp_parse_keeps_setup_witness :
  setup_of (ctx (fed [130; 1; 2])) = setup_of (ctx fresh).
Proof.
  apply (lecp_parse_keeps_setup accept_all lecp_defaults [130; 1; 2] fresh
           (fed [130; 1; 2]) (code_of [130; 1; 2])).
  vm_compute. reflexivity.
Defined.

(** ** The events of a feed *)

(** The reasons that [lecp_parse] has no event of its own for, and FAILED,
    which it keeps for the [reject] label. *)
Definition unusual (r : Z) : bool :=
  one_of [LECPCB_DESTRUCTED; LECPCB_COMPLETE; LECPCB_FAILED] r.

Definition usual (r : Z) : Prop := unusual r = false.

(** The reasons a context holds for later events: [present], and the
    [pop_iss] of its frames. *)
Definition frame_ok (f : lecp_stack) : Prop := usual (st_pop_iss f).

Definition sound (c : lecp_ctx) : Prop :=
  usual (present c) /\ Forall frame_ok (st c).

(** A run of events: usual ones, closed by one FAILED where [may_fail]. *)
Definition calm (evs : list Z) : Prop := Forall usual evs.

Definition trace_ok (may_fail : bool) (evs : list Z) : Prop :=
  calm evs
  \/ (may_fail = true /\ exists e0, evs = e0 ++ [LECPCB_FAILED] /\ calm e0).

(** [m] keeps a sound context sound, returns a value in [P], and adds to
    the log a run of usual events, closed by FAILED only where [fails] says
    so of the value returned. *)
Definition emits {A} (m : M A) (P : A -> Prop) (fails : A -> bool) : Prop :=
  forall w a w', sound (ctx w) -> m w = Some (a, w') ->
    sound (ctx w') /\ P a
    /\ exists evs, log w' = log w ++ evs /\ trace_ok (fails a) (map fst evs).

Definition never {A} : A -> bool := fun _ => false.
Definition any {A} : A -> Prop := fun _ => True.

Definition failing (fl : flow) : bool :=
  match fl with
  | Next => false
  | Return r => is_error r
  end.

Lemma trace_ok_nil b : trace_ok b [].
Proof. left. constructor. Qed.

Lemma trace_ok_app b e1 e2 :
  calm e1 -> trace_ok b e2 -> trace_ok b (e1 ++ e2).
Proof.
  intros H1 [H2|(Hb & e0 & -> & H0)].
  - left. apply Forall_app. split; assumption.
  - right. split; [exact Hb|]. exists (e1 ++ e0).
    split; [apply app_assoc|]. apply Forall_app. split; assumption.
Qed.

Lemma emits_quiet {A} (m : M A) (P : A -> Prop) fails :
  (forall w a w', sound (ctx w) -> m w = Some (a, w') ->
     sound (ctx w') /\ P a /\ log w' = log w) ->
  emits m P fails.
Proof.
  intros H w a w' Hw E. destruct (H _ _ _ Hw E) as (Hs & Hp & Hl).
  split; [exact Hs|]. split; [exact Hp|]. exists [].
  split; [rewrite app_nil_r; exact Hl|apply trace_ok_nil].
Qed.

Lemma emits_ret {A} (a : A) (P : A -> Prop) fails : P a -> emits (ret a) P fails.
Proof.
  intros H. apply emits_quiet. intros w a' w' Hw E. inversion E; subst. auto.
Qed.

Lemma emits_crash {A} (P : A -> Prop) fails : emits (@crash A) P fails.
Proof. intros w a w' _ E. discriminate E. Qed.

Lemma emits_bind {A B} (m : M A) (k : A -> M B) (P : A -> Prop)
      (Q : B -> Prop) fails :
  emits m P never -> (forall a, P a -> emits (k a) Q fails) ->
  emits (bind m k) Q fails.
Proof.
  intros Hm Hk w b w' Hw E. unfold bind in E.
  destruct (m w) as [[a w1]|] eqn:Em; [|discriminate].
  destruct (Hm _ _ _ Hw Em) as (Hs1 & Hp & e1 & Hl1 & Ht1).
  destruct (Hk a Hp _ _ _ Hs1 E) as (Hs2 & Hq & e2 & Hl2 & Ht2).
  split; [exact Hs2|]. split; [exact Hq|]. exists (e1 ++ e2).
  split; [rewrite Hl2, Hl1; symmetry; apply app_assoc|].
  rewrite map_app. apply trace_ok_app; [|exact Ht2].
  destruct Ht1 as [H|(H & _)]; [exact H|discriminate H].
Qed.

Lemma emits_any {A} (m : M A) (P : A -> Prop) fails :
  emits m P fails -> emits m any fails.
Proof.
  intros H w a w' Hw E. destruct (H _ _ _ Hw E) as (Hs & _ & He).
  split; [exact Hs|]. split; [exact I|exact He].
Qed.

Lemma emits_then {A B} (m : M A) (k : A -> M B) (Q : B -> Prop) fails :
  emits m any never -> (forall a, emits (k a) Q fails) ->
  emits (bind m k) Q fails.
Proof. intros Hm Hk. apply (emits_bind m k any); [exact Hm|intros a _; apply Hk]. Qed.

Lemma emits_getc : emits getc sound never.
Proof.
  apply emits_quiet. intros w a w' Hw E. inversion E; subst. auto.
Qed.

Lemma emits_modc (g : lecp_ctx -> lecp_ctx) :
  (forall c, sound c -> sound (g c)) -> emits (modc g) any never.
Proof.
  intros Hg. apply emits_quiet. intros w a w' Hw E. inversion E; subst.
  cbn [ctx log]. split; [apply Hg; exact Hw|]. split; [exact I|reflexivity].
Qed.

Lemma emits_assert b : emits (assert b) any never.
Proof. destruct b; [apply emits_ret; exact I|apply emits_crash]. Qed.

Lemma emits_lift {A} (o : option A) : emits (lift o) (fun a => o = Some a) never.
Proof. destruct o; [apply emits_ret; reflexivity|apply emits_crash]. Qed.

Lemma emits_call_cb fn reason :
  usual reason -> emits (call_cb fn reason) any never.
Proof.
  intros Hr w a w' Hw E. unfold call_cb in E.
  destruct (cb (ctx w) =? 0); inversion E; subst. cbn [ctx log].
  split; [exact Hw|]. split; [exact I|]. eexists. split; [reflexivity|].
  left. repeat constructor. exact Hr.
Qed.

Lemma emits_reject fn r : is_error r = true -> emits (reject fn r) any failing.
Proof.
  intros Hr w a w' Hw E. unfold reject, bind, call_cb, ret in E.
  destruct (cb (ctx w) =? 0); inversion E; subst. cbn [ctx log].
  split; [exact Hw|]. split; [exact I|]. eexists. split; [reflexivity|].
  right. split; [exact Hr|]. exists []. split; [reflexivity|constructor].
Qed.

Lemma emits_check : emits lecp_check_path_match any never.
Proof.
  apply emits_quiet. intros w a w' Hw E.
  unfold lecp_check_path_match, bind, getc, lift, ret, crash in E.
  destruct (check_path_match (ctx w)) as [c'|] eqn:Ec; [|discriminate E].
  inversion E; subst. cbn [ctx log].
  apply check_path_match_outside in Ec.
  unfold outside_match in Ec. 
  assert (E1 : present c' = present (ctx w)) by congruence.
  assert (E2 : st c' = st (ctx w)) by congruence.
  unfold sound in *. rewrite E1, E2.
  split; [exact Hw|]. split; [exact I|reflexivity].
Qed.

Lemma load_In {A} (l : list A) n a : load l n = Some a -> In a l.
Proof.
  unfold load. destruct (n <? 0); [discriminate|]. apply nth_error_In.
Qed.

Lemma Forall_upd {A} (P : A -> Prop) (l : list A) n v :
  Forall P l -> P v -> Forall P (upd l n v).
Proof.
  intros Hl Hv. revert n. induction Hl as [|h t Hh Ht IH]; intros [|n]; cbn;
    constructor; auto.
Qed.

Lemma Forall_store {A} (P : A -> Prop) (l l' : list A) n v :
  store l n v = Some l' -> Forall P l -> P v -> Forall P l'.
Proof.
  unfold store. destruct (_ && _); [|discriminate].
  intros E Hl Hv. inversion E; subst. apply Forall_upd; assumption.
Qed.

Lemma emits_st_get n : emits (st_get n) frame_ok never.
Proof.
  apply emits_quiet. intros w a w' Hw E.
  unfold st_get, bind, getc, lift, ret, crash in E.
  destruct (load (st (ctx w)) n) as [f|] eqn:Ef; [|discriminate E].
  inversion E; subst. split; [exact Hw|]. split; [|reflexivity].
  destruct Hw as [_ Hf]. rewrite Forall_forall in Hf. apply Hf.
  exact (load_In _ _ _ Ef).
Qed.

Lemma emits_st_mod n g :
  (forall f, frame_ok f -> frame_ok (g f)) -> emits (st_mod n g) any never.
Proof.
  intros Hg. apply emits_quiet. intros w a w' Hw E.
  unfold st_mod, bind, getc, lift, modc, ret, crash in E.
  destruct (load (st (ctx w)) n) as [f|] eqn:Ef; [|discriminate E].
  cbv beta iota in E.
  destruct (store (st (ctx w)) n (g f)) as [l|] eqn:El; [|discriminate E].
  inversion E; subst. cbn [ctx log]. split; [|split; [exact I|reflexivity]].
  destruct Hw as [Hp Hf]. split; [exact Hp|]. cbn [st set_st].
  apply (Forall_store _ _ _ _ _ El Hf). apply Hg.
  rewrite Forall_forall in Hf. apply Hf. exact (load_In _ _ _ Ef).
Qed.

Lemma emits_top : emits top frame_ok never.
Proof.
  unfold top. eapply emits_bind; [apply emits_getc|].
  intros c _. apply emits_st_get.
Qed.

Lemma emits_top_mod g :
  (forall f, frame_ok f -> frame_ok (g f)) -> emits (top_mod g) any never.
Proof.
  intros Hg. unfold top_mod. eapply emits_bind; [apply emits_getc|].
  intros c _. apply emits_st_mod. exact Hg.
Qed.

Lemma emits_parent : emits lwcp_st_parent frame_ok never.
Proof.
  unfold lwcp_st_parent. eapply emits_bind; [apply emits_getc|].
  intros c _. apply emits_then; [apply emits_assert|].
  intros _. apply emits_st_get.
Qed.

(** The side conditions: a reason is usual, a write keeps a context or a
    frame sound. *)
Ltac usual_reason :=
  first
    [ reflexivity
    | assumption
    | match goal with
      | H : sound ?c |- usual (present ?c) => exact (proj1 H)
      | H : frame_ok ?f |- usual (st_pop_iss ?f) => exact H
      end
    | repeat match goal with
             | |- context [if ?b then _ else _] => destruct b
             end;
      reflexivity ].

Ltac stays_sound :=
  first
    [ let c := fresh "c" in
      let Hp := fresh "Hp" in
      let Hf := fresh "Hf" in
      intros c [Hp Hf]; split; cbn; first [assumption | reflexivity]
    | let f := fresh "f" in
      let Hf := fresh "Hf" in
      intros f Hf; unfold frame_ok in *; cbn;
      first [assumption | reflexivity] ].

Ltac emit :=
  repeat first
    [ match goal with
      | H : context [emits] |- emits _ _ _ => apply H
      end
    | apply emits_ret; exact I
    | apply emits_crash
    | apply emits_assert
    | apply emits_check
    | apply emits_call_cb; usual_reason
    | apply emits_reject; reflexivity
    | apply emits_modc; stays_sound
    | apply emits_st_mod; stays_sound
    | apply emits_top_mod; stays_sound
    | eapply emits_bind; [apply emits_getc|intros ? ?]
    | eapply emits_bind; [apply emits_top|intros ? ?]
    | eapply emits_bind; [apply emits_parent|intros ? ?]
    | eapply emits_bind; [apply emits_st_get|intros ? ?]
    | eapply emits_bind; [apply emits_lift|intros ? ?]
    | apply emits_then; [|intros ?]
    | progress cbv beta zeta
    | match goal with
      | |- emits (if ?b then _ else _) _ _ => destruct b
      | |- emits (match ?x with Next => _ | Return _ => _ end) _ _ =>
          destruct x
      | |- emits (match st_s ?f with _ => _ end) _ _ => destruct (st_s f)
      end ].

Section Events.
Variable fn : Z -> lecp_callback.
Variable L : lecp_limits.

Lemma emits_path_put n v : emits (path_put n v) any never.
Proof. unfold path_put. emit. Qed.

Lemma emits_buf_put n v : emits (buf_put n v) any never.
Proof. unfold buf_put. emit. Qed.

Lemma emits_i_put n v : emits (i_put n v) any never.
Proof. unfold i_put. emit. Qed.

Lemma emits_ex len : emits (ex len) any never.
Proof. unfold ex. emit. Qed.

Lemma emits_clear_buf : emits clear_buf any never.
Proof. pose proof emits_buf_put. unfold clear_buf. emit. Qed.

Lemma emits_push s_start s_end state :
  usual s_start -> usual s_end ->
  emits (lecp_push fn L s_start s_end state) any never.
Proof.
  intros Hs He. unfold lecp_push.
  eapply emits_bind; [apply emits_getc|intros c Hc].
  destruct (_ =? _); [emit|].
  apply emits_then; [emit|intros r].
  destruct (nonzero r); [emit|].
  apply emits_then; [apply emits_top_mod; intros f _; exact He|intros _].
  eapply emits_bind; [apply emits_top|intros f Hf].
  eapply emits_bind; [apply emits_getc|intros c1 Hc1].
  eapply emits_bind; [apply emits_lift|intros l Hl].
  apply emits_then; [|intros _; emit].
  apply emits_modc. intros c2 [Hp _]. split; [exact Hp|].
  cbn [st set_st]. exact (Forall_store _ _ _ _ _ Hl (proj2 Hc1) Hf).
Qed.

Lemma emits_pop : emits (lecp_pop fn) any never.
Proof.
  pose proof emits_path_put. unfold lecp_pop. emit.
Qed.

Lemma emits_walk n :
  forall il indet, emits (completed_walk fn n il indet) any never.
Proof.
  pose proof emits_pop. pose proof emits_i_put.
  induction n as [|n IH]; intros il indet; cbn [completed_walk]; emit.
Qed.

Lemma emits_completed indet : emits (lwcp_completed fn indet) any never.
Proof. pose proof emits_walk. unfold lwcp_completed. emit. Qed.

Lemma emits_is_indet : emits lwcp_is_indet_string any never.
Proof. unfold lwcp_is_indet_string. emit. Qed.

Lemma emits_copy n : forall dst src, emits (copy_to_path n dst src) any never.
Proof.
  pose proof emits_path_put.
  induction n as [|n IH]; intros dst src; cbn [copy_to_path]; emit.
Qed.

End Events.

Section EventsOfParse.
Variable fn : Z -> lecp_callback.
Variable L : lecp_limits.

Lemma emits_start_tag : emits (start_tag_enclosure fn L) any failing.
Proof.
  unfold start_tag_enclosure.
  eapply emits_bind; [apply emits_getc|intros c Hc].
  apply emits_then; [emit|intros _].
  apply emits_then; [apply emits_push; reflexivity|intros r].
  emit.
Qed.

Lemma emits_issue : emits (issue fn L) any failing.
Proof.
  pose proof emits_start_tag. pose proof (emits_completed fn).
  unfold issue. emit.
Qed.

Lemma emits_i2 sm : emits (i2 fn sm) any failing.
Proof. pose proof emits_ex. unfold i2. emit. Qed.

Lemma emits_opc_string sm to :
  to = 0 \/ to = LECPCB_VAL_BLOB_END - LECPCB_VAL_STR_END ->
  emits (opc_string fn L sm to) any failing.
Proof.
  intros Hto.
  pose proof emits_clear_buf. pose proof emits_i2.
  pose proof (emits_completed fn).
  assert (Hpush : forall s, emits (lecp_push fn L 0 (LECPCB_VAL_STR_END + to) s)
                              any never).
  { intros s. destruct Hto as [-> | ->]; apply emits_push; reflexivity. }
  unfold opc_string.
  assert (Hs : usual (LECPCB_VAL_STR_START + to))
    by (destruct Hto as [-> | ->]; reflexivity).
  assert (He : usual (LECPCB_VAL_STR_END + to))
    by (destruct Hto as [-> | ->]; reflexivity).
  emit.
Qed.

Lemma emits_opc_array sm : emits (opc_array fn L sm) any failing.
Proof.
  pose proof emits_clear_buf. pose proof emits_i2.
  pose proof emits_path_put. pose proof emits_i_put.
  pose proof (emits_completed fn).
  assert (Hpush : forall s, emits (lecp_push fn L 0 LECPCB_ARRAY_END s)
                              any never)
    by (intros s; apply emits_push; reflexivity).
  unfold opc_array. emit.
Qed.

Lemma emits_opc_map sm : emits (opc_map fn L sm) any failing.
Proof.
  pose proof emits_clear_buf. pose proof emits_i2.
  pose proof emits_path_put. pose proof (emits_completed fn).
  assert (Hpush : forall s, emits (lecp_push fn L 0 LECPCB_OBJECT_END s)
                              any never)
    by (intros s; apply emits_push; reflexivity).
  unfold opc_map. emit.
Qed.

Lemma emits_opc_float sm : emits (opc_float fn L sm) any failing.
Proof.
  pose proof emits_issue. pose proof emits_ex.
  pose proof (emits_completed fn).
  unfold opc_float. emit.
Qed.

Lemma emits_parse_opc ch : emits (parse_opc fn L ch) any failing.
Proof.
  pose proof emits_issue. pose proof emits_i2. pose proof emits_start_tag.
  pose proof emits_opc_array. pose proof emits_opc_map.
  pose proof emits_opc_float.
  assert (Hb : forall sm, emits (opc_string fn L sm
                                   (LECPCB_VAL_BLOB_END - LECPCB_VAL_STR_END))
                                any failing)
    by (intros sm; apply emits_opc_string; right; reflexivity).
  assert (Ht : forall sm, emits (opc_string fn L sm 0) any failing)
    by (intros sm; apply emits_opc_string; left; reflexivity).
  unfold parse_opc. emit.
Qed.

Lemma emits_parse_collect ch : emits (parse_collect fn L ch) any failing.
Proof.
  pose proof emits_issue. pose proof emits_start_tag.
  pose proof emits_clear_buf.
  assert (Ha : forall s, emits (lecp_push fn L 0 LECPCB_ARRAY_END s) any never)
    by (intros s; apply emits_push; reflexivity).
  assert (Hm : forall s, emits (lecp_push fn L 0 LECPCB_OBJECT_END s) any never)
    by (intros s; apply emits_push; reflexivity).
  unfold parse_collect. emit.
Qed.

Lemma emits_parse_simplex8 ch : emits (parse_simplex8 fn ch) any failing.
Proof. pose proof (emits_completed fn). unfold parse_simplex8. emit. Qed.

Lemma emits_parse_collate ch : emits (parse_collate fn L ch) any failing.
Proof.
  pose proof emits_clear_buf. pose proof emits_buf_put.
  pose proof emits_copy. pose proof emits_is_indet.
  pose proof (emits_completed fn).
  unfold parse_collate. emit.
Qed.

Lemma emits_parse_only_same ch : emits (parse_only_same fn ch) any failing.
Proof.
  pose proof emits_i2. pose proof (emits_completed fn).
  unfold parse_only_same. emit.
Qed.

Lemma emits_parse_byte ch : emits (parse_byte fn L ch) any failing.
Proof.
  pose proof emits_parse_opc. pose proof emits_parse_collect.
  pose proof emits_parse_simplex8. pose proof emits_parse_collate.
  pose proof emits_parse_only_same.
  unfold parse_byte. emit.
Qed.

Lemma emits_parse cbor : emits (lecp_parse fn L cbor) any is_error.
Proof.
  induction cbor as [|ch rest IH]; cbn [lecp_parse].
  - unfold parse_end. emit.
  - intros w r w' Hw E. unfold bind in E.
    destruct (parse_byte fn L ch w) as [[fl w1]|] eqn:Eb; [|discriminate E].
    destruct (emits_parse_byte ch _ _ _ Hw Eb) as (Hs1 & _ & e1 & Hl1 & Ht1).
    destruct fl as [|r0].
    + destruct (IH _ _ _ Hs1 E) as (Hs2 & _ & e2 & Hl2 & Ht2).
      split; [exact Hs2|]. split; [exact I|]. exists (e1 ++ e2).
      split; [rewrite Hl2, Hl1; symmetry; apply app_assoc|].
      rewrite map_app. apply trace_ok_app; [|exact Ht2].
      destruct Ht1 as [H|(H & _)]; [exact H|discriminate H].
    + inversion E; subst. split; [exact Hs1|]. split; [exact I|].
      exists e1. split; [exact Hl1|exact Ht1].
Qed.
End EventsOfParse.

Lemma calm_not_in evs r : calm evs -> unusual r = true -> ~ In r evs.
Proof.
  intros Hc Hr Hin. unfold calm in Hc. rewrite Forall_forall in Hc.
  specialize (Hc _ Hin). unfold usual in Hc. congruence.
Qed.

Lemma initial_sound L host_be cb0 user0 paths0 n b :
  sound (initial L host_be cb0 user0 paths0 n b).
Proof.
  split; [reflexivity|].
  change (Forall frame_ok (repeat frame0 (Z.to_nat (LECP_MAX_DEPTH L)))).
  apply Forall_forall. intros f Hf. apply repeat_spec in Hf. subst f.
  reflexivity.
Qed.

Lemma lecp_construct_steps fn L host_be cb0 user0 paths0 n w :
  lecp_construct fn L host_be cb0 user0 paths0 n w
  = (st_mod 0 (set_st_s LECP_OPC) ;;
     _ <- call_cb fn LECPCB_CONSTRUCTED ;; ret tt)
      {| ctx := initial L host_be cb0 user0 paths0 n (buf (ctx w));
         log := log w |}.
Proof. reflexivity. Qed.

Lemma constructed_sound fn L host_be cb0 user0 paths0 n w w' :
  lecp_construct fn L host_be cb0 user0 paths0 n w = Some (tt, w') ->
  sound (ctx w').
Proof.
  rewrite lecp_construct_steps. intros H.
  assert (He : emits (st_mod 0 (set_st_s LECP_OPC) ;;
                      _ <- call_cb fn LECPCB_CONSTRUCTED ;; ret tt)
                     any never) by emit.
  exact (proj1 (He {| ctx := initial L host_be cb0 user0 paths0 n
                                      (buf (ctx w));
                      log := log w |} tt w'
                   (initial_sound L host_be cb0 user0 paths0 n (buf (ctx w)))
                   H)).
Qed.

(** X4.  FAILED closes a feed that failed, and no other: the events that a
    call of [lecp_parse] delivers come behind those delivered before, and
    among them FAILED can only be the last, once, with an error code
    returned.  (The context is sound: it holds no reason for a later event
    that is FAILED, COMPLETE or DESTRUCTED, as after [lecp_construct], and
    it is sound again after the call.) *)
Theorem FAILED_only_closes_a_failed_feed :
  forall fn L host_be cb0 user0 paths0 n (cbor : list Z) (w0 w w' : world)
         (r : Z),
    lecp_construct fn L host_be cb0 user0 paths0 n w0 = Some (tt, w)
    \/ sound (ctx w) ->
    lecp_parse fn L cbor w = Some (r, w') ->
    sound (ctx w')
    /\ exists evs,
         log w' = log w ++ evs
         /\ (~ In LECPCB_FAILED (map fst evs)
             \/ (is_error r = true
                 /\ exists e0 c, evs = e0 ++ [(LECPCB_FAILED, c)]
                                 /\ ~ In LECPCB_FAILED (map fst e0))).
Proof.
  intros fn L host_be cb0 user0 paths0 n cbor w0 w w' r Hw H.
  assert (Hs : sound (ctx w))
    by (destruct Hw as [Hc|Hs]; [exact (constructed_sound _ _ _ _ _ _ _ _ _ Hc)
                                |exact Hs]).
  destruct (emits_parse fn L cbor _ _ _ Hs H) as (Hs' & _ & evs & Hlog & Ht).
  split; [exact Hs'|]. exists evs. split; [exact Hlog|].
  destruct Ht as [Hc|(Hr & e0 & He & Hc)].
  - left. apply calm_not_in; [exact Hc|reflexivity].
  - right. split; [exact Hr|].
    destruct (exists_last (l := evs)) as (e1 & [r1 c] & E).
    { intros E. rewrite E in He. destruct e0; discriminate He. }
    rewrite E, map_app in He.
    change (map fst [(r1, c)]) with [r1] in He.
    apply app_inj_tail in He. destruct He as [He1 He2]. subst r1.
    exists e1, c. split; [exact E|]. subst e0.
    apply calm_not_in; [exact Hc|reflexivity].
Qed.

(** X5.  [lecp_parse] delivers neither COMPLETE nor DESTRUCTED, whatever
    it is fed. *)
Theorem lecp_parse_never_delivers_COMPLETE :
  forall fn L host_be cb0 user0 paths0 n (cbor : list Z) (w0 w w' : world)
         (r : Z),
    lecp_construct fn L host_be cb0 user0 paths0 n w0 = Some (tt, w)
    \/ sound (ctx w) ->
    lecp_parse fn L cbor w = Some (r, w') ->
    exists evs,
      log w' = log w ++ evs
      /\ ~ In LECPCB_COMPLETE (map fst evs)
      /\ ~ In LECPCB_DESTRUCTED (map fst evs).
Proof.
  intros fn L host_be cb0 user0 paths0 n cbor w0 w w' r Hw H.
  assert (Hs : sound (ctx w))
    by (destruct Hw as [Hc|Hs]; [exact (constructed_sound _ _ _ _ _ _ _ _ _ Hc)
                                |exact Hs]).
  destruct (emits_parse fn L cbor _ _ _ Hs H) as (_ & _ & evs & Hlog & Ht).
  exists evs. split; [exact Hlog|].
  destruct Ht as [Hc|(_ & e0 & He & Hc)].
  - split; apply calm_not_in; try exact Hc; reflexivity.
  - rewrite He.
    split; intros Hin; apply in_app_or in Hin;
      (destruct Hin as [Hin|[Hin|[]]]; [|discriminate Hin]);
      revert Hin; apply calm_not_in; try exact Hc; reflexivity.
Qed.

Lemma FAILED_only_closes_a_failed_feed_witness :
  sound (ctx (fed [28]))
  /\ exists evs,
       log (fed [28]) = log fresh ++ evs
       /\ (~ In LECPCB_FAILED (map fst evs)
           \/ (is_error (code_of [28]) = true
               /\ exists e0 c, evs = e0 ++ [(LECPCB_FAILED, c)]
                               /\ ~ In LECPCB_FAILED (map fst e0))).
Proof.
  apply (FAILED_only_closes_a_failed_feed accept_all lecp_defaults false 1 0
           [] 0 [28] (blank lecp_defaults) fresh (fed [28]) (code_of [28]));
    [left|]; vm_compute; reflexivity.
Defined.

Lemma lecp_parse_never_delivers_COMPLETE_witness :
  exists evs,
    log (fed [0]) = log fresh ++ evs
    /\ ~ In LECPCB_COMPLETE (map fst evs)
    /\ ~ In LECPCB_DESTRUCTED (map fst evs).
Proof.
  apply (lecp_parse_never_delivers_COMPLETE accept_all lecp_defaults false 1
           0 [] 0 [0] (blank lecp_defaults) fresh (fed [0]) (code_of [0]));
    [left|]; vm_compute; reflexivity.
Defined.

(** ** The extension byte of a simple value *)

Lemma simple_low :
  forall g L host_be cb0 user0 paths0 n (w : world) c,
    cb0 <> 0 -> 0 < LECP_MAX_DEPTH L ->
    0 <= c <= 31 ->
    exists w',
      session g L host_be cb0 user0 paths0 n [248; c] w
      = Some (LECP_REJECT_BAD_CODING, w')
      /\ reasons w' = reasons w ++ [LECPCB_CONSTRUCTED; LECPCB_FAILED].
Proof.
  intros g L host_be cb0 user0 paths0 n w c Hcb HD Hc.
  pattern c; apply (range_cases _ 0 32); [|lia].
  cbn [seq map]. unfold reasons.
  split_Forall; start_session Hcb HD;
    run_parser; (eexists; split; [reflexivity|]);
    lazy -[app map]; rewrite !map_app, <- !app_assoc; reflexivity.
Qed.

Lemma simple_high :
  forall g L host_be cb0 user0 paths0 n (w : world) c,
    cb0 <> 0 -> 0 < LECP_MAX_DEPTH L ->
    32 <= c <= 255 ->
    delivered (session (answering (one_of [LECPCB_VAL_SIMPLE]) g) L host_be
                       cb0 user0 paths0 n [248; c] w)
              w LECPCB_VAL_SIMPLE (fun x => x) c.
Proof.
  intros g L host_be cb0 user0 paths0 n w c Hcb HD Hc.
  pattern c; apply (range_cases _ 32 224); [|lia].
  cbn [seq map]. unfold delivered.
  split_Forall; start_session Hcb HD; run_parser;
    (eexists; eexists; eexists; split; [reflexivity|]);
    (split; [rewrite <- app_assoc; reflexivity | reflexivity]).
Qed.

(** X6.  The byte that follows the head byte [0xF8] of a simple value: a
    value up to 31, which the head byte itself could carry, is refused with
    [LECP_REJECT_BAD_CODING] after FAILED; a value from 32 on is delivered
    with VAL_SIMPLE and the feed returns 0. *)
Theorem simple_value_extension_byte :
  forall g L host_be cb0 user0 paths0 n (w : world) c,
    cb0 <> 0 -> 0 < LECP_MAX_DEPTH L -> 0 <= c <= 255 ->
    (c <= 31 ->
     exists w',
       session (answering (one_of [LECPCB_VAL_SIMPLE]) g) L host_be cb0 user0
               paths0 n [248; c] w
       = Some (LECP_REJECT_BAD_CODING, w')
       /\ reasons w' = reasons w ++ [LECPCB_CONSTRUCTED; LECPCB_FAILED])
    /\ (32 <= c ->
        delivered (session (answering (one_of [LECPCB_VAL_SIMPLE]) g) L
                           host_be cb0 user0 paths0 n [248; c] w)
                  w LECPCB_VAL_SIMPLE (fun x => x) c).
Proof.
  intros g L host_be cb0 user0 paths0 n w c Hcb HD Hc. split; intros H.
  - apply simple_low; [assumption|assumption|lia].
  - apply simple_high; [assumption|assumption|lia].
Qed.

Lemma simple_value_extension_byte_witness :
  delivered (session (answering (one_of [LECPCB_VAL_SIMPLE]) refuse_all)
                     lecp_defaults false 1 0 [] 0 [248; 200]
                     (blank lecp_defaults))
            (blank lecp_defaults) LECPCB_VAL_SIMPLE (fun x => x) 200.
Proof.
  assert (Hcb : 1 <> 0) by discriminate.
  assert (HD : 0 < LECP_MAX_DEPTH lecp_defaults) by reflexivity.
  assert (Hc : 0 <= 200 <= 255) by lia.
  apply (proj2 (simple_value_extension_byte refuse_all lecp_defaults false 1
                  0 [] 0 (blank lecp_defaults) 200 Hcb HD Hc)).
  lia.
Defined.

(** ** Floats and tags *)

Definition floats : list Z :=
  [LECPCB_VAL_FLOAT16; LECPCB_VAL_FLOAT32; LECPCB_VAL_FLOAT64].

(** X7.  A float of 2, 4 or 8 bytes (head bytes [0xF9], [0xFA], [0xFB]) is
    delivered with VAL_FLOAT16, VAL_FLOAT32 or VAL_FLOAT64, the item holding
    the bits that the bytes spell in network order (the widths 2 and 4 on a
    little-endian host, the width 8 on any host). *)
Theorem float_bits :
  forall g L host_be cb0 user0 paths0 n (w : world) k arg,
    cb0 <> 0 -> 0 < LECP_MAX_DEPTH L -> buf (ctx w) <> [] ->
    1 <= k <= 3 -> host_be = false \/ k = 3 ->
    0 <= arg < 2 ^ (8 * 2 ^ k) ->
    delivered (session (answering (one_of floats) g) L host_be cb0 user0
                       paths0 n (248 + k :: be_bytes (Z.to_nat (2 ^ k)) arg) w)
              w (LECPCB_VAL_FLOAT16 + (k - 1)) (fun x => x) arg.
Proof.
  intros g L host_be cb0 user0 paths0 n w k arg Hcb HD Hbuf Hk.
  pattern k; apply (range_cases _ 1 3); [|lia].
  cbn [seq map]. unfold delivered.
  split_Forall.
  all: intros Hbe Harg.
  all: assert (Hb : host_be = false \/ host_be = true)
    by (destruct host_be; auto).
  all: destruct Hb as [-> | ->]; [|try (exfalso; lia)].
  all: start_session Hcb HD.
  all: run_parser.
  all: (eexists; eexists; eexists; split; [reflexivity|]).
  all: (split; [rewrite <- app_assoc; reflexivity|]).
  all: cbn in Harg; cbv beta; cbn [item_u64].
  all: match type of Harg with
       | _ <= _ < 65536 => by_collected 2%nat arg Harg
       | _ <= _ < 4294967296 => by_collected 4%nat arg Harg
       | _ => by_collected 8%nat arg Harg
       end.
Qed.

Lemma float_bits_witness :
  delivered (session (answering (one_of floats) refuse_all) lecp_defaults
                     false 1 0 [] 0
                     (248 + 2 :: be_bytes (Z.to_nat (2 ^ 2)) 1078530011)
                     (blank lecp_defaults))
            (blank lecp_defaults) (LECPCB_VAL_FLOAT16 + (2 - 1)) (fun x => x)
            1078530011.
Proof.
  apply float_bits;
    [discriminate | reflexivity | apply blank_buf | lia
     | left; reflexivity | cbn; lia].
Defined.

(** A session on [w] that ends with return code 0 after delivering, past
    CONSTRUCTED, the events of a tagged item: TAG_START, the event [reason]
    of the item, and TAG_END, the frame on top of the stack holding the tag
    number [tag] at TAG_START and at TAG_END. *)
Definition tag_of (c : lecp_ctx) : option Z :=
  match load (st c) (sp c) with
  | Some f => Some (st_tag f)
  | None => None
  end.

Definition tagged (o : option (Z * world)) (w : world) (reason tag : Z)
  : Prop :=
  exists c0 c1 c2 c3 w',
    o = Some (0, w')
    /\ log w' = log w ++ [(LECPCB_CONSTRUCTED, c0); (LECPCB_TAG_START, c1);
                          (reason, c2); (LECPCB_TAG_END, c3)]
    /\ tag_of c1 = Some tag /\ tag_of c3 = Some tag
    /\ sp c1 = 0 /\ sp c2 = 1 /\ sp c3 = 0.

Definition tag_events : list Z :=
  [LECPCB_TAG_START; LECPCB_TAG_END; LECPCB_VAL_NUM_UINT].

Lemma immediate_tags :
  forall g host_be cb0 user0 (w : world) m,
    cb0 <> 0 -> buf (ctx w) <> [] -> 0 <= m < 24 ->
    tagged (session (answering (one_of tag_events) g) lecp_defaults host_be
                    cb0 user0 [] 0 [192 + m; 0] w)
           w LECPCB_VAL_NUM_UINT m.
Proof.
  intros g host_be cb0 user0 w m Hcb Hbuf Hm.
  pattern m; apply (range_cases _ 0 24); [|lia].
  cbn [seq map]. unfold tagged.
  split_Forall; start_default_session Hcb Hbuf; run_parser;
    (do 5 eexists; split; [reflexivity|]);
    (split; [rewrite <- !app_assoc; reflexivity|]);
    repeat split; reflexivity.
Qed.

Lemma argument_tags :
  forall g host_be cb0 user0 (w : world) k arg,
    cb0 <> 0 -> buf (ctx w) <> [] ->
    0 <= k <= 3 -> host_be = false \/ k = 3 ->
    0 <= arg < 2 ^ (8 * 2 ^ k) ->
    tagged (session (answering (one_of tag_events) g) lecp_defaults host_be
                    cb0 user0 [] 0
                    (216 + k :: be_bytes (Z.to_nat (2 ^ k)) arg ++ [0]) w)
           w LECPCB_VAL_NUM_UINT arg.
Proof.
  intros g host_be cb0 user0 w k arg Hcb Hbuf Hk.
  pattern k; apply (range_cases _ 0 4); [|lia].
  cbn [seq map]. unfold tagged.
  split_Forall.
  all: intros Hbe Harg.
  all: assert (Hb : host_be = false \/ host_be = true)
    by (destruct host_be; auto).
  all: destruct Hb as [-> | ->]; [|try (exfalso; lia)].
  all: match goal with
       | |- context [?a ++ [0]] =>
           let v := eval lazy -[byte_of] in (a ++ [0]) in
           change (a ++ [0]) with v
       end.
  all: start_default_session Hcb Hbuf.
  all: run_parser.
  all: (do 5 eexists; split; [reflexivity|]).
  all: (split; [rewrite <- !app_assoc; reflexivity|]).
  all: cbn in Harg; cbv beta.
  all: (split; [|split; [|repeat split; reflexivity]]).
  all: unfold tag_of; cbn [st sp load Z.ltb Z.compare nth_error Z.to_nat st_tag].
  all: f_equal.
  all: match type of Harg with
       | _ <= _ < 256 => by_collected 1%nat arg Harg
       | _ <= _ < 65536 => by_collected 2%nat arg Harg
       | _ <= _ < 4294967296 => by_collected 4%nat arg Harg
       | _ => by_collected 8%nat arg Harg
       end.
Qed.

(** X8.  A tag delivers TAG_START with its number in the [tag] member of
    the frame on top of the stack, then the events of the item it encloses,
    then TAG_END, the frame with the number on top again; the number being
    the minor of the head byte or the 1, 2, 4 or 8 bytes that follow it in
    network order (the widths 1, 2 and 4 on a little-endian host). *)
Theorem tag_numbers :
  forall g host_be cb0 user0 (w : world) m k arg,
    cb0 <> 0 -> buf (ctx w) <> [] ->
    (0 <= m < 24 ->
     tagged (session (answering (one_of tag_events) g) lecp_defaults host_be
                     cb0 user0 [] 0 [192 + m; 0] w)
            w LECPCB_VAL_NUM_UINT m)
    /\ (0 <= k <= 3 -> host_be = false \/ k = 3 ->
        0 <= arg < 2 ^ (8 * 2 ^ k) ->
        tagged (session (answering (one_of tag_events) g) lecp_defaults
                        host_be cb0 user0 [] 0
                        (216 + k :: be_bytes (Z.to_nat (2 ^ k)) arg ++ [0]) w)
               w LECPCB_VAL_NUM_UINT arg).
Proof.
  intros g host_be cb0 user0 w m k arg Hcb Hbuf. split.
  - intros Hm. apply immediate_tags; assumption.
  - intros Hk Hbe Harg. apply argument_tags; assumption.
Qed.

Lemma tag_numbers_witness :
  tagged (session (answering (one_of tag_events) refuse_all) lecp_defaults
                  false 1 0 [] 0
                  (216 + 1 :: be_bytes (Z.to_nat (2 ^ 1)) 55799 ++ [0])
                  (blank lecp_defaults))
         (blank lecp_defaults) LECPCB_VAL_NUM_UINT 55799.
Proof.
  assert (Hcb : 1 <> 0) by discriminate.
  apply (proj2 (tag_numbers refuse_all false 1 0 (blank lecp_defaults) 0 1
                  55799 Hcb blank_buf));
    [lia | left; reflexivity | cbn; lia].
Defined.

(** ** Patterns without a wildcard *)

Lemma stars_literal q : ~ In 42 q -> stars q = O.
Proof.
  induction q as [|qc q IH]; intros H; cbn [stars]; [reflexivity|].
  destruct (qc =? 42) eqn:E.
  - apply Z.eqb_eq in E. exfalso. apply H. left. exact E.
  - apply IH. intros Hq. apply H. right. exact Hq.
Qed.

(** Without a [*] the scan is a comparison of the two strings. *)
Lemma literal_scan q : ~ In 42 q -> forall p off ws,
  scan_offsets q p off = Some ws <-> q = p /\ ws = [].
Proof.
  induction q as [|qc q IH]; intros H p off ws.
  - destruct p; cbn; split.
    + intros E. inversion E. auto.
    + intros [_ ->]. reflexivity.
    + discriminate.
    + intros [E _]. discriminate E.
  - destruct p as [|pc p]; [split; [discriminate|intros [E _]; discriminate E]|].
    cbn [scan_offsets].
    assert (Hq : qc <> 42) by (intros E; apply H; left; exact E).
    apply Z.eqb_neq in Hq. rewrite Hq. cbn [negb].
    assert (H' : ~ In 42 q) by (intros E; apply H; right; exact E).
    destruct (pc =? qc) eqn:Ep; cbn [negb].
    + apply Z.eqb_eq in Ep. subst pc. rewrite (IH H' p (off + 1) ws).
      split; intros [E1 E2]; (split; [congruence|exact E2]).
    + apply Z.eqb_neq in Ep. split; [discriminate|].
      intros [E _]. inversion E. congruence.
Qed.

(** X9.  Patterns without [*] match by equality: when no match is active,
    [lecp_check_path_match] records the one-based index of the first
    pattern that is the path, character for character, with the length of
    the path, and 0 when no pattern is the path; no wildcard is counted. *)
Theorem literal_patterns_match_by_equality :
  forall c : lecp_ctx,
    path_match c = 0 ->
    count_paths c = Z.of_nat (length (paths c)) ->
    count_paths c <= 255 ->
    (length (wild c) <= 255)%nat ->
    Forall (fun q => ~ In 42 (cstr q)) (paths c) ->
    exists c',
      check_path_match c = Some c'
      /\ wildcount c' = 0
      /\ ((exists k q,
              nth_error (paths c) k = Some q
              /\ cstr q = cstr (path c)
              /\ (forall m q', (m < k)%nat -> nth_error (paths c) m = Some q' ->
                               cstr q' <> cstr (path c))
              /\ path_match c' = Z.of_nat k + 1
              /\ path_match_len c' = ppos c)
          \/ ((forall m q', nth_error (paths c) m = Some q' ->
                            cstr q' <> cstr (path c))
              /\ path_match c' = 0)).
Proof.
  intros c Hno Hcount Hmax Hcap Hlit.
  assert (Hstars : Forall (fun q => (stars (cstr q) <= length (wild c))%nat)
                          (paths c)).
  { eapply Forall_impl; [|exact Hlit]. cbv beta. intros q Hq.
    rewrite (stars_literal _ Hq). lia. }
  destruct (match_from_spec (paths c) 0 c) as (l' & n' & Hlen & Hm);
    [lia | lia | reflexivity | exact Hcap | exact Hstars |].
  unfold check_path_match, nonzero. rewrite Hno. cbn [Z.eqb negb].
  rewrite Hcount, Nat2Z.id.
  pose proof (first_match_spec (paths c) (cstr (path c)) 0) as Hf.
  rewrite Forall_forall in Hlit.
  destruct (first_match (paths c) (cstr (path c)) 0) as [[idx ws]|].
  - destruct Hm as (Hrun & Hn' & Hw). rewrite Hrun.
    destruct Hf as (k & q & Hk & Hidx & Hs & Hfirst).
    apply (literal_scan _ (Hlit _ (nth_error_In _ _ Hk))) in Hs.
    destruct Hs as [Hq ->]. cbn [length] in Hn'.
    eexists. split; [reflexivity|]. split; [exact Hn'|]. left. exists k, q.
    split; [exact Hk|]. split; [exact Hq|]. split.
    { intros m q' Hlt Hq' E. specialize (Hfirst m q' Hlt Hq').
      assert (Hs : scan_offsets (cstr q') (cstr (path c)) 0 = Some []).
      { apply (literal_scan _ (Hlit _ (nth_error_In _ _ Hq'))). auto. }
      rewrite Hfirst in Hs. discriminate Hs. }
    cbn. split; [lia|reflexivity].
  - rewrite Hm. cbn [path_match set_wildcount set_wild]. rewrite Hno.
    cbn [Z.eqb negb]. eexists. split; [reflexivity|]. split; [reflexivity|].
    right. split; [|exact Hno].
    intros m q' Hq' E. specialize (Hf m q' Hq').
    assert (Hs : scan_offsets (cstr q') (cstr (path c)) 0 = Some []).
    { apply (literal_scan _ (Hlit _ (nth_error_In _ _ Hq'))). auto. }
    rewrite Hf in Hs. discriminate Hs.
Qed.

(** A context at the path [".a"] with the patterns [".b"] and [".a"]. *)
Definition at_key_literal : lecp_ctx :=
  set_paths [[46; 98]; [46; 97]]
    (set_count_paths 2
       (set_ppos 2 (set_path [46; 97; 0; 0] (memset0 lecp_defaults [])))).

Lemma literal_patterns_match_by_equality_witness :
  exists c',
    check_path_match at_key_literal = Some c'
    /\ wildcount c' = 0
    /\ ((exists k q,
            nth_error (paths at_key_literal) k = Some q
            /\ cstr q = cstr (path at_key_literal)
            /\ (forall m q', (m < k)%nat ->
                   nth_error (paths at_key_literal) m = Some q' ->
                   cstr q' <> cstr (path at_key_literal))
            /\ path_match c' = Z.of_nat k + 1
            /\ path_match_len c' = ppos at_key_literal)
        \/ ((forall m q', nth_error (paths at_key_literal) m = Some q' ->
                          cstr q' <> cstr (path at_key_literal))
            /\ path_match c' = 0)).
Proof.
  apply literal_patterns_match_by_equality.
  - reflexivity.
  - reflexivity.
  - vm_compute. discriminate.
  - vm_compute. lia.
  - repeat constructor; vm_compute; intros [H|[H|[]]]; discriminate H.
Defined.

(** ** Running the parser on a context known in part *)

Definition runs {A} (m : M A) (w : world) (a : A) (w' : world) : Prop :=
  m w = Some (a, w').

Lemma runs_ret {A} (a : A) w : runs (ret a) w a w.
Proof. reflexivity. Qed.

Lemma runs_bind {A B} (m : M A) (k : A -> M B) w a w1 b w2 :
  runs m w a w1 -> runs (k a) w1 b w2 -> runs (bind m k) w b w2.
Proof. unfold runs, bind. intros -> H. exact H. Qed.

Lemma runs_assoc {A B C} (m : M A) (f : A -> M B) (k : B -> M C) w c w' :
  runs (bind m (fun a => bind (f a) k)) w c w' ->
  runs (bind (bind m f) k) w c w'.
Proof.
  unfold runs, bind. destruct (m w) as [[a w1]|]; intros H; exact H.
Qed.

Lemma runs_getc w : runs getc w (ctx w) w.
Proof. reflexivity. Qed.

Lemma runs_modc g w :
  runs (modc g) w tt {| ctx := g (ctx w); log := log w |}.
Proof. reflexivity. Qed.

Lemma runs_assert w : runs (assert true) w tt w.
Proof. reflexivity. Qed.

Lemma runs_lift {A} (a : A) w : runs (lift (Some a)) w a w.
Proof. reflexivity. Qed.

Lemma runs_call_cb ok g reason w :
  cb (ctx w) <> 0 -> ok reason = true ->
  runs (call_cb (answering ok g) reason) w 0
       {| ctx := ctx w; log := log w ++ [(reason, ctx w)] |}.
Proof.
  intros Hcb Hok. unfold runs, call_cb, answering.
  apply Z.eqb_neq in Hcb. rewrite Hcb, Hok. reflexivity.
Qed.

Lemma nonzero_true x : x <> 0 -> nonzero x = true.
Proof. intros H. unfold nonzero. apply Z.eqb_neq in H. rewrite H. reflexivity. Qed.

Lemma u8_small x : 0 <= x < 256 -> u8 x = x.
Proof. intros H. unfold u8. apply Z.mod_small. exact H. Qed.

Lemma u64_small x : 0 <= x < 18446744073709551616 -> u64 x = x.
Proof. intros H. unfold u64. apply Z.mod_small. exact H. Qed.

(** The members of a world and of a context after a write. *)
Ltac fields :=
  cbn [ctx log
       user collect_tgt cb paths count_paths ppos st i wild path item_u64
       item_opcode path_stride npos sp ipos path_match path_match_len
       wildcount present be buf
       set_user set_collect_tgt set_cb set_paths set_count_paths set_ppos
       set_st set_i set_wild set_path set_item_u64 set_item_opcode
       set_path_stride set_npos set_sp set_ipos set_path_match
       set_path_match_len set_wildcount set_present set_be set_buf
       st_s st_p st_indet st_intermediate st_pop_iss st_tag st_collect_rem
       st_ordinal st_opcode
       set_st_s set_st_p set_st_indet set_st_intermediate set_st_pop_iss
       set_st_tag set_st_collect_rem set_st_ordinal set_st_opcode].

(** One step of a run: the first action of the computation, when nothing
    in it is left to decide. *)
Ltac run_step :=
  lazymatch goal with
  | |- runs (bind (bind _ _) _) _ _ _ => apply runs_assoc
  | |- runs (bind getc _) _ _ _ =>
      eapply runs_bind; [apply runs_getc|cbv beta]
  | |- runs (bind (modc _) _) _ _ _ =>
      eapply runs_bind; [apply runs_modc|cbv beta]
  | |- runs (bind (ret _) _) _ _ _ =>
      eapply runs_bind; [apply runs_ret|cbv beta]
  | |- runs (bind (assert true) _) _ _ _ =>
      eapply runs_bind; [apply runs_assert|cbv beta]
  | |- runs (bind (lift (Some _)) _) _ _ _ =>
      eapply runs_bind; [apply runs_lift|cbv beta]
  | |- runs (bind (if true then ?a else _) ?k) ?w ?b ?w' =>
      change (runs (bind a k) w b w')
  | |- runs (bind (if false then _ else ?a) ?k) ?w ?b ?w' =>
      change (runs (bind a k) w b w')
  | |- runs (if true then ?a else _) ?w ?b ?w' => change (runs a w b w')
  | |- runs (if false then _ else ?a) ?w ?b ?w' => change (runs a w b w')
  | |- runs (bind (if ?c then ?a else ?b) ?k) ?w ?r ?w' =>
      let v := eval lazy in c in
      lazymatch v with
      | true => change (runs (bind a k) w r w')
      | false => change (runs (bind b k) w r w')
      end
  | |- runs (if ?c then ?a else ?b) ?w ?r ?w' =>
      let v := eval lazy in c in
      lazymatch v with
      | true => change (runs a w r w')
      | false => change (runs b w r w')
      end
  | |- runs (bind top _) _ _ _ => unfold top at 1
  | |- runs (bind (top_mod _) _) _ _ _ => unfold top_mod at 1
  | |- runs (bind (st_get _) _) _ _ _ => unfold st_get at 1
  | |- runs (bind (st_mod _ _) _) _ _ _ => unfold st_mod at 1
  | |- runs (bind lwcp_st_parent _) _ _ _ => unfold lwcp_st_parent at 1
  | |- runs (bind (path_put _ _) _) _ _ _ => unfold path_put at 1
  | |- runs (bind (buf_put _ _) _) _ _ _ => unfold buf_put at 1
  | |- runs (bind (i_put _ _) _) _ _ _ => unfold i_put at 1
  | |- runs (bind clear_buf _) _ _ _ => unfold clear_buf at 1
  | |- runs (bind (call_cb _ _) _) _ _ _ =>
      eapply runs_bind;
      [apply runs_call_cb; fields; assumption|cbv beta]
  | |- runs (ret _) _ _ _ => apply runs_ret
  end.

Lemma load_0 {A} (a : A) l : load (a :: l) 0 = Some a.
Proof. reflexivity. Qed.

Lemma load_1 {A} (a b : A) l : load (a :: b :: l) 1 = Some b.
Proof. reflexivity. Qed.

Lemma store_0 {A} (a v : A) l : store (a :: l) 0 v = Some (v :: l).
Proof.
  unfold store. cbn [length]. rewrite Nat2Z.inj_succ.
  destruct (0 <? Z.succ (Z.of_nat (length l))) eqn:E; [reflexivity|].
  apply Z.ltb_ge in E. lia.
Qed.

Lemma store_1 {A} (a b v : A) l : store (a :: b :: l) 1 v = Some (a :: v :: l).
Proof.
  unfold store. cbn [length]. rewrite !Nat2Z.inj_succ.
  destruct (1 <? Z.succ (Z.succ (Z.of_nat (length l)))) eqn:E; [reflexivity|].
  apply Z.ltb_ge in E. lia.
Qed.

Ltac mem := rewrite ?load_0, ?load_1, ?store_0, ?store_1.

Lemma parse_end_idle w f rest :
  st (ctx w) = f :: rest -> sp (ctx w) = 0 -> st_s f = LECP_OPC ->
  parse_end w = Some (0, w).
Proof.
  intros Hst Hsp Hs. unfold parse_end, st_get, bind, getc, lift, nonzero.
  rewrite Hsp. cbn. rewrite Hst. cbn. rewrite Hs. reflexivity.
Qed.

Lemma parse_next L fn ch bs w w1 :
  runs (parse_byte fn L ch) w Next w1 ->
  lecp_parse fn L (ch :: bs) w = lecp_parse fn L bs w1.
Proof. intros H. cbn [lecp_parse]. unfold bind. rewrite H. reflexivity. Qed.

Section Collate.
Variable ok : Z -> bool.
Variable g : Z -> lecp_callback.
Variable L : lecp_limits.

Lemma collate_more w f rest ch :
  st (ctx w) = f :: rest -> sp (ctx w) = 0 -> st_s f = LECP_COLLATE ->
  0 <= npos (ctx w) -> npos (ctx w) + 1 < LECP_STRING_CHUNK L ->
  LECP_STRING_CHUNK L <= 255 ->
  npos (ctx w) < Z.of_nat (length (buf (ctx w))) ->
  2 <= st_collect_rem f < 18446744073709551616 ->
  runs (parse_byte (answering ok g) L ch) w Next
       {| ctx := set_st (set_st_collect_rem (st_collect_rem f - 1) f :: rest)
                   (set_npos (npos (ctx w) + 1)
                      (set_buf (upd (buf (ctx w)) (Z.to_nat (npos (ctx w))) ch)
                               (ctx w)));
          log := log w |}.
Proof.
  intros Hst Hsp Hs Hn0 Hn1 HC Hbuf Hrem.
  assert (Hnz : nonzero (st_collect_rem f) = true) by (apply nonzero_true; lia).
  assert (Hu8 : u8 (npos (ctx w) + 1) = npos (ctx w) + 1)
    by (apply u8_small; lia).
  assert (Hu64 : u64 (st_collect_rem f - 1) = st_collect_rem f - 1)
    by (apply u64_small; lia).
  assert (Hnz' : nonzero (st_collect_rem f - 1) = true)
    by (apply nonzero_true; lia).
  assert (Hne : (npos (ctx w) + 1 =? LECP_STRING_CHUNK L + 1 - 1) = false)
    by (apply Z.eqb_neq; lia).
  assert (Hst0 : store (buf (ctx w)) (npos (ctx w)) ch
                 = Some (upd (buf (ctx w)) (Z.to_nat (npos (ctx w))) ch))
    by (apply store_in_range; lia).
  unfold parse_byte.
  repeat (run_step; fields; rewrite ?Hsp, ?Hst; mem).
  rewrite Hs. unfold parse_collate.
  repeat (run_step; fields;
          rewrite ?Hsp, ?Hst, ?Hst0, ?Hnz, ?Hu8, ?Hu64, ?Hnz', ?Hne; mem;
          cbn [negb andb]).
Qed.
End Collate.

Section CollateSpill.
Variable ok : Z -> bool.
Variable g : Z -> lecp_callback.
Variable L : lecp_limits.

Lemma collate_spill w f rest ch to :
  st (ctx w) = f :: rest -> sp (ctx w) = 0 -> st_s f = LECP_COLLATE ->
  st_indet f = 0 -> cb (ctx w) <> 0 ->
  (if item_opcode (ctx w) =? LWS_CBOR_MAJTYP_BSTR
   then LECPCB_VAL_BLOB_END - LECPCB_VAL_STR_END else 0) = to ->
  to = 0 \/ to = 15 ->
  ok (if st_collect_rem f =? 1 then LECPCB_VAL_STR_END + to
      else LECPCB_VAL_STR_CHUNK + to) = true ->
  0 <= npos (ctx w) -> npos (ctx w) + 1 <= LECP_STRING_CHUNK L ->
  LECP_STRING_CHUNK L <= 255 ->
  Z.of_nat (length (buf (ctx w))) = LECP_STRING_CHUNK L + 1 ->
  1 <= st_collect_rem f < 18446744073709551616 ->
  npos (ctx w) + 1 = LECP_STRING_CHUNK L \/ st_collect_rem f = 1 ->
  exists w' c1,
    runs (parse_byte (answering ok g) L ch) w Next w'
    /\ log w' = log w
                 ++ [(if st_collect_rem f =? 1 then LECPCB_VAL_STR_END + to
                      else LECPCB_VAL_STR_CHUNK + to, c1)]
    /\ npos c1 = npos (ctx w) + 1
    /\ buf c1 = upd (upd (buf (ctx w)) (Z.to_nat (npos (ctx w))) ch)
                    (Z.to_nat (npos (ctx w) + 1)) 0
    /\ st (ctx w')
       = set_st_s LECP_OPC (set_st_collect_rem (st_collect_rem f - 1) f)
         :: rest
    /\ sp (ctx w') = 0 /\ npos (ctx w') = 0
    /\ setup_of (ctx w') = setup_of (ctx w)
    /\ item_opcode (ctx w') = item_opcode (ctx w)
    /\ length (buf (ctx w')) = length (buf (ctx w)).
Proof.
  intros Hst Hsp Hs Hind Hcb Hto Hto' Hok Hn0 Hn1 HC Hbuf Hrem Hspill.
  set (b1 := upd (upd (buf (ctx w)) (Z.to_nat (npos (ctx w))) ch)
                 (Z.to_nat (npos (ctx w) + 1)) 0).
  assert (Hnz : nonzero (st_collect_rem f) = true) by (apply nonzero_true; lia).
  assert (Hu8 : u8 (npos (ctx w) + 1) = npos (ctx w) + 1)
    by (apply u8_small; lia).
  assert (Hu64 : u64 (st_collect_rem f - 1) = st_collect_rem f - 1)
    by (apply u64_small; lia).
  assert (Hst0 : store (buf (ctx w)) (npos (ctx w)) ch
                 = Some (upd (buf (ctx w)) (Z.to_nat (npos (ctx w))) ch))
    by (apply store_in_range; lia).
  assert (Hst1 : store (upd (buf (ctx w)) (Z.to_nat (npos (ctx w))) ch)
                       (npos (ctx w) + 1) 0 = Some b1)
    by (apply store_in_range; rewrite upd_length; lia).
  assert (Hst2 : store b1 0 0 = Some (upd b1 0 0))
    by (apply store_in_range; unfold b1; rewrite !upd_length; lia).
  assert (Hcond : negb (npos (ctx w) + 1 =? LECP_STRING_CHUNK L + 1 - 1)
                  && nonzero (st_collect_rem f - 1) = false).
  { destruct Hspill as [H|H].
    - replace (LECP_STRING_CHUNK L + 1 - 1) with (LECP_STRING_CHUNK L) by lia.
      rewrite H, Z.eqb_refl. reflexivity.
    - rewrite H. apply andb_false_r. }
  assert (Hi0 : nonzero 0 = false) by reflexivity.
  assert (Hue : u8 (LECPCB_VAL_STR_END + to) = LECPCB_VAL_STR_END + to)
    by (destruct Hto' as [-> | ->]; reflexivity).
  assert (Huc : u8 (LECPCB_VAL_STR_END + to - 1) = LECPCB_VAL_STR_CHUNK + to)
    by (destruct Hto' as [-> | ->]; reflexivity).
  assert (Hne : (LECPCB_VAL_STR_CHUNK + to =? LECPCB_VAL_STR_END + to) = false)
    by (destruct Hto' as [-> | ->]; reflexivity).
  destruct (st_collect_rem f =? 1) eqn:E1.
  - pose proof E1 as E1b. rewrite ?E1b in Hok. apply Z.eqb_eq in E1.
    assert (Hz : nonzero (st_collect_rem f - 1) = false)
      by (rewrite E1; reflexivity).
    eexists. eexists. split.
    + unfold parse_byte.
      repeat (run_step; fields; rewrite ?Hsp, ?Hst; mem).
      rewrite Hs. unfold parse_collate.
      repeat (run_step; fields;
              rewrite ?Hsp, ?Hst, ?Hst0, ?Hst1, ?Hnz, ?Hu8, ?Hu64, ?Hcond,
                ?Hi0; mem).
      rewrite Hto, Hue, Huc, Hz. unfold lwcp_is_indet_string.
      repeat (run_step; fields;
              rewrite ?Hsp, ?Hst, ?Hind, ?Hi0, ?Hst2, ?Z.eqb_refl; mem;
              cbn [negb]).
      unfold lwcp_completed.
      repeat (run_step; fields; rewrite ?Hsp; mem).
      cbn [Z.to_nat completed_walk].
      repeat (run_step; fields).
    + subst b1. fields. rewrite !upd_length, ?Hsp, ?E1b. repeat split; reflexivity.
  - pose proof E1 as E1b. rewrite ?E1b in Hok. apply Z.eqb_neq in E1.
    assert (Hz : nonzero (st_collect_rem f - 1) = true)
      by (apply nonzero_true; lia).
    eexists. eexists. split.
    + unfold parse_byte.
      repeat (run_step; fields; rewrite ?Hsp, ?Hst; mem).
      rewrite Hs. unfold parse_collate.
      repeat (run_step; fields;
              rewrite ?Hsp, ?Hst, ?Hst0, ?Hst1, ?Hnz, ?Hu8, ?Hu64, ?Hcond,
                ?Hi0; mem).
      rewrite Hto, Hue, Huc, Hz.
      repeat (run_step; fields;
              rewrite ?Hsp, ?Hst, ?Hi0, ?Hst2, ?Hne; mem).
    + subst b1. fields. rewrite !upd_length, ?Hsp, ?E1b. repeat split; reflexivity.
Qed.
End CollateSpill.

Section CollateRun.
Variable ok : Z -> bool.
Variable g : Z -> lecp_callback.
Variable L : lecp_limits.

(** A run of content bytes that ends where the string ends or where the
    buffer is full, whichever comes first: the bytes are gathered in [buf]
    behind those it holds, a NUL is put behind them, and they are delivered
    in one event, END when the string is over and CHUNK when it is not; the
    frame is left in [LECP_OPC]. *)
Lemma collate_run bs : forall w f rest to,
  st (ctx w) = f :: rest -> sp (ctx w) = 0 -> st_s f = LECP_COLLATE ->
  st_indet f = 0 -> cb (ctx w) <> 0 ->
  (if item_opcode (ctx w) =? LWS_CBOR_MAJTYP_BSTR
   then LECPCB_VAL_BLOB_END - LECPCB_VAL_STR_END else 0) = to ->
  to = 0 \/ to = 15 ->
  ok (if Z.of_nat (length bs) =? st_collect_rem f
      then LECPCB_VAL_STR_END + to else LECPCB_VAL_STR_CHUNK + to) = true ->
  0 <= npos (ctx w) -> LECP_STRING_CHUNK L <= 255 ->
  Z.of_nat (length (buf (ctx w))) = LECP_STRING_CHUNK L + 1 ->
  bs <> [] ->
  Z.of_nat (length bs) <= st_collect_rem f < 18446744073709551616 ->
  npos (ctx w) + Z.of_nat (length bs) <= LECP_STRING_CHUNK L ->
  Z.of_nat (length bs) = st_collect_rem f
  \/ npos (ctx w) + Z.of_nat (length bs) = LECP_STRING_CHUNK L ->
  exists w' c1 f',
    lecp_parse (answering ok g) L bs w = Some (0, w')
    /\ log w' = log w
                 ++ [(if Z.of_nat (length bs) =? st_collect_rem f
                      then LECPCB_VAL_STR_END + to
                      else LECPCB_VAL_STR_CHUNK + to, c1)]
    /\ npos c1 = npos (ctx w) + Z.of_nat (length bs)
    /\ firstn (Z.to_nat (npos c1) + 1) (buf c1)
       = firstn (Z.to_nat (npos (ctx w))) (buf (ctx w)) ++ bs ++ [0]
    /\ st (ctx w') = f' :: rest /\ st_s f' = LECP_OPC
    /\ st_indet f' = st_indet f
    /\ st_collect_rem f' = st_collect_rem f - Z.of_nat (length bs)
    /\ sp (ctx w') = 0
    /\ setup_of (ctx w') = setup_of (ctx w).
Proof.
  induction bs as [|ch bs IH];
    intros w f rest to Hst Hsp Hs Hind Hcb Hto Hto' Hok Hn0 HC Hbuf
           Hne Hrem Hfit Hend; [congruence|].
  destruct bs as [|ch2 bs].
  - cbn [length] in *. rewrite (Z.eqb_sym (Z.of_nat 1)) in Hok.
    destruct (collate_spill ok g L w f rest ch to) as
      (w' & c1 & Hrun & Hlog & Hnp & Hb & Hst' & Hsp' & _ & Hset & _ & _);
      try assumption; try lia.
    exists w', c1, (set_st_s LECP_OPC
                      (set_st_collect_rem (st_collect_rem f - 1) f)).
    rewrite (parse_next L _ _ _ _ _ Hrun). cbn [lecp_parse].
    split; [apply (parse_end_idle _ _ _ Hst' Hsp'); reflexivity|].
    split.
    { rewrite Hlog. rewrite (Z.eqb_sym 1). reflexivity. }
    split; [rewrite Hnp; lia|].
    split.
    { rewrite Hnp, Hb.
      replace (Z.to_nat (npos (ctx w) + 1) + 1)%nat
        with (S (Z.to_nat (npos (ctx w) + 1))) by lia.
      rewrite firstn_upd_succ by (rewrite upd_length; lia).
      replace (Z.to_nat (npos (ctx w) + 1))
        with (S (Z.to_nat (npos (ctx w)))) by lia.
      rewrite firstn_upd_succ by lia.
      rewrite <- app_assoc. reflexivity. }
    split; [exact Hst'|]. split; [reflexivity|]. split; [reflexivity|].
    split; [fields; lia|]. split; [exact Hsp'|exact Hset].
  - remember (ch2 :: bs) as bs' eqn:Ebs.
    assert (Hlen : 1 <= Z.of_nat (length bs'))
      by (subst bs'; cbn [length]; lia).
    assert (Hlast : (Z.of_nat (length (ch :: bs')) =? st_collect_rem f)
                    = (Z.of_nat (length bs') =? st_collect_rem f - 1)).
    { cbn [length]. rewrite Nat2Z.inj_succ.
      destruct (Z.eqb_spec (Z.of_nat (length bs')) (st_collect_rem f - 1));
        destruct (Z.eqb_spec (Z.succ (Z.of_nat (length bs')))
                             (st_collect_rem f)); try reflexivity; lia. }
    rewrite Hlast in Hok.
    cbn [length] in Hrem, Hfit, Hend.
    rewrite Nat2Z.inj_succ in Hrem, Hfit, Hend.
    pose proof (collate_more ok g L w f rest ch Hst Hsp Hs Hn0) as Hrun.
    specialize (Hrun ltac:(lia) HC ltac:(lia) ltac:(lia)).
    rewrite (parse_next L _ _ _ _ _ Hrun).
    match type of Hrun with runs _ _ _ ?x => set (w1 := x) in * end.
    destruct (IH w1 (set_st_collect_rem (st_collect_rem f - 1) f) rest to)
      as (w' & c1 & f' & Hp & Hlog & Hnp & Hb & Hst' & Hs' & Hind' & Hrem'
          & Hsp' & Hset); subst w1; fields; rewrite ?upd_length;
      try assumption; try lia; try reflexivity;
      try (subst bs'; discriminate).
    exists w', c1, f'. split; [exact Hp|].
    revert Hlog Hnp Hb Hind' Hrem' Hset. fields.
    intros Hlog Hnp Hb Hind' Hrem' Hset.
    split.
    { rewrite Hlog, Hlast. reflexivity. }
    split; [rewrite Hnp; cbn [length]; lia|].
    split.
    { rewrite Hb.
      replace (Z.to_nat (npos (ctx w) + 1))
        with (S (Z.to_nat (npos (ctx w)))) by lia.
      rewrite firstn_upd_succ by lia. rewrite <- app_assoc. reflexivity. }
    split; [exact Hst'|]. split; [exact Hs'|]. split; [exact Hind'|].
    split; [rewrite Hrem'; cbn [length]; lia|].
    split; [exact Hsp'|exact Hset].
Qed.
End CollateRun.

Lemma head_byte major n :
  0 <= major <= 7 -> 0 <= n <= 31 ->
  Z.land (32 * major + n) LWS_CBOR_MAJTYP_MASK = 32 * major
  /\ Z.land (32 * major + n) LWS_CBOR_SUBMASK = n.
Proof.
  intros HM Hn.
  pattern n; apply (range_cases _ 0 32); [|lia].
  pattern major; apply (range_cases _ 0 8); [|lia].
  cbn [seq map]. split_Forall; split; reflexivity.
Qed.

Section Strings.
Variable ok : Z -> bool.
Variable g : Z -> lecp_callback.
Variable L : lecp_limits.

(** The head byte of a string of [n] bytes, [n] being the minor. *)
Lemma string_head w f rest major to n :
  st (ctx w) = f :: rest -> sp (ctx w) = 0 -> st_s f = LECP_OPC ->
  cb (ctx w) <> 0 -> buf (ctx w) <> [] ->
  (major = 2 /\ to = 15) \/ (major = 3 /\ to = 0) ->
  ok (LECPCB_VAL_STR_START + to) = true ->
  1 <= n < 24 ->
  exists w1 c0 f1,
    runs (parse_byte (answering ok g) L (32 * major + n)) w Next w1
    /\ log w1 = log w ++ [(LECPCB_VAL_STR_START + to, c0)]
    /\ st (ctx w1) = f1 :: rest
    /\ st_s f1 = LECP_COLLATE /\ st_indet f1 = 0 /\ st_collect_rem f1 = n
    /\ sp (ctx w1) = 0 /\ npos (ctx w1) = 0
    /\ item_opcode (ctx w1) = 32 * major
    /\ length (buf (ctx w1)) = length (buf (ctx w))
    /\ setup_of (ctx w1) = setup_of (ctx w).
Proof.
  intros Hst Hsp Hs Hcb Hbuf Hmaj Hok Hn.
  destruct (head_byte major n) as [Hop Hsm]; [lia|lia|].
  assert (Hst0 : store (buf (ctx w)) 0 0 = Some (upd (buf (ctx w)) 0 0)).
  { apply store_in_range. destruct (buf (ctx w)); [congruence|cbn; lia]. }
  assert (Hnz : nonzero n = true) by (apply nonzero_true; lia).
  assert (Hlt : (n <? LWS_CBOR_1) = true) by (apply Z.ltb_lt; unfold LWS_CBOR_1; lia).
  assert (Hi0 : nonzero 0 = false) by reflexivity.
  destruct Hmaj as [[-> ->]|[-> ->]].
  all: eexists; eexists; eexists; split;
    [ unfold parse_byte;
      repeat (run_step; fields; rewrite ?Hsp, ?Hst; mem);
      rewrite Hs; unfold parse_opc; rewrite Hop, Hsm;
      repeat (run_step; fields; rewrite ?Hsp, ?Hst; mem);
      cbn [Z.eqb Z.mul Pos.mul Pos.eqb LWS_CBOR_MAJTYP_UINT
           LWS_CBOR_MAJTYP_INT_NEG LWS_CBOR_MAJTYP_BSTR LWS_CBOR_MAJTYP_TSTR];
      unfold opc_string;
      repeat (run_step; fields;
              rewrite ?Hsp, ?Hst, ?Hst0, ?Hi0, ?Hnz, ?Hlt; mem; cbn [negb])
    | fields; rewrite ?upd_length, ?Hsp; repeat split; reflexivity ].
Qed.
End Strings.

(** Feeding [bs] takes [w] to [w1] and the feed goes on from there. *)
Definition feeds (fn : Z -> lecp_callback) (L : lecp_limits) (bs : list Z)
           (w w1 : world) : Prop :=
  forall more, lecp_parse fn L (bs ++ more) w = lecp_parse fn L more w1.

Lemma feeds_nil fn L w : feeds fn L [] w w.
Proof. intros more. reflexivity. Qed.

Lemma feeds_cons fn L ch bs w w1 w2 :
  runs (parse_byte fn L ch) w Next w1 -> feeds fn L bs w1 w2 ->
  feeds fn L (ch :: bs) w w2.
Proof.
  intros H1 H2 more. cbn [app lecp_parse]. unfold bind. rewrite H1.
  apply H2.
Qed.

Lemma feeds_app fn L a b w w1 w2 :
  feeds fn L a w w1 -> feeds fn L b w1 w2 -> feeds fn L (a ++ b) w w2.
Proof. intros H1 H2 more. rewrite <- app_assoc, H1. apply H2. Qed.

Section StringLength.
Variable ok : Z -> bool.
Variable g : Z -> lecp_callback.
Variable L : lecp_limits.

(** The head byte of a string whose length follows in [2 ^ k] bytes. *)
Lemma string_head_arg w f rest major to k :
  st (ctx w) = f :: rest -> sp (ctx w) = 0 -> st_s f = LECP_OPC ->
  cb (ctx w) <> 0 -> buf (ctx w) <> [] -> be (ctx w) = false ->
  (major = 2 /\ to = 15) \/ (major = 3 /\ to = 0) ->
  ok (LECPCB_VAL_STR_START + to) = true ->
  0 <= k <= 3 ->
  exists w1 c0 f1,
    runs (parse_byte (answering ok g) L (32 * major + (24 + k))) w Next w1
    /\ log w1 = log w ++ [(LECPCB_VAL_STR_START + to, c0)]
    /\ st (ctx w1) = f1 :: rest
    /\ st_s f1 = LECP_COLLECT /\ st_indet f1 = st_indet f
    /\ st_opcode f1 = 32 * major
    /\ st_collect_rem f1 = 2 ^ k
    /\ collect_tgt (ctx w1) = 2 ^ k - 1
    /\ item_u64 (ctx w1) = 0
    /\ sp (ctx w1) = 0
    /\ item_opcode (ctx w1) = 32 * major
    /\ be (ctx w1) = false
    /\ length (buf (ctx w1)) = length (buf (ctx w))
    /\ setup_of (ctx w1) = setup_of (ctx w).
Proof.
  intros Hst Hsp Hs Hcb Hbuf Hbe Hmaj Hok Hk.
  destruct (head_byte major (24 + k)) as [Hop Hsm]; [lia|lia|].
  assert (Hst0 : store (buf (ctx w)) 0 0 = Some (upd (buf (ctx w)) 0 0)).
  { apply store_in_range. destruct (buf (ctx w)); [congruence|cbn; lia]. }
  assert (Hi0 : nonzero 0 = false) by reflexivity.
  assert (Hk4 : k = 0 \/ k = 1 \/ k = 2 \/ k = 3) by lia.
  destruct Hk4 as [-> | [-> | [-> | ->]]].
  all: destruct Hmaj as [[-> ->]|[-> ->]].
  all: cbn [Z.add Z.mul Pos.mul Pos.add Pos.succ] in Hop, Hsm.
  all: eexists; eexists; eexists; split;
    [ unfold parse_byte;
      repeat (run_step; fields; rewrite ?Hsp, ?Hst; mem);
      rewrite Hs; unfold parse_opc;
      cbn [Z.add Z.mul Pos.mul Pos.add Pos.succ];
      rewrite Hop, Hsm;
      repeat (run_step; fields; rewrite ?Hsp, ?Hst; mem);
      unfold opc_string;
      repeat (run_step; fields; rewrite ?Hsp, ?Hst, ?Hst0; mem);
      unfold i2;
      repeat (run_step; fields; rewrite ?Hsp, ?Hst, ?Hst0; mem);
      unfold ex;
      repeat (run_step; fields; rewrite ?Hsp, ?Hst, ?Hst0, ?Hbe; mem)
    | fields; rewrite ?upd_length, ?Hsp, ?Hbe; repeat split; reflexivity ].
Qed.
End StringLength.

Section CollectLength.
Variable ok : Z -> bool.
Variable g : Z -> lecp_callback.
Variable L : lecp_limits.

(** A byte of the length of a string, on a little-endian host: it goes to
    the byte [collect_tgt] of the item; after the last one the item is the
    number of content bytes to come. *)
Lemma collect_byte w f rest ch :
  st (ctx w) = f :: rest -> sp (ctx w) = 0 -> st_s f = LECP_COLLECT ->
  is_string_opcode (st_opcode f) = true ->
  buf (ctx w) <> [] -> be (ctx w) = false ->
  0 <= collect_tgt (ctx w) < 8 ->
  1 <= st_collect_rem f < 18446744073709551616 ->
  let v := store_byte (item_u64 (ctx w)) (collect_tgt (ctx w)) ch in
  exists w1 f1,
    runs (parse_byte (answering ok g) L ch) w Next w1
    /\ log w1 = log w
    /\ st (ctx w1) = f1 :: rest
    /\ st_s f1 = (if st_collect_rem f =? 1 then LECP_COLLATE else LECP_COLLECT)
    /\ st_collect_rem f1 = (if st_collect_rem f =? 1 then v
                            else st_collect_rem f - 1)
    /\ st_indet f1 = st_indet f /\ st_opcode f1 = st_opcode f
    /\ item_u64 (ctx w1) = v
    /\ collect_tgt (ctx w1) = collect_tgt (ctx w) - 1
    /\ (st_collect_rem f = 1 -> npos (ctx w1) = 0)
    /\ sp (ctx w1) = 0
    /\ item_opcode (ctx w1) = item_opcode (ctx w)
    /\ be (ctx w1) = false
    /\ length (buf (ctx w1)) = length (buf (ctx w))
    /\ setup_of (ctx w1) = setup_of (ctx w).
Proof.
  intros Hst Hsp Hs Hstr Hbuf Hbe Htgt Hrem v.
  assert (Hst0 : store (buf (ctx w)) 0 0 = Some (upd (buf (ctx w)) 0 0)).
  { apply store_in_range. destruct (buf (ctx w)); [congruence|cbn; lia]. }
  assert (Hu64 : u64 (st_collect_rem f - 1) = st_collect_rem f - 1)
    by (apply u64_small; lia).
  assert (Hin : (0 <=? collect_tgt (ctx w)) && (collect_tgt (ctx w) <? 8)
                = true).
  { apply andb_true_intro. split; [apply Z.leb_le|apply Z.ltb_lt]; lia. }
  destruct (st_collect_rem f =? 1) eqn:E1.
  - apply Z.eqb_eq in E1.
    assert (Hz : nonzero (st_collect_rem f - 1) = false)
      by (rewrite E1; reflexivity).
    eexists. eexists. split.
    + unfold parse_byte.
      repeat (run_step; fields; rewrite ?Hsp, ?Hst; mem).
      rewrite Hs. unfold parse_collect.
      repeat (run_step; fields;
              rewrite ?Hsp, ?Hst, ?Hin, ?Hbe, ?Hu64, ?Hz, ?Hst0, ?Hstr; mem).
    + subst v. fields. rewrite ?upd_length, ?Hsp, ?Hbe.
      repeat split; reflexivity.
  - apply Z.eqb_neq in E1.
    assert (Hz : nonzero (st_collect_rem f - 1) = true)
      by (apply nonzero_true; lia).
    eexists. eexists. split.
    + unfold parse_byte.
      repeat (run_step; fields; rewrite ?Hsp, ?Hst; mem).
      rewrite Hs. unfold parse_collect.
      repeat (run_step; fields;
              rewrite ?Hsp, ?Hst, ?Hin, ?Hbe, ?Hu64, ?Hz, ?Hst0, ?Hstr; mem).
    + subst v. fields. rewrite ?upd_length, ?Hsp, ?Hbe.
      repeat split; fields; rewrite ?Hs; try reflexivity;
        try (intros H; contradiction).
Qed.

(** The bytes of the length: they leave the frame in [LECP_COLLATE] with
    the length they spell to come. *)
Lemma collect_run bs : forall w f rest,
  st (ctx w) = f :: rest -> sp (ctx w) = 0 -> st_s f = LECP_COLLECT ->
  is_string_opcode (st_opcode f) = true ->
  buf (ctx w) <> [] -> be (ctx w) = false ->
  bs <> [] -> (length bs <= 8)%nat ->
  collect_tgt (ctx w) = Z.of_nat (length bs) - 1 ->
  st_collect_rem f = Z.of_nat (length bs) ->
  exists w1 f1,
    feeds (answering ok g) L bs w w1
    /\ log w1 = log w
    /\ st (ctx w1) = f1 :: rest
    /\ st_s f1 = LECP_COLLATE
    /\ st_collect_rem f1
       = collected bs (collect_tgt (ctx w)) (item_u64 (ctx w))
    /\ st_indet f1 = st_indet f
    /\ npos (ctx w1) = 0 /\ sp (ctx w1) = 0
    /\ item_opcode (ctx w1) = item_opcode (ctx w)
    /\ length (buf (ctx w1)) = length (buf (ctx w))
    /\ setup_of (ctx w1) = setup_of (ctx w).
Proof.
  induction bs as [|ch bs IH];
    intros w f rest Hst Hsp Hs Hstr Hbuf Hbe Hne Hlen Htgt Hrem; [congruence|].
  cbn [length] in Hlen, Htgt, Hrem. rewrite Nat2Z.inj_succ in Htgt, Hrem.
  destruct (collect_byte w f rest ch) as
    (w1 & f1 & Hrun & Hlog & Hst1 & Hs1 & Hrem1 & Hind1 & Hop1 & Hitem & Htgt1
     & Hnp & Hsp1 & Hio & Hbe1 & Hbl & Hset); try assumption; try lia.
  destruct bs as [|ch2 bs].
  - cbn [length] in Hrem. replace (Z.succ (Z.of_nat 0)) with 1 in Hrem by lia.
    rewrite Hrem in Hs1, Hrem1. cbn [Z.eqb Pos.eqb] in Hs1, Hrem1.
    exists w1, f1. split; [apply (feeds_cons _ _ _ _ _ _ _ Hrun), feeds_nil|].
    split; [exact Hlog|]. split; [exact Hst1|]. split; [exact Hs1|].
    split; [rewrite Hrem1; reflexivity|]. split; [exact Hind1|].
    split; [apply Hnp; exact Hrem|]. split; [exact Hsp1|].
    split; [exact Hio|]. split; [exact Hbl|exact Hset].
  - remember (ch2 :: bs) as bs' eqn:Ebs.
    assert (Hl : 1 <= Z.of_nat (length bs'))
      by (subst bs'; cbn [length]; lia).
    assert (E1 : (st_collect_rem f =? 1) = false) by (apply Z.eqb_neq; lia).
    rewrite E1 in Hs1, Hrem1.
    assert (Hstr1 : is_string_opcode (st_opcode f1) = true)
      by (rewrite Hop1; exact Hstr).
    assert (Hbuf1 : buf (ctx w1) <> []).
    { intros E. apply Hbuf. destruct (buf (ctx w)); [reflexivity|].
      rewrite E in Hbl. discriminate Hbl. }
    assert (Hne1 : bs' <> []) by (subst bs'; discriminate).
    destruct (IH w1 f1 rest Hst1 Hsp1 Hs1 Hstr1 Hbuf1 Hbe1 Hne1) as
      (w2 & f2 & Hf & Hlog2 & Hst2 & Hs2 & Hrem2 & Hind2 & Hnp2 & Hsp2 & Hio2
       & Hbl2 & Hset2); [lia|lia|lia|].
    exists w2, f2.
    split; [apply (feeds_cons _ _ _ _ _ _ _ Hrun); exact Hf|].
    split; [congruence|]. split; [exact Hst2|]. split; [exact Hs2|].
    split.
    { rewrite Hrem2, collected_cons, Htgt1, Hitem. reflexivity. }
    split; [congruence|]. split; [exact Hnp2|]. split; [exact Hsp2|].
    split; [congruence|]. split; congruence.
Qed.
End CollectLength.

(** ** Definite strings *)

(** A context between items at the top level: nothing on the stack, and the
    frame at its bottom waiting for a head byte with no indefinite item
    open. *)
Definition ready (c : lecp_ctx) : Prop :=
  sp c = 0
  /\ exists f rest, st c = f :: rest /\ st_s f = LECP_OPC /\ st_indet f = 0.

(** The feed returned 0 after the events of one string: START, and END
    with the bytes [bs] in [buf], a NUL behind them. *)
Definition string_delivered (o : option (Z * world)) (w : world) (to : Z)
           (bs : list Z) : Prop :=
  exists w' c0 c1,
    o = Some (0, w')
    /\ log w' = log w ++ [(LECPCB_VAL_STR_START + to, c0);
                          (LECPCB_VAL_STR_END + to, c1)]
    /\ npos c1 = Z.of_nat (length bs)
    /\ firstn (S (length bs)) (buf c1) = bs ++ [0]
    /\ ready (ctx w') /\ setup_of (ctx w') = setup_of (ctx w).

Lemma length_be_bytes n arg : length (be_bytes n arg) = n.
Proof. induction n as [|n IH]; cbn [be_bytes length]; congruence. Qed.

Lemma nonempty_by_length (l : list Z) n :
  Z.of_nat (length l) = n + 1 -> 0 <= n -> l <> [].
Proof. intros H Hn E. rewrite E in H. cbn in H. lia. Qed.

Section DefiniteStrings.
Variable ok : Z -> bool.
Variable g : Z -> lecp_callback.
Variable L : lecp_limits.

Lemma string_body w1 f1 rest to bs lg c0 :
  st (ctx w1) = f1 :: rest -> sp (ctx w1) = 0 -> st_s f1 = LECP_COLLATE ->
  st_indet f1 = 0 -> cb (ctx w1) <> 0 ->
  (if item_opcode (ctx w1) =? LWS_CBOR_MAJTYP_BSTR
   then LECPCB_VAL_BLOB_END - LECPCB_VAL_STR_END else 0) = to ->
  to = 0 \/ to = 15 ->
  ok (LECPCB_VAL_STR_END + to) = true ->
  npos (ctx w1) = 0 -> LECP_STRING_CHUNK L <= 255 ->
  Z.of_nat (length (buf (ctx w1))) = LECP_STRING_CHUNK L + 1 ->
  st_collect_rem f1 = Z.of_nat (length bs) ->
  1 <= Z.of_nat (length bs) <= LECP_STRING_CHUNK L ->
  log w1 = lg ++ [(LECPCB_VAL_STR_START + to, c0)] ->
  exists w' c1,
    lecp_parse (answering ok g) L bs w1 = Some (0, w')
    /\ log w' = lg ++ [(LECPCB_VAL_STR_START + to, c0);
                       (LECPCB_VAL_STR_END + to, c1)]
    /\ npos c1 = Z.of_nat (length bs)
    /\ firstn (S (length bs)) (buf c1) = bs ++ [0]
    /\ ready (ctx w') /\ setup_of (ctx w') = setup_of (ctx w1).
Proof.
  intros Hst Hsp Hs Hind Hcb Hto Hto' Hok Hnp HC Hbuf Hrem Hlen Hlog.
  assert (Hne : bs <> []) by (intros E; rewrite E in Hlen; cbn in Hlen; lia).
  destruct (collate_run ok g L bs w1 f1 rest to Hst Hsp Hs Hind Hcb Hto Hto')
    as (w' & c1 & f' & Hp & Hlog' & Hnp' & Hb & Hst' & Hs' & Hind' & Hrem'
        & Hsp' & Hset); try assumption; try lia.
  { rewrite Hrem, Z.eqb_refl. exact Hok. }
  rewrite Hrem, Z.eqb_refl in Hlog'. rewrite Hnp in Hnp', Hb.
  exists w', c1. split; [exact Hp|].
  split; [rewrite Hlog', Hlog, <- app_assoc; reflexivity|].
  split; [lia|]. split.
  { rewrite Hnp' in Hb. cbn [Z.to_nat firstn app] in Hb.
    replace (S (length bs)) with (Z.to_nat (0 + Z.of_nat (length bs)) + 1)%nat
      by lia.
    exact Hb. }
  split; [|exact Hset].
  split; [exact Hsp'|]. exists f', rest.
  split; [exact Hst'|]. split; [exact Hs'|congruence].
Qed.

(** X10.  A byte or text string of [n] bytes, [n] at most the size of a
    chunk, fed to a context that is between items at the top level, is
    delivered whole: START at its head, and END with its bytes in [buf];
    whether [n] is the minor of the head byte or follows it in 1, 2, 4 or 8
    bytes (read on a little-endian host). *)
Theorem definite_string_is_delivered_whole :
  forall w major to bs k,
    ready (ctx w) -> cb (ctx w) <> 0 ->
    Z.of_nat (length (buf (ctx w))) = LECP_STRING_CHUNK L + 1 ->
    LECP_STRING_CHUNK L <= 255 ->
    (major = 2 /\ to = 15) \/ (major = 3 /\ to = 0) ->
    ok (LECPCB_VAL_STR_START + to) = true ->
    ok (LECPCB_VAL_STR_END + to) = true ->
    1 <= Z.of_nat (length bs) <= LECP_STRING_CHUNK L ->
    (Z.of_nat (length bs) < 24 ->
     string_delivered
       (lecp_parse (answering ok g) L
                   (32 * major + Z.of_nat (length bs) :: bs) w)
       w to bs)
    /\ (0 <= k <= 3 -> Z.of_nat (length bs) < 2 ^ (8 * 2 ^ k) ->
        be (ctx w) = false ->
        string_delivered
          (lecp_parse (answering ok g) L
                      ((32 * major + (24 + k)
                        :: be_bytes (Z.to_nat (2 ^ k)) (Z.of_nat (length bs)))
                       ++ bs) w)
          w to bs).
Proof.
  intros w major to bs k (Hsp & f & rest & Hst & Hs & Hind) Hcb Hbuf HC Hmaj
         Hoks Hoke Hlen.
  assert (Hne : buf (ctx w) <> [])
    by (apply (nonempty_by_length _ _ Hbuf); lia).
  assert (Hto' : to = 0 \/ to = 15) by (destruct Hmaj as [[_ ->]|[_ ->]]; auto).
  assert (Hto : forall c, item_opcode c = 32 * major ->
                  (if item_opcode c =? LWS_CBOR_MAJTYP_BSTR
                   then LECPCB_VAL_BLOB_END - LECPCB_VAL_STR_END else 0) = to).
  { intros c ->. destruct Hmaj as [[-> ->]|[-> ->]]; reflexivity. }
  split.
  - intros H24.
    destruct (string_head ok g L w f rest major to (Z.of_nat (length bs)))
      as (w1 & c0 & f1 & Hrun & Hlog & Hst1 & Hs1 & Hind1 & Hrem1 & Hsp1
          & Hnp1 & Hio1 & Hbl1 & Hset1); try assumption; try lia.
    rewrite (parse_next L _ _ _ _ _ Hrun).
    assert (Hcb1 : cb (ctx w1) <> 0) by (unfold setup_of in Hset1; congruence).
    assert (Hbuf1 : Z.of_nat (length (buf (ctx w1))) = LECP_STRING_CHUNK L + 1)
      by congruence.
    destruct (string_body w1 f1 rest to bs (log w) c0 Hst1 Hsp1 Hs1 Hind1
                Hcb1 (Hto _ Hio1) Hto' Hoke Hnp1 HC Hbuf1 Hrem1 Hlen Hlog)
      as (w' & c1 & Hp & Hlog' & Hnp' & Hb & Hready & Hset').
    exists w', c0, c1. repeat (split; [assumption|]). congruence.
  - intros Hk Hfit Hbe.
    destruct (string_head_arg ok g L w f rest major to k)
      as (w1 & c0 & f1 & Hrun & Hlog & Hst1 & Hs1 & Hind1 & Hop1 & Hrem1
          & Htgt1 & Hitem1 & Hsp1 & Hio1 & Hbe1 & Hbl1 & Hset1);
      try assumption.
    assert (Hm : Z.of_nat (Z.to_nat (2 ^ k)) = 2 ^ k)
      by (apply Z2Nat.id; apply Z.pow_nonneg; lia).
    assert (Hm8 : 1 <= 2 ^ k <= 8).
    { assert (Hk4 : k = 0 \/ k = 1 \/ k = 2 \/ k = 3) by lia.
      destruct Hk4 as [-> | [-> | [-> | ->]]]; cbn; lia. }
    assert (Hstr1 : is_string_opcode (st_opcode f1) = true)
      by (rewrite Hop1; destruct Hmaj as [[-> _]|[-> _]]; reflexivity).
    assert (Hne1 : buf (ctx w1) <> [])
      by (rewrite <- Hbl1 in Hbuf; apply (nonempty_by_length _ _ Hbuf); lia).
    assert (Hbe_ne : be_bytes (Z.to_nat (2 ^ k)) (Z.of_nat (length bs)) <> []).
    { intros E. apply (f_equal (@length Z)) in E.
      rewrite length_be_bytes in E. cbn in E. lia. }
    destruct (collect_run ok g L
                (be_bytes (Z.to_nat (2 ^ k)) (Z.of_nat (length bs)))
                w1 f1 rest Hst1 Hsp1 Hs1 Hstr1 Hne1 Hbe1 Hbe_ne)
      as (w2 & f2 & Hf & Hlog2 & Hst2 & Hs2 & Hrem2 & Hind2 & Hnp2 & Hsp2
          & Hio2 & Hbl2 & Hset2);
      rewrite ?length_be_bytes, ?Hm; try lia.
    rewrite Htgt1, Hitem1 in Hrem2.
    replace (2 ^ k - 1) with (Z.of_nat (Z.to_nat (2 ^ k)) - 1) in Hrem2 by lia.
    rewrite collected_argument in Hrem2 by (rewrite Hm; lia).
    pose proof (feeds_cons _ _ _ _ _ _ _ Hrun Hf bs) as Hfeed.
    cbn [app] in Hfeed |- *. rewrite Hfeed.
    assert (Hcb2 : cb (ctx w2) <> 0)
      by (unfold setup_of in Hset1, Hset2; congruence).
    assert (Hbuf2 : Z.of_nat (length (buf (ctx w2))) = LECP_STRING_CHUNK L + 1)
      by congruence.
    assert (Hio : item_opcode (ctx w2) = 32 * major) by congruence.
    assert (Hind0 : st_indet f2 = 0) by congruence.
    assert (Hlog0 : log w2 = log w ++ [(LECPCB_VAL_STR_START + to, c0)])
      by congruence.
    destruct (string_body w2 f2 rest to bs (log w) c0 Hst2 Hsp2 Hs2 Hind0
                Hcb2 (Hto _ Hio) Hto' Hoke Hnp2 HC Hbuf2 Hrem2 Hlen Hlog0)
      as (w' & c1 & Hp & Hlog' & Hnp' & Hb & Hready & Hset').
    exists w', c0, c1. repeat (split; [assumption|]). congruence.
Qed.

(** X11.  A string longer than a chunk, its length [n] given in [2 ^ k]
    bytes:
    once [buf] is full its bytes are delivered with CHUNK, and the frame is
    left in [LECP_OPC] with the rest of the length in [collect_rem]: the
    feed returns 0, and the bytes of the string that follow are read as
    head bytes. *)
Theorem string_longer_than_a_chunk :
  forall w major to bs k n,
    ready (ctx w) -> cb (ctx w) <> 0 ->
    Z.of_nat (length (buf (ctx w))) = LECP_STRING_CHUNK L + 1 ->
    1 <= LECP_STRING_CHUNK L <= 255 ->
    (major = 2 /\ to = 15) \/ (major = 3 /\ to = 0) ->
    ok (LECPCB_VAL_STR_START + to) = true ->
    ok (LECPCB_VAL_STR_CHUNK + to) = true ->
    Z.of_nat (length bs) = LECP_STRING_CHUNK L ->
    0 <= k <= 3 -> LECP_STRING_CHUNK L < n < 2 ^ (8 * 2 ^ k) ->
    be (ctx w) = false ->
    exists w' c0 c1 f' rest,
      lecp_parse (answering ok g) L
                 ((32 * major + (24 + k) :: be_bytes (Z.to_nat (2 ^ k)) n)
                  ++ bs) w
      = Some (0, w')
      /\ log w' = log w ++ [(LECPCB_VAL_STR_START + to, c0);
                            (LECPCB_VAL_STR_CHUNK + to, c1)]
      /\ npos c1 = LECP_STRING_CHUNK L
      /\ firstn (S (length bs)) (buf c1) = bs ++ [0]
      /\ sp (ctx w') = 0 /\ st (ctx w') = f' :: rest
      /\ st_s f' = LECP_OPC
      /\ st_collect_rem f' = n - LECP_STRING_CHUNK L.
Proof.
  intros w major to bs k n (Hsp & f & rest & Hst & Hs & Hind) Hcb Hbuf HC Hmaj
         Hoks Hokc Hlen Hk Hn Hbe.
  assert (Hne : buf (ctx w) <> [])
    by (apply (nonempty_by_length _ _ Hbuf); lia).
  assert (Hto' : to = 0 \/ to = 15) by (destruct Hmaj as [[_ ->]|[_ ->]]; auto).
  assert (Hto : forall c, item_opcode c = 32 * major ->
                  (if item_opcode c =? LWS_CBOR_MAJTYP_BSTR
                   then LECPCB_VAL_BLOB_END - LECPCB_VAL_STR_END else 0) = to).
  { intros c ->. destruct Hmaj as [[-> ->]|[-> ->]]; reflexivity. }
  destruct (string_head_arg ok g L w f rest major to k)
    as (w1 & c0 & f1 & Hrun & Hlog & Hst1 & Hs1 & Hind1 & Hop1 & Hrem1
        & Htgt1 & Hitem1 & Hsp1 & Hio1 & Hbe1 & Hbl1 & Hset1);
    try assumption.
  assert (Hm : Z.of_nat (Z.to_nat (2 ^ k)) = 2 ^ k)
    by (apply Z2Nat.id; apply Z.pow_nonneg; lia).
  assert (Hm8 : 1 <= 2 ^ k <= 8).
  { assert (Hk4 : k = 0 \/ k = 1 \/ k = 2 \/ k = 3) by lia.
    destruct Hk4 as [-> | [-> | [-> | ->]]]; cbn; lia. }
  assert (H64 : 2 ^ (8 * 2 ^ k) <= 18446744073709551616).
  { assert (Hk4 : k = 0 \/ k = 1 \/ k = 2 \/ k = 3) by lia.
    destruct Hk4 as [-> | [-> | [-> | ->]]]; cbn; lia. }
  assert (Hstr1 : is_string_opcode (st_opcode f1) = true)
    by (rewrite Hop1; destruct Hmaj as [[-> _]|[-> _]]; reflexivity).
  assert (Hne1 : buf (ctx w1) <> [])
    by (rewrite <- Hbl1 in Hbuf; apply (nonempty_by_length _ _ Hbuf); lia).
  assert (Hbe_ne : be_bytes (Z.to_nat (2 ^ k)) n <> []).
  { intros E. apply (f_equal (@length Z)) in E.
    rewrite length_be_bytes in E. cbn in E. lia. }
  destruct (collect_run ok g L (be_bytes (Z.to_nat (2 ^ k)) n)
              w1 f1 rest Hst1 Hsp1 Hs1 Hstr1 Hne1 Hbe1 Hbe_ne)
    as (w2 & f2 & Hf & Hlog2 & Hst2 & Hs2 & Hrem2 & Hind2 & Hnp2 & Hsp2
        & Hio2 & Hbl2 & Hset2);
    rewrite ?length_be_bytes, ?Hm; try lia.
  rewrite Htgt1, Hitem1 in Hrem2.
  replace (2 ^ k - 1) with (Z.of_nat (Z.to_nat (2 ^ k)) - 1) in Hrem2 by lia.
  rewrite collected_argument in Hrem2 by (rewrite Hm; lia).
  pose proof (feeds_cons _ _ _ _ _ _ _ Hrun Hf bs) as Hfeed.
  cbn [app] in Hfeed |- *. rewrite Hfeed.
  assert (Hcb2 : cb (ctx w2) <> 0)
    by (unfold setup_of in Hset1, Hset2; congruence).
  assert (Hbuf2 : Z.of_nat (length (buf (ctx w2))) = LECP_STRING_CHUNK L + 1)
    by congruence.
  assert (Hio : item_opcode (ctx w2) = 32 * major) by congruence.
  assert (Hind0 : st_indet f2 = 0) by congruence.
  assert (Hbs : bs <> []) by (intros E; rewrite E in Hlen; cbn in Hlen; lia).
  assert (Hnot : (Z.of_nat (length bs) =? st_collect_rem f2) = false)
    by (apply Z.eqb_neq; lia).
  destruct (collate_run ok g L bs w2 f2 rest to Hst2 Hsp2 Hs2 Hind0 Hcb2
              (Hto _ Hio) Hto')
    as (w' & c1 & f' & Hp & Hlog' & Hnp' & Hb & Hst' & Hs' & Hind' & Hrem'
        & Hsp' & Hset); rewrite ?Hnot; try assumption; try lia.
  rewrite Hnot in Hlog'. rewrite Hnp2 in Hnp', Hb.
  exists w', c0, c1, f', rest. split; [exact Hp|].
  split; [rewrite Hlog', Hlog2, Hlog, <- app_assoc; reflexivity|].
  split; [lia|]. split.
  { rewrite Hnp' in Hb. cbn [Z.to_nat firstn app] in Hb.
    replace (S (length bs)) with (Z.to_nat (0 + Z.of_nat (length bs)) + 1)%nat
      by lia.
    exact Hb. }
  split; [exact Hsp'|]. split; [exact Hst'|]. split; [exact Hs'|]. lia.
Qed.
End DefiniteStrings.

Lemma ready_fresh : ready (ctx fresh).
Proof.
  split; [reflexivity|]. exists frame0, (repeat frame0 11).
  repeat split; reflexivity.
Defined.

Lemma definite_string_is_delivered_whole_witness :
  string_delivered
    (lecp_parse (answering (one_of [LECPCB_VAL_STR_START; LECPCB_VAL_STR_END])
                           refuse_all)
                lecp_defaults
                (32 * 3 + Z.of_nat (length [104; 105]) :: [104; 105]) fresh)
    fresh 0 [104; 105].
Proof.
  assert (Hcb : cb (ctx fresh) <> 0) by discriminate.
  assert (Hbuf : Z.of_nat (length (buf (ctx fresh)))
                 = LECP_STRING_CHUNK lecp_defaults + 1) by reflexivity.
  assert (HC : LECP_STRING_CHUNK lecp_defaults <= 255)
    by (vm_compute; discriminate).
  assert (Hmaj : (3 = 2 /\ 0 = 15) \/ (3 = 3 /\ 0 = 0)) by (right; split; reflexivity).
  assert (Hlen : 1 <= Z.of_nat (length [104; 105])
                 <= LECP_STRING_CHUNK lecp_defaults)
    by (split; vm_compute; discriminate).
  apply (proj1 (definite_string_is_delivered_whole
                  (one_of [LECPCB_VAL_STR_START; LECPCB_VAL_STR_END])
                  refuse_all lecp_defaults fresh 3 0 [104; 105] 0
                  ready_fresh Hcb Hbuf HC Hmaj eq_refl eq_refl Hlen)).
  reflexivity.
Defined.

Lemma string_longer_than_a_chunk_witness :
  exists w' c0 c1 f' rest,
    lecp_parse (answering (one_of [LECPCB_VAL_STR_START; LECPCB_VAL_STR_CHUNK])
                          refuse_all)
               lecp_defaults
               ((32 * 3 + (24 + 1) :: be_bytes (Z.to_nat (2 ^ 1)) 300)
                ++ repeat 97 254) fresh
    = Some (0, w')
    /\ log w' = log fresh ++ [(LECPCB_VAL_STR_START + 0, c0);
                              (LECPCB_VAL_STR_CHUNK + 0, c1)]
    /\ npos c1 = LECP_STRING_CHUNK lecp_defaults
    /\ firstn (S (length (repeat 97 254))) (buf c1) = repeat 97 254 ++ [0]
    /\ sp (ctx w') = 0 /\ st (ctx w') = f' :: rest
    /\ st_s f' = LECP_OPC
    /\ st_collect_rem f' = 300 - LECP_STRING_CHUNK lecp_defaults.
Proof.
  assert (Hcb : cb (ctx fresh) <> 0) by discriminate.
  assert (HC : 1 <= LECP_STRING_CHUNK lecp_defaults <= 255)
    by (split; vm_compute; discriminate).
  assert (Hmaj : (3 = 2 /\ 0 = 15) \/ (3 = 3 /\ 0 = 0)) by (right; split; reflexivity).
  assert (Hk : 0 <= 1 <= 3) by lia.
  assert (Hn : LECP_STRING_CHUNK lecp_defaults < 300 < 2 ^ (8 * 2 ^ 1))
    by (split; vm_compute; reflexivity).
  apply (string_longer_than_a_chunk
           (one_of [LECPCB_VAL_STR_START; LECPCB_VAL_STR_CHUNK]) refuse_all
           lecp_defaults fresh 3 0 (repeat 97 254) 1 300
           ready_fresh Hcb eq_refl HC Hmaj eq_refl eq_refl eq_refl Hk Hn
           eq_refl).
Defined.

(** ** Arrays *)

Lemma check_no_patterns c :
  path_match c = 0 -> count_paths c = 0 ->
  check_path_match c = Some (set_wildcount 0 c).
Proof.
  intros Hm Hc. unfold check_path_match, nonzero. rewrite Hm, Hc. cbn.
  rewrite Hm. reflexivity.
Qed.

Lemma runs_check w :
  path_match (ctx w) = 0 -> count_paths (ctx w) = 0 ->
  runs lecp_check_path_match w tt
       {| ctx := set_wildcount 0 (ctx w); log := log w |}.
Proof.
  intros Hm Hc. unfold runs, lecp_check_path_match, bind, getc, lift.
  rewrite (check_no_patterns _ Hm Hc). reflexivity.
Qed.

Ltac run_check :=
  lazymatch goal with
  | |- runs (bind lecp_check_path_match _) _ _ _ =>
      eapply runs_bind; [apply runs_check; fields; assumption|cbv beta]
  end.

Lemma u16_small x : 0 <= x < 65536 -> u16 x = x.
Proof. intros H. unfold u16. apply Z.mod_small. exact H. Qed.

Section ArrayElement.
Variable ok : Z -> bool.
Variable g : Z -> lecp_callback.
Variable L : lecp_limits.

(** An element of an array that has more to come: it is delivered, and
    the index of the array moves on. *)
Lemma element_more w f0 f1 rest v irest m :
  st (ctx w) = f0 :: f1 :: rest -> sp (ctx w) = 1 -> st_s f1 = LECP_OPC ->
  st_opcode f0 = LWS_CBOR_MAJTYP_ARRAY -> st_indet f0 = 0 ->
  2 <= st_collect_rem f0 < 18446744073709551616 ->
  ipos (ctx w) = 1 -> i (ctx w) = v :: irest -> 0 <= v < 65535 ->
  cb (ctx w) <> 0 -> ok LECPCB_VAL_NUM_UINT = true ->
  0 <= m < 24 ->
  exists w1 c1 f0' f1',
    runs (parse_byte (answering ok g) L m) w Next w1
    /\ log w1 = log w ++ [(LECPCB_VAL_NUM_UINT, c1)]
    /\ item_u64 c1 = m /\ i c1 = v :: irest /\ ipos c1 = 1
    /\ path c1 = path (ctx w) /\ ppos c1 = ppos (ctx w)
    /\ st (ctx w1) = f0' :: f1' :: rest
    /\ st_s f1' = LECP_OPC
    /\ st_opcode f0' = LWS_CBOR_MAJTYP_ARRAY /\ st_indet f0' = 0
    /\ st_collect_rem f0' = st_collect_rem f0 - 1
    /\ st_pop_iss f0' = st_pop_iss f0 /\ st_p f0' = st_p f0
    /\ sp (ctx w1) = 1 /\ ipos (ctx w1) = 1
    /\ i (ctx w1) = (v + 1) :: irest
    /\ path (ctx w1) = path (ctx w) /\ ppos (ctx w1) = ppos (ctx w)
    /\ path_match (ctx w1) = path_match (ctx w)
    /\ setup_of (ctx w1) = setup_of (ctx w).
Proof.
  intros Hst Hsp Hs1 Hop0 Hind0 Hrem Hipos Hi Hv Hcb Hok Hm.
  destruct (head_byte 0 m) as [Hop Hsm]; [lia|lia|].
  cbn [Z.mul Z.add] in Hop, Hsm.
  assert (Hlt : (m <? LWS_CBOR_1) = true)
    by (apply Z.ltb_lt; unfold LWS_CBOR_1; lia).
  assert (Hu64 : u64 (st_collect_rem f0 - 1) = st_collect_rem f0 - 1)
    by (apply u64_small; lia).
  assert (Hu16 : u16 (v + 1) = v + 1) by (apply u16_small; lia).
  assert (Hnz : nonzero (st_collect_rem f0) = true)
    by (apply nonzero_true; lia).
  assert (Hnz' : nonzero (st_collect_rem f0 - 1) = true)
    by (apply nonzero_true; lia).
  assert (Hi0 : nonzero 0 = false) by reflexivity.
  assert (Hi1 : nonzero 1 = true) by reflexivity.
  eexists. eexists. eexists. eexists. split.
  - unfold parse_byte.
    repeat (run_step; fields; rewrite ?Hsp, ?Hst; mem).
    rewrite Hs1. unfold parse_opc. rewrite Hop, Hsm.
    repeat (run_step; fields; rewrite ?Hsp, ?Hst, ?Hlt; mem).
    unfold issue.
    repeat (run_step; fields; rewrite ?Hsp, ?Hst; mem).
    unfold lwcp_completed.
    repeat (run_step; fields; rewrite ?Hsp, ?Hst; mem).
    change (Z.to_nat 1) with 1%nat. cbn [completed_walk].
    repeat (run_step; fields;
            rewrite ?Hsp, ?Hst, ?Hipos, ?Hi, ?Hi1, ?Hi0, ?Hop0, ?Hind0, ?Hnz,
              ?Hu64, ?Hu16, ?Hnz', ?Z.eqb_refl;
            change (1 - 1) with 0; mem; cbn [negb andb]).
  - fields. repeat split; fields;
      first [reflexivity
            | rewrite ?Hsp, ?Hi, ?Hipos, ?Hop0, ?Hind0; reflexivity].
Qed.

(** The last element of an array: it is delivered, the array is popped
    off the stack, its mark is taken off the path, and ARRAY_END is
    delivered. *)
Lemma element_last w f0 f1 rest v irest m :
  st (ctx w) = f0 :: f1 :: rest -> sp (ctx w) = 1 -> st_s f1 = LECP_OPC ->
  st_opcode f0 = LWS_CBOR_MAJTYP_ARRAY -> st_indet f0 = 0 ->
  st_collect_rem f0 = 1 ->
  st_pop_iss f0 = LECPCB_ARRAY_END ->
  0 <= st_p f0 < Z.of_nat (length (path (ctx w))) ->
  path_match (ctx w) = 0 -> count_paths (ctx w) = 0 ->
  ipos (ctx w) = 1 -> i (ctx w) = v :: irest -> 0 <= v < 65535 ->
  cb (ctx w) <> 0 -> ok LECPCB_VAL_NUM_UINT = true ->
  ok LECPCB_ARRAY_END = true ->
  0 <= m < 24 ->
  exists w1 c1 c2 f0' f1',
    runs (parse_byte (answering ok g) L m) w Next w1
    /\ log w1 = log w ++ [(LECPCB_VAL_NUM_UINT, c1); (LECPCB_ARRAY_END, c2)]
    /\ item_u64 c1 = m /\ i c1 = v :: irest /\ ipos c1 = 1
    /\ path c1 = path (ctx w) /\ ppos c1 = ppos (ctx w)
    /\ ppos c2 = st_p f0
    /\ path c2 = upd (path (ctx w)) (Z.to_nat (st_p f0)) 0
    /\ sp c2 = 0 /\ ipos c2 = 0
    /\ st (ctx w1) = f0' :: f1' :: rest
    /\ st_s f0' = LECP_OPC /\ st_indet f0' = 0
    /\ sp (ctx w1) = 0 /\ ipos (ctx w1) = 0
    /\ ppos (ctx w1) = st_p f0
    /\ path (ctx w1) = upd (path (ctx w)) (Z.to_nat (st_p f0)) 0
    /\ path_match (ctx w1) = 0
    /\ setup_of (ctx w1) = setup_of (ctx w).
Proof.
  intros Hst Hsp Hs1 Hop0 Hind0 Hrem Hpop Hp Hpm Hcp Hipos Hi Hv Hcb
         Hok Hoke Hm.
  destruct (head_byte 0 m) as [Hop Hsm]; [lia|lia|].
  cbn [Z.mul Z.add] in Hop, Hsm.
  assert (Hlt : (m <? LWS_CBOR_1) = true)
    by (apply Z.ltb_lt; unfold LWS_CBOR_1; lia).
  assert (Hu16 : u16 (v + 1) = v + 1) by (apply u16_small; lia).
  assert (Hi0 : nonzero 0 = false) by reflexivity.
  assert (Hi1 : nonzero 1 = true) by reflexivity.
  assert (Hpp : store (path (ctx w)) (st_p f0) 0
                = Some (upd (path (ctx w)) (Z.to_nat (st_p f0)) 0))
    by (apply store_in_range; exact Hp).
  eexists. eexists. eexists. eexists. eexists. split.
  - unfold parse_byte.
    repeat (run_step; fields; rewrite ?Hsp, ?Hst; mem).
    rewrite Hs1. unfold parse_opc. rewrite Hop, Hsm.
    repeat (run_step; fields; rewrite ?Hsp, ?Hst, ?Hlt; mem).
    unfold issue.
    repeat (run_step; fields; rewrite ?Hsp, ?Hst; mem).
    unfold lwcp_completed.
    repeat (run_step; fields; rewrite ?Hsp, ?Hst; mem).
    change (Z.to_nat 1) with 1%nat. cbn [completed_walk].
    repeat (run_step; fields;
            rewrite ?Hsp, ?Hst, ?Hipos, ?Hi, ?Hi1, ?Hi0, ?Hop0, ?Hind0, ?Hrem,
              ?Hu16, ?Z.eqb_refl;
            change (1 - 1) with 0; change (u64 0) with 0;
            change (u8 0) with 0; mem; cbn [negb andb]).
    unfold lecp_pop.
    repeat (first [run_step | run_check]; fields;
            rewrite ?Hsp, ?Hst, ?Hipos, ?Hi, ?Hi1, ?Hi0, ?Hpop, ?Hpp,
              ?Z.eqb_refl;
            change (1 - 1) with 0; change (u8 0) with 0; mem;
            cbn [negb andb]).
  - fields. split; [rewrite <- app_assoc; reflexivity|].
    repeat split; fields;
      first [reflexivity
            | rewrite ?Hsp, ?Hi, ?Hipos, ?Hop0, ?Hind0, ?Hpm; reflexivity].

Qed.
End ArrayElement.

Section ArrayHead.
Variable ok : Z -> bool.
Variable g : Z -> lecp_callback.
Variable L : lecp_limits.

(** The head byte of an array of [n] elements, [n] being the minor, at the
    top level: the mark of the array goes on the path, ARRAY_START is
    delivered, and a frame for the elements is pushed. *)
Lemma array_head w f f' rest v0 irest n :
  st (ctx w) = f :: f' :: rest -> sp (ctx w) = 0 -> st_s f = LECP_OPC ->
  cb (ctx w) <> 0 -> buf (ctx w) <> [] ->
  LECP_MAX_DEPTH L <> 1 -> 1 < LECP_MAX_INDEX_DEPTH L ->
  0 <= ppos (ctx w) -> ppos (ctx w) + 3 < LECP_MAX_PATH L ->
  LECP_MAX_PATH L <= 256 ->
  Z.of_nat (length (path (ctx w))) = LECP_MAX_PATH L ->
  path_match (ctx w) = 0 -> count_paths (ctx w) = 0 ->
  ipos (ctx w) = 0 -> i (ctx w) = v0 :: irest ->
  ok LECPCB_ARRAY_START = true ->
  1 <= n < 24 ->
  let p := ppos (ctx w) in
  let marked := upd (upd (upd (path (ctx w)) (Z.to_nat p) 91)
                         (Z.to_nat (p + 1)) 93) (Z.to_nat (p + 2)) 0 in
  exists w1 c0 f0 f1,
    runs (parse_byte (answering ok g) L (32 * 4 + n)) w Next w1
    /\ log w1 = log w ++ [(LECPCB_ARRAY_START, c0)]
    /\ path c0 = marked /\ ppos c0 = p + 2
    /\ st (ctx w1) = f0 :: f1 :: rest
    /\ st_s f1 = LECP_OPC
    /\ st_opcode f0 = LWS_CBOR_MAJTYP_ARRAY /\ st_indet f0 = 0
    /\ st_collect_rem f0 = n
    /\ st_pop_iss f0 = LECPCB_ARRAY_END /\ st_p f0 = p
    /\ sp (ctx w1) = 1 /\ ipos (ctx w1) = 1
    /\ i (ctx w1) = 0 :: irest
    /\ path (ctx w1) = marked /\ ppos (ctx w1) = p + 2
    /\ path_match (ctx w1) = 0
    /\ setup_of (ctx w1) = setup_of (ctx w).
Proof.
  intros Hst Hsp Hs Hcb Hbuf HD HI Hp0 Hp3 HP Hpl Hpm Hcp Hipos Hi Hok Hn
         p marked.
  destruct (head_byte 4 n) as [Hop Hsm]; [lia|lia|].
  assert (Hst0 : store (buf (ctx w)) 0 0 = Some (upd (buf (ctx w)) 0 0)).
  { apply store_in_range. destruct (buf (ctx w)); [congruence|cbn; lia]. }
  assert (Hnz : nonzero n = true) by (apply nonzero_true; lia).
  assert (Hlt : (n <? LWS_CBOR_1) = true)
    by (apply Z.ltb_lt; unfold LWS_CBOR_1; lia).
  assert (Hroom : (ppos (ctx w) + 3 >=? LECP_MAX_PATH L) = false).
  { rewrite Z.geb_leb. apply Z.leb_gt. lia. }
  assert (Hidx : (0 + 1 >=? LECP_MAX_INDEX_DEPTH L) = false).
  { rewrite Z.geb_leb. apply Z.leb_gt. lia. }
  assert (Hdepth : (0 + 1 =? LECP_MAX_DEPTH L) = false)
    by (apply Z.eqb_neq; lia).
  assert (Hu1 : u8 (ppos (ctx w) + 1) = ppos (ctx w) + 1)
    by (apply u8_small; lia).
  assert (Hu2 : u8 (ppos (ctx w) + 2) = ppos (ctx w) + 2)
    by (apply u8_small; lia).
  assert (Hs1 : store (path (ctx w)) (ppos (ctx w)) 91
                = Some (upd (path (ctx w)) (Z.to_nat p) 91))
    by (apply store_in_range; lia).
  assert (Hs2 : store (upd (path (ctx w)) (Z.to_nat p) 91)
                      (ppos (ctx w) + 1) 93
                = Some (upd (upd (path (ctx w)) (Z.to_nat p) 91)
                            (Z.to_nat (p + 1)) 93))
    by (apply store_in_range; rewrite upd_length; lia).
  assert (Hs3 : store (upd (upd (path (ctx w)) (Z.to_nat p) 91)
                           (Z.to_nat (p + 1)) 93)
                      (ppos (ctx w) + 2) 0 = Some marked)
    by (apply store_in_range; rewrite !upd_length; lia).
  eexists. eexists. eexists. eexists. split.
  - unfold parse_byte.
    repeat (run_step; fields; rewrite ?Hsp, ?Hst; mem).
    rewrite Hs. unfold parse_opc. rewrite Hop, Hsm.
    repeat (run_step; fields; rewrite ?Hsp, ?Hst; mem).
    unfold opc_array.
    repeat (first [run_step | run_check]; fields;
            rewrite ?Hsp, ?Hst, ?Hst0, ?Hroom, ?Hu1, ?Hu2, ?Hs1, ?Hs2, ?Hs3,
              ?Hipos, ?Hidx, ?Hi, ?Hnz, ?Hlt; mem; cbn [negb]).
    unfold lecp_push.
    repeat (first [run_step | run_check]; fields;
            rewrite ?Hsp, ?Hst, ?Hdepth; mem; cbn [negb]).
  - subst p marked. fields. split; [reflexivity|].
    repeat split; fields;
      first [reflexivity
            | rewrite ?Hsp, ?Hi, ?Hipos, ?Hpm; reflexivity].
Qed.
End ArrayHead.

(** What the callback reads of an element: the reason, the item, and the
    index that the innermost open array has reached. *)
Definition element_view (e : event) : Z * Z * option Z :=
  (fst e, item_u64 (snd e), load (i (snd e)) (ipos (snd e) - 1)).

(** The views of the unsigned integers [es] as elements from index [k]. *)
Fixpoint numbered (k : Z) (es : list Z) : list (Z * Z * option Z) :=
  match es with
  | [] => []
  | m :: t => (LECPCB_VAL_NUM_UINT, m, Some k) :: numbered (k + 1) t
  end.

Section ArrayRun.
Variable ok : Z -> bool.
Variable g : Z -> lecp_callback.
Variable L : lecp_limits.

Lemma elements_run es : forall w f0 f1 rest v irest,
  st (ctx w) = f0 :: f1 :: rest -> sp (ctx w) = 1 -> st_s f1 = LECP_OPC ->
  st_opcode f0 = LWS_CBOR_MAJTYP_ARRAY -> st_indet f0 = 0 ->
  st_collect_rem f0 = Z.of_nat (length es) -> es <> [] ->
  st_pop_iss f0 = LECPCB_ARRAY_END ->
  0 <= st_p f0 < Z.of_nat (length (path (ctx w))) ->
  path_match (ctx w) = 0 -> count_paths (ctx w) = 0 ->
  ipos (ctx w) = 1 -> i (ctx w) = v :: irest ->
  0 <= v -> v + Z.of_nat (length es) <= 65535 ->
  cb (ctx w) <> 0 -> ok LECPCB_VAL_NUM_UINT = true ->
  ok LECPCB_ARRAY_END = true ->
  Forall (fun m => 0 <= m < 24) es ->
  exists w' evs c2 f0' f1',
    lecp_parse (answering ok g) L es w = Some (0, w')
    /\ log w' = log w ++ evs ++ [(LECPCB_ARRAY_END, c2)]
    /\ map element_view evs = numbered v es
    /\ Forall (fun e => path (snd e) = path (ctx w)
                        /\ ppos (snd e) = ppos (ctx w)) evs
    /\ ppos c2 = st_p f0
    /\ path c2 = upd (path (ctx w)) (Z.to_nat (st_p f0)) 0
    /\ sp c2 = 0 /\ ipos c2 = 0
    /\ st (ctx w') = f0' :: f1' :: rest
    /\ st_s f0' = LECP_OPC /\ st_indet f0' = 0
    /\ sp (ctx w') = 0 /\ ipos (ctx w') = 0
    /\ ppos (ctx w') = st_p f0
    /\ path (ctx w') = upd (path (ctx w)) (Z.to_nat (st_p f0)) 0
    /\ setup_of (ctx w') = setup_of (ctx w).
Proof.
  induction es as [|m es IH];
    intros w f0 f1 rest v irest Hst Hsp Hs1 Hop0 Hind0 Hrem Hne Hpop Hp Hpm
           Hcp Hipos Hi Hv Hvn Hcb Hok Hoke Hsmall; [congruence|].
  pose proof (Forall_inv Hsmall) as Hm.
  pose proof (Forall_inv_tail Hsmall) as Hsmall'. cbv beta in Hm.
  destruct es as [|m2 es].
  - cbn [length] in Hrem, Hvn.
    destruct (element_last ok g L w f0 f1 rest v irest m Hst Hsp Hs1 Hop0
                Hind0 Hrem Hpop Hp Hpm Hcp Hipos Hi ltac:(lia) Hcb Hok Hoke Hm)
      as (w1 & c1 & c2 & f0' & f1' & Hrun & Hlog & Hit & Hi1 & Hip1 & Hpa1
          & Hpp1 & Hpp2 & Hpa2 & Hsp2 & Hip2 & Hst' & Hs' & Hind' & Hsp'
          & Hip' & Hpp' & Hpa' & Hpm' & Hset).
    exists w1, [(LECPCB_VAL_NUM_UINT, c1)], c2, f0', f1'.
    rewrite (parse_next L _ _ _ _ _ Hrun). cbn [lecp_parse].
    split; [apply (parse_end_idle _ _ _ Hst' Hsp' Hs')|].
    split; [exact Hlog|]. split.
    { cbn [map numbered]. unfold element_view. cbn [fst snd].
      rewrite Hit, Hi1, Hip1. reflexivity. }
    split; [repeat constructor; assumption|].
    repeat (split; [assumption|]). exact Hset.
  - remember (m2 :: es) as es' eqn:Ees.
    assert (Hlen : 1 <= Z.of_nat (length es'))
      by (subst es'; cbn [length]; lia).
    cbn [length] in Hrem, Hvn. rewrite Nat2Z.inj_succ in Hrem, Hvn.
    destruct (element_more ok g L w f0 f1 rest v irest m Hst Hsp Hs1 Hop0
                Hind0 ltac:(lia) Hipos Hi ltac:(lia) Hcb Hok Hm)
      as (w1 & c1 & f0' & f1' & Hrun & Hlog & Hit & Hi1 & Hip1 & Hpa1 & Hpp1
          & Hst1 & Hs1' & Hop' & Hind' & Hrem' & Hpop' & Hp' & Hsp1 & Hipos1
          & Hi' & Hpa' & Hpp' & Hpm' & Hset).
    assert (Hcb1 : cb (ctx w1) <> 0) by (unfold setup_of in Hset; congruence).
    assert (Hcp1 : count_paths (ctx w1) = 0)
      by (unfold setup_of in Hset; congruence).
    assert (Hne' : es' <> []) by (subst es'; discriminate).
    destruct (IH w1 f0' f1' rest (v + 1) irest Hst1 Hsp1 Hs1' Hop' Hind'
                ltac:(lia) Hne' ltac:(congruence) ltac:(congruence)
                ltac:(congruence) Hcp1 Hipos1 Hi' ltac:(lia) ltac:(lia) Hcb1
                Hok Hoke Hsmall')
      as (w' & evs & c2 & f0'' & f1'' & Hp2 & Hlog2 & Hview & Hpaths & Hpp2
          & Hpa2 & Hsp2 & Hip2 & Hst'' & Hs'' & Hind'' & Hsp'' & Hip''
          & Hpp'' & Hpa'' & Hset'').
    exists w', ((LECPCB_VAL_NUM_UINT, c1) :: evs), c2, f0'', f1''.
    rewrite (parse_next L _ _ _ _ _ Hrun).
    split; [exact Hp2|].
    split; [rewrite Hlog2, Hlog, <- app_assoc; reflexivity|]. split.
    { cbn [map numbered]. rewrite Hview. unfold element_view. cbn [fst snd].
      rewrite Hit, Hi1, Hip1. reflexivity. }
    split.
    { constructor; [split; assumption|].
      eapply Forall_impl; [|exact Hpaths]. cbv beta.
      intros e [H1 H2]. split; congruence. }
    split; [congruence|]. split; [congruence|].
    split; [exact Hsp2|]. split; [exact Hip2|]. split; [exact Hst''|].
    split; [exact Hs''|]. split; [exact Hind''|]. split; [exact Hsp''|].
    split; [exact Hip''|]. split; [congruence|]. split; [congruence|].
    congruence.
Qed.
End ArrayRun.

Lemma firstn_upd_ge {A} (l : list A) n m v :
  (n <= m)%nat -> firstn n (upd l m v) = firstn n l.
Proof.
  revert n m. induction l as [|h t IH]; intros [|n] [|m] H; cbn;
    try reflexivity; try lia.
  f_equal. apply IH. lia.
Qed.

Lemma firstn_marked (l : list Z) p a b c :
  (p + 2 < length l)%nat ->
  firstn (p + 3) (upd (upd (upd l p a) (S p) b) (S (S p)) c)
  = firstn p l ++ [a; b; c].
Proof.
  intros H.
  replace (p + 3)%nat with (S (S (S p))) by lia.
  rewrite firstn_upd_succ by (rewrite !upd_length; lia).
  rewrite firstn_upd_succ by (rewrite upd_length; lia).
  rewrite firstn_upd_succ by lia.
  rewrite <- !app_assoc. reflexivity.
Qed.

Section SmallArrays.
Variable ok : Z -> bool.
Variable g : Z -> lecp_callback.
Variable L : lecp_limits.

(** X12.  An array of [n] unsigned integers below 24, [n] from 1 to 23
    being the minor of its head byte, fed to a context that is between items
    at the top level and has no patterns: ARRAY_START is delivered with the
    mark of the array on the path, then the elements in order, each with
    VAL_NUM_UINT, its value in the item and its index in the array, from 0,
    in [i]; then ARRAY_END, with the mark taken off the path; and the feed
    returns 0. *)
Theorem array_of_unsigned_integers :
  forall w es,
    ready (ctx w) -> cb (ctx w) <> 0 -> buf (ctx w) <> [] ->
    Z.of_nat (length (st (ctx w))) = LECP_MAX_DEPTH L ->
    2 <= LECP_MAX_DEPTH L ->
    Z.of_nat (length (i (ctx w))) = LECP_MAX_INDEX_DEPTH L ->
    1 < LECP_MAX_INDEX_DEPTH L -> ipos (ctx w) = 0 ->
    Z.of_nat (length (path (ctx w))) = LECP_MAX_PATH L ->
    LECP_MAX_PATH L <= 256 ->
    0 <= ppos (ctx w) -> ppos (ctx w) + 3 < LECP_MAX_PATH L ->
    path_match (ctx w) = 0 -> count_paths (ctx w) = 0 ->
    ok LECPCB_ARRAY_START = true -> ok LECPCB_VAL_NUM_UINT = true ->
    ok LECPCB_ARRAY_END = true ->
    1 <= Z.of_nat (length es) < 24 ->
    Forall (fun m => 0 <= m < 24) es ->
    let p := Z.to_nat (ppos (ctx w)) in
    exists w' c0 evs c2,
      lecp_parse (answering ok g) L (32 * 4 + Z.of_nat (length es) :: es) w
      = Some (0, w')
      /\ log w' = log w ++ (LECPCB_ARRAY_START, c0) :: evs
                        ++ [(LECPCB_ARRAY_END, c2)]
      /\ map element_view evs = numbered 0 es
      /\ Forall (fun c => ppos c = ppos (ctx w) + 2
                          /\ firstn (p + 3) (path c)
                             = firstn p (path (ctx w)) ++ [91; 93; 0])
                (c0 :: map snd evs)
      /\ ppos c2 = ppos (ctx w)
      /\ firstn (p + 1) (path c2) = firstn p (path (ctx w)) ++ [0]
      /\ ready (ctx w') /\ ppos (ctx w') = ppos (ctx w)
      /\ ipos (ctx w') = 0
      /\ setup_of (ctx w') = setup_of (ctx w).
Proof.
  intros w es (Hsp & f & rest0 & Hst & Hs & Hind) Hcb Hbuf Hstl HD Hil HI
         Hipos Hpl HP Hp0 Hp3 Hpm Hcp Hoks Hoku Hoke Hlen Hsmall p.
  destruct rest0 as [|f' rest].
  { rewrite Hst in Hstl. cbn in Hstl. lia. }
  destruct (i (ctx w)) as [|v0 irest] eqn:Hi.
  { cbn in Hil. lia. }
  destruct (array_head ok g L w f f' rest v0 irest (Z.of_nat (length es))
              Hst Hsp Hs Hcb Hbuf ltac:(lia) HI Hp0 Hp3 HP Hpl Hpm Hcp Hipos
              Hi Hoks Hlen)
    as (w1 & c0 & f0 & f1 & Hrun & Hlog & Hpa0 & Hpp0 & Hst1 & Hs1 & Hop0
        & Hind0 & Hrem0 & Hpop0 & Hp & Hsp1 & Hipos1 & Hi1 & Hpa1 & Hpp1
        & Hpm1 & Hset1).
  rewrite (parse_next L _ _ _ _ _ Hrun).
  assert (Hne : es <> []) by (intros E; rewrite E in Hlen; cbn in Hlen; lia).
  assert (Hcb1 : cb (ctx w1) <> 0) by (unfold setup_of in Hset1; congruence).
  assert (Hcp1 : count_paths (ctx w1) = 0)
    by (unfold setup_of in Hset1; congruence).
  assert (Hpin : 0 <= st_p f0 < Z.of_nat (length (path (ctx w1)))).
  { rewrite Hp, Hpa1, !upd_length. lia. }
  destruct (elements_run ok g L es w1 f0 f1 rest 0 irest Hst1 Hsp1 Hs1 Hop0
              Hind0 Hrem0 Hne Hpop0 Hpin Hpm1 Hcp1 Hipos1 Hi1 ltac:(lia)
              ltac:(lia) Hcb1 Hoku Hoke Hsmall)
    as (w' & evs & c2 & f0' & f1' & Hp2 & Hlog2 & Hview & Hpaths & Hpp2
        & Hpa2 & Hsp2 & Hip2 & Hst' & Hs' & Hind' & Hsp' & Hip' & Hpp'
        & Hpa' & Hset').
  assert (Hmarked : forall c, path c = path (ctx w1) ->
            firstn (p + 3) (path c) = firstn p (path (ctx w)) ++ [91; 93; 0]).
  { intros c ->. rewrite Hpa1. subst p.
    replace (Z.to_nat (ppos (ctx w) + 1)) with (S (Z.to_nat (ppos (ctx w))))
      by lia.
    replace (Z.to_nat (ppos (ctx w) + 2))
      with (S (S (Z.to_nat (ppos (ctx w))))) by lia.
    apply firstn_marked. lia. }
  exists w', c0, evs, c2. split; [exact Hp2|].
  split; [rewrite Hlog2, Hlog, <- app_assoc; reflexivity|].
  split; [exact Hview|]. split.
  { constructor.
    - split; [exact Hpp0|]. apply Hmarked. congruence.
    - apply Forall_forall. intros c Hc. apply in_map_iff in Hc.
      destruct Hc as (e & <- & He). rewrite Forall_forall in Hpaths.
      destruct (Hpaths e He) as [H1 H2]. split; [congruence|].
      apply Hmarked. exact H1. }
  split; [congruence|]. split.
  { rewrite Hpa2, Hp, Hpa1. subst p.
    replace (Z.to_nat (ppos (ctx w)) + 1)%nat
      with (S (Z.to_nat (ppos (ctx w)))) by lia.
    rewrite firstn_upd_succ by (rewrite !upd_length; lia).
    rewrite !firstn_upd_ge by lia. reflexivity. }
  split.
  { split; [exact Hsp'|]. exists f0', (f1' :: rest). auto. }
  split; [congruence|]. split; [exact Hip'|].
  unfold setup_of in *. congruence.
Qed.
End SmallArrays.

Lemma array_of_unsigned_integers_witness :
  exists w' c0 evs c2,
    lecp_parse (answering (one_of [LECPCB_ARRAY_START; LECPCB_VAL_NUM_UINT;
                                   LECPCB_ARRAY_END]) refuse_all)
               lecp_defaults
               (32 * 4 + Z.of_nat (length [7; 0; 23]) :: [7; 0; 23]) fresh
    = Some (0, w')
    /\ log w' = log fresh ++ (LECPCB_ARRAY_START, c0) :: evs
                          ++ [(LECPCB_ARRAY_END, c2)]
    /\ map element_view evs = numbered 0 [7; 0; 23]
    /\ Forall (fun c => ppos c = ppos (ctx fresh) + 2
                        /\ firstn (Z.to_nat (ppos (ctx fresh)) + 3) (path c)
                           = firstn (Z.to_nat (ppos (ctx fresh)))
                                    (path (ctx fresh)) ++ [91; 93; 0])
              (c0 :: map snd evs)
    /\ ppos c2 = ppos (ctx fresh)
    /\ firstn (Z.to_nat (ppos (ctx fresh)) + 1) (path c2)
       = firstn (Z.to_nat (ppos (ctx fresh))) (path (ctx fresh)) ++ [0]
    /\ ready (ctx w') /\ ppos (ctx w') = ppos (ctx fresh)
    /\ ipos (ctx w') = 0
    /\ setup_of (ctx w') = setup_of (ctx fresh).
Proof.
  assert (Hcb : cb (ctx fresh) <> 0) by discriminate.
  assert (Hbuf : buf (ctx fresh) <> []) by discriminate.
  assert (HD : 2 <= LECP_MAX_DEPTH lecp_defaults)
    by (vm_compute; discriminate).
  assert (HI : 1 < LECP_MAX_INDEX_DEPTH lecp_defaults)
    by (vm_compute; reflexivity).
  assert (HP : LECP_MAX_PATH lecp_defaults <= 256)
    by (vm_compute; discriminate).
  assert (Hp0 : 0 <= ppos (ctx fresh)) by (vm_compute; discriminate).
  assert (Hp3 : ppos (ctx fresh) + 3 < LECP_MAX_PATH lecp_defaults)
    by (vm_compute; reflexivity).
  assert (Hlen : 1 <= Z.of_nat (length [7; 0; 23]) < 24)
    by (split; vm_compute; [discriminate|reflexivity]).
  assert (Hsmall : Forall (fun m => 0 <= m < 24) [7; 0; 23]).
  { repeat constructor; vm_compute; try discriminate; reflexivity. }
  exact (array_of_unsigned_integers
           (one_of [LECPCB_ARRAY_START; LECPCB_VAL_NUM_UINT;
                    LECPCB_ARRAY_END]) refuse_all lecp_defaults fresh
           [7; 0; 23] ready_fresh Hcb Hbuf eq_refl HD eq_refl HI eq_refl
           eq_refl HP Hp0 Hp3 eq_refl eq_refl eq_refl eq_refl eq_refl Hlen
           Hsmall).
Defined.

(** The path and the string that a callback reads in a context: the bytes
    before [ppos], and before [npos], with the NUL behind them. *)
Definition path_string (c : lecp_ctx) : list Z :=
  firstn (Z.to_nat (ppos c) + 1) (path c).

Definition buf_string (c : lecp_ctx) : list Z :=
  firstn (Z.to_nat (npos c) + 1) (buf c).

(** ** Maps *)

Section MapHead.
Variable ok : Z -> bool.
Variable g : Z -> lecp_callback.
Variable L : lecp_limits.

(** The head byte of a map of [n] pairs, [n] being the minor, at the top
    level: a [.] goes on the path, OBJECT_START is delivered, and a frame
    for the [2 * n] keys and values is pushed. *)
Lemma map_head w f f' rest n :
  st (ctx w) = f :: f' :: rest -> sp (ctx w) = 0 -> st_s f = LECP_OPC ->
  cb (ctx w) <> 0 -> buf (ctx w) <> [] ->
  LECP_MAX_DEPTH L <> 1 ->
  0 <= ppos (ctx w) -> ppos (ctx w) + 1 < LECP_MAX_PATH L ->
  LECP_MAX_PATH L <= 256 ->
  Z.of_nat (length (path (ctx w))) = LECP_MAX_PATH L ->
  path_match (ctx w) = 0 -> count_paths (ctx w) = 0 ->
  ok LECPCB_OBJECT_START = true ->
  1 <= n < 24 ->
  let p := ppos (ctx w) in
  let dotted := upd (upd (path (ctx w)) (Z.to_nat p) 46) (Z.to_nat (p + 1)) 0 in
  exists w1 c0 f0 f1,
    runs (parse_byte (answering ok g) L (32 * 5 + n)) w Next w1
    /\ log w1 = log w ++ [(LECPCB_OBJECT_START, c0)]
    /\ path c0 = dotted /\ ppos c0 = p + 1
    /\ st (ctx w1) = f0 :: f1 :: rest
    /\ st_s f1 = LECP_OPC /\ st_p f1 = p /\ st_indet f1 = 0
    /\ st_opcode f0 = LWS_CBOR_MAJTYP_MAP /\ st_indet f0 = 0
    /\ st_collect_rem f0 = 2 * n /\ st_ordinal f0 = st_ordinal f
    /\ st_intermediate f0 = st_intermediate f
    /\ st_pop_iss f0 = LECPCB_OBJECT_END /\ st_p f0 = p
    /\ sp (ctx w1) = 1
    /\ path (ctx w1) = dotted /\ ppos (ctx w1) = p + 1
    /\ path_match (ctx w1) = 0
    /\ length (buf (ctx w1)) = length (buf (ctx w))
    /\ ipos (ctx w1) = ipos (ctx w) /\ i (ctx w1) = i (ctx w)
    /\ setup_of (ctx w1) = setup_of (ctx w).
Proof.
  intros Hst Hsp Hs Hcb Hbuf HD Hp0 Hp1 HP Hpl Hpm Hcp Hok Hn
         p dotted.
  destruct (head_byte 5 n) as [Hop Hsm]; [lia|lia|].
  assert (Hst0 : store (buf (ctx w)) 0 0 = Some (upd (buf (ctx w)) 0 0)).
  { apply store_in_range. destruct (buf (ctx w)); [congruence|cbn; lia]. }
  assert (Hnz : nonzero n = true) by (apply nonzero_true; lia).
  assert (Hlt : (n <? LWS_CBOR_1) = true)
    by (apply Z.ltb_lt; unfold LWS_CBOR_1; lia).
  assert (Hroom : (ppos (ctx w) + 1 >=? LECP_MAX_PATH L) = false).
  { rewrite Z.geb_leb. apply Z.leb_gt. lia. }
  assert (Hdepth : (0 + 1 =? LECP_MAX_DEPTH L) = false)
    by (apply Z.eqb_neq; lia).
  assert (Hu1 : u8 (ppos (ctx w) + 1) = ppos (ctx w) + 1)
    by (apply u8_small; lia).
  assert (Hu64 : u64 (n * 2) = 2 * n) by (rewrite u64_small; lia).
  assert (Hs1 : store (path (ctx w)) (ppos (ctx w)) 46
                = Some (upd (path (ctx w)) (Z.to_nat p) 46))
    by (apply store_in_range; lia).
  assert (Hs2 : store (upd (path (ctx w)) (Z.to_nat p) 46)
                      (ppos (ctx w) + 1) 0 = Some dotted)
    by (apply store_in_range; rewrite upd_length; lia).
  eexists. eexists. eexists. eexists. split.
  - unfold parse_byte.
    repeat (run_step; fields; rewrite ?Hsp, ?Hst; mem).
    rewrite Hs. unfold parse_opc. rewrite Hop, Hsm.
    repeat (run_step; fields; rewrite ?Hsp, ?Hst; mem).
    unfold opc_map.
    repeat (first [run_step | run_check]; fields;
            rewrite ?Hsp, ?Hst, ?Hst0, ?Hroom, ?Hu1, ?Hs1, ?Hs2, ?Hnz, ?Hlt,
              ?Hu64; mem; cbn [negb]).
    unfold lecp_push.
    repeat (first [run_step | run_check]; fields;
            rewrite ?Hsp, ?Hst, ?Hdepth; mem; cbn [negb]).
  - subst p dotted. fields. split; [reflexivity|].
    repeat split; fields; rewrite ?upd_length;
      first [reflexivity
            | rewrite ?Hsp, ?Hpm; reflexivity].
Qed.
End MapHead.

(** [n] bytes of [src], from index [s], written over [dst] from index
    [d]: what the [memcpy] of a key does to the path. *)
Fixpoint copied (n : nat) (d s : nat) (src dst : list Z) : list Z :=
  match n with
  | O => dst
  | S n' => copied n' (S d) (S s) src (upd dst d (nth s src 0))
  end.

Lemma copied_length n : forall d s src dst,
  length (copied n d s src dst) = length dst.
Proof.
  induction n as [|n IH]; intros d s src dst; cbn [copied]; [reflexivity|].
  rewrite IH, upd_length. reflexivity.
Qed.

Lemma load_nth_in_range (l : list Z) k :
  0 <= k < Z.of_nat (length l) -> load l k = Some (nth (Z.to_nat k) l 0).
Proof.
  intros H. unfold load.
  destruct (k <? 0) eqn:E; [apply Z.ltb_lt in E; lia|].
  apply nth_error_nth'. lia.
Qed.

Lemma copy_to_path_runs n : forall d s c l lg,
  0 <= d -> 0 <= s ->
  d + Z.of_nat n <= Z.of_nat (length l) ->
  s + Z.of_nat n <= Z.of_nat (length (buf c)) ->
  runs (copy_to_path n d s) {| ctx := set_path l c; log := lg |} tt
       {| ctx := set_path (copied n (Z.to_nat d) (Z.to_nat s) (buf c) l) c;
          log := lg |}.
Proof.
  induction n as [|n IH]; intros d s c l lg Hd Hs Hdl Hsl.
  - reflexivity.
  - rewrite Nat2Z.inj_succ in Hdl, Hsl. cbn [copy_to_path copied].
    pose proof (load_nth_in_range (buf c) s ltac:(lia)) as Hld.
    pose proof (store_in_range l d (nth (Z.to_nat s) (buf c) 0) ltac:(lia))
      as Hsto.
    repeat (run_step; fields; rewrite ?Hld, ?Hsto).
    replace (S (Z.to_nat d)) with (Z.to_nat (d + 1)) by lia.
    replace (S (Z.to_nat s)) with (Z.to_nat (s + 1)) by lia.
    apply (IH (d + 1) (s + 1) c
              (upd l (Z.to_nat d) (nth (Z.to_nat s) (buf c) 0)) lg);
      rewrite ?upd_length; lia.
Qed.

Lemma firstn_copied n : forall d s src dst,
  (d + n <= length dst)%nat -> (s + n <= length src)%nat ->
  firstn (d + n) (copied n d s src dst)
  = firstn d dst ++ firstn n (skipn s src).
Proof.
  induction n as [|n IH]; intros d s src dst Hd Hs.
  - cbn [copied firstn]. rewrite Nat.add_0_r, app_nil_r. reflexivity.
  - cbn [copied]. replace (d + S n)%nat with (S d + n)%nat by lia.
    rewrite IH by (rewrite ?upd_length; lia).
    rewrite firstn_upd_succ by lia.
    rewrite <- app_assoc. f_equal.
    assert (Hsk : skipn s src = nth s src 0 :: skipn (S s) src).
    { clear - Hs. revert s Hs.
      induction src as [|h t IHt]; intros [|s] Hs; cbn in *; try lia;
        try reflexivity.
      apply IHt. lia. }
    rewrite Hsk. reflexivity.
Qed.

Section MapKey.
Variable ok : Z -> bool.
Variable g : Z -> lecp_callback.
Variable L : lecp_limits.

(** The head byte of a text string of [n] bytes below a container whose
    last string was delivered to its end. *)
Lemma key_head w f0 f1 rest n :
  st (ctx w) = f0 :: f1 :: rest -> sp (ctx w) = 1 -> st_s f1 = LECP_OPC ->
  st_intermediate f0 = 0 ->
  cb (ctx w) <> 0 -> buf (ctx w) <> [] ->
  ok LECPCB_VAL_STR_START = true ->
  1 <= n < 24 ->
  exists w1 c0 f1',
    runs (parse_byte (answering ok g) L (32 * 3 + n)) w Next w1
    /\ log w1 = log w ++ [(LECPCB_VAL_STR_START, c0)]
    /\ path c0 = path (ctx w) /\ ppos c0 = ppos (ctx w)
    /\ st (ctx w1) = f0 :: f1' :: rest
    /\ st_s f1' = LECP_COLLATE /\ st_indet f1' = 0
    /\ st_collect_rem f1' = n /\ st_p f1' = st_p f1
    /\ sp (ctx w1) = 1 /\ npos (ctx w1) = 0
    /\ item_opcode (ctx w1) = LWS_CBOR_MAJTYP_TSTR
    /\ path (ctx w1) = path (ctx w) /\ ppos (ctx w1) = ppos (ctx w)
    /\ path_match (ctx w1) = path_match (ctx w)
    /\ length (buf (ctx w1)) = length (buf (ctx w))
    /\ setup_of (ctx w1) = setup_of (ctx w).
Proof.
  intros Hst Hsp Hs Hint Hcb Hbuf Hok Hn.
  destruct (head_byte 3 n) as [Hop Hsm]; [lia|lia|].
  assert (Hst0 : store (buf (ctx w)) 0 0 = Some (upd (buf (ctx w)) 0 0)).
  { apply store_in_range. destruct (buf (ctx w)); [congruence|cbn; lia]. }
  assert (Hnz : nonzero n = true) by (apply nonzero_true; lia).
  assert (Hlt : (n <? LWS_CBOR_1) = true)
    by (apply Z.ltb_lt; unfold LWS_CBOR_1; lia).
  assert (Hi0 : nonzero 0 = false) by reflexivity.
  assert (Hi1 : nonzero 1 = true) by reflexivity.
  change (LECPCB_VAL_STR_START) with (LECPCB_VAL_STR_START + 0) in Hok.
  eexists. eexists. eexists. split.
  - unfold parse_byte.
    repeat (run_step; fields; rewrite ?Hsp, ?Hst; mem).
    rewrite Hs. unfold parse_opc. rewrite Hop, Hsm.
    repeat (run_step; fields; rewrite ?Hsp, ?Hst; mem).
    unfold opc_string.
    repeat (run_step; fields;
            rewrite ?Hsp, ?Hst, ?Hst0, ?Hi0, ?Hi1, ?Hint, ?Hnz, ?Hlt; mem;
            cbn [negb Z.sub Z.add Z.opp Z.pos_sub]).
  - fields. rewrite ?upd_length, ?Hsp. repeat split; reflexivity.
Qed.

(** A byte of a key that is not its last. *)
Lemma key_more w f0 f1 rest ch :
  st (ctx w) = f0 :: f1 :: rest -> sp (ctx w) = 1 ->
  st_s f1 = LECP_COLLATE ->
  0 <= npos (ctx w) -> npos (ctx w) + 1 < LECP_STRING_CHUNK L ->
  LECP_STRING_CHUNK L <= 255 ->
  npos (ctx w) < Z.of_nat (length (buf (ctx w))) ->
  2 <= st_collect_rem f1 < 18446744073709551616 ->
  runs (parse_byte (answering ok g) L ch) w Next
       {| ctx := set_st (f0 :: set_st_collect_rem (st_collect_rem f1 - 1) f1
                            :: rest)
                   (set_npos (npos (ctx w) + 1)
                      (set_buf (upd (buf (ctx w)) (Z.to_nat (npos (ctx w))) ch)
                               (ctx w)));
          log := log w |}.
Proof.
  intros Hst Hsp Hs Hn0 Hn1 HC Hbuf Hrem.
  assert (Hnz : nonzero (st_collect_rem f1) = true)
    by (apply nonzero_true; lia).
  assert (Hu8 : u8 (npos (ctx w) + 1) = npos (ctx w) + 1)
    by (apply u8_small; lia).
  assert (Hu64 : u64 (st_collect_rem f1 - 1) = st_collect_rem f1 - 1)
    by (apply u64_small; lia).
  assert (Hnz' : nonzero (st_collect_rem f1 - 1) = true)
    by (apply nonzero_true; lia).
  assert (Hne : (npos (ctx w) + 1 =? LECP_STRING_CHUNK L + 1 - 1) = false)
    by (apply Z.eqb_neq; lia).
  assert (Hst0 : store (buf (ctx w)) (npos (ctx w)) ch
                 = Some (upd (buf (ctx w)) (Z.to_nat (npos (ctx w))) ch))
    by (apply store_in_range; lia).
  unfold parse_byte.
  repeat (run_step; fields; rewrite ?Hsp, ?Hst; mem).
  rewrite Hs. unfold parse_collate.
  repeat (run_step; fields;
          rewrite ?Hsp, ?Hst, ?Hst0, ?Hnz, ?Hu8, ?Hu64, ?Hnz', ?Hne; mem;
          cbn [negb andb]).
Qed.
End MapKey.

Ltac run_copy :=
  lazymatch goal with
  | |- runs (bind (copy_to_path ?n ?d ?s) _) {| ctx := ?C; log := ?lg |} _ _ =>
      let l := eval cbn [path set_path set_ppos set_st set_npos set_buf
                         set_wildcount] in (path C) in
      eapply runs_bind;
      [apply (copy_to_path_runs n d s C l lg)|cbv beta]
  end.

Section MapKeyEnd.
Variable ok : Z -> bool.
Variable g : Z -> lecp_callback.
Variable L : lecp_limits.

(** The last byte of a key of a map: the key, with its NUL, is copied to
    the path behind the [.] of the map, and VAL_STR_END is delivered with
    the key in [buf] and on the path. *)
Lemma key_last w f0 f1 rest ch q :
  st (ctx w) = f0 :: f1 :: rest -> sp (ctx w) = 1 ->
  st_s f1 = LECP_COLLATE -> st_indet f1 = 0 -> st_collect_rem f1 = 1 ->
  st_opcode f0 = LWS_CBOR_MAJTYP_MAP -> st_indet f0 = 0 ->
  Z.land (st_ordinal f0) 1 = 0 -> 0 <= st_ordinal f0 < 4294967295 ->
  2 <= st_collect_rem f0 < 18446744073709551616 ->
  (if nonzero (st_ordinal f0) then st_p f1 else ppos (ctx w)) = q ->
  0 <= q -> q + npos (ctx w) + 1 < LECP_MAX_PATH L ->
  LECP_MAX_PATH L <= 256 ->
  Z.of_nat (length (path (ctx w))) = LECP_MAX_PATH L ->
  0 <= npos (ctx w) -> npos (ctx w) + 1 <= LECP_STRING_CHUNK L ->
  LECP_STRING_CHUNK L <= 255 ->
  Z.of_nat (length (buf (ctx w))) = LECP_STRING_CHUNK L + 1 ->
  item_opcode (ctx w) = LWS_CBOR_MAJTYP_TSTR ->
  path_match (ctx w) = 0 -> count_paths (ctx w) = 0 ->
  cb (ctx w) <> 0 -> ok LECPCB_VAL_STR_END = true ->
  let b1 := upd (upd (buf (ctx w)) (Z.to_nat (npos (ctx w))) ch)
                (Z.to_nat (npos (ctx w) + 1)) 0 in
  let p1 := copied (Z.to_nat (npos (ctx w) + 1 + 1)) (Z.to_nat q) 0 b1
                   (path (ctx w)) in
  exists w1 c1 f0' f1',
    runs (parse_byte (answering ok g) L ch) w Next w1
    /\ log w1 = log w ++ [(LECPCB_VAL_STR_END, c1)]
    /\ npos c1 = npos (ctx w) + 1 /\ buf c1 = b1
    /\ path c1 = p1 /\ ppos c1 = q + npos (ctx w) + 1
    /\ st (ctx w1) = f0' :: f1' :: rest
    /\ st_s f1' = LECP_OPC /\ st_p f1' = q
    /\ st_opcode f0' = LWS_CBOR_MAJTYP_MAP /\ st_indet f0' = 0
    /\ st_intermediate f0' = 0
    /\ st_collect_rem f0' = st_collect_rem f0 - 1
    /\ st_ordinal f0' = st_ordinal f0 + 1
    /\ st_pop_iss f0' = st_pop_iss f0 /\ st_p f0' = st_p f0
    /\ sp (ctx w1) = 1 /\ npos (ctx w1) = 0
    /\ path (ctx w1) = p1 /\ ppos (ctx w1) = q + npos (ctx w) + 1
    /\ path_match (ctx w1) = 0
    /\ length (buf (ctx w1)) = length (buf (ctx w))
    /\ ipos (ctx w1) = ipos (ctx w) /\ i (ctx w1) = i (ctx w)
    /\ setup_of (ctx w1) = setup_of (ctx w).
Proof.
  intros Hst Hsp Hs Hind Hrem Hop0 Hind0 Heven Hord Hrem0 Hq Hq0 Hq1 HP Hpl
         Hn0 Hn1 HC Hbuf Hio Hpm Hcp Hcb Hok b1 p1.
  assert (Hnz : nonzero (st_collect_rem f1) = true)
    by (apply nonzero_true; lia).
  assert (Hu8 : u8 (npos (ctx w) + 1) = npos (ctx w) + 1)
    by (apply u8_small; lia).
  assert (Hu64 : u64 (st_collect_rem f1 - 1) = 0)
    by (rewrite Hrem; reflexivity).
  assert (Hst0 : store (buf (ctx w)) (npos (ctx w)) ch
                 = Some (upd (buf (ctx w)) (Z.to_nat (npos (ctx w))) ch))
    by (apply store_in_range; lia).
  assert (Hst1 : store (upd (buf (ctx w)) (Z.to_nat (npos (ctx w))) ch)
                       (npos (ctx w) + 1) 0 = Some b1)
    by (apply store_in_range; rewrite upd_length; lia).
  assert (Hst2 : store b1 0 0 = Some (upd b1 0 0))
    by (apply store_in_range; unfold b1; rewrite !upd_length; lia).
  assert (Hi0 : nonzero 0 = false) by reflexivity.
  assert (Hi1 : nonzero 1 = true) by reflexivity.
  assert (Hfit : (q + (npos (ctx w) + 1) >? LECP_MAX_PATH L) = false).
  { rewrite Z.gtb_ltb. apply Z.ltb_ge. lia. }
  assert (Hup : u8 (q + (npos (ctx w) + 1)) = q + npos (ctx w) + 1)
    by (rewrite u8_small; lia).
  assert (Hu32 : u32 (st_ordinal f0 + 1) = st_ordinal f0 + 1)
    by (unfold u32; apply Z.mod_small; lia).
  assert (Hu64' : u64 (st_collect_rem f0 - 1) = st_collect_rem f0 - 1)
    by (apply u64_small; lia).
  assert (Hnz0 : nonzero (st_collect_rem f0) = true)
    by (apply nonzero_true; lia).
  assert (Hnz0' : nonzero (st_collect_rem f0 - 1) = true)
    by (apply nonzero_true; lia).
  assert (Hmap : (LWS_CBOR_MAJTYP_MAP =? LWS_CBOR_MAJTYP_ARRAY) = false)
    by reflexivity.
  assert (Hlenb : length b1 = length (buf (ctx w)))
    by (unfold b1; rewrite !upd_length; reflexivity).
  change LECPCB_VAL_STR_END with (LECPCB_VAL_STR_END + 0) in Hok.
  destruct (nonzero (st_ordinal f0)) eqn:Hno.
  - eexists. eexists. eexists. eexists. split.
    + unfold parse_byte.
      repeat (run_step; fields; rewrite ?Hsp, ?Hst; mem).
      rewrite Hs. unfold parse_collate.
      repeat (run_step; fields;
              rewrite ?Hsp, ?Hst, ?Hst0, ?Hst1, ?Hnz, ?Hu8, ?Hu64, ?Hi0,
                ?Hi1, ?Hop0, ?Heven, ?Hno, ?Hq, ?Hfit, ?Z.eqb_refl; mem;
              cbn [negb andb Z.sub Z.add Z.opp Z.pos_sub];
              rewrite ?andb_false_r).
      run_copy; fields; rewrite ?Hlenb; try lia.
      repeat (first [run_step | run_check]; fields;
              rewrite ?Hsp, ?Hst, ?Hup, ?Hio, ?Hi0, ?Hi1; mem;
              cbn [negb andb Z.sub Z.add Z.opp Z.pos_sub]).
      unfold lwcp_is_indet_string.
      repeat (run_step; fields;
              rewrite ?Hsp, ?Hst, ?Hind, ?Hi0, ?Hi1, ?Hop0, ?Hst2; mem;
              cbn [negb Z.sub Z.add Z.opp Z.pos_sub]).
      unfold lwcp_completed.
      repeat (run_step; fields; rewrite ?Hsp; mem).
      change (Z.to_nat 1) with 1%nat. cbn [completed_walk].
      repeat (run_step; fields;
              rewrite ?Hsp, ?Hi0, ?Hi1, ?Hop0, ?Hmap, ?Hind0, ?Hu32, ?Hu64',
                ?Hnz0, ?Hnz0'; mem;
              cbn [negb andb Z.sub Z.add Z.opp Z.pos_sub]).
    + subst b1 p1. fields. split; [reflexivity|].
      repeat split; fields; rewrite ?upd_length;
        first [reflexivity | rewrite ?Hsp, ?Hpm, ?Hop0, ?Hind0; reflexivity].
  - eexists. eexists. eexists. eexists. split.
    + unfold parse_byte.
      repeat (run_step; fields; rewrite ?Hsp, ?Hst; mem).
      rewrite Hs. unfold parse_collate.
      repeat (run_step; fields;
              rewrite ?Hsp, ?Hst, ?Hst0, ?Hst1, ?Hnz, ?Hu8, ?Hu64, ?Hi0,
                ?Hi1, ?Hop0, ?Heven, ?Hno, ?Hq, ?Hfit, ?Z.eqb_refl; mem;
              cbn [negb andb Z.sub Z.add Z.opp Z.pos_sub];
              rewrite ?andb_false_r).
      run_copy; fields; rewrite ?Hlenb; try lia.
      repeat (first [run_step | run_check]; fields;
              rewrite ?Hsp, ?Hst, ?Hup, ?Hio, ?Hi0, ?Hi1; mem;
              cbn [negb andb Z.sub Z.add Z.opp Z.pos_sub]).
      unfold lwcp_is_indet_string.
      repeat (run_step; fields;
              rewrite ?Hsp, ?Hst, ?Hind, ?Hi0, ?Hi1, ?Hop0, ?Hst2; mem;
              cbn [negb Z.sub Z.add Z.opp Z.pos_sub]).
      unfold lwcp_completed.
      repeat (run_step; fields; rewrite ?Hsp; mem).
      change (Z.to_nat 1) with 1%nat. cbn [completed_walk].
      repeat (run_step; fields;
              rewrite ?Hsp, ?Hi0, ?Hi1, ?Hop0, ?Hmap, ?Hind0, ?Hu32, ?Hu64',
                ?Hnz0, ?Hnz0'; mem;
              cbn [negb andb Z.sub Z.add Z.opp Z.pos_sub]).
    + subst b1 p1. fields. split; [reflexivity|].
      repeat split; fields; rewrite ?upd_length;
        first [reflexivity | rewrite ?Hsp, ?Hpm, ?Hop0, ?Hind0; reflexivity].
Qed.
End MapKeyEnd.

Section MapValue.
Variable ok : Z -> bool.
Variable g : Z -> lecp_callback.
Variable L : lecp_limits.

(** A value of a map that has more pairs to come: it is delivered, with
    the path as its key left it. *)
Lemma value_more w f0 f1 rest m :
  st (ctx w) = f0 :: f1 :: rest -> sp (ctx w) = 1 -> st_s f1 = LECP_OPC ->
  st_opcode f0 = LWS_CBOR_MAJTYP_MAP -> st_indet f0 = 0 ->
  2 <= st_collect_rem f0 < 18446744073709551616 ->
  0 <= st_ordinal f0 < 4294967295 ->
  cb (ctx w) <> 0 -> ok LECPCB_VAL_NUM_UINT = true ->
  0 <= m < 24 ->
  exists w1 c1 f0' f1',
    runs (parse_byte (answering ok g) L m) w Next w1
    /\ log w1 = log w ++ [(LECPCB_VAL_NUM_UINT, c1)]
    /\ item_u64 c1 = m
    /\ path c1 = path (ctx w) /\ ppos c1 = ppos (ctx w)
    /\ st (ctx w1) = f0' :: f1' :: rest
    /\ st_s f1' = LECP_OPC /\ st_p f1' = st_p f1
    /\ st_opcode f0' = LWS_CBOR_MAJTYP_MAP /\ st_indet f0' = 0
    /\ st_intermediate f0' = st_intermediate f0
    /\ st_collect_rem f0' = st_collect_rem f0 - 1
    /\ st_ordinal f0' = st_ordinal f0 + 1
    /\ st_pop_iss f0' = st_pop_iss f0 /\ st_p f0' = st_p f0
    /\ sp (ctx w1) = 1
    /\ path (ctx w1) = path (ctx w) /\ ppos (ctx w1) = ppos (ctx w)
    /\ path_match (ctx w1) = path_match (ctx w)
    /\ buf (ctx w1) = buf (ctx w)
    /\ ipos (ctx w1) = ipos (ctx w) /\ i (ctx w1) = i (ctx w)
    /\ setup_of (ctx w1) = setup_of (ctx w).
Proof.
  intros Hst Hsp Hs1 Hop0 Hind0 Hrem Hord Hcb Hok Hm.
  destruct (head_byte 0 m) as [Hop Hsm]; [lia|lia|].
  cbn [Z.mul Z.add] in Hop, Hsm.
  assert (Hlt : (m <? LWS_CBOR_1) = true)
    by (apply Z.ltb_lt; unfold LWS_CBOR_1; lia).
  assert (Hu64 : u64 (st_collect_rem f0 - 1) = st_collect_rem f0 - 1)
    by (apply u64_small; lia).
  assert (Hu32 : u32 (st_ordinal f0 + 1) = st_ordinal f0 + 1)
    by (unfold u32; apply Z.mod_small; lia).
  assert (Hnz : nonzero (st_collect_rem f0) = true)
    by (apply nonzero_true; lia).
  assert (Hnz' : nonzero (st_collect_rem f0 - 1) = true)
    by (apply nonzero_true; lia).
  assert (Hi0 : nonzero 0 = false) by reflexivity.
  assert (Hi1 : nonzero 1 = true) by reflexivity.
  assert (Hmap : (LWS_CBOR_MAJTYP_MAP =? LWS_CBOR_MAJTYP_ARRAY) = false)
    by reflexivity.
  eexists. eexists. eexists. eexists. split.
  - unfold parse_byte.
    repeat (run_step; fields; rewrite ?Hsp, ?Hst; mem).
    rewrite Hs1. unfold parse_opc. rewrite Hop, Hsm.
    repeat (run_step; fields; rewrite ?Hsp, ?Hst, ?Hlt; mem).
    unfold issue.
    repeat (run_step; fields; rewrite ?Hsp, ?Hst; mem).
    unfold lwcp_completed.
    repeat (run_step; fields; rewrite ?Hsp, ?Hst; mem).
    change (Z.to_nat 1) with 1%nat. cbn [completed_walk].
    repeat (run_step; fields;
            rewrite ?Hsp, ?Hst, ?Hi1, ?Hi0, ?Hop0, ?Hmap, ?Hind0, ?Hnz,
              ?Hu64, ?Hu32, ?Hnz';
            change (1 - 1) with 0; mem; cbn [negb andb]).
  - fields. repeat split; fields;
      first [reflexivity | rewrite ?Hsp, ?Hop0, ?Hind0; reflexivity].
Qed.

(** The value of the last pair of a map: it is delivered, the map is
    popped off the stack, its [.] and key are cut off the path, and
    OBJECT_END is delivered. *)
Lemma value_last w f0 f1 rest m :
  st (ctx w) = f0 :: f1 :: rest -> sp (ctx w) = 1 -> st_s f1 = LECP_OPC ->
  st_opcode f0 = LWS_CBOR_MAJTYP_MAP -> st_indet f0 = 0 ->
  st_collect_rem f0 = 1 ->
  0 <= st_ordinal f0 < 4294967295 ->
  st_pop_iss f0 = LECPCB_OBJECT_END ->
  0 <= st_p f0 < Z.of_nat (length (path (ctx w))) ->
  path_match (ctx w) = 0 -> count_paths (ctx w) = 0 ->
  cb (ctx w) <> 0 -> ok LECPCB_VAL_NUM_UINT = true ->
  ok LECPCB_OBJECT_END = true ->
  0 <= m < 24 ->
  exists w1 c1 c2 f0' f1',
    runs (parse_byte (answering ok g) L m) w Next w1
    /\ log w1 = log w ++ [(LECPCB_VAL_NUM_UINT, c1); (LECPCB_OBJECT_END, c2)]
    /\ item_u64 c1 = m
    /\ path c1 = path (ctx w) /\ ppos c1 = ppos (ctx w)
    /\ ppos c2 = st_p f0
    /\ path c2 = upd (path (ctx w)) (Z.to_nat (st_p f0)) 0
    /\ sp c2 = 0
    /\ st (ctx w1) = f0' :: f1' :: rest
    /\ st_s f0' = LECP_OPC /\ st_indet f0' = 0
    /\ st_ordinal f0' = st_ordinal f0 + 1
    /\ sp (ctx w1) = 0
    /\ ppos (ctx w1) = st_p f0
    /\ path (ctx w1) = upd (path (ctx w)) (Z.to_nat (st_p f0)) 0
    /\ path_match (ctx w1) = 0
    /\ ipos (ctx w1) = ipos (ctx w) /\ i (ctx w1) = i (ctx w)
    /\ setup_of (ctx w1) = setup_of (ctx w).
Proof.
  intros Hst Hsp Hs1 Hop0 Hind0 Hrem Hord Hpop Hp Hpm Hcp Hcb Hok Hoke Hm.
  destruct (head_byte 0 m) as [Hop Hsm]; [lia|lia|].
  cbn [Z.mul Z.add] in Hop, Hsm.
  assert (Hlt : (m <? LWS_CBOR_1) = true)
    by (apply Z.ltb_lt; unfold LWS_CBOR_1; lia).
  assert (Hu32 : u32 (st_ordinal f0 + 1) = st_ordinal f0 + 1)
    by (unfold u32; apply Z.mod_small; lia).
  assert (Hi0 : nonzero 0 = false) by reflexivity.
  assert (Hi1 : nonzero 1 = true) by reflexivity.
  assert (Hmap : (LWS_CBOR_MAJTYP_MAP =? LWS_CBOR_MAJTYP_ARRAY) = false)
    by reflexivity.
  assert (Hoe : (LECPCB_OBJECT_END =? LECPCB_ARRAY_END) = false)
    by reflexivity.
  assert (Hnoe : nonzero LECPCB_OBJECT_END = true) by reflexivity.
  assert (Hpp : store (path (ctx w)) (st_p f0) 0
                = Some (upd (path (ctx w)) (Z.to_nat (st_p f0)) 0))
    by (apply store_in_range; exact Hp).
  eexists. eexists. eexists. eexists. eexists. split.
  - unfold parse_byte.
    repeat (run_step; fields; rewrite ?Hsp, ?Hst; mem).
    rewrite Hs1. unfold parse_opc. rewrite Hop, Hsm.
    repeat (run_step; fields; rewrite ?Hsp, ?Hst, ?Hlt; mem).
    unfold issue.
    repeat (run_step; fields; rewrite ?Hsp, ?Hst; mem).
    unfold lwcp_completed.
    repeat (run_step; fields; rewrite ?Hsp, ?Hst; mem).
    change (Z.to_nat 1) with 1%nat. cbn [completed_walk].
    repeat (run_step; fields;
            rewrite ?Hsp, ?Hst, ?Hi1, ?Hi0, ?Hop0, ?Hmap, ?Hind0, ?Hrem,
              ?Hu32;
            change (1 - 1) with 0; change (u64 0) with 0;
            change (u8 0) with 0; mem; cbn [negb andb]).
    unfold lecp_pop.
    repeat (first [run_step | run_check]; fields;
            rewrite ?Hsp, ?Hst, ?Hi1, ?Hi0, ?Hpop, ?Hoe, ?Hnoe, ?Hpp;
            change (1 - 1) with 0; change (u8 0) with 0; mem;
            cbn [negb andb]).
  - fields. split; [rewrite <- app_assoc; reflexivity|].
    repeat split; fields;
      first [reflexivity
            | rewrite ?Hsp, ?Hop0, ?Hind0, ?Hpm; reflexivity].
Qed.
End MapValue.

Section MapKeyRun.
Variable ok : Z -> bool.
Variable g : Z -> lecp_callback.
Variable L : lecp_limits.

(** The bytes of a key of a map, behind those that [buf] holds of it. *)
Lemma key_run bs : forall w f0 f1 rest q,
  st (ctx w) = f0 :: f1 :: rest -> sp (ctx w) = 1 ->
  st_s f1 = LECP_COLLATE -> st_indet f1 = 0 ->
  st_collect_rem f1 = Z.of_nat (length bs) -> bs <> [] ->
  st_opcode f0 = LWS_CBOR_MAJTYP_MAP -> st_indet f0 = 0 ->
  Z.land (st_ordinal f0) 1 = 0 -> 0 <= st_ordinal f0 < 4294967295 ->
  2 <= st_collect_rem f0 < 18446744073709551616 ->
  (if nonzero (st_ordinal f0) then st_p f1 else ppos (ctx w)) = q ->
  0 <= q -> q + npos (ctx w) + Z.of_nat (length bs) < LECP_MAX_PATH L ->
  LECP_MAX_PATH L <= 256 ->
  Z.of_nat (length (path (ctx w))) = LECP_MAX_PATH L ->
  0 <= npos (ctx w) ->
  npos (ctx w) + Z.of_nat (length bs) <= LECP_STRING_CHUNK L ->
  LECP_STRING_CHUNK L <= 255 ->
  Z.of_nat (length (buf (ctx w))) = LECP_STRING_CHUNK L + 1 ->
  item_opcode (ctx w) = LWS_CBOR_MAJTYP_TSTR ->
  path_match (ctx w) = 0 -> count_paths (ctx w) = 0 ->
  cb (ctx w) <> 0 -> ok LECPCB_VAL_STR_END = true ->
  exists w1 c1 f0' f1',
    feeds (answering ok g) L bs w w1
    /\ log w1 = log w ++ [(LECPCB_VAL_STR_END, c1)]
    /\ npos c1 = npos (ctx w) + Z.of_nat (length bs)
    /\ firstn (Z.to_nat (npos c1) + 1) (buf c1)
       = firstn (Z.to_nat (npos (ctx w))) (buf (ctx w)) ++ bs ++ [0]
    /\ firstn (Z.to_nat q + (Z.to_nat (npos c1) + 1)) (path c1)
       = firstn (Z.to_nat q) (path (ctx w))
         ++ firstn (Z.to_nat (npos (ctx w))) (buf (ctx w)) ++ bs ++ [0]
    /\ ppos c1 = q + npos c1
    /\ length (path c1) = length (path (ctx w))
    /\ st (ctx w1) = f0' :: f1' :: rest
    /\ st_s f1' = LECP_OPC /\ st_p f1' = q
    /\ st_opcode f0' = LWS_CBOR_MAJTYP_MAP /\ st_indet f0' = 0
    /\ st_intermediate f0' = 0
    /\ st_collect_rem f0' = st_collect_rem f0 - 1
    /\ st_ordinal f0' = st_ordinal f0 + 1
    /\ st_pop_iss f0' = st_pop_iss f0 /\ st_p f0' = st_p f0
    /\ sp (ctx w1) = 1 /\ npos (ctx w1) = 0
    /\ path (ctx w1) = path c1 /\ ppos (ctx w1) = ppos c1
    /\ path_match (ctx w1) = 0
    /\ length (buf (ctx w1)) = length (buf (ctx w))
    /\ ipos (ctx w1) = ipos (ctx w) /\ i (ctx w1) = i (ctx w)
    /\ setup_of (ctx w1) = setup_of (ctx w).
Proof.
  induction bs as [|ch bs IH];
    intros w f0 f1 rest q Hst Hsp Hs Hind Hrem Hne Hop0 Hind0 Heven Hord
           Hrem0 Hq Hq0 Hq1 HP Hpl Hn0 Hn1 HC Hbuf Hio Hpm Hcp Hcb Hok;
    [congruence|].
  destruct bs as [|ch2 bs].
  - cbn [length] in *.
    destruct (key_last ok g L w f0 f1 rest ch q Hst Hsp Hs Hind Hrem Hop0
                Hind0 Heven Hord Hrem0 Hq Hq0 ltac:(lia) HP Hpl Hn0
                ltac:(lia) HC Hbuf Hio Hpm Hcp Hcb Hok)
      as (w1 & c1 & f0' & f1' & Hrun & Hlog & Hnp & Hb & Hpa & Hpp & Hst'
          & Hrest).
    exists w1, c1, f0', f1'.
    split; [apply (feeds_cons _ _ _ _ _ _ _ Hrun), feeds_nil|].
    split; [exact Hlog|]. split; [rewrite Hnp; lia|].
    assert (Hbs : firstn (Z.to_nat (npos c1) + 1) (buf c1)
                  = firstn (Z.to_nat (npos (ctx w))) (buf (ctx w))
                    ++ [ch] ++ [0]).
    { rewrite Hnp, Hb.
      replace (Z.to_nat (npos (ctx w) + 1) + 1)%nat
        with (S (Z.to_nat (npos (ctx w) + 1))) by lia.
      rewrite firstn_upd_succ by (rewrite upd_length; lia).
      replace (Z.to_nat (npos (ctx w) + 1))
        with (S (Z.to_nat (npos (ctx w)))) by lia.
      rewrite firstn_upd_succ by lia.
      rewrite <- app_assoc. reflexivity. }
    split; [exact Hbs|]. split.
    { rewrite <- Hbs, Hpa, Hnp, <- Hb.
      replace (Z.to_nat (npos (ctx w) + 1 + 1))
        with (Z.to_nat (npos (ctx w) + 1) + 1)%nat by lia.
      rewrite firstn_copied; [reflexivity| |].
      - lia.
      - rewrite Hb, !upd_length. lia. }
    split; [rewrite Hpp, Hnp; lia|].
    split; [rewrite Hpa; apply copied_length|].
    split; [exact Hst'|].
    destruct Hrest as (H1 & H2 & H3 & H4 & H5 & H6 & H7 & H8 & H9 & H10
                       & H11 & H12 & H13 & H14 & H15 & H16 & H17 & H18).
    repeat (split; [assumption|]).
    split; [congruence|]. split; [congruence|].
    repeat (split; [assumption|]). assumption.
  - remember (ch2 :: bs) as bs' eqn:Ebs.
    assert (Hlen : 1 <= Z.of_nat (length bs'))
      by (subst bs'; cbn [length]; lia).
    cbn [length] in Hrem, Hq1, Hn1. rewrite Nat2Z.inj_succ in Hrem, Hq1, Hn1.
    pose proof (key_more ok g L w f0 f1 rest ch Hst Hsp Hs Hn0) as Hrun.
    specialize (Hrun ltac:(lia) HC ltac:(lia) ltac:(lia)).
    match type of Hrun with runs _ _ _ ?x => set (w1 := x) in * end.
    destruct (IH w1 f0 (set_st_collect_rem (st_collect_rem f1 - 1) f1)
                 rest q)
      as (w' & c1 & f0' & f1' & Hfeed & Hlog & Hnp & Hb & Hpa & Hrest);
      subst w1; fields; rewrite ?upd_length;
      try assumption; try lia; try reflexivity;
      try (subst bs'; discriminate).
    exists w', c1, f0', f1'.
    split; [apply (feeds_cons _ _ _ _ _ _ _ Hrun Hfeed)|].
    revert Hlog Hnp Hb Hpa Hrest. fields. rewrite ?upd_length.
    intros Hlog Hnp Hb Hpa Hrest.
    assert (Hfn : firstn (Z.to_nat (npos (ctx w) + 1))
                         (upd (buf (ctx w)) (Z.to_nat (npos (ctx w))) ch)
                  = firstn (Z.to_nat (npos (ctx w))) (buf (ctx w)) ++ [ch]).
    { replace (Z.to_nat (npos (ctx w) + 1))
        with (S (Z.to_nat (npos (ctx w)))) by lia.
      apply firstn_upd_succ. lia. }
    rewrite Hfn in Hb, Hpa.
    split; [exact Hlog|].
    split; [rewrite Hnp; cbn [length]; lia|].
    split; [rewrite Hb, <- app_assoc; reflexivity|].
    split; [rewrite Hpa, <- !app_assoc; reflexivity|].
    exact Hrest.
Qed.
End MapKeyRun.

(** The bytes of the pairs of a map: each key a text string with its
    length in the head byte, each value an unsigned integer below 24. *)
Definition encode_pairs (kvs : list (list Z * Z)) : list Z :=
  flat_map (fun kv => (32 * 3 + Z.of_nat (length (fst kv)))
                      :: fst kv ++ [snd kv]) kvs.

(** The events of the pairs [kvs] of a map whose path, with its [.], is
    [pre]: for each pair the START and the END of its key, END with the key
    in [buf] and on the path, then its value, the key still on the path. *)
Fixpoint pairs_delivered (pre : list Z) (kvs : list (list Z * Z))
         (evs : list event) : Prop :=
  match kvs with
  | [] => evs = []
  | kv :: t =>
      exists c0 c1 c2 evs',
        evs = (LECPCB_VAL_STR_START, c0) :: (LECPCB_VAL_STR_END, c1)
              :: (LECPCB_VAL_NUM_UINT, c2) :: evs'
        /\ buf_string c1 = fst kv ++ [0]
        /\ path_string c1 = pre ++ fst kv ++ [0]
        /\ path_string c2 = pre ++ fst kv ++ [0]
        /\ item_u64 c2 = snd kv
        /\ pairs_delivered pre t evs'
  end.

Lemma firstn_prefix {A} (l pre suf : list A) m :
  firstn m l = pre ++ suf -> firstn (length pre) l = pre.
Proof.
  intros H.
  assert (Hle : (length pre <= m)%nat).
  { apply (f_equal (@length A)) in H.
    rewrite length_app in H. rewrite length_firstn in H. lia. }
  transitivity (firstn (length pre) (firstn m l)).
  { rewrite firstn_firstn. f_equal. lia. }
  rewrite H, firstn_app, Nat.sub_diag. cbn [firstn].
  rewrite app_nil_r. apply firstn_all.
Qed.

Section MapPairs.
Variable ok : Z -> bool.
Variable g : Z -> lecp_callback.
Variable L : lecp_limits.

(** A key of a map, from its head byte to its last byte. *)
Lemma key_fed k : forall w f0 f1 rest q,
  st (ctx w) = f0 :: f1 :: rest -> sp (ctx w) = 1 -> st_s f1 = LECP_OPC ->
  st_opcode f0 = LWS_CBOR_MAJTYP_MAP -> st_indet f0 = 0 ->
  st_intermediate f0 = 0 ->
  Z.land (st_ordinal f0) 1 = 0 -> 0 <= st_ordinal f0 < 4294967295 ->
  2 <= st_collect_rem f0 < 18446744073709551616 ->
  (if nonzero (st_ordinal f0) then st_p f1 else ppos (ctx w)) = q ->
  0 <= q -> q + Z.of_nat (length k) < LECP_MAX_PATH L ->
  LECP_MAX_PATH L <= 256 ->
  Z.of_nat (length (path (ctx w))) = LECP_MAX_PATH L ->
  1 <= Z.of_nat (length k) < 24 ->
  Z.of_nat (length k) <= LECP_STRING_CHUNK L ->
  LECP_STRING_CHUNK L <= 255 ->
  Z.of_nat (length (buf (ctx w))) = LECP_STRING_CHUNK L + 1 ->
  path_match (ctx w) = 0 -> count_paths (ctx w) = 0 ->
  cb (ctx w) <> 0 -> ok LECPCB_VAL_STR_START = true ->
  ok LECPCB_VAL_STR_END = true ->
  exists w2 c0 c1 f0' f1',
    feeds (answering ok g) L ((32 * 3 + Z.of_nat (length k)) :: k) w w2
    /\ log w2 = log w ++ [(LECPCB_VAL_STR_START, c0);
                          (LECPCB_VAL_STR_END, c1)]
    /\ buf_string c1 = k ++ [0]
    /\ path_string c1 = firstn (Z.to_nat q) (path (ctx w)) ++ k ++ [0]
    /\ st (ctx w2) = f0' :: f1' :: rest
    /\ st_s f1' = LECP_OPC /\ st_p f1' = q
    /\ st_opcode f0' = LWS_CBOR_MAJTYP_MAP /\ st_indet f0' = 0
    /\ st_intermediate f0' = 0
    /\ st_collect_rem f0' = st_collect_rem f0 - 1
    /\ st_ordinal f0' = st_ordinal f0 + 1
    /\ st_pop_iss f0' = st_pop_iss f0 /\ st_p f0' = st_p f0
    /\ sp (ctx w2) = 1
    /\ path (ctx w2) = path c1 /\ ppos (ctx w2) = ppos c1
    /\ path_match (ctx w2) = 0
    /\ length (buf (ctx w2)) = length (buf (ctx w))
    /\ length (path (ctx w2)) = length (path (ctx w))
    /\ setup_of (ctx w2) = setup_of (ctx w).
Proof.
  intros w f0 f1 rest q Hst Hsp Hs Hop0 Hind0 Hint0 Heven Hord Hrem0 Hq Hq0
         Hq1 HP Hpl Hlen HlenC HC Hbuf Hpm Hcp Hcb Hoks Hoke.
  assert (Hne : buf (ctx w) <> [])
    by (apply (nonempty_by_length _ _ Hbuf); lia).
  destruct (key_head ok g L w f0 f1 rest (Z.of_nat (length k)) Hst Hsp Hs
              Hint0 Hcb Hne Hoks Hlen)
    as (w1 & c0 & f1a & Hrun & Hlog1 & _ & _ & Hst1 & Hs1 & Hind1 & Hrem1
        & Hp1 & Hsp1 & Hnp1 & Hio1 & Hpa1 & Hpp1 & Hpm1 & Hbl1 & Hset1).
  assert (Hcb1 : cb (ctx w1) <> 0) by (unfold setup_of in Hset1; congruence).
  assert (Hcp1 : count_paths (ctx w1) = 0)
    by (unfold setup_of in Hset1; congruence).
  assert (Hkne : k <> []) by (intros E; rewrite E in Hlen; cbn in Hlen; lia).
  destruct (key_run ok g L k w1 f0 f1a rest q Hst1 Hsp1 Hs1 Hind1 Hrem1 Hkne
              Hop0 Hind0 Heven Hord Hrem0)
    as (w2 & c1 & f0' & f1' & Hfeed & Hlog2 & Hnp & Hb & Hpa & Hpp & Hpl2
        & Hst2 & Hrest); rewrite ?Hnp1, ?Hpa1, ?Hpp1, ?Hp1, ?Hbl1;
    try assumption; try lia.
  rewrite Hnp1 in Hnp, Hb, Hpa. rewrite Hpa1 in Hpa, Hpl2.
  cbn [Z.to_nat firstn app] in Hb, Hpa. rewrite Hbl1 in Hrest.
  exists w2, c0, c1, f0', f1'.
  split; [apply (feeds_cons _ _ _ _ _ _ _ Hrun Hfeed)|].
  split; [rewrite Hlog2, Hlog1, <- app_assoc; reflexivity|].
  split; [exact Hb|].
  split.
  { unfold path_string. rewrite Hpp.
    replace (Z.to_nat (q + npos c1) + 1)%nat
      with (Z.to_nat q + (Z.to_nat (npos c1) + 1))%nat by lia.
    exact Hpa. }
  split; [exact Hst2|].
  destruct Hrest as (H1 & H2 & H3 & H4 & H5 & H6 & H7 & H8 & H9 & H10
                     & H11 & H12 & H13 & H14 & H15 & H16 & H17 & H18).
  repeat (split; [assumption|]).
  split; [congruence|].
  congruence.
Qed.
End MapPairs.

(** What the theorem on maps asks of a pair: a key of 1 to 23 bytes that
    fits a chunk and, behind [q] bytes of path, the path; a value below
    24. *)
Definition small_pair (L : lecp_limits) (q : Z) (kv : list Z * Z) : Prop :=
  1 <= Z.of_nat (length (fst kv)) < 24
  /\ Z.of_nat (length (fst kv)) <= LECP_STRING_CHUNK L
  /\ q + Z.of_nat (length (fst kv)) < LECP_MAX_PATH L
  /\ 0 <= snd kv < 24.

Lemma even_plus_2 x : Z.land x 1 = 0 -> Z.land (x + 1 + 1) 1 = 0.
Proof.
  change 1 with (Z.ones 1) at 1 4. rewrite !Z.land_ones by lia.
  change (2 ^ 1) with 2. intros H.
  replace (x + 1 + 1) with (x + 1 * 2) by lia.
  rewrite Z.mod_add by lia. exact H.
Qed.

Lemma firstn_shorter {A} (l l' : list A) n m :
  (n <= m)%nat -> firstn m l = firstn m l' -> firstn n l = firstn n l'.
Proof.
  intros Hle H.
  replace n with (Nat.min n m) by lia.
  rewrite <- !firstn_firstn, H. reflexivity.
Qed.

Section MapRun.
Variable ok : Z -> bool.
Variable g : Z -> lecp_callback.
Variable L : lecp_limits.

Lemma pairs_run kvs : forall w f0 f1 rest q,
  st (ctx w) = f0 :: f1 :: rest -> sp (ctx w) = 1 -> st_s f1 = LECP_OPC ->
  st_opcode f0 = LWS_CBOR_MAJTYP_MAP -> st_indet f0 = 0 ->
  st_intermediate f0 = 0 ->
  Z.land (st_ordinal f0) 1 = 0 -> 0 <= st_ordinal f0 ->
  st_ordinal f0 + 2 * Z.of_nat (length kvs) < 4294967296 ->
  st_collect_rem f0 = 2 * Z.of_nat (length kvs) -> kvs <> [] ->
  Z.of_nat (length kvs) < 24 ->
  (if nonzero (st_ordinal f0) then st_p f1 else ppos (ctx w)) = q ->
  st_pop_iss f0 = LECPCB_OBJECT_END ->
  0 <= st_p f0 < q -> q < LECP_MAX_PATH L ->
  LECP_MAX_PATH L <= 256 ->
  Z.of_nat (length (path (ctx w))) = LECP_MAX_PATH L ->
  LECP_STRING_CHUNK L <= 255 ->
  Z.of_nat (length (buf (ctx w))) = LECP_STRING_CHUNK L + 1 ->
  path_match (ctx w) = 0 -> count_paths (ctx w) = 0 ->
  cb (ctx w) <> 0 -> ok LECPCB_VAL_STR_START = true ->
  ok LECPCB_VAL_STR_END = true -> ok LECPCB_VAL_NUM_UINT = true ->
  ok LECPCB_OBJECT_END = true ->
  Forall (small_pair L q) kvs ->
  exists w' evs c3 f0' f1',
    lecp_parse (answering ok g) L (encode_pairs kvs) w = Some (0, w')
    /\ log w' = log w ++ evs ++ [(LECPCB_OBJECT_END, c3)]
    /\ pairs_delivered (firstn (Z.to_nat q) (path (ctx w))) kvs evs
    /\ ppos c3 = st_p f0
    /\ firstn (Z.to_nat (st_p f0) + 1) (path c3)
       = firstn (Z.to_nat (st_p f0)) (path (ctx w)) ++ [0]
    /\ st (ctx w') = f0' :: f1' :: rest
    /\ st_s f0' = LECP_OPC /\ st_indet f0' = 0
    /\ sp (ctx w') = 0 /\ ppos (ctx w') = st_p f0
    /\ setup_of (ctx w') = setup_of (ctx w).
Proof.
  induction kvs as [|[k v] kvs IH];
    intros w f0 f1 rest q Hst Hsp Hs Hop0 Hind0 Hint0 Heven Hord0 Hord Hrem
           Hne H24 Hq Hpop Hp Hq1 HP Hpl HC Hbuf Hpm Hcp Hcb Hoks Hoke Hoku
           Hoko Hsmall; [congruence|].
  pose proof (Forall_inv Hsmall) as (Hk24 & HkC & Hkq & Hv).
  pose proof (Forall_inv_tail Hsmall) as Hsmall'. cbn [fst snd] in *.
  cbn [length] in Hord, Hrem, H24. rewrite Nat2Z.inj_succ in Hord, Hrem, H24.
  destruct (key_fed ok g L k w f0 f1 rest q Hst Hsp Hs Hop0 Hind0 Hint0
              Heven ltac:(lia) ltac:(lia) Hq ltac:(lia) Hkq HP Hpl Hk24 HkC
              HC Hbuf Hpm Hcp Hcb Hoks Hoke)
    as (w2 & c0 & c1 & f0a & f1a & Hfeed & Hlog2 & Hb1 & Hps1 & Hst2 & Hs2
        & Hp1a & Hop2 & Hind2 & Hint2 & Hrem2 & Hord2 & Hpop2 & Hp0a & Hsp2
        & Hpa2 & Hpp2 & Hpm2 & Hbl2 & Hpl2 & Hset2).
  assert (Hcb2 : cb (ctx w2) <> 0) by (unfold setup_of in Hset2; congruence).
  assert (Hcp2 : count_paths (ctx w2) = 0)
    by (unfold setup_of in Hset2; congruence).
  assert (Hlq : length (firstn (Z.to_nat q) (path (ctx w))) = Z.to_nat q)
    by (rewrite length_firstn; lia).
  assert (Hpre : firstn (Z.to_nat q) (path c1)
                 = firstn (Z.to_nat q) (path (ctx w))).
  { pose proof (firstn_prefix _ _ _ _ Hps1) as H. rewrite Hlq in H.
    exact H. }
  assert (Hlc1 : length (path c1) = length (path (ctx w))) by congruence.
  cbn [encode_pairs flat_map fst snd].
  change (flat_map _ kvs) with (encode_pairs kvs).
  replace ((32 * 3 + Z.of_nat (length k) :: k ++ [v]) ++ encode_pairs kvs)
    with ((32 * 3 + Z.of_nat (length k) :: k) ++ v :: encode_pairs kvs)
    by (cbn [app]; rewrite <- app_assoc; reflexivity).
  rewrite (Hfeed (v :: encode_pairs kvs)).
  destruct kvs as [|kv2 kvs].
  - cbn [length Z.of_nat] in Hrem, Hord.
    destruct (value_last ok g L w2 f0a f1a rest v Hst2 Hsp2 Hs2 Hop2 Hind2
                ltac:(lia) ltac:(lia) ltac:(congruence) ltac:(lia) Hpm2 Hcp2
                Hcb2 Hoku Hoko Hv)
      as (w3 & c2 & c3 & f0b & f1b & Hrun & Hlog3 & Hit2 & Hpa2c & Hpp2c
          & Hpp3 & Hpa3 & Hsp3c & Hst3 & Hs3 & Hind3 & Hord3 & Hsp3 & Hppw3
          & Hpaw3 & Hpm3 & _ & _ & Hset3).
    exists w3, [(LECPCB_VAL_STR_START, c0); (LECPCB_VAL_STR_END, c1);
                (LECPCB_VAL_NUM_UINT, c2)], c3, f0b, f1b.
    rewrite (parse_next L _ _ _ _ _ Hrun). cbn [encode_pairs flat_map].
    split; [apply (parse_end_idle _ _ _ Hst3 Hsp3 Hs3)|].
    split; [rewrite Hlog3, Hlog2, <- app_assoc; reflexivity|].
    split.
    { cbn [pairs_delivered fst snd]. exists c0, c1, c2, [].
      split; [reflexivity|]. split; [exact Hb1|]. split; [exact Hps1|].
      split; [|split; [exact Hit2|reflexivity]].
      unfold path_string in *. rewrite Hpa2c, Hpp2c, Hpa2, Hpp2.
      exact Hps1. }
    split; [congruence|]. split.
    { rewrite Hpa3, Hpa2, Hp0a.
      replace (Z.to_nat (st_p f0) + 1)%nat with (S (Z.to_nat (st_p f0)))
        by lia.
      rewrite firstn_upd_succ by lia. f_equal.
      apply (firstn_shorter _ _ _ (Z.to_nat q)); [lia|exact Hpre]. }
    split; [exact Hst3|]. split; [exact Hs3|]. split; [exact Hind3|].
    split; [exact Hsp3|]. split; [congruence|]. congruence.
  - remember (kv2 :: kvs) as kvs' eqn:Ekvs.
    assert (Hlen : 1 <= Z.of_nat (length kvs'))
      by (subst kvs'; cbn [length]; lia).
    destruct (value_more ok g L w2 f0a f1a rest v Hst2 Hsp2 Hs2 Hop2 Hind2
                ltac:(lia) ltac:(lia) Hcb2 Hoku Hv)
      as (w3 & c2 & f0b & f1b & Hrun & Hlog3 & Hit2 & Hpa2c & Hpp2c & Hst3
          & Hs3 & Hp1b & Hop3 & Hind3 & Hint3 & Hrem3 & Hord3 & Hpop3 & Hp0b
          & Hsp3 & Hpa3 & Hpp3 & Hpm3 & Hb3 & _ & _ & Hset3).
    rewrite (parse_next L _ _ _ _ _ Hrun).
    assert (Hcb3 : cb (ctx w3) <> 0)
      by (unfold setup_of in Hset3; congruence).
    assert (Hcp3 : count_paths (ctx w3) = 0)
      by (unfold setup_of in Hset3; congruence).
    assert (Hno : nonzero (st_ordinal f0b) = true)
      by (apply nonzero_true; lia).
    assert (Hq3 : (if nonzero (st_ordinal f0b) then st_p f1b
                   else ppos (ctx w3)) = q)
      by (rewrite Hno; congruence).
    assert (Hev3 : Z.land (st_ordinal f0b) 1 = 0)
      by (rewrite Hord3, Hord2; apply even_plus_2; exact Heven).
    assert (Hne' : kvs' <> []) by (subst kvs'; discriminate).
    destruct (IH w3 f0b f1b rest q Hst3 Hsp3 Hs3 Hop3 Hind3
                ltac:(congruence) Hev3 ltac:(lia) ltac:(lia) ltac:(lia) Hne'
                ltac:(lia) Hq3 ltac:(congruence) ltac:(lia) Hq1 HP
                ltac:(congruence) HC ltac:(congruence) ltac:(congruence)
                Hcp3 Hcb3 Hoks Hoke Hoku Hoko Hsmall')
      as (w' & evs & c3 & f0' & f1' & Hparse & Hlog' & Hdel & Hpp3' & Hpa3'
          & Hst' & Hs' & Hind' & Hsp' & Hpp' & Hset').
    exists w', ((LECPCB_VAL_STR_START, c0) :: (LECPCB_VAL_STR_END, c1)
                :: (LECPCB_VAL_NUM_UINT, c2) :: evs), c3, f0', f1'.
    split; [exact Hparse|].
    split; [rewrite Hlog', Hlog3, Hlog2, <- !app_assoc; reflexivity|].
    split.
    { cbn [pairs_delivered fst snd]. exists c0, c1, c2, evs.
      split; [reflexivity|]. split; [exact Hb1|]. split; [exact Hps1|].
      split.
      { unfold path_string in *. rewrite Hpa2c, Hpp2c, Hpa2, Hpp2.
        exact Hps1. }
      split; [exact Hit2|].
      rewrite Hpa3, Hpa2, Hpre in Hdel. exact Hdel. }
    split; [congruence|]. split.
    { rewrite Hp0b, Hp0a in Hpa3'. rewrite Hpa3'. f_equal.
      rewrite Hpa3, Hpa2.
      apply (firstn_shorter _ _ _ (Z.to_nat q)); [lia|exact Hpre]. }
    split; [exact Hst'|]. split; [exact Hs'|]. split; [exact Hind'|].
    split; [exact Hsp'|]. split; [congruence|]. congruence.
Qed.
End MapRun.

(** A context that waits for the head byte of its first item: nothing on
    the stack, and the frame at its bottom has counted no item and has no
    string under way. *)
Definition at_first_item (c : lecp_ctx) : Prop :=
  sp c = 0
  /\ exists f rest, st c = f :: rest /\ st_s f = LECP_OPC
                    /\ st_ordinal f = 0 /\ st_intermediate f = 0.

Section Maps.
Variable ok : Z -> bool.
Variable g : Z -> lecp_callback.
Variable L : lecp_limits.

(** X13.  A map of [n] pairs, [n] from 1 to 23 being the minor of its head
    byte, each key a text string of 1 to 23 bytes that fits the path and
    each value an unsigned integer below 24, fed as the first item to a
    context that has no patterns: OBJECT_START is delivered with a [.] put
    on the path; then for each pair, in order, the START and the END of its
    key, END with the key in [buf] and on the path behind the [.], and its
    value with VAL_NUM_UINT, the key still on the path; then OBJECT_END, with
    the path as it was before the map; and the feed returns 0. *)
Theorem map_of_text_keys :
  forall w kvs,
    at_first_item (ctx w) -> cb (ctx w) <> 0 ->
    Z.of_nat (length (st (ctx w))) = LECP_MAX_DEPTH L ->
    2 <= LECP_MAX_DEPTH L ->
    Z.of_nat (length (buf (ctx w))) = LECP_STRING_CHUNK L + 1 ->
    LECP_STRING_CHUNK L <= 255 ->
    Z.of_nat (length (path (ctx w))) = LECP_MAX_PATH L ->
    LECP_MAX_PATH L <= 256 -> 0 <= ppos (ctx w) ->
    path_match (ctx w) = 0 -> count_paths (ctx w) = 0 ->
    ok LECPCB_OBJECT_START = true -> ok LECPCB_VAL_STR_START = true ->
    ok LECPCB_VAL_STR_END = true -> ok LECPCB_VAL_NUM_UINT = true ->
    ok LECPCB_OBJECT_END = true ->
    1 <= Z.of_nat (length kvs) < 24 ->
    Forall (small_pair L (ppos (ctx w) + 1)) kvs ->
    let p := Z.to_nat (ppos (ctx w)) in
    let pre := firstn p (path (ctx w)) ++ [46] in
    exists w' c0 evs c3,
      lecp_parse (answering ok g) L
                 (32 * 5 + Z.of_nat (length kvs) :: encode_pairs kvs) w
      = Some (0, w')
      /\ log w' = log w ++ (LECPCB_OBJECT_START, c0) :: evs
                        ++ [(LECPCB_OBJECT_END, c3)]
      /\ path_string c0 = pre ++ [0]
      /\ pairs_delivered pre kvs evs
      /\ path_string c3 = firstn p (path (ctx w)) ++ [0]
      /\ ready (ctx w') /\ ppos (ctx w') = ppos (ctx w)
      /\ setup_of (ctx w') = setup_of (ctx w).
Proof.
  intros w kvs (Hsp & f & rest0 & Hst & Hs & Hord & Hint) Hcb Hstl HD Hbuf HC
         Hpl HP Hp0 Hpm Hcp Hoko Hoks Hoke Hoku Hokc Hlen Hsmall p pre.
  destruct rest0 as [|f' rest].
  { rewrite Hst in Hstl. cbn in Hstl. lia. }
  assert (Hkne : kvs <> [])
    by (intros E; rewrite E in Hlen; cbn in Hlen; lia).
  assert (Hq1 : ppos (ctx w) + 1 < LECP_MAX_PATH L).
  { destruct kvs as [|kv kvs]; [congruence|].
    destruct (Forall_inv Hsmall) as (H1 & _ & H2 & _). lia. }
  assert (HC0 : 0 <= LECP_STRING_CHUNK L).
  { destruct kvs as [|kv kvs]; [congruence|].
    destruct (Forall_inv Hsmall) as (H1 & H2 & _). lia. }
  assert (Hne : buf (ctx w) <> [])
    by (apply (nonempty_by_length _ _ Hbuf); lia).
  destruct (map_head ok g L w f f' rest (Z.of_nat (length kvs)) Hst Hsp Hs
              Hcb Hne ltac:(lia) Hp0 Hq1 HP Hpl Hpm Hcp Hoko Hlen)
    as (w1 & c0 & f0 & f1 & Hrun & Hlog & Hpa0 & Hpp0 & Hst1 & Hs1 & Hp1
        & Hind1 & Hop0 & Hind0 & Hrem0 & Hord0 & Hint0 & Hpop0 & Hp & Hsp1
        & Hpa1 & Hpp1 & Hpm1 & Hbl1 & _ & _ & Hset1).
  rewrite (parse_next L _ _ _ _ _ Hrun).
  rewrite Hord in Hord0. rewrite Hint in Hint0.
  assert (Hcb1 : cb (ctx w1) <> 0) by (unfold setup_of in Hset1; congruence).
  assert (Hcp1 : count_paths (ctx w1) = 0)
    by (unfold setup_of in Hset1; congruence).
  assert (Hq : (if nonzero (st_ordinal f0) then st_p f1 else ppos (ctx w1))
               = ppos (ctx w) + 1)
    by (rewrite Hord0; exact Hpp1).
  assert (Hpl1 : Z.of_nat (length (path (ctx w1))) = LECP_MAX_PATH L)
    by (rewrite Hpa1, !upd_length; exact Hpl).
  destruct (pairs_run ok g L kvs w1 f0 f1 rest (ppos (ctx w) + 1) Hst1 Hsp1
              Hs1 Hop0 Hind0 Hint0 ltac:(rewrite Hord0; reflexivity)
              ltac:(lia) ltac:(lia) ltac:(lia) Hkne ltac:(lia) Hq Hpop0
              ltac:(lia) Hq1 HP Hpl1 HC ltac:(congruence) Hpm1 Hcp1 Hcb1
              Hoks Hoke Hoku Hokc Hsmall)
    as (w' & evs & c3 & f0' & f1' & Hparse & Hlog' & Hdel & Hpp3 & Hpa3
        & Hst' & Hs' & Hind' & Hsp' & Hpp' & Hset').
  assert (Hdot : firstn (Z.to_nat (ppos (ctx w) + 1)) (path (ctx w1)) = pre).
  { rewrite Hpa1. subst pre p.
    replace (Z.to_nat (ppos (ctx w) + 1)) with (S (Z.to_nat (ppos (ctx w))))
      by lia.
    rewrite firstn_upd_ge by lia. apply firstn_upd_succ. lia. }
  exists w', c0, evs, c3. split; [exact Hparse|].
  split; [rewrite Hlog', Hlog, <- app_assoc; reflexivity|].
  split.
  { unfold path_string. rewrite Hpp0, Hpa0. subst pre p.
    replace (Z.to_nat (ppos (ctx w) + 1) + 1)%nat
      with (S (Z.to_nat (ppos (ctx w) + 1))) by lia.
    rewrite firstn_upd_succ by (rewrite upd_length; lia).
    replace (Z.to_nat (ppos (ctx w) + 1)) with (S (Z.to_nat (ppos (ctx w))))
      by lia.
    rewrite firstn_upd_succ by lia. reflexivity. }
  split; [rewrite Hdot in Hdel; exact Hdel|].
  split.
  { unfold path_string. rewrite Hp in Hpa3.
    rewrite Hpp3, Hp, Hpa3, Hpa1. subst p.
    rewrite !firstn_upd_ge by lia. reflexivity. }
  split.
  { split; [exact Hsp'|]. exists f0', (f1' :: rest). auto. }
  split; [congruence|]. unfold setup_of in *. congruence.
Qed.
End Maps.

Lemma at_first_item_fresh : at_first_item (ctx fresh).
Proof.
  split; [reflexivity|]. exists frame0, (repeat frame0 11).
  repeat split; reflexivity.
Defined.

Lemma map_of_text_keys_witness :
  exists w' c0 evs c3,
    lecp_parse (answering (one_of [LECPCB_OBJECT_START; LECPCB_VAL_STR_START;
                                   LECPCB_VAL_STR_END; LECPCB_VAL_NUM_UINT;
                                   LECPCB_OBJECT_END]) refuse_all)
               lecp_defaults
               (32 * 5 + Z.of_nat (length [([97], 1); ([98; 99], 2)])
                :: encode_pairs [([97], 1); ([98; 99], 2)]) fresh
    = Some (0, w')
    /\ log w' = log fresh ++ (LECPCB_OBJECT_START, c0) :: evs
                          ++ [(LECPCB_OBJECT_END, c3)]
    /\ path_string c0
       = (firstn (Z.to_nat (ppos (ctx fresh))) (path (ctx fresh)) ++ [46])
         ++ [0]
    /\ pairs_delivered
         (firstn (Z.to_nat (ppos (ctx fresh))) (path (ctx fresh)) ++ [46])
         [([97], 1); ([98; 99], 2)] evs
    /\ path_string c3
       = firstn (Z.to_nat (ppos (ctx fresh))) (path (ctx fresh)) ++ [0]
    /\ ready (ctx w') /\ ppos (ctx w') = ppos (ctx fresh)
    /\ setup_of (ctx w') = setup_of (ctx fresh).
Proof.
  assert (Hcb : cb (ctx fresh) <> 0) by discriminate.
  assert (HD : 2 <= LECP_MAX_DEPTH lecp_defaults)
    by (vm_compute; discriminate).
  assert (HC : LECP_STRING_CHUNK lecp_defaults <= 255)
    by (vm_compute; discriminate).
  assert (HP : LECP_MAX_PATH lecp_defaults <= 256)
    by (vm_compute; discriminate).
  assert (Hp0 : 0 <= ppos (ctx fresh)) by (vm_compute; discriminate).
  assert (Hlen : 1 <= Z.of_nat (length [([97], 1); ([98; 99], 2)]) < 24)
    by (split; vm_compute; [discriminate|reflexivity]).
  assert (Hsmall : Forall (small_pair lecp_defaults (ppos (ctx fresh) + 1))
                          [([97], 1); ([98; 99], 2)]).
  { repeat constructor; vm_compute; try discriminate; reflexivity. }
  exact (map_of_text_keys
           (one_of [LECPCB_OBJECT_START; LECPCB_VAL_STR_START;
                    LECPCB_VAL_STR_END; LECPCB_VAL_NUM_UINT;
                    LECPCB_OBJECT_END]) refuse_all lecp_defaults fresh
           [([97], 1); ([98; 99], 2)] at_first_item_fresh Hcb eq_refl HD
           eq_refl HC eq_refl HP Hp0 eq_refl eq_refl eq_refl eq_refl eq_refl
           eq_refl eq_refl Hlen Hsmall).
Defined.

(** ** Empty containers *)

Section EmptyContainers.
Variable ok : Z -> bool.
Variable g : Z -> lecp_callback.
Variable L : lecp_limits.

Lemma empty_array w f rest :
  st (ctx w) = f :: rest -> sp (ctx w) = 0 -> st_s f = LECP_OPC ->
  st_indet f = 0 -> cb (ctx w) <> 0 -> buf (ctx w) <> [] ->
  0 <= ppos (ctx w) -> ppos (ctx w) + 3 < LECP_MAX_PATH L ->
  LECP_MAX_PATH L <= 256 ->
  Z.of_nat (length (path (ctx w))) = LECP_MAX_PATH L ->
  0 <= ipos (ctx w) -> ipos (ctx w) + 1 < LECP_MAX_INDEX_DEPTH L ->
  LECP_MAX_INDEX_DEPTH L <= 256 ->
  Z.of_nat (length (i (ctx w))) = LECP_MAX_INDEX_DEPTH L ->
  path_match (ctx w) = 0 -> count_paths (ctx w) = 0 ->
  ok LECPCB_ARRAY_START = true -> ok LECPCB_ARRAY_END = true ->
  let p := Z.to_nat (ppos (ctx w)) in
  let marked := upd (upd (upd (path (ctx w)) p 91) (S p) 93) (S (S p)) 0 in
  exists w1 c0 c1 f',
    runs (parse_byte (answering ok g) L (32 * 4)) w Next w1
    /\ log w1 = log w ++ [(LECPCB_ARRAY_START, c0); (LECPCB_ARRAY_END, c1)]
    /\ path c0 = marked /\ ppos c0 = ppos (ctx w) + 2
    /\ path c1 = marked /\ ppos c1 = ppos (ctx w) + 2
    /\ st (ctx w1) = f' :: rest /\ st_s f' = LECP_OPC /\ st_indet f' = 0
    /\ sp (ctx w1) = 0
    /\ path (ctx w1) = upd marked p 0 /\ ppos (ctx w1) = ppos (ctx w)
    /\ ipos (ctx w1) = ipos (ctx w)
    /\ setup_of (ctx w1) = setup_of (ctx w).
Proof.
  intros Hst Hsp Hs Hind Hcb Hbuf Hp0 Hp3 HP Hpl Hi0 Hi1 HI Hil Hpm Hcp Hoks
         Hoke p marked.
  destruct (head_byte 4 0) as [Hop Hsm]; [lia|lia|].
  rewrite Z.add_0_r in Hop, Hsm.
  assert (Hst0 : store (buf (ctx w)) 0 0 = Some (upd (buf (ctx w)) 0 0)).
  { apply store_in_range. destruct (buf (ctx w)); [congruence|cbn; lia]. }
  assert (Hroom : (ppos (ctx w) + 3 >=? LECP_MAX_PATH L) = false).
  { rewrite Z.geb_leb. apply Z.leb_gt. lia. }
  assert (Hiroom : (ipos (ctx w) + 1 >=? LECP_MAX_INDEX_DEPTH L) = false).
  { rewrite Z.geb_leb. apply Z.leb_gt. lia. }
  assert (Hu1 : u8 (ppos (ctx w) + 1) = ppos (ctx w) + 1)
    by (apply u8_small; lia).
  assert (Hu2 : u8 (ppos (ctx w) + 2) = ppos (ctx w) + 2)
    by (apply u8_small; lia).
  assert (Hui : u8 (ipos (ctx w) + 1) = ipos (ctx w) + 1)
    by (apply u8_small; lia).
  assert (Hui' : u8 (ipos (ctx w) + 1 - 1) = ipos (ctx w))
    by (rewrite u8_small; lia).
  assert (Hs1 : store (path (ctx w)) (ppos (ctx w)) 91
                = Some (upd (path (ctx w)) p 91))
    by (apply store_in_range; lia).
  assert (Hs2 : store (upd (path (ctx w)) p 91) (ppos (ctx w) + 1) 93
                = Some (upd (upd (path (ctx w)) p 91) (S p) 93)).
  { rewrite store_in_range by (rewrite upd_length; lia).
    subst p. do 2 f_equal. lia. }
  assert (Hs3 : store (upd (upd (path (ctx w)) p 91) (S p) 93)
                      (ppos (ctx w) + 2) 0 = Some marked).
  { rewrite store_in_range by (rewrite !upd_length; lia).
    subst marked p. do 2 f_equal. lia. }
  assert (Hs4 : store marked (ppos (ctx w)) 0 = Some (upd marked p 0))
    by (apply store_in_range; unfold marked; rewrite !upd_length; lia).
  assert (Hsi : store (i (ctx w)) (ipos (ctx w)) 0
                = Some (upd (i (ctx w)) (Z.to_nat (ipos (ctx w))) 0))
    by (apply store_in_range; lia).
  assert (Hi0' : nonzero 0 = false) by reflexivity.
  eexists. eexists. eexists. eexists. split.
  - unfold parse_byte.
    repeat (run_step; fields; rewrite ?Hsp, ?Hst; mem).
    rewrite Hs. unfold parse_opc. rewrite Hop, Hsm.
    repeat (run_step; fields; rewrite ?Hsp, ?Hst; mem).
    unfold opc_array.
    repeat (first [run_step | run_check]; fields;
            rewrite ?Hsp, ?Hst, ?Hst0, ?Hroom, ?Hiroom, ?Hu1, ?Hu2, ?Hui,
              ?Hui', ?Hs1, ?Hs2, ?Hs3, ?Hs4, ?Hsi, ?Hi0'; mem;
            cbn [negb]).
    unfold lwcp_completed.
    repeat (run_step; fields; rewrite ?Hsp; mem).
    cbn [Z.to_nat completed_walk].
    repeat (run_step; fields).
  - subst marked p. fields. split; [rewrite <- app_assoc; reflexivity|].
    repeat split; fields;
      first [reflexivity | rewrite ?Hsp, ?Hpm, ?Hind; reflexivity].
Qed.

Lemma empty_map w f rest :
  st (ctx w) = f :: rest -> sp (ctx w) = 0 -> st_s f = LECP_OPC ->
  st_indet f = 0 -> cb (ctx w) <> 0 -> buf (ctx w) <> [] ->
  0 <= ppos (ctx w) -> ppos (ctx w) + 1 < LECP_MAX_PATH L ->
  LECP_MAX_PATH L <= 256 ->
  Z.of_nat (length (path (ctx w))) = LECP_MAX_PATH L ->
  path_match (ctx w) = 0 -> count_paths (ctx w) = 0 ->
  ok LECPCB_OBJECT_START = true -> ok LECPCB_OBJECT_END = true ->
  let p := Z.to_nat (ppos (ctx w)) in
  let dotted := upd (upd (path (ctx w)) p 46) (S p) 0 in
  exists w1 c0 c1 f',
    runs (parse_byte (answering ok g) L (32 * 5)) w Next w1
    /\ log w1 = log w ++ [(LECPCB_OBJECT_START, c0); (LECPCB_OBJECT_END, c1)]
    /\ path c0 = dotted /\ ppos c0 = ppos (ctx w) + 1
    /\ path c1 = dotted /\ ppos c1 = ppos (ctx w) + 1
    /\ st (ctx w1) = f' :: rest /\ st_s f' = LECP_OPC /\ st_indet f' = 0
    /\ sp (ctx w1) = 0
    /\ path (ctx w1) = upd dotted p 0 /\ ppos (ctx w1) = ppos (ctx w)
    /\ ipos (ctx w1) = ipos (ctx w)
    /\ setup_of (ctx w1) = setup_of (ctx w).
Proof.
  intros Hst Hsp Hs Hind Hcb Hbuf Hp0 Hp1 HP Hpl Hpm Hcp Hoks Hoke p dotted.
  destruct (head_byte 5 0) as [Hop Hsm]; [lia|lia|].
  rewrite Z.add_0_r in Hop, Hsm.
  assert (Hst0 : store (buf (ctx w)) 0 0 = Some (upd (buf (ctx w)) 0 0)).
  { apply store_in_range. destruct (buf (ctx w)); [congruence|cbn; lia]. }
  assert (Hroom : (ppos (ctx w) + 1 >=? LECP_MAX_PATH L) = false).
  { rewrite Z.geb_leb. apply Z.leb_gt. lia. }
  assert (Hu1 : u8 (ppos (ctx w) + 1) = ppos (ctx w) + 1)
    by (apply u8_small; lia).
  assert (Hs1 : store (path (ctx w)) (ppos (ctx w)) 46
                = Some (upd (path (ctx w)) p 46))
    by (apply store_in_range; lia).
  assert (Hs2 : store (upd (path (ctx w)) p 46) (ppos (ctx w) + 1) 0
                = Some dotted).
  { rewrite store_in_range by (rewrite upd_length; lia).
    subst dotted p. do 2 f_equal. lia. }
  assert (Hs4 : store dotted (ppos (ctx w)) 0 = Some (upd dotted p 0))
    by (apply store_in_range; unfold dotted; rewrite !upd_length; lia).
  assert (Hi0' : nonzero 0 = false) by reflexivity.
  eexists. eexists. eexists. eexists. split.
  - unfold parse_byte.
    repeat (run_step; fields; rewrite ?Hsp, ?Hst; mem).
    rewrite Hs. unfold parse_opc. rewrite Hop, Hsm.
    repeat (run_step; fields; rewrite ?Hsp, ?Hst; mem).
    unfold opc_map.
    repeat (first [run_step | run_check]; fields;
            rewrite ?Hsp, ?Hst, ?Hst0, ?Hroom, ?Hu1, ?Hs1, ?Hs2, ?Hs4, ?Hi0';
            mem; cbn [negb]).
    unfold lwcp_completed.
    repeat (run_step; fields; rewrite ?Hsp; mem).
    cbn [Z.to_nat completed_walk].
    repeat (run_step; fields).
  - subst dotted p. fields. split; [rewrite <- app_assoc; reflexivity|].
    repeat split; fields;
      first [reflexivity | rewrite ?Hsp, ?Hpm, ?Hind; reflexivity].
Qed.
End EmptyContainers.

Section EmptyItems.
Variable ok : Z -> bool.
Variable g : Z -> lecp_callback.
Variable L : lecp_limits.

(** X14.  An empty array [0x80] and an empty map [0xA0], fed to a context
    that is between items at the top level and has no patterns: the START
    and the END of the container are both delivered with its mark, [[]] or
    [.], on the path; the mark is cut off the path only after END, where
    the END of a container that has items comes after the cut; and the feed
    returns 0. *)
Theorem empty_containers_end_with_their_mark :
  forall w,
    ready (ctx w) -> cb (ctx w) <> 0 -> buf (ctx w) <> [] ->
    Z.of_nat (length (path (ctx w))) = LECP_MAX_PATH L ->
    LECP_MAX_PATH L <= 256 -> 0 <= ppos (ctx w) ->
    path_match (ctx w) = 0 -> count_paths (ctx w) = 0 ->
    let pre := firstn (Z.to_nat (ppos (ctx w))) (path (ctx w)) in
    (ppos (ctx w) + 3 < LECP_MAX_PATH L ->
     0 <= ipos (ctx w) -> ipos (ctx w) + 1 < LECP_MAX_INDEX_DEPTH L ->
     LECP_MAX_INDEX_DEPTH L <= 256 ->
     Z.of_nat (length (i (ctx w))) = LECP_MAX_INDEX_DEPTH L ->
     ok LECPCB_ARRAY_START = true -> ok LECPCB_ARRAY_END = true ->
     exists w' c0 c1,
       lecp_parse (answering ok g) L [32 * 4] w = Some (0, w')
       /\ log w' = log w ++ [(LECPCB_ARRAY_START, c0); (LECPCB_ARRAY_END, c1)]
       /\ path_string c0 = pre ++ [91; 93; 0]
       /\ path_string c1 = pre ++ [91; 93; 0]
       /\ path_string (ctx w') = pre ++ [0]
       /\ ready (ctx w') /\ ipos (ctx w') = ipos (ctx w)
       /\ setup_of (ctx w') = setup_of (ctx w))
    /\ (ppos (ctx w) + 1 < LECP_MAX_PATH L ->
        ok LECPCB_OBJECT_START = true -> ok LECPCB_OBJECT_END = true ->
        exists w' c0 c1,
          lecp_parse (answering ok g) L [32 * 5] w = Some (0, w')
          /\ log w' = log w ++ [(LECPCB_OBJECT_START, c0);
                                (LECPCB_OBJECT_END, c1)]
          /\ path_string c0 = pre ++ [46; 0]
          /\ path_string c1 = pre ++ [46; 0]
          /\ path_string (ctx w') = pre ++ [0]
          /\ ready (ctx w')
          /\ setup_of (ctx w') = setup_of (ctx w)).
Proof.
  intros w (Hsp & f & rest & Hst & Hs & Hind) Hcb Hbuf Hpl HP Hp0 Hpm Hcp pre.
  split.
  - intros Hp3 Hi0 Hi1 HI Hil Hoks Hoke.
    destruct (empty_array ok g L w f rest Hst Hsp Hs Hind Hcb Hbuf Hp0 Hp3 HP
                Hpl Hi0 Hi1 HI Hil Hpm Hcp Hoks Hoke)
      as (w1 & c0 & c1 & f' & Hrun & Hlog & Hpa0 & Hpp0 & Hpa1 & Hpp1 & Hst1
          & Hs1 & Hind1 & Hsp1 & Hpaw & Hppw & Hipos & Hset).
    exists w1, c0, c1. rewrite (parse_next L _ _ _ _ _ Hrun).
    cbn [lecp_parse].
    split; [apply (parse_end_idle _ _ _ Hst1 Hsp1 Hs1)|].
    split; [exact Hlog|].
    assert (Hmarked : forall c, path c = path c0 -> ppos c = ppos c0 ->
                        path_string c = pre ++ [91; 93; 0]).
    { intros c Hc1 Hc2. unfold path_string. rewrite Hc1, Hc2, Hpa0, Hpp0.
      subst pre.
      replace (Z.to_nat (ppos (ctx w) + 2) + 1)%nat
        with (Z.to_nat (ppos (ctx w)) + 3)%nat by lia.
      apply firstn_marked. lia. }
    split; [apply Hmarked; reflexivity|].
    split; [apply Hmarked; congruence|].
    split.
    { unfold path_string. rewrite Hpaw, Hppw. subst pre.
      replace (Z.to_nat (ppos (ctx w)) + 1)%nat
        with (S (Z.to_nat (ppos (ctx w)))) by lia.
      rewrite firstn_upd_succ by (rewrite !upd_length; lia).
      rewrite !firstn_upd_ge by lia. reflexivity. }
    split; [|split; [exact Hipos|exact Hset]].
    split; [exact Hsp1|]. exists f', rest. auto.
  - intros Hp1 Hoks Hoke.
    destruct (empty_map ok g L w f rest Hst Hsp Hs Hind Hcb Hbuf Hp0 Hp1 HP
                Hpl Hpm Hcp Hoks Hoke)
      as (w1 & c0 & c1 & f' & Hrun & Hlog & Hpa0 & Hpp0 & Hpa1 & Hpp1 & Hst1
          & Hs1 & Hind1 & Hsp1 & Hpaw & Hppw & Hipos & Hset).
    exists w1, c0, c1. rewrite (parse_next L _ _ _ _ _ Hrun).
    cbn [lecp_parse].
    split; [apply (parse_end_idle _ _ _ Hst1 Hsp1 Hs1)|].
    split; [exact Hlog|].
    assert (Hdotted : forall c, path c = path c0 -> ppos c = ppos c0 ->
                        path_string c = pre ++ [46; 0]).
    { intros c Hc1 Hc2. unfold path_string. rewrite Hc1, Hc2, Hpa0, Hpp0.
      subst pre.
      replace (Z.to_nat (ppos (ctx w) + 1) + 1)%nat
        with (S (S (Z.to_nat (ppos (ctx w))))) by lia.
      rewrite firstn_upd_succ by (rewrite !upd_length; lia).
      rewrite firstn_upd_succ by lia.
      rewrite <- app_assoc. reflexivity. }
    split; [apply Hdotted; reflexivity|].
    split; [apply Hdotted; congruence|].
    split.
    { unfold path_string. rewrite Hpaw, Hppw. subst pre.
      replace (Z.to_nat (ppos (ctx w)) + 1)%nat
        with (S (Z.to_nat (ppos (ctx w)))) by lia.
      rewrite firstn_upd_succ by (rewrite !upd_length; lia).
      rewrite !firstn_upd_ge by lia. reflexivity. }
    split; [|exact Hset].
    split; [exact Hsp1|]. exists f', rest. auto.
Qed.
End EmptyItems.

Lemma empty_containers_end_with_their_mark_witness :
  (exists w' c0 c1,
      lecp_parse (answering (one_of [LECPCB_ARRAY_START; LECPCB_ARRAY_END])
                            refuse_all) lecp_defaults [32 * 4] fresh
      = Some (0, w')
      /\ log w' = log fresh
                   ++ [(LECPCB_ARRAY_START, c0); (LECPCB_ARRAY_END, c1)]
      /\ path_string c0
         = firstn (Z.to_nat (ppos (ctx fresh))) (path (ctx fresh))
           ++ [91; 93; 0]
      /\ path_string c1
         = firstn (Z.to_nat (ppos (ctx fresh))) (path (ctx fresh))
           ++ [91; 93; 0]
      /\ path_string (ctx w')
         = firstn (Z.to_nat (ppos (ctx fresh))) (path (ctx fresh)) ++ [0]
      /\ ready (ctx w') /\ ipos (ctx w') = ipos (ctx fresh)
      /\ setup_of (ctx w') = setup_of (ctx fresh)).
Proof.
  assert (Hcb : cb (ctx fresh) <> 0) by discriminate.
  assert (Hbuf : buf (ctx fresh) <> []) by discriminate.
  assert (HP : LECP_MAX_PATH lecp_defaults <= 256)
    by (vm_compute; discriminate).
  assert (Hp0 : 0 <= ppos (ctx fresh)) by (vm_compute; discriminate).
  assert (Hp3 : ppos (ctx fresh) + 3 < LECP_MAX_PATH lecp_defaults)
    by (vm_compute; reflexivity).
  assert (Hi0 : 0 <= ipos (ctx fresh)) by (vm_compute; discriminate).
  assert (Hi1 : ipos (ctx fresh) + 1 < LECP_MAX_INDEX_DEPTH lecp_defaults)
    by (vm_compute; reflexivity).
  assert (HI : LECP_MAX_INDEX_DEPTH lecp_defaults <= 256)
    by (vm_compute; discriminate).
  exact (proj1 (empty_containers_end_with_their_mark
                  (one_of [LECPCB_ARRAY_START; LECPCB_ARRAY_END]) refuse_all
                  lecp_defaults fresh ready_fresh Hcb Hbuf eq_refl HP Hp0
                  eq_refl eq_refl)
               Hp3 Hi0 Hi1 HI eq_refl eq_refl eq_refl).
Defined.

(** ** Strings of length 0 *)

Section EmptyStrings.
Variable ok : Z -> bool.
Variable g : Z -> lecp_callback.
Variable L : lecp_limits.

(** A byte that arrives in [LECP_COLLATE] when no content is left to
    come: it is put in [buf] and delivered with END. *)
Lemma collate_zero w f rest ch to :
  st (ctx w) = f :: rest -> sp (ctx w) = 0 -> st_s f = LECP_COLLATE ->
  st_indet f = 0 -> st_collect_rem f = 0 -> cb (ctx w) <> 0 ->
  (if item_opcode (ctx w) =? LWS_CBOR_MAJTYP_BSTR
   then LECPCB_VAL_BLOB_END - LECPCB_VAL_STR_END else 0) = to ->
  to = 0 \/ to = 15 ->
  ok (LECPCB_VAL_STR_END + to) = true ->
  0 <= npos (ctx w) -> npos (ctx w) + 1 <= LECP_STRING_CHUNK L ->
  LECP_STRING_CHUNK L <= 255 ->
  Z.of_nat (length (buf (ctx w))) = LECP_STRING_CHUNK L + 1 ->
  exists w' c1,
    runs (parse_byte (answering ok g) L ch) w Next w'
    /\ log w' = log w ++ [(LECPCB_VAL_STR_END + to, c1)]
    /\ npos c1 = npos (ctx w) + 1
    /\ buf c1 = upd (upd (buf (ctx w)) (Z.to_nat (npos (ctx w))) ch)
                    (Z.to_nat (npos (ctx w) + 1)) 0
    /\ st (ctx w') = set_st_s LECP_OPC f :: rest
    /\ sp (ctx w') = 0 /\ npos (ctx w') = 0
    /\ setup_of (ctx w') = setup_of (ctx w).
Proof.
  intros Hst Hsp Hs Hind Hrem Hcb Hto Hto' Hok Hn0 Hn1 HC Hbuf.
  set (b1 := upd (upd (buf (ctx w)) (Z.to_nat (npos (ctx w))) ch)
                 (Z.to_nat (npos (ctx w) + 1)) 0).
  assert (Hu8 : u8 (npos (ctx w) + 1) = npos (ctx w) + 1)
    by (apply u8_small; lia).
  assert (Hst0 : store (buf (ctx w)) (npos (ctx w)) ch
                 = Some (upd (buf (ctx w)) (Z.to_nat (npos (ctx w))) ch))
    by (apply store_in_range; lia).
  assert (Hst1 : store (upd (buf (ctx w)) (Z.to_nat (npos (ctx w))) ch)
                       (npos (ctx w) + 1) 0 = Some b1)
    by (apply store_in_range; rewrite upd_length; lia).
  assert (Hst2 : store b1 0 0 = Some (upd b1 0 0))
    by (apply store_in_range; unfold b1; rewrite !upd_length; lia).
  assert (Hi0 : nonzero 0 = false) by reflexivity.
  assert (Hue : u8 (LECPCB_VAL_STR_END + to) = LECPCB_VAL_STR_END + to)
    by (destruct Hto' as [-> | ->]; reflexivity).
  eexists. eexists. split.
  - unfold parse_byte.
    repeat (run_step; fields; rewrite ?Hsp, ?Hst; mem).
    rewrite Hs. unfold parse_collate.
    repeat (run_step; fields;
            rewrite ?Hsp, ?Hst, ?Hst0, ?Hst1, ?Hrem, ?Hu8, ?Hi0,
              ?andb_false_r; mem).
    rewrite Hto, Hue. unfold lwcp_is_indet_string.
    repeat (run_step; fields;
            rewrite ?Hsp, ?Hst, ?Hind, ?Hi0, ?Hst2, ?Z.eqb_refl; mem;
            cbn [negb]).
    unfold lwcp_completed.
    repeat (run_step; fields; rewrite ?Hsp; mem).
    cbn [Z.to_nat completed_walk].
    repeat (run_step; fields).
  - subst b1. fields. rewrite ?Hsp. repeat split; reflexivity.
Qed.

(** X15.  A byte or text string whose length, 0, follows the head byte in
    1, 2, 4 or 8 bytes (read on a little-endian host), fed to a context that
    is between items at the top level: the byte behind the length is not
    read as the head of the next item but taken as content of the string,
    and delivered in [buf] with its END. *)
Theorem empty_string_with_length_bytes_takes_the_next_byte :
  forall w major to k ch,
    ready (ctx w) -> cb (ctx w) <> 0 ->
    Z.of_nat (length (buf (ctx w))) = LECP_STRING_CHUNK L + 1 ->
    1 <= LECP_STRING_CHUNK L <= 255 ->
    (major = 2 /\ to = 15) \/ (major = 3 /\ to = 0) ->
    ok (LECPCB_VAL_STR_START + to) = true ->
    ok (LECPCB_VAL_STR_END + to) = true ->
    0 <= k <= 3 -> be (ctx w) = false ->
    string_delivered
      (lecp_parse (answering ok g) L
                  ((32 * major + (24 + k) :: be_bytes (Z.to_nat (2 ^ k)) 0)
                   ++ [ch]) w)
      w to [ch].
Proof.
  intros w major to k ch (Hsp & f & rest & Hst & Hs & Hind) Hcb Hbuf HC Hmaj
         Hoks Hoke Hk Hbe.
  assert (Hne : buf (ctx w) <> [])
    by (apply (nonempty_by_length _ _ Hbuf); lia).
  assert (Hto' : to = 0 \/ to = 15) by (destruct Hmaj as [[_ ->]|[_ ->]]; auto).
  assert (Hto : forall c, item_opcode c = 32 * major ->
                  (if item_opcode c =? LWS_CBOR_MAJTYP_BSTR
                   then LECPCB_VAL_BLOB_END - LECPCB_VAL_STR_END else 0) = to).
  { intros c ->. destruct Hmaj as [[-> ->]|[-> ->]]; reflexivity. }
  destruct (string_head_arg ok g L w f rest major to k)
    as (w1 & c0 & f1 & Hrun & Hlog & Hst1 & Hs1 & Hind1 & Hop1 & Hrem1
        & Htgt1 & Hitem1 & Hsp1 & Hio1 & Hbe1 & Hbl1 & Hset1);
    try assumption.
  assert (Hm : Z.of_nat (Z.to_nat (2 ^ k)) = 2 ^ k)
    by (apply Z2Nat.id; apply Z.pow_nonneg; lia).
  assert (Hm8 : 1 <= 2 ^ k <= 8).
  { assert (Hk4 : k = 0 \/ k = 1 \/ k = 2 \/ k = 3) by lia.
    destruct Hk4 as [-> | [-> | [-> | ->]]]; cbn; lia. }
  assert (Hpos : 0 < 2 ^ (8 * 2 ^ k)) by (apply Z.pow_pos_nonneg; lia).
  assert (Hstr1 : is_string_opcode (st_opcode f1) = true)
    by (rewrite Hop1; destruct Hmaj as [[-> _]|[-> _]]; reflexivity).
  assert (Hne1 : buf (ctx w1) <> [])
    by (rewrite <- Hbl1 in Hbuf; apply (nonempty_by_length _ _ Hbuf); lia).
  assert (Hbe_ne : be_bytes (Z.to_nat (2 ^ k)) 0 <> []).
  { intros E. apply (f_equal (@length Z)) in E.
    rewrite length_be_bytes in E. cbn in E. lia. }
  destruct (collect_run ok g L (be_bytes (Z.to_nat (2 ^ k)) 0)
              w1 f1 rest Hst1 Hsp1 Hs1 Hstr1 Hne1 Hbe1 Hbe_ne)
    as (w2 & f2 & Hf & Hlog2 & Hst2 & Hs2 & Hrem2 & Hind2 & Hnp2 & Hsp2
        & Hio2 & Hbl2 & Hset2);
    rewrite ?length_be_bytes, ?Hm; try lia.
  rewrite Htgt1, Hitem1 in Hrem2.
  replace (2 ^ k - 1) with (Z.of_nat (Z.to_nat (2 ^ k)) - 1) in Hrem2 by lia.
  rewrite collected_argument in Hrem2 by (rewrite Hm; lia).
  pose proof (feeds_cons _ _ _ _ _ _ _ Hrun Hf [ch]) as Hfeed.
  cbn [app] in Hfeed |- *. rewrite Hfeed.
  assert (Hcb2 : cb (ctx w2) <> 0)
    by (unfold setup_of in Hset1, Hset2; congruence).
  assert (Hbuf2 : Z.of_nat (length (buf (ctx w2))) = LECP_STRING_CHUNK L + 1)
    by congruence.
  assert (Hio : item_opcode (ctx w2) = 32 * major) by congruence.
  assert (Hind0 : st_indet f2 = 0) by congruence.
  destruct (collate_zero w2 f2 rest ch to Hst2 Hsp2 Hs2 Hind0 Hrem2 Hcb2
              (Hto _ Hio) Hto' Hoke ltac:(lia) ltac:(lia) ltac:(lia) Hbuf2)
    as (w' & c1 & Hrun' & Hlog' & Hnp' & Hb & Hst' & Hsp' & _ & Hset').
  exists w', c0, c1. rewrite (parse_next L _ _ _ _ _ Hrun').
  cbn [lecp_parse].
  split; [apply (parse_end_idle _ _ _ Hst' Hsp'); reflexivity|].
  split; [rewrite Hlog', Hlog2, Hlog, <- app_assoc; reflexivity|].
  split; [rewrite Hnp', Hnp2; reflexivity|].
  split.
  { rewrite Hb, Hnp2. cbn [Z.to_nat Z.add Pos.to_nat Pos.iter_op Nat.add].
    destruct (buf (ctx w2)) as [|b0 [|b1 bt]] eqn:E; cbn in Hbuf2; try lia.
    reflexivity. }
  split.
  { split; [exact Hsp'|]. exists (set_st_s LECP_OPC f2), rest.
    split; [exact Hst'|]. split; [reflexivity|exact Hind0]. }
  unfold setup_of in *. congruence.
Qed.
End EmptyStrings.

Lemma empty_string_with_length_bytes_takes_the_next_byte_witness :
  string_delivered
    (lecp_parse (answering (one_of [LECPCB_VAL_STR_START; LECPCB_VAL_STR_END])
                           refuse_all)
                lecp_defaults
                ((32 * 3 + (24 + 0) :: be_bytes (Z.to_nat (2 ^ 0)) 0)
                 ++ [246]) fresh)
    fresh 0 [246].
Proof.
  assert (Hcb : cb (ctx fresh) <> 0) by discriminate.
  assert (HC : 1 <= LECP_STRING_CHUNK lecp_defaults <= 255)
    by (split; vm_compute; discriminate).
  assert (Hmaj : (3 = 2 /\ 0 = 15) \/ (3 = 3 /\ 0 = 0))
    by (right; split; reflexivity).
  assert (Hk : 0 <= 0 <= 3) by lia.
  exact (empty_string_with_length_bytes_takes_the_next_byte
           (one_of [LECPCB_VAL_STR_START; LECPCB_VAL_STR_END]) refuse_all
           lecp_defaults fresh 3 0 0 246 ready_fresh Hcb eq_refl HC Hmaj
           eq_refl eq_refl Hk eq_refl).
Defined.

(** ** BREAK *)

Lemma load_upd_other {A} (l : list A) n m v :
  Z.of_nat n <> m -> load (upd l n v) m = load l m.
Proof.
  intros H. unfold load. destruct (m <? 0) eqn:E; [reflexivity|].
  apply Z.ltb_ge in E.
  assert (Hnm : n <> Z.to_nat m) by lia. clear H E.
  revert n Hnm. generalize (Z.to_nat m) as k.
  induction l as [|h t IH]; intros k n Hnm.
  - destruct n; reflexivity.
  - destruct n, k; cbn; try reflexivity; try congruence.
    apply IH. congruence.
Qed.

Lemma load_in_range {A} (l : list A) n a :
  load l n = Some a -> 0 <= n < Z.of_nat (length l).
Proof.
  unfold load. destruct (n <? 0) eqn:E; [discriminate|].
  apply Z.ltb_ge in E. intros H.
  assert (Hlt : (Z.to_nat n < length l)%nat)
    by (apply nth_error_Some; congruence).
  lia.
Qed.

Lemma runs_reject fn r w :
  cb (ctx w) <> 0 ->
  runs (reject fn r) w (Return r)
       {| ctx := ctx w; log := log w ++ [(LECPCB_FAILED, ctx w)] |}.
Proof.
  intros Hcb. unfold runs, reject, bind, call_cb, ret.
  apply Z.eqb_neq in Hcb. rewrite Hcb. reflexivity.
Qed.

(** X16.  A BREAK [0xFF] that arrives where a head byte is expected, at
    the top level or directly below a container or string of definite
    length, at any depth: FAILED is delivered, the feed returns
    [LECP_REJECT_BAD_CODING], and the bytes behind the BREAK are not read. *)
Theorem BREAK_outside_indefinite_is_refused :
  forall fn L w f more,
    load (st (ctx w)) (sp (ctx w)) = Some f -> st_s f = LECP_OPC ->
    cb (ctx w) <> 0 ->
    sp (ctx w) = 0
    \/ (exists parent, load (st (ctx w)) (sp (ctx w) - 1) = Some parent
                       /\ st_indet parent = 0) ->
    exists w',
      lecp_parse fn L (255 :: more) w = Some (LECP_REJECT_BAD_CODING, w')
      /\ log w' = log w ++ [(LECPCB_FAILED, ctx w')]
      /\ sp (ctx w') = sp (ctx w)
      /\ setup_of (ctx w') = setup_of (ctx w).
Proof.
  intros fn L w f more Hf Hs Hcb Hout.
  pose proof (load_in_range _ _ _ Hf) as Hsp.
  assert (Hsto : forall v, store (st (ctx w)) (sp (ctx w)) v
                           = Some (upd (st (ctx w)) (Z.to_nat (sp (ctx w))) v))
    by (intros v; apply store_in_range; exact Hsp).
  assert (Hrun : exists w',
             runs (parse_byte fn L 255) w (Return LECP_REJECT_BAD_CODING) w'
             /\ log w' = log w ++ [(LECPCB_FAILED, ctx w')]
             /\ sp (ctx w') = sp (ctx w)
             /\ setup_of (ctx w') = setup_of (ctx w)).
  { destruct Hout as [H0 | (parent & Hpar & Hind)].
    - eexists. split.
      + unfold parse_byte.
        repeat (run_step; fields; rewrite ?Hf).
        rewrite Hs. unfold parse_opc.
        repeat (run_step; fields; rewrite ?Hf, ?Hsto).
        unfold opc_float.
        repeat (run_step; fields; rewrite ?H0; cbn [nonzero Z.eqb negb]).
        apply runs_reject. exact Hcb.
      + fields. repeat split; reflexivity.
    - assert (Hnz : nonzero (sp (ctx w)) = true).
      { apply nonzero_true. intros E. rewrite E in Hpar. discriminate. }
      assert (Hpar' : forall v,
                 load (upd (st (ctx w)) (Z.to_nat (sp (ctx w))) v)
                      (sp (ctx w) - 1) = Some parent).
      { intros v. rewrite load_upd_other by lia. exact Hpar. }
      assert (Hi0 : nonzero 0 = false) by reflexivity.
      eexists. split.
      + unfold parse_byte.
        repeat (run_step; fields; rewrite ?Hf).
        rewrite Hs. unfold parse_opc.
        repeat (run_step; fields; rewrite ?Hf, ?Hsto).
        unfold opc_float.
        repeat (run_step; fields;
                rewrite ?Hnz, ?Hpar', ?Hind, ?Hi0; cbn [negb]).
        apply runs_reject. exact Hcb.
      + fields. repeat split; reflexivity. }
  destruct Hrun as (w' & Hrun & Hlog & Hsp' & Hset).
  exists w'. split; [|repeat split; assumption].
  cbn [lecp_parse]. unfold bind. rewrite Hrun. reflexivity.
Qed.

Lemma BREAK_outside_indefinite_is_refused_witness :
  exists w',
    lecp_parse refuse_all lecp_defaults (255 :: [0; 1]) fresh
    = Some (LECP_REJECT_BAD_CODING, w')
    /\ log w' = log fresh ++ [(LECPCB_FAILED, ctx w')]
    /\ sp (ctx w') = sp (ctx fresh)
    /\ setup_of (ctx w') = setup_of (ctx fresh).
Proof.
  assert (Hcb : cb (ctx fresh) <> 0) by discriminate.
  exact (BREAK_outside_indefinite_is_refused refuse_all lecp_defaults fresh
           frame0 [0; 1] eq_refl eq_refl Hcb (or_introl eq_refl)).
Defined.

(** ** Arrays of indefinite length *)

Section IndefiniteArraySteps.
Variable ok : Z -> bool.
Variable g : Z -> lecp_callback.
Variable L : lecp_limits.

(** The head byte [0x9F] at the top level. *)
Lemma array_head_indet w f f' rest v0 irest :
  st (ctx w) = f :: f' :: rest -> sp (ctx w) = 0 -> st_s f = LECP_OPC ->
  cb (ctx w) <> 0 -> buf (ctx w) <> [] ->
  LECP_MAX_DEPTH L <> 1 -> 1 < LECP_MAX_INDEX_DEPTH L ->
  0 <= ppos (ctx w) -> ppos (ctx w) + 3 < LECP_MAX_PATH L ->
  LECP_MAX_PATH L <= 256 ->
  Z.of_nat (length (path (ctx w))) = LECP_MAX_PATH L ->
  path_match (ctx w) = 0 -> count_paths (ctx w) = 0 ->
  ipos (ctx w) = 0 -> i (ctx w) = v0 :: irest ->
  ok LECPCB_ARRAY_START = true ->
  let p := ppos (ctx w) in
  let marked := upd (upd (upd (path (ctx w)) (Z.to_nat p) 91)
                         (Z.to_nat (p + 1)) 93) (Z.to_nat (p + 2)) 0 in
  exists w1 c0 f0 f1,
    runs (parse_byte (answering ok g) L (32 * 4 + 31)) w Next w1
    /\ log w1 = log w ++ [(LECPCB_ARRAY_START, c0)]
    /\ path c0 = marked /\ ppos c0 = p + 2
    /\ st (ctx w1) = f0 :: f1 :: rest
    /\ st_s f1 = LECP_OPC
    /\ st_opcode f0 = LWS_CBOR_MAJTYP_ARRAY /\ st_indet f0 = 1
    /\ st_pop_iss f0 = LECPCB_ARRAY_END /\ st_p f0 = p
    /\ sp (ctx w1) = 1 /\ ipos (ctx w1) = 1
    /\ i (ctx w1) = 0 :: irest
    /\ path (ctx w1) = marked /\ ppos (ctx w1) = p + 2
    /\ path_match (ctx w1) = 0
    /\ setup_of (ctx w1) = setup_of (ctx w).
Proof.
  intros Hst Hsp Hs Hcb Hbuf HD HI Hp0 Hp3 HP Hpl Hpm Hcp Hipos Hi Hok
         p marked.
  destruct (head_byte 4 31) as [Hop Hsm]; [lia|lia|].
  assert (Hst0 : store (buf (ctx w)) 0 0 = Some (upd (buf (ctx w)) 0 0)).
  { apply store_in_range. destruct (buf (ctx w)); [congruence|cbn; lia]. }
  assert (Hroom : (ppos (ctx w) + 3 >=? LECP_MAX_PATH L) = false).
  { rewrite Z.geb_leb. apply Z.leb_gt. lia. }
  assert (Hidx : (0 + 1 >=? LECP_MAX_INDEX_DEPTH L) = false).
  { rewrite Z.geb_leb. apply Z.leb_gt. lia. }
  assert (Hdepth : (0 + 1 =? LECP_MAX_DEPTH L) = false)
    by (apply Z.eqb_neq; lia).
  assert (Hu1 : u8 (ppos (ctx w) + 1) = ppos (ctx w) + 1)
    by (apply u8_small; lia).
  assert (Hu2 : u8 (ppos (ctx w) + 2) = ppos (ctx w) + 2)
    by (apply u8_small; lia).
  assert (Hs1 : store (path (ctx w)) (ppos (ctx w)) 91
                = Some (upd (path (ctx w)) (Z.to_nat p) 91))
    by (apply store_in_range; lia).
  assert (Hs2 : store (upd (path (ctx w)) (Z.to_nat p) 91)
                      (ppos (ctx w) + 1) 93
                = Some (upd (upd (path (ctx w)) (Z.to_nat p) 91)
                            (Z.to_nat (p + 1)) 93))
    by (apply store_in_range; rewrite upd_length; lia).
  assert (Hs3 : store (upd (upd (path (ctx w)) (Z.to_nat p) 91)
                           (Z.to_nat (p + 1)) 93)
                      (ppos (ctx w) + 2) 0 = Some marked)
    by (apply store_in_range; rewrite !upd_length; lia).
  eexists. eexists. eexists. eexists. split.
  - unfold parse_byte.
    repeat (run_step; fields; rewrite ?Hsp, ?Hst; mem).
    rewrite Hs. unfold parse_opc. rewrite Hop, Hsm.
    repeat (run_step; fields; rewrite ?Hsp, ?Hst; mem).
    unfold opc_array.
    repeat (first [run_step | run_check]; fields;
            rewrite ?Hsp, ?Hst, ?Hst0, ?Hroom, ?Hu1, ?Hu2, ?Hs1, ?Hs2, ?Hs3,
              ?Hipos, ?Hidx, ?Hi; mem; cbn [negb]).
    unfold lecp_push.
    repeat (first [run_step | run_check]; fields;
            rewrite ?Hsp, ?Hst, ?Hdepth; mem; cbn [negb]).
  - subst p marked. fields. split; [reflexivity|].
    repeat split; fields;
      first [reflexivity
            | rewrite ?Hsp, ?Hi, ?Hipos, ?Hpm; reflexivity].
Qed.

(** An element of an array of indefinite length. *)
Lemma element_indet w f0 f1 rest v irest m :
  st (ctx w) = f0 :: f1 :: rest -> sp (ctx w) = 1 -> st_s f1 = LECP_OPC ->
  st_opcode f0 = LWS_CBOR_MAJTYP_ARRAY -> st_indet f0 = 1 ->
  ipos (ctx w) = 1 -> i (ctx w) = v :: irest -> 0 <= v < 65535 ->
  cb (ctx w) <> 0 -> ok LECPCB_VAL_NUM_UINT = true ->
  0 <= m < 24 ->
  exists w1 c1 f0' f1',
    runs (parse_byte (answering ok g) L m) w Next w1
    /\ log w1 = log w ++ [(LECPCB_VAL_NUM_UINT, c1)]
    /\ item_u64 c1 = m /\ i c1 = v :: irest /\ ipos c1 = 1
    /\ path c1 = path (ctx w) /\ ppos c1 = ppos (ctx w)
    /\ st (ctx w1) = f0' :: f1' :: rest
    /\ st_s f1' = LECP_OPC
    /\ st_opcode f0' = LWS_CBOR_MAJTYP_ARRAY /\ st_indet f0' = 1
    /\ st_pop_iss f0' = st_pop_iss f0 /\ st_p f0' = st_p f0
    /\ sp (ctx w1) = 1 /\ ipos (ctx w1) = 1
    /\ i (ctx w1) = (v + 1) :: irest
    /\ path (ctx w1) = path (ctx w) /\ ppos (ctx w1) = ppos (ctx w)
    /\ path_match (ctx w1) = path_match (ctx w)
    /\ setup_of (ctx w1) = setup_of (ctx w).
Proof.
  intros Hst Hsp Hs1 Hop0 Hind0 Hipos Hi Hv Hcb Hok Hm.
  destruct (head_byte 0 m) as [Hop Hsm]; [lia|lia|].
  cbn [Z.mul Z.add] in Hop, Hsm.
  assert (Hlt : (m <? LWS_CBOR_1) = true)
    by (apply Z.ltb_lt; unfold LWS_CBOR_1; lia).
  assert (Hu16 : u16 (v + 1) = v + 1) by (apply u16_small; lia).
  assert (Hi0 : nonzero 0 = false) by reflexivity.
  assert (Hi1 : nonzero 1 = true) by reflexivity.
  eexists. eexists. eexists. eexists. split.
  - unfold parse_byte.
    repeat (run_step; fields; rewrite ?Hsp, ?Hst; mem).
    rewrite Hs1. unfold parse_opc. rewrite Hop, Hsm.
    repeat (run_step; fields; rewrite ?Hsp, ?Hst, ?Hlt; mem).
    unfold issue.
    repeat (run_step; fields; rewrite ?Hsp, ?Hst; mem).
    unfold lwcp_completed.
    repeat (run_step; fields; rewrite ?Hsp, ?Hst; mem).
    change (Z.to_nat 1) with 1%nat. cbn [completed_walk].
    repeat (run_step; fields;
            rewrite ?Hsp, ?Hst, ?Hipos, ?Hi, ?Hi1, ?Hi0, ?Hop0, ?Hind0,
              ?Hu16, ?Z.eqb_refl;
            change (1 - 1) with 0; mem; cbn [negb andb]).
  - fields. repeat split; fields;
      first [reflexivity
            | rewrite ?Hsp, ?Hi, ?Hipos, ?Hop0, ?Hind0; reflexivity].
Qed.

(** The BREAK that closes an array of indefinite length: the array is
    popped off the stack, its mark is taken off the path, and ARRAY_END is
    delivered. *)
Lemma break_closes_array w f0 f1 rest v irest :
  st (ctx w) = f0 :: f1 :: rest -> sp (ctx w) = 1 -> st_s f1 = LECP_OPC ->
  st_opcode f0 = LWS_CBOR_MAJTYP_ARRAY -> st_indet f0 = 1 ->
  st_pop_iss f0 = LECPCB_ARRAY_END ->
  0 <= st_p f0 < Z.of_nat (length (path (ctx w))) ->
  path_match (ctx w) = 0 -> count_paths (ctx w) = 0 ->
  ipos (ctx w) = 1 -> i (ctx w) = v :: irest ->
  cb (ctx w) <> 0 -> ok LECPCB_ARRAY_END = true ->
  exists w1 c2 f0' f1',
    runs (parse_byte (answering ok g) L 255) w Next w1
    /\ log w1 = log w ++ [(LECPCB_ARRAY_END, c2)]
    /\ ppos c2 = st_p f0
    /\ path c2 = upd (path (ctx w)) (Z.to_nat (st_p f0)) 0
    /\ sp c2 = 0 /\ ipos c2 = 0
    /\ st (ctx w1) = f0' :: f1' :: rest
    /\ st_s f0' = LECP_OPC /\ st_indet f0' = 1
    /\ sp (ctx w1) = 0 /\ ipos (ctx w1) = 0
    /\ ppos (ctx w1) = st_p f0
    /\ path (ctx w1) = upd (path (ctx w)) (Z.to_nat (st_p f0)) 0
    /\ path_match (ctx w1) = 0
    /\ setup_of (ctx w1) = setup_of (ctx w).
Proof.
  intros Hst Hsp Hs1 Hop0 Hind0 Hpop Hp Hpm Hcp Hipos Hi Hcb Hoke.
  assert (Hi0 : nonzero 0 = false) by reflexivity.
  assert (Hi1 : nonzero 1 = true) by reflexivity.
  assert (Hpp : store (path (ctx w)) (st_p f0) 0
                = Some (upd (path (ctx w)) (Z.to_nat (st_p f0)) 0))
    by (apply store_in_range; exact Hp).
  eexists. eexists. eexists. eexists. split.
  - unfold parse_byte.
    repeat (run_step; fields; rewrite ?Hsp, ?Hst; mem).
    rewrite Hs1. unfold parse_opc.
    repeat (run_step; fields; rewrite ?Hsp, ?Hst; mem).
    unfold opc_float.
    repeat (run_step; fields;
            rewrite ?Hsp, ?Hst, ?Hi1, ?Hi0, ?Hind0;
            change (1 - 1) with 0; mem; cbn [negb andb]).
    unfold lwcp_completed.
    repeat (run_step; fields; rewrite ?Hsp, ?Hst; mem).
    change (Z.to_nat 1) with 1%nat. cbn [completed_walk].
    repeat (run_step; fields;
            rewrite ?Hsp, ?Hst, ?Hipos, ?Hi, ?Hi1, ?Hi0, ?Hop0, ?Hind0,
              ?Z.eqb_refl;
            change (1 - 1) with 0; change (u8 0) with 0; mem;
            cbn [negb andb]).
    unfold lecp_pop.
    repeat (first [run_step | run_check]; fields;
            rewrite ?Hsp, ?Hst, ?Hipos, ?Hi, ?Hi1, ?Hi0, ?Hpop, ?Hpp,
              ?Z.eqb_refl;
            change (1 - 1) with 0; change (u8 0) with 0; mem;
            cbn [negb andb]).
  - fields. split; [reflexivity|].
    repeat split; fields;
      first [reflexivity
            | rewrite ?Hsp, ?Hi, ?Hipos, ?Hop0, ?Hind0, ?Hpm; reflexivity].
Qed.
End IndefiniteArraySteps.

Section IndefiniteArrays.
Variable ok : Z -> bool.
Variable g : Z -> lecp_callback.
Variable L : lecp_limits.

Lemma elements_fed es : forall w f0 f1 rest v irest,
  st (ctx w) = f0 :: f1 :: rest -> sp (ctx w) = 1 -> st_s f1 = LECP_OPC ->
  st_opcode f0 = LWS_CBOR_MAJTYP_ARRAY -> st_indet f0 = 1 ->
  ipos (ctx w) = 1 -> i (ctx w) = v :: irest ->
  0 <= v -> v + Z.of_nat (length es) <= 65535 ->
  cb (ctx w) <> 0 -> ok LECPCB_VAL_NUM_UINT = true ->
  Forall (fun m => 0 <= m < 24) es ->
  exists w' evs f0' f1',
    feeds (answering ok g) L es w w'
    /\ log w' = log w ++ evs
    /\ map element_view evs = numbered v es
    /\ Forall (fun e => path (snd e) = path (ctx w)
                        /\ ppos (snd e) = ppos (ctx w)) evs
    /\ st (ctx w') = f0' :: f1' :: rest
    /\ st_s f1' = LECP_OPC
    /\ st_opcode f0' = LWS_CBOR_MAJTYP_ARRAY /\ st_indet f0' = 1
    /\ st_pop_iss f0' = st_pop_iss f0 /\ st_p f0' = st_p f0
    /\ sp (ctx w') = 1 /\ ipos (ctx w') = 1
    /\ i (ctx w') = (v + Z.of_nat (length es)) :: irest
    /\ path (ctx w') = path (ctx w) /\ ppos (ctx w') = ppos (ctx w)
    /\ path_match (ctx w') = path_match (ctx w)
    /\ setup_of (ctx w') = setup_of (ctx w).
Proof.
  induction es as [|m es IH];
    intros w f0 f1 rest v irest Hst Hsp Hs1 Hop0 Hind0 Hipos Hi Hv Hvn Hcb
           Hok Hsmall.
  - exists w, [], f0, f1. split; [apply feeds_nil|].
    split; [rewrite app_nil_r; reflexivity|].
    split; [reflexivity|]. split; [constructor|].
    cbn [length Z.of_nat]. rewrite Z.add_0_r.
    repeat (split; [assumption || reflexivity|]). reflexivity.
  - pose proof (Forall_inv Hsmall) as Hm.
    pose proof (Forall_inv_tail Hsmall) as Hsmall'. cbv beta in Hm.
    cbn [length] in Hvn. rewrite Nat2Z.inj_succ in Hvn.
    destruct (element_indet ok g L w f0 f1 rest v irest m Hst Hsp Hs1 Hop0
                Hind0 Hipos Hi ltac:(lia) Hcb Hok Hm)
      as (w1 & c1 & f0' & f1' & Hrun & Hlog & Hit & Hi1 & Hip1 & Hpa1 & Hpp1
          & Hst1 & Hs1' & Hop' & Hind' & Hpop' & Hp' & Hsp1 & Hipos1
          & Hi' & Hpa' & Hpp' & Hpm' & Hset).
    assert (Hcb1 : cb (ctx w1) <> 0) by (unfold setup_of in Hset; congruence).
    destruct (IH w1 f0' f1' rest (v + 1) irest Hst1 Hsp1 Hs1' Hop' Hind'
                Hipos1 Hi' ltac:(lia) ltac:(lia) Hcb1 Hok Hsmall')
      as (w' & evs & f0'' & f1'' & Hfeed & Hlog2 & Hview & Hpaths & Hst''
          & Hs'' & Hop'' & Hind'' & Hpop'' & Hp'' & Hsp'' & Hip'' & Hi''
          & Hpa'' & Hpp'' & Hpm'' & Hset'').
    exists w', ((LECPCB_VAL_NUM_UINT, c1) :: evs), f0'', f1''.
    split; [apply (feeds_cons _ _ _ _ _ _ _ Hrun Hfeed)|].
    split; [rewrite Hlog2, Hlog, <- app_assoc; reflexivity|]. split.
    { cbn [map numbered]. rewrite Hview. unfold element_view. cbn [fst snd].
      rewrite Hit, Hi1, Hip1. reflexivity. }
    split.
    { constructor; [split; assumption|].
      eapply Forall_impl; [|exact Hpaths]. cbv beta.
      intros e [H1 H2]. split; congruence. }
    split; [exact Hst''|]. split; [exact Hs''|]. split; [exact Hop''|].
    split; [exact Hind''|]. split; [congruence|]. split; [congruence|].
    split; [exact Hsp''|]. split; [exact Hip''|].
    split; [rewrite Hi''; cbn [length]; f_equal; lia|].
    split; [congruence|]. split; [congruence|]. split; [congruence|].
    congruence.
Qed.

(** X17.  An array of indefinite length, [0x9F], of unsigned integers
    below 24, closed by a BREAK, fed to a context that is between items at
    the top level and has no patterns: ARRAY_START is delivered with the
    mark of the array on the path, then the elements in order, each with
    VAL_NUM_UINT, its value and its index, from 0; the BREAK delivers
    ARRAY_END, with the mark taken off the path, and the feed returns 0.
    The frame at the bottom of the stack is left with its [indet] flag
    set. *)
Theorem indefinite_array_of_unsigned_integers :
  forall w es,
    ready (ctx w) -> cb (ctx w) <> 0 -> buf (ctx w) <> [] ->
    Z.of_nat (length (st (ctx w))) = LECP_MAX_DEPTH L ->
    2 <= LECP_MAX_DEPTH L ->
    Z.of_nat (length (i (ctx w))) = LECP_MAX_INDEX_DEPTH L ->
    1 < LECP_MAX_INDEX_DEPTH L -> ipos (ctx w) = 0 ->
    Z.of_nat (length (path (ctx w))) = LECP_MAX_PATH L ->
    LECP_MAX_PATH L <= 256 ->
    0 <= ppos (ctx w) -> ppos (ctx w) + 3 < LECP_MAX_PATH L ->
    path_match (ctx w) = 0 -> count_paths (ctx w) = 0 ->
    ok LECPCB_ARRAY_START = true -> ok LECPCB_VAL_NUM_UINT = true ->
    ok LECPCB_ARRAY_END = true ->
    Z.of_nat (length es) <= 65535 ->
    Forall (fun m => 0 <= m < 24) es ->
    let p := Z.to_nat (ppos (ctx w)) in
    exists w' c0 evs c2 f' rest,
      lecp_parse (answering ok g) L (32 * 4 + 31 :: es ++ [255]) w
      = Some (0, w')
      /\ log w' = log w ++ (LECPCB_ARRAY_START, c0) :: evs
                        ++ [(LECPCB_ARRAY_END, c2)]
      /\ map element_view evs = numbered 0 es
      /\ Forall (fun c => ppos c = ppos (ctx w) + 2
                          /\ firstn (p + 3) (path c)
                             = firstn p (path (ctx w)) ++ [91; 93; 0])
                (c0 :: map snd evs)
      /\ ppos c2 = ppos (ctx w)
      /\ firstn (p + 1) (path c2) = firstn p (path (ctx w)) ++ [0]
      /\ sp (ctx w') = 0 /\ st (ctx w') = f' :: rest
      /\ st_s f' = LECP_OPC /\ st_indet f' = 1
      /\ ppos (ctx w') = ppos (ctx w) /\ ipos (ctx w') = 0
      /\ setup_of (ctx w') = setup_of (ctx w).
Proof.
  intros w es (Hsp & f & rest0 & Hst & Hs & Hind) Hcb Hbuf Hstl HD Hil HI
         Hipos Hpl HP Hp0 Hp3 Hpm Hcp Hoks Hoku Hoke Hlen Hsmall p.
  destruct rest0 as [|f' rest].
  { rewrite Hst in Hstl. cbn in Hstl. lia. }
  destruct (i (ctx w)) as [|v0 irest] eqn:Hi.
  { cbn in Hil. lia. }
  destruct (array_head_indet ok g L w f f' rest v0 irest
              Hst Hsp Hs Hcb Hbuf ltac:(lia) HI Hp0 Hp3 HP Hpl Hpm Hcp Hipos
              Hi Hoks)
    as (w1 & c0 & f0 & f1 & Hrun & Hlog & Hpa0 & Hpp0 & Hst1 & Hs1 & Hop0
        & Hind0 & Hpop0 & Hp & Hsp1 & Hipos1 & Hi1 & Hpa1 & Hpp1
        & Hpm1 & Hset1).
  rewrite (parse_next L _ _ _ _ _ Hrun).
  assert (Hcb1 : cb (ctx w1) <> 0) by (unfold setup_of in Hset1; congruence).
  assert (Hcp1 : count_paths (ctx w1) = 0)
    by (unfold setup_of in Hset1; congruence).
  destruct (elements_fed es w1 f0 f1 rest 0 irest Hst1 Hsp1 Hs1 Hop0
              Hind0 Hipos1 Hi1 ltac:(lia) ltac:(lia) Hcb1 Hoku Hsmall)
    as (w2 & evs & f0a & f1a & Hfeed & Hlog2 & Hview & Hpaths & Hst2 & Hs2
        & Hop2 & Hind2 & Hpop2 & Hp2 & Hsp2 & Hipos2 & Hi2 & Hpa2 & Hpp2
        & Hpm2 & Hset2).
  rewrite (Hfeed [255]).
  assert (Hcb2 : cb (ctx w2) <> 0) by (unfold setup_of in Hset2; congruence).
  assert (Hcp2 : count_paths (ctx w2) = 0)
    by (unfold setup_of in Hset2; congruence).
  assert (Hpin : 0 <= st_p f0a < Z.of_nat (length (path (ctx w2)))).
  { rewrite Hp2, Hp, Hpa2, Hpa1, !upd_length. lia. }
  destruct (break_closes_array ok g L w2 f0a f1a rest _ irest Hst2 Hsp2 Hs2
              Hop2 Hind2 ltac:(congruence) Hpin ltac:(congruence) Hcp2
              Hipos2 Hi2 Hcb2 Hoke)
    as (w' & c2 & f0' & f1' & Hrun' & Hlog' & Hpp2' & Hpa2' & Hsp2' & Hip2'
        & Hst' & Hs' & Hind' & Hsp' & Hip' & Hpp' & Hpa' & Hpm' & Hset').
  rewrite (parse_next L _ _ _ _ _ Hrun'). cbn [lecp_parse].
  assert (Hmarked : forall c, path c = path (ctx w1) ->
            firstn (p + 3) (path c) = firstn p (path (ctx w)) ++ [91; 93; 0]).
  { intros c ->. rewrite Hpa1. subst p.
    replace (Z.to_nat (ppos (ctx w) + 1)) with (S (Z.to_nat (ppos (ctx w))))
      by lia.
    replace (Z.to_nat (ppos (ctx w) + 2))
      with (S (S (Z.to_nat (ppos (ctx w))))) by lia.
    apply firstn_marked. lia. }
  exists w', c0, evs, c2, f0', (f1' :: rest).
  split; [apply (parse_end_idle _ _ _ Hst' Hsp' Hs')|].
  split; [rewrite Hlog', Hlog2, Hlog, <- !app_assoc; reflexivity|].
  split; [exact Hview|]. split.
  { constructor.
    - split; [exact Hpp0|]. apply Hmarked. congruence.
    - apply Forall_forall. intros c Hc. apply in_map_iff in Hc.
      destruct Hc as (e & <- & He). rewrite Forall_forall in Hpaths.
      destruct (Hpaths e He) as [H1 H2]. split; [congruence|].
      apply Hmarked. exact H1. }
  split; [congruence|]. split.
  { rewrite Hpa2', Hp2, Hp, Hpa2, Hpa1. subst p.
    replace (Z.to_nat (ppos (ctx w)) + 1)%nat
      with (S (Z.to_nat (ppos (ctx w)))) by lia.
    rewrite firstn_upd_succ by (rewrite !upd_length; lia).
    rewrite !firstn_upd_ge by lia. reflexivity. }
  split; [exact Hsp'|]. split; [exact Hst'|]. split; [exact Hs'|].
  split; [exact Hind'|]. split; [congruence|]. split; [exact Hip'|].
  unfold setup_of in *. congruence.
Qed.
End IndefiniteArrays.

Lemma indefinite_array_of_unsigned_integers_witness :
  exists w' c0 evs c2 f' rest,
    lecp_parse (answering (one_of [LECPCB_ARRAY_START; LECPCB_VAL_NUM_UINT;
                                   LECPCB_ARRAY_END]) refuse_all)
               lecp_defaults (32 * 4 + 31 :: [5; 6] ++ [255]) fresh
    = Some (0, w')
    /\ log w' = log fresh ++ (LECPCB_ARRAY_START, c0) :: evs
                          ++ [(LECPCB_ARRAY_END, c2)]
    /\ map element_view evs = numbered 0 [5; 6]
    /\ Forall (fun c => ppos c = ppos (ctx fresh) + 2
                        /\ firstn (Z.to_nat (ppos (ctx fresh)) + 3) (path c)
                           = firstn (Z.to_nat (ppos (ctx fresh)))
                                    (path (ctx fresh)) ++ [91; 93; 0])
              (c0 :: map snd evs)
    /\ ppos c2 = ppos (ctx fresh)
    /\ firstn (Z.to_nat (ppos (ctx fresh)) + 1) (path c2)
       = firstn (Z.to_nat (ppos (ctx fresh))) (path (ctx fresh)) ++ [0]
    /\ sp (ctx w') = 0 /\ st (ctx w') = f' :: rest
    /\ st_s f' = LECP_OPC /\ st_indet f' = 1
    /\ ppos (ctx w') = ppos (ctx fresh) /\ ipos (ctx w') = 0
    /\ setup_of (ctx w') = setup_of (ctx fresh).
Proof.
  assert (Hcb : cb (ctx fresh) <> 0) by discriminate.
  assert (Hbuf : buf (ctx fresh) <> []) by discriminate.
  assert (HD : 2 <= LECP_MAX_DEPTH lecp_defaults)
    by (vm_compute; discriminate).
  assert (HI : 1 < LECP_MAX_INDEX_DEPTH lecp_defaults)
    by (vm_compute; reflexivity).
  assert (HP : LECP_MAX_PATH lecp_defaults <= 256)
    by (vm_compute; discriminate).
  assert (Hp0 : 0 <= ppos (ctx fresh)) by (vm_compute; discriminate).
  assert (Hp3 : ppos (ctx fresh) + 3 < LECP_MAX_PATH lecp_defaults)
    by (vm_compute; reflexivity).
  assert (Hlen : Z.of_nat (length [5; 6]) <= 65535)
    by (vm_compute; discriminate).
  assert (Hsmall : Forall (fun m => 0 <= m < 24) [5; 6]).
  { repeat constructor; vm_compute; try discriminate; reflexivity. }
  exact (indefinite_array_of_unsigned_integers
           (one_of [LECPCB_ARRAY_START; LECPCB_VAL_NUM_UINT;
                    LECPCB_ARRAY_END]) refuse_all lecp_defaults fresh
           [5; 6] ready_fresh Hcb Hbuf eq_refl HD eq_refl HI eq_refl
           eq_refl HP Hp0 Hp3 eq_refl eq_refl eq_refl eq_refl eq_refl Hlen
           Hsmall).
Defined.

(** ** After an item of indefinite length *)

(** A context between items at the top level in which the frame at the
    bottom of the stack still has the [indet] flag of an item of indefinite
    length that is over. *)
Definition stale_indet (c : lecp_ctx) : Prop :=
  sp c = 0
  /\ exists f rest, st c = f :: rest /\ st_s f = LECP_OPC /\ st_indet f = 1.

Section StaleIndet.
Variable ok : Z -> bool.
Variable g : Z -> lecp_callback.
Variable L : lecp_limits.

Lemma collate_spill_indet w f rest ch to :
  st (ctx w) = f :: rest -> sp (ctx w) = 0 -> st_s f = LECP_COLLATE ->
  st_indet f = 1 -> cb (ctx w) <> 0 ->
  (if item_opcode (ctx w) =? LWS_CBOR_MAJTYP_BSTR
   then LECPCB_VAL_BLOB_END - LECPCB_VAL_STR_END else 0) = to ->
  to = 0 \/ to = 15 ->
  ok (LECPCB_VAL_STR_CHUNK + to) = true ->
  0 <= npos (ctx w) -> npos (ctx w) + 1 <= LECP_STRING_CHUNK L ->
  LECP_STRING_CHUNK L <= 255 ->
  Z.of_nat (length (buf (ctx w))) = LECP_STRING_CHUNK L + 1 ->
  1 <= st_collect_rem f < 18446744073709551616 ->
  npos (ctx w) + 1 = LECP_STRING_CHUNK L \/ st_collect_rem f = 1 ->
  exists w' c1,
    runs (parse_byte (answering ok g) L ch) w Next w'
    /\ log w' = log w ++ [(LECPCB_VAL_STR_CHUNK + to, c1)]
    /\ npos c1 = npos (ctx w) + 1
    /\ buf c1 = upd (upd (buf (ctx w)) (Z.to_nat (npos (ctx w))) ch)
                    (Z.to_nat (npos (ctx w) + 1)) 0
    /\ st (ctx w')
       = set_st_s LECP_OPC (set_st_collect_rem (st_collect_rem f - 1) f)
         :: rest
    /\ sp (ctx w') = 0 /\ npos (ctx w') = 0
    /\ setup_of (ctx w') = setup_of (ctx w).
Proof.
  intros Hst Hsp Hs Hind Hcb Hto Hto' Hok Hn0 Hn1 HC Hbuf Hrem Hspill.
  set (b1 := upd (upd (buf (ctx w)) (Z.to_nat (npos (ctx w))) ch)
                 (Z.to_nat (npos (ctx w) + 1)) 0).
  assert (Hnz : nonzero (st_collect_rem f) = true) by (apply nonzero_true; lia).
  assert (Hu8 : u8 (npos (ctx w) + 1) = npos (ctx w) + 1)
    by (apply u8_small; lia).
  assert (Hu64 : u64 (st_collect_rem f - 1) = st_collect_rem f - 1)
    by (apply u64_small; lia).
  assert (Hst0 : store (buf (ctx w)) (npos (ctx w)) ch
                 = Some (upd (buf (ctx w)) (Z.to_nat (npos (ctx w))) ch))
    by (apply store_in_range; lia).
  assert (Hst1 : store (upd (buf (ctx w)) (Z.to_nat (npos (ctx w))) ch)
                       (npos (ctx w) + 1) 0 = Some b1)
    by (apply store_in_range; rewrite upd_length; lia).
  assert (Hst2 : store b1 0 0 = Some (upd b1 0 0))
    by (apply store_in_range; unfold b1; rewrite !upd_length; lia).
  assert (Hcond : negb (npos (ctx w) + 1 =? LECP_STRING_CHUNK L + 1 - 1)
                  && nonzero (st_collect_rem f - 1) = false).
  { destruct Hspill as [H|H].
    - replace (LECP_STRING_CHUNK L + 1 - 1) with (LECP_STRING_CHUNK L) by lia.
      rewrite H, Z.eqb_refl. reflexivity.
    - rewrite H. apply andb_false_r. }
  assert (Hi0 : nonzero 0 = false) by reflexivity.
  assert (Hi1 : nonzero 1 = true) by reflexivity.
  assert (Hue : u8 (LECPCB_VAL_STR_END + to) = LECPCB_VAL_STR_END + to)
    by (destruct Hto' as [-> | ->]; reflexivity).
  assert (Huc : u8 (LECPCB_VAL_STR_END + to - 1) = LECPCB_VAL_STR_CHUNK + to)
    by (destruct Hto' as [-> | ->]; reflexivity).
  assert (Hne : (LECPCB_VAL_STR_CHUNK + to =? LECPCB_VAL_STR_END + to) = false)
    by (destruct Hto' as [-> | ->]; reflexivity).
  assert (Hz : exists b, nonzero (st_collect_rem f - 1) = b) by eauto.
  destruct Hz as [[|] Hz].
  - eexists. eexists. split.
    + unfold parse_byte.
      repeat (run_step; fields; rewrite ?Hsp, ?Hst; mem).
      rewrite Hs. unfold parse_collate.
      repeat (run_step; fields;
              rewrite ?Hsp, ?Hst, ?Hst0, ?Hst1, ?Hnz, ?Hu8, ?Hu64, ?Hcond,
                ?Hi0; mem).
      rewrite Hto, Hue, Huc, Hz.
      repeat (run_step; fields;
              rewrite ?Hsp, ?Hst, ?Hi0, ?Hst2, ?Hne; mem).
    + subst b1. fields. rewrite ?Hsp. repeat split; reflexivity.
  - eexists. eexists. split.
    + unfold parse_byte.
      repeat (run_step; fields; rewrite ?Hsp, ?Hst; mem).
      rewrite Hs. unfold parse_collate.
      repeat (run_step; fields;
              rewrite ?Hsp, ?Hst, ?Hst0, ?Hst1, ?Hnz, ?Hu8, ?Hu64, ?Hcond,
                ?Hi0; mem).
      rewrite Hto, Hue, Huc, Hz. unfold lwcp_is_indet_string.
      repeat (run_step; fields;
              rewrite ?Hsp, ?Hst, ?Hind, ?Hi0, ?Hi1, ?Hst2, ?Hne; mem;
              cbn [negb]).
    + subst b1. fields. rewrite ?Hsp. repeat split; reflexivity.
Qed.

Lemma collate_run_indet bs : forall w f rest to,
  st (ctx w) = f :: rest -> sp (ctx w) = 0 -> st_s f = LECP_COLLATE ->
  st_indet f = 1 -> cb (ctx w) <> 0 ->
  (if item_opcode (ctx w) =? LWS_CBOR_MAJTYP_BSTR
   then LECPCB_VAL_BLOB_END - LECPCB_VAL_STR_END else 0) = to ->
  to = 0 \/ to = 15 ->
  ok (LECPCB_VAL_STR_CHUNK + to) = true ->
  0 <= npos (ctx w) -> LECP_STRING_CHUNK L <= 255 ->
  Z.of_nat (length (buf (ctx w))) = LECP_STRING_CHUNK L + 1 ->
  bs <> [] ->
  Z.of_nat (length bs) = st_collect_rem f ->
  npos (ctx w) + Z.of_nat (length bs) <= LECP_STRING_CHUNK L ->
  exists w' c1 f',
    lecp_parse (answering ok g) L bs w = Some (0, w')
    /\ log w' = log w ++ [(LECPCB_VAL_STR_CHUNK + to, c1)]
    /\ npos c1 = npos (ctx w) + Z.of_nat (length bs)
    /\ firstn (Z.to_nat (npos c1) + 1) (buf c1)
       = firstn (Z.to_nat (npos (ctx w))) (buf (ctx w)) ++ bs ++ [0]
    /\ st (ctx w') = f' :: rest /\ st_s f' = LECP_OPC
    /\ st_indet f' = 1
    /\ sp (ctx w') = 0
    /\ setup_of (ctx w') = setup_of (ctx w).
Proof.
  induction bs as [|ch bs IH];
    intros w f rest to Hst Hsp Hs Hind Hcb Hto Hto' Hok Hn0 HC Hbuf
           Hne Hrem Hfit; [congruence|].
  destruct bs as [|ch2 bs].
  - cbn [length] in *.
    destruct (collate_spill_indet w f rest ch to) as
      (w' & c1 & Hrun & Hlog & Hnp & Hb & Hst' & Hsp' & _ & Hset);
      try assumption; try lia.
    exists w', c1, (set_st_s LECP_OPC
                      (set_st_collect_rem (st_collect_rem f - 1) f)).
    rewrite (parse_next L _ _ _ _ _ Hrun). cbn [lecp_parse].
    split; [apply (parse_end_idle _ _ _ Hst' Hsp'); reflexivity|].
    split; [exact Hlog|].
    split; [rewrite Hnp; lia|].
    split.
    { rewrite Hnp, Hb.
      replace (Z.to_nat (npos (ctx w) + 1) + 1)%nat
        with (S (Z.to_nat (npos (ctx w) + 1))) by lia.
      rewrite firstn_upd_succ by (rewrite upd_length; lia).
      replace (Z.to_nat (npos (ctx w) + 1))
        with (S (Z.to_nat (npos (ctx w)))) by lia.
      rewrite firstn_upd_succ by lia.
      rewrite <- app_assoc. reflexivity. }
    split; [exact Hst'|]. split; [reflexivity|]. split; [exact Hind|].
    split; [exact Hsp'|exact Hset].
  - remember (ch2 :: bs) as bs' eqn:Ebs.
    assert (Hlen : 1 <= Z.of_nat (length bs'))
      by (subst bs'; cbn [length]; lia).
    cbn [length] in Hrem, Hfit.
    rewrite Nat2Z.inj_succ in Hrem, Hfit.
    pose proof (collate_more ok g L w f rest ch Hst Hsp Hs Hn0) as Hrun.
    specialize (Hrun ltac:(lia) HC ltac:(lia) ltac:(lia)).
    rewrite (parse_next L _ _ _ _ _ Hrun).
    match type of Hrun with runs _ _ _ ?x => set (w1 := x) in * end.
    destruct (IH w1 (set_st_collect_rem (st_collect_rem f - 1) f) rest to)
      as (w' & c1 & f' & Hp & Hlog & Hnp & Hb & Hst' & Hs' & Hind'
          & Hsp' & Hset); subst w1; fields; rewrite ?upd_length;
      try assumption; try lia; try reflexivity;
      try (subst bs'; discriminate).
    exists w', c1, f'. split; [exact Hp|].
    revert Hlog Hnp Hb Hset. fields.
    intros Hlog Hnp Hb Hset.
    split; [exact Hlog|].
    split; [rewrite Hnp; cbn [length]; lia|].
    split.
    { rewrite Hb.
      replace (Z.to_nat (npos (ctx w) + 1))
        with (S (Z.to_nat (npos (ctx w)))) by lia.
      rewrite firstn_upd_succ by lia. rewrite <- app_assoc. reflexivity. }
    split; [exact Hst'|]. split; [exact Hs'|]. split; [exact Hind'|].
    split; [exact Hsp'|exact Hset].
Qed.

(** X18.  In a context whose bottom frame still has the [indet] flag of an
    item of indefinite length that is over, a byte or text string of [n]
    bytes whose length follows the head byte in 1, 2, 4 or 8 bytes gets no
    END: its bytes are delivered with CHUNK, as if the indefinite item were
    still open, and the feed returns 0 with the flag still set. *)
Theorem string_after_indefinite_item_gets_no_END :
  forall w major to bs k,
    stale_indet (ctx w) -> cb (ctx w) <> 0 ->
    Z.of_nat (length (buf (ctx w))) = LECP_STRING_CHUNK L + 1 ->
    LECP_STRING_CHUNK L <= 255 ->
    (major = 2 /\ to = 15) \/ (major = 3 /\ to = 0) ->
    ok (LECPCB_VAL_STR_START + to) = true ->
    ok (LECPCB_VAL_STR_CHUNK + to) = true ->
    1 <= Z.of_nat (length bs) <= LECP_STRING_CHUNK L ->
    0 <= k <= 3 -> Z.of_nat (length bs) < 2 ^ (8 * 2 ^ k) ->
    be (ctx w) = false ->
    exists w' c0 c1,
      lecp_parse (answering ok g) L
                 ((32 * major + (24 + k)
                   :: be_bytes (Z.to_nat (2 ^ k)) (Z.of_nat (length bs)))
                  ++ bs) w
      = Some (0, w')
      /\ log w' = log w ++ [(LECPCB_VAL_STR_START + to, c0);
                            (LECPCB_VAL_STR_CHUNK + to, c1)]
      /\ npos c1 = Z.of_nat (length bs)
      /\ firstn (S (length bs)) (buf c1) = bs ++ [0]
      /\ stale_indet (ctx w')
      /\ setup_of (ctx w') = setup_of (ctx w).
Proof.
  intros w major to bs k (Hsp & f & rest & Hst & Hs & Hind) Hcb Hbuf HC Hmaj
         Hoks Hokc Hlen Hk Hfit Hbe.
  assert (Hne : buf (ctx w) <> [])
    by (apply (nonempty_by_length _ _ Hbuf); lia).
  assert (Hto' : to = 0 \/ to = 15) by (destruct Hmaj as [[_ ->]|[_ ->]]; auto).
  assert (Hto : forall c, item_opcode c = 32 * major ->
                  (if item_opcode c =? LWS_CBOR_MAJTYP_BSTR
                   then LECPCB_VAL_BLOB_END - LECPCB_VAL_STR_END else 0) = to).
  { intros c ->. destruct Hmaj as [[-> ->]|[-> ->]]; reflexivity. }
  destruct (string_head_arg ok g L w f rest major to k)
    as (w1 & c0 & f1 & Hrun & Hlog & Hst1 & Hs1 & Hind1 & Hop1 & Hrem1
        & Htgt1 & Hitem1 & Hsp1 & Hio1 & Hbe1 & Hbl1 & Hset1);
    try assumption.
  assert (Hm : Z.of_nat (Z.to_nat (2 ^ k)) = 2 ^ k)
    by (apply Z2Nat.id; apply Z.pow_nonneg; lia).
  assert (Hm8 : 1 <= 2 ^ k <= 8).
  { assert (Hk4 : k = 0 \/ k = 1 \/ k = 2 \/ k = 3) by lia.
    destruct Hk4 as [-> | [-> | [-> | ->]]]; cbn; lia. }
  assert (Hstr1 : is_string_opcode (st_opcode f1) = true)
    by (rewrite Hop1; destruct Hmaj as [[-> _]|[-> _]]; reflexivity).
  assert (Hne1 : buf (ctx w1) <> [])
    by (rewrite <- Hbl1 in Hbuf; apply (nonempty_by_length _ _ Hbuf); lia).
  assert (Hbe_ne : be_bytes (Z.to_nat (2 ^ k)) (Z.of_nat (length bs)) <> []).
  { intros E. apply (f_equal (@length Z)) in E.
    rewrite length_be_bytes in E. cbn in E. lia. }
  destruct (collect_run ok g L
              (be_bytes (Z.to_nat (2 ^ k)) (Z.of_nat (length bs)))
              w1 f1 rest Hst1 Hsp1 Hs1 Hstr1 Hne1 Hbe1 Hbe_ne)
    as (w2 & f2 & Hf & Hlog2 & Hst2 & Hs2 & Hrem2 & Hind2 & Hnp2 & Hsp2
        & Hio2 & Hbl2 & Hset2);
    rewrite ?length_be_bytes, ?Hm; try lia.
  rewrite Htgt1, Hitem1 in Hrem2.
  replace (2 ^ k - 1) with (Z.of_nat (Z.to_nat (2 ^ k)) - 1) in Hrem2 by lia.
  rewrite collected_argument in Hrem2 by (rewrite Hm; lia).
  pose proof (feeds_cons _ _ _ _ _ _ _ Hrun Hf bs) as Hfeed.
  cbn [app] in Hfeed |- *. rewrite Hfeed.
  assert (Hcb2 : cb (ctx w2) <> 0)
    by (unfold setup_of in Hset1, Hset2; congruence).
  assert (Hbuf2 : Z.of_nat (length (buf (ctx w2))) = LECP_STRING_CHUNK L + 1)
    by congruence.
  assert (Hio : item_opcode (ctx w2) = 32 * major) by congruence.
  assert (Hind0 : st_indet f2 = 1) by congruence.
  assert (Hbs : bs <> []) by (intros E; rewrite E in Hlen; cbn in Hlen; lia).
  destruct (collate_run_indet bs w2 f2 rest to Hst2 Hsp2 Hs2 Hind0 Hcb2
              (Hto _ Hio) Hto' Hokc ltac:(lia) HC Hbuf2 Hbs
              ltac:(congruence) ltac:(lia))
    as (w' & c1 & f' & Hp & Hlog' & Hnp' & Hb & Hst' & Hs' & Hind'
        & Hsp' & Hset).
  rewrite Hnp2 in Hnp', Hb.
  exists w', c0, c1. split; [exact Hp|].
  split; [rewrite Hlog', Hlog2, Hlog, <- app_assoc; reflexivity|].
  split; [lia|]. split.
  { rewrite Hnp' in Hb. cbn [Z.to_nat firstn app] in Hb.
    replace (S (length bs)) with (Z.to_nat (0 + Z.of_nat (length bs)) + 1)%nat
      by lia.
    exact Hb. }
  split.
  { split; [exact Hsp'|]. exists f', rest. auto. }
  unfold setup_of in *. congruence.
Qed.
End StaleIndet.

(** The context after the empty array of indefinite length [9F FF]. *)
Definition after_indefinite : world :=
  Eval vm_compute in
    match lecp_parse accept_all lecp_defaults [159; 255] fresh with
    | Some (_, w) => w
    | None => fresh
    end.

Lemma stale_indet_after_indefinite : stale_indet (ctx after_indefinite).
Proof.
  split; [reflexivity|]. eexists. eexists.
  split; [reflexivity|]. split; reflexivity.
Defined.

Lemma string_after_indefinite_item_gets_no_END_witness :
  exists w' c0 c1,
    lecp_parse (answering (one_of [LECPCB_VAL_STR_START;
                                   LECPCB_VAL_STR_CHUNK]) refuse_all)
               lecp_defaults
               ((32 * 3 + (24 + 0)
                 :: be_bytes (Z.to_nat (2 ^ 0)) (Z.of_nat (length [104; 105])))
                ++ [104; 105]) after_indefinite
    = Some (0, w')
    /\ log w' = log after_indefinite
                 ++ [(LECPCB_VAL_STR_START + 0, c0);
                     (LECPCB_VAL_STR_CHUNK + 0, c1)]
    /\ npos c1 = Z.of_nat (length [104; 105])
    /\ firstn (S (length [104; 105])) (buf c1) = [104; 105] ++ [0]
    /\ stale_indet (ctx w')
    /\ setup_of (ctx w') = setup_of (ctx after_indefinite).
Proof.
  assert (Hcb : cb (ctx after_indefinite) <> 0) by discriminate.
  assert (HC : LECP_STRING_CHUNK lecp_defaults <= 255)
    by (vm_compute; discriminate).
  assert (Hmaj : (3 = 2 /\ 0 = 15) \/ (3 = 3 /\ 0 = 0))
    by (right; split; reflexivity).
  assert (Hlen : 1 <= Z.of_nat (length [104; 105])
                 <= LECP_STRING_CHUNK lecp_defaults)
    by (split; vm_compute; discriminate).
  assert (Hk : 0 <= 0 <= 3) by lia.
  assert (Hfit : Z.of_nat (length [104; 105]) < 2 ^ (8 * 2 ^ 0))
    by (vm_compute; reflexivity).
  exact (string_after_indefinite_item_gets_no_END
           (one_of [LECPCB_VAL_STR_START; LECPCB_VAL_STR_CHUNK]) refuse_all
           lecp_defaults after_indefinite 3 0 [104; 105] 0
           stale_indet_after_indefinite Hcb eq_refl HC Hmaj eq_refl eq_refl
           Hlen Hk Hfit eq_refl).
Defined.

(** ** Strings of indefinite length *)

Section IndefiniteStringSteps.
Variable ok : Z -> bool.
Variable g : Z -> lecp_callback.
Variable L : lecp_limits.

(** The head byte [0x5F] or [0x7F] at the top level: START is delivered
    and a frame in [LECP_ONLY_SAME] is pushed for the chunks. *)
Lemma indefinite_string_head w f f' rest major to :
  st (ctx w) = f :: f' :: rest -> sp (ctx w) = 0 -> st_s f = LECP_OPC ->
  cb (ctx w) <> 0 -> buf (ctx w) <> [] ->
  LECP_MAX_DEPTH L <> 1 ->
  (major = 2 /\ to = 15) \/ (major = 3 /\ to = 0) ->
  ok (LECPCB_VAL_STR_START + to) = true ->
  exists w1 c0 f0 f1,
    runs (parse_byte (answering ok g) L (32 * major + 31)) w Next w1
    /\ log w1 = log w ++ [(LECPCB_VAL_STR_START + to, c0)]
    /\ st (ctx w1) = f0 :: f1 :: rest
    /\ st_s f1 = LECP_ONLY_SAME /\ st_opcode f1 = 32 * major
    /\ st_opcode f0 = 32 * major /\ st_indet f0 = 1
    /\ st_pop_iss f0 = LECPCB_VAL_STR_END + to /\ st_p f0 = ppos (ctx w)
    /\ sp (ctx w1) = 1 /\ npos (ctx w1) = 0
    /\ firstn 1 (buf (ctx w1)) = [0]
    /\ item_opcode (ctx w1) = 32 * major
    /\ path (ctx w1) = path (ctx w) /\ ppos (ctx w1) = ppos (ctx w)
    /\ path_match (ctx w1) = path_match (ctx w)
    /\ length (buf (ctx w1)) = length (buf (ctx w))
    /\ setup_of (ctx w1) = setup_of (ctx w).
Proof.
  intros Hst Hsp Hs Hcb Hbuf HD Hmaj Hok.
  assert (Hf1 : firstn 1 (upd (buf (ctx w)) 0 0) = [0]).
  { destruct (buf (ctx w)); [congruence|reflexivity]. }
  destruct (head_byte major 31) as [Hop Hsm]; [lia|lia|].
  assert (Hst0 : store (buf (ctx w)) 0 0 = Some (upd (buf (ctx w)) 0 0)).
  { apply store_in_range. destruct (buf (ctx w)); [congruence|cbn; lia]. }
  assert (Hi0 : nonzero 0 = false) by reflexivity.
  assert (Hdepth : (0 + 1 =? LECP_MAX_DEPTH L) = false)
    by (apply Z.eqb_neq; lia).
  destruct Hmaj as [[-> ->]|[-> ->]].
  all: eexists; eexists; eexists; eexists; split;
    [ unfold parse_byte;
      repeat (run_step; fields; rewrite ?Hsp, ?Hst; mem);
      rewrite Hs; unfold parse_opc; rewrite Hop, Hsm;
      repeat (run_step; fields; rewrite ?Hsp, ?Hst; mem);
      cbn [Z.eqb Z.mul Pos.mul Pos.eqb LWS_CBOR_MAJTYP_UINT
           LWS_CBOR_MAJTYP_INT_NEG LWS_CBOR_MAJTYP_BSTR LWS_CBOR_MAJTYP_TSTR];
      unfold opc_string;
      repeat (run_step; fields;
              rewrite ?Hsp, ?Hst, ?Hst0, ?Hi0; mem; cbn [negb]);
      unfold lecp_push;
      repeat (run_step; fields;
              rewrite ?Hsp, ?Hst, ?Hdepth, ?Hi0; mem; cbn [negb])
    | fields; rewrite ?upd_length, ?Hsp, ?Hf1; repeat split; reflexivity ].
Qed.

(** The head byte of the first chunk, of [n] bytes. *)
Lemma first_chunk_head w f0 f1 rest major n :
  st (ctx w) = f0 :: f1 :: rest -> sp (ctx w) = 1 ->
  st_s f1 = LECP_ONLY_SAME -> st_opcode f1 = st_opcode f0 ->
  0 <= major <= 6 -> 1 <= n < 24 ->
  runs (parse_byte (answering ok g) L (32 * major + n)) w Next
       {| ctx := set_st (f0 :: set_st_s LECP_COLLATE
                                 (set_st_collect_rem n (set_st_indet 0 f1))
                            :: rest) (ctx w);
          log := log w |}.
Proof.
  intros Hst Hsp Hs Hop HM Hn.
  destruct (head_byte major n) as [_ Hsm]; [lia|lia|].
  assert (Hnb : (32 * major + n =? Z.lor LWS_CBOR_MAJTYP_FLOAT LWS_CBOR_M7_BREAK)
                = false).
  { apply Z.eqb_neq. change (Z.lor LWS_CBOR_MAJTYP_FLOAT LWS_CBOR_M7_BREAK)
      with 255. lia. }
  assert (Hni : (n =? LWS_CBOR_INDETERMINITE) = false)
    by (apply Z.eqb_neq; unfold LWS_CBOR_INDETERMINITE; lia).
  assert (Hlt : (n <? LWS_CBOR_1) = true)
    by (apply Z.ltb_lt; unfold LWS_CBOR_1; lia).
  assert (Hi1 : nonzero 1 = true) by reflexivity.
  unfold parse_byte.
  repeat (run_step; fields; rewrite ?Hsp, ?Hst; mem).
  rewrite Hs. unfold parse_only_same.
  repeat (run_step; fields;
          rewrite ?Hsp, ?Hst, ?Hi1, ?Hnb, ?Hop, ?Hsm, ?Hni, ?Hlt,
            ?Z.eqb_refl;
          change (1 - 1) with 0; mem; cbn [negb]).
Qed.

(** The head byte of a later chunk: the frame is in [LECP_OPC], and no
    START is delivered, the string being known to be under way. *)
Lemma later_chunk_head w f0 f1 rest major to n :
  st (ctx w) = f0 :: f1 :: rest -> sp (ctx w) = 1 -> st_s f1 = LECP_OPC ->
  st_intermediate f0 = 1 -> buf (ctx w) <> [] ->
  (major = 2 /\ to = 15) \/ (major = 3 /\ to = 0) -> 1 <= n < 24 ->
  exists w1 f1',
    runs (parse_byte (answering ok g) L (32 * major + n)) w Next w1
    /\ log w1 = log w
    /\ st (ctx w1) = f0 :: f1' :: rest
    /\ st_s f1' = LECP_COLLATE /\ st_collect_rem f1' = n
    /\ st_indet f1' = 0
    /\ sp (ctx w1) = 1 /\ npos (ctx w1) = 0
    /\ item_opcode (ctx w1) = 32 * major
    /\ path (ctx w1) = path (ctx w) /\ ppos (ctx w1) = ppos (ctx w)
    /\ path_match (ctx w1) = path_match (ctx w)
    /\ length (buf (ctx w1)) = length (buf (ctx w))
    /\ setup_of (ctx w1) = setup_of (ctx w).
Proof.
  intros Hst Hsp Hs Hint Hbuf Hmaj Hn.
  destruct (head_byte major n) as [Hop Hsm]; [lia|lia|].
  assert (Hst0 : store (buf (ctx w)) 0 0 = Some (upd (buf (ctx w)) 0 0)).
  { apply store_in_range. destruct (buf (ctx w)); [congruence|cbn; lia]. }
  assert (Hnz : nonzero n = true) by (apply nonzero_true; lia).
  assert (Hlt : (n <? LWS_CBOR_1) = true)
    by (apply Z.ltb_lt; unfold LWS_CBOR_1; lia).
  assert (Hi0 : nonzero 0 = false) by reflexivity.
  assert (Hi1 : nonzero 1 = true) by reflexivity.
  destruct Hmaj as [[-> ->]|[-> ->]].
  all: eexists; eexists; split;
    [ unfold parse_byte;
      repeat (run_step; fields; rewrite ?Hsp, ?Hst; mem);
      rewrite Hs; unfold parse_opc; rewrite Hop, Hsm;
      repeat (run_step; fields; rewrite ?Hsp, ?Hst; mem);
      cbn [Z.eqb Z.mul Pos.mul Pos.eqb LWS_CBOR_MAJTYP_UINT
           LWS_CBOR_MAJTYP_INT_NEG LWS_CBOR_MAJTYP_BSTR LWS_CBOR_MAJTYP_TSTR];
      unfold opc_string;
      repeat (run_step; fields;
              rewrite ?Hsp, ?Hst, ?Hst0, ?Hi0, ?Hi1, ?Hint, ?Hnz, ?Hlt;
              change (1 - 1) with 0; mem; cbn [negb])
    | fields; rewrite ?upd_length, ?Hsp; repeat split; reflexivity ].
Qed.

(** The last byte of a chunk: the chunk is delivered with CHUNK, and the
    frame goes to [LECP_OPC]. *)
Lemma chunk_last w f0 f1 rest ch major to :
  st (ctx w) = f0 :: f1 :: rest -> sp (ctx w) = 1 ->
  st_s f1 = LECP_COLLATE -> st_indet f1 = 0 -> st_collect_rem f1 = 1 ->
  st_opcode f0 = 32 * major -> st_indet f0 = 1 ->
  item_opcode (ctx w) = 32 * major ->
  (major = 2 /\ to = 15) \/ (major = 3 /\ to = 0) ->
  cb (ctx w) <> 0 -> ok (LECPCB_VAL_STR_CHUNK + to) = true ->
  0 <= npos (ctx w) -> npos (ctx w) + 1 <= LECP_STRING_CHUNK L ->
  LECP_STRING_CHUNK L <= 255 ->
  Z.of_nat (length (buf (ctx w))) = LECP_STRING_CHUNK L + 1 ->
  exists w1 c1 f0' f1',
    runs (parse_byte (answering ok g) L ch) w Next w1
    /\ log w1 = log w ++ [(LECPCB_VAL_STR_CHUNK + to, c1)]
    /\ npos c1 = npos (ctx w) + 1
    /\ buf c1 = upd (upd (buf (ctx w)) (Z.to_nat (npos (ctx w))) ch)
                    (Z.to_nat (npos (ctx w) + 1)) 0
    /\ st (ctx w1) = f0' :: f1' :: rest
    /\ st_s f1' = LECP_OPC
    /\ st_opcode f0' = 32 * major /\ st_indet f0' = 1
    /\ st_intermediate f0' = 1
    /\ st_pop_iss f0' = st_pop_iss f0 /\ st_p f0' = st_p f0
    /\ sp (ctx w1) = 1 /\ npos (ctx w1) = 0
    /\ firstn 1 (buf (ctx w1)) = [0]
    /\ item_opcode (ctx w1) = 32 * major
    /\ path (ctx w1) = path (ctx w) /\ ppos (ctx w1) = ppos (ctx w)
    /\ path_match (ctx w1) = path_match (ctx w)
    /\ length (buf (ctx w1)) = length (buf (ctx w))
    /\ setup_of (ctx w1) = setup_of (ctx w).
Proof.
  intros Hst Hsp Hs Hind Hrem Hop0 Hind0 Hio Hmaj Hcb Hok Hn0 Hn1 HC Hbuf.
  set (b1 := upd (upd (buf (ctx w)) (Z.to_nat (npos (ctx w))) ch)
                 (Z.to_nat (npos (ctx w) + 1)) 0).
  assert (Hnz : nonzero (st_collect_rem f1) = true)
    by (apply nonzero_true; lia).
  assert (Hu8 : u8 (npos (ctx w) + 1) = npos (ctx w) + 1)
    by (apply u8_small; lia).
  assert (Hu64 : u64 (st_collect_rem f1 - 1) = 0)
    by (rewrite Hrem; reflexivity).
  assert (Hst0 : store (buf (ctx w)) (npos (ctx w)) ch
                 = Some (upd (buf (ctx w)) (Z.to_nat (npos (ctx w))) ch))
    by (apply store_in_range; lia).
  assert (Hst1 : store (upd (buf (ctx w)) (Z.to_nat (npos (ctx w))) ch)
                       (npos (ctx w) + 1) 0 = Some b1)
    by (apply store_in_range; rewrite upd_length; lia).
  assert (Hst2 : store b1 0 0 = Some (upd b1 0 0))
    by (apply store_in_range; unfold b1; rewrite !upd_length; lia).
  assert (Hf1 : firstn 1 (upd b1 0 0) = [0])
    by (apply (firstn_upd_succ b1 0 0); unfold b1; rewrite !upd_length; lia).
  assert (Hi0 : nonzero 0 = false) by reflexivity.
  assert (Hi1 : nonzero 1 = true) by reflexivity.
  destruct Hmaj as [[-> ->]|[-> ->]].
  all: eexists; eexists; eexists; eexists; split;
    [ unfold parse_byte;
      repeat (run_step; fields; rewrite ?Hsp, ?Hst; mem);
      rewrite Hs; unfold parse_collate;
      repeat (run_step; fields;
              rewrite ?Hsp, ?Hst, ?Hst0, ?Hst1, ?Hnz, ?Hu8, ?Hu64, ?Hi0,
                ?Hi1, ?Hop0, ?Hio, ?andb_false_r;
              change (1 - 1) with 0; mem;
              cbn [negb andb Z.eqb Z.mul Pos.mul Pos.eqb
                   LWS_CBOR_MAJTYP_MAP LWS_CBOR_MAJTYP_BSTR]);
      unfold lwcp_is_indet_string;
      repeat (run_step; fields;
              rewrite ?Hsp, ?Hst, ?Hind, ?Hind0, ?Hi0, ?Hi1, ?Hop0, ?Hst2;
              change (1 - 1) with 0; mem; cbn [negb])
    | fields; split; [reflexivity|];
      repeat split; fields; rewrite ?Hf1; unfold b1; rewrite ?upd_length;
      first [reflexivity | rewrite ?Hsp, ?Hop0, ?Hind0, ?Hio; reflexivity] ].
Qed.
End IndefiniteStringSteps.

Section IndefiniteStringEnd.
Variable ok : Z -> bool.
Variable g : Z -> lecp_callback.
Variable L : lecp_limits.

(** The BREAK behind the chunks of a string of indefinite length: the
    frame of the string is popped and END is delivered with nothing in
    [buf]; the [indet] flag of the frame stays. *)
Lemma break_closes_string w f0 f1 rest to :
  st (ctx w) = f0 :: f1 :: rest -> sp (ctx w) = 1 ->
  st_s f1 = LECP_OPC \/ st_s f1 = LECP_ONLY_SAME ->
  st_indet f0 = 1 -> is_string_opcode (st_opcode f0) = true ->
  st_pop_iss f0 = LECPCB_VAL_STR_END + to -> to = 0 \/ to = 15 ->
  0 <= st_p f0 < Z.of_nat (length (path (ctx w))) ->
  path_match (ctx w) = 0 -> count_paths (ctx w) = 0 ->
  cb (ctx w) <> 0 -> ok (LECPCB_VAL_STR_END + to) = true ->
  exists w1 c2 f0' f1',
    runs (parse_byte (answering ok g) L 255) w Next w1
    /\ log w1 = log w ++ [(LECPCB_VAL_STR_END + to, c2)]
    /\ npos c2 = npos (ctx w) /\ buf c2 = buf (ctx w)
    /\ st (ctx w1) = f0' :: f1' :: rest
    /\ st_s f0' = LECP_OPC /\ st_indet f0' = 1
    /\ sp (ctx w1) = 0
    /\ setup_of (ctx w1) = setup_of (ctx w).
Proof.
  intros Hst Hsp Hs1 Hind0 Hstr Hpop Hto Hp Hpm Hcp Hcb Hoke.
  assert (Hi0 : nonzero 0 = false) by reflexivity.
  assert (Hi1 : nonzero 1 = true) by reflexivity.
  assert (Hpp : store (path (ctx w)) (st_p f0) 0
                = Some (upd (path (ctx w)) (Z.to_nat (st_p f0)) 0))
    by (apply store_in_range; exact Hp).
  assert (Hna : (st_opcode f0 =? LWS_CBOR_MAJTYP_ARRAY) = false).
  { unfold is_string_opcode in Hstr. apply orb_prop in Hstr.
    destruct Hstr as [H|H]; apply Z.eqb_eq in H; rewrite H; reflexivity. }
  assert (Hne : (LECPCB_VAL_STR_END + to =? LECPCB_ARRAY_END) = false)
    by (destruct Hto as [-> | ->]; reflexivity).
  assert (Hnz : nonzero (LECPCB_VAL_STR_END + to) = true)
    by (destruct Hto as [-> | ->]; reflexivity).
  destruct Hs1 as [Hs1 | Hs1].
  - eexists. eexists. eexists. eexists. split.
    + unfold parse_byte.
      repeat (run_step; fields; rewrite ?Hsp, ?Hst; mem).
      rewrite Hs1. unfold parse_opc.
      repeat (run_step; fields; rewrite ?Hsp, ?Hst; mem).
      unfold opc_float.
      repeat (run_step; fields;
              rewrite ?Hsp, ?Hst, ?Hi1, ?Hi0, ?Hind0;
              change (1 - 1) with 0; mem; cbn [negb andb]).
      unfold lwcp_completed.
      repeat (run_step; fields; rewrite ?Hsp, ?Hst; mem).
      change (Z.to_nat 1) with 1%nat. cbn [completed_walk].
      repeat (run_step; fields;
              rewrite ?Hsp, ?Hst, ?Hi1, ?Hi0, ?Hna, ?Hind0;
              change (1 - 1) with 0; change (u8 0) with 0; mem;
              cbn [negb andb]).
      unfold lecp_pop.
      repeat (first [run_step | run_check]; fields;
              rewrite ?Hsp, ?Hst, ?Hi1, ?Hi0, ?Hpop, ?Hne, ?Hnz, ?Hpp;
              change (1 - 1) with 0; change (u8 0) with 0; mem;
              cbn [negb andb]).
    + fields. split; [reflexivity|].
      repeat split; fields;
        first [reflexivity | rewrite ?Hsp, ?Hind0; reflexivity].
  - eexists. eexists. eexists. eexists. split.
    + unfold parse_byte.
      repeat (run_step; fields; rewrite ?Hsp, ?Hst; mem).
      rewrite Hs1. unfold parse_only_same.
      repeat (run_step; fields;
              rewrite ?Hsp, ?Hst, ?Hi1, ?Hi0, ?Hind0;
              change (1 - 1) with 0; mem; cbn [negb andb]).
      unfold lwcp_completed.
      repeat (run_step; fields; rewrite ?Hsp, ?Hst; mem).
      change (Z.to_nat 1) with 1%nat. cbn [completed_walk].
      repeat (run_step; fields;
              rewrite ?Hsp, ?Hst, ?Hi1, ?Hi0, ?Hna, ?Hind0;
              change (1 - 1) with 0; change (u8 0) with 0; mem;
              cbn [negb andb]).
      unfold lecp_pop.
      repeat (first [run_step | run_check]; fields;
              rewrite ?Hsp, ?Hst, ?Hi1, ?Hi0, ?Hpop, ?Hne, ?Hnz, ?Hpp;
              change (1 - 1) with 0; change (u8 0) with 0; mem;
              cbn [negb andb]).
    + fields. split; [reflexivity|].
      repeat split; fields;
        first [reflexivity | rewrite ?Hsp, ?Hind0; reflexivity].
Qed.

(** The bytes of a chunk, behind those that [buf] holds of it. *)
Lemma chunk_run bs : forall w f0 f1 rest major to,
  st (ctx w) = f0 :: f1 :: rest -> sp (ctx w) = 1 ->
  st_s f1 = LECP_COLLATE -> st_indet f1 = 0 ->
  st_collect_rem f1 = Z.of_nat (length bs) -> bs <> [] ->
  st_opcode f0 = 32 * major -> st_indet f0 = 1 ->
  item_opcode (ctx w) = 32 * major ->
  (major = 2 /\ to = 15) \/ (major = 3 /\ to = 0) ->
  cb (ctx w) <> 0 -> ok (LECPCB_VAL_STR_CHUNK + to) = true ->
  0 <= npos (ctx w) ->
  npos (ctx w) + Z.of_nat (length bs) <= LECP_STRING_CHUNK L ->
  LECP_STRING_CHUNK L <= 255 ->
  Z.of_nat (length (buf (ctx w))) = LECP_STRING_CHUNK L + 1 ->
  exists w1 c1 f0' f1',
    feeds (answering ok g) L bs w w1
    /\ log w1 = log w ++ [(LECPCB_VAL_STR_CHUNK + to, c1)]
    /\ npos c1 = npos (ctx w) + Z.of_nat (length bs)
    /\ firstn (Z.to_nat (npos c1) + 1) (buf c1)
       = firstn (Z.to_nat (npos (ctx w))) (buf (ctx w)) ++ bs ++ [0]
    /\ st (ctx w1) = f0' :: f1' :: rest
    /\ st_s f1' = LECP_OPC
    /\ st_opcode f0' = 32 * major /\ st_indet f0' = 1
    /\ st_intermediate f0' = 1
    /\ st_pop_iss f0' = st_pop_iss f0 /\ st_p f0' = st_p f0
    /\ sp (ctx w1) = 1 /\ npos (ctx w1) = 0
    /\ firstn 1 (buf (ctx w1)) = [0]
    /\ item_opcode (ctx w1) = 32 * major
    /\ path (ctx w1) = path (ctx w) /\ ppos (ctx w1) = ppos (ctx w)
    /\ path_match (ctx w1) = path_match (ctx w)
    /\ length (buf (ctx w1)) = length (buf (ctx w))
    /\ setup_of (ctx w1) = setup_of (ctx w).
Proof.
  induction bs as [|ch bs IH];
    intros w f0 f1 rest major to Hst Hsp Hs Hind Hrem Hne Hop0 Hind0 Hio
           Hmaj Hcb Hok Hn0 Hn1 HC Hbuf; [congruence|].
  destruct bs as [|ch2 bs].
  - cbn [length] in *.
    destruct (chunk_last ok g L w f0 f1 rest ch major to Hst Hsp Hs Hind Hrem
                Hop0 Hind0 Hio Hmaj Hcb Hok Hn0 ltac:(lia) HC Hbuf)
      as (w1 & c1 & f0' & f1' & Hrun & Hlog & Hnp & Hb & Hrest).
    exists w1, c1, f0', f1'.
    split; [apply (feeds_cons _ _ _ _ _ _ _ Hrun), feeds_nil|].
    split; [exact Hlog|]. split; [rewrite Hnp; lia|].
    split; [|exact Hrest].
    rewrite Hnp, Hb.
    replace (Z.to_nat (npos (ctx w) + 1) + 1)%nat
      with (S (Z.to_nat (npos (ctx w) + 1))) by lia.
    rewrite firstn_upd_succ by (rewrite upd_length; lia).
    replace (Z.to_nat (npos (ctx w) + 1))
      with (S (Z.to_nat (npos (ctx w)))) by lia.
    rewrite firstn_upd_succ by lia.
    rewrite <- app_assoc. reflexivity.
  - remember (ch2 :: bs) as bs' eqn:Ebs.
    assert (Hlen : 1 <= Z.of_nat (length bs'))
      by (subst bs'; cbn [length]; lia).
    cbn [length] in Hrem, Hn1. rewrite Nat2Z.inj_succ in Hrem, Hn1.
    pose proof (key_more ok g L w f0 f1 rest ch Hst Hsp Hs Hn0) as Hrun.
    specialize (Hrun ltac:(lia) HC ltac:(lia) ltac:(lia)).
    match type of Hrun with runs _ _ _ ?x => set (w1 := x) in * end.
    destruct (IH w1 f0 (set_st_collect_rem (st_collect_rem f1 - 1) f1)
                 rest major to)
      as (w' & c1 & f0' & f1' & Hfeed & Hlog & Hnp & Hb & Hrest);
      subst w1; fields; rewrite ?upd_length;
      try assumption; try lia; try reflexivity;
      try (subst bs'; discriminate).
    exists w', c1, f0', f1'.
    split; [apply (feeds_cons _ _ _ _ _ _ _ Hrun Hfeed)|].
    revert Hlog Hnp Hb Hrest. fields. rewrite ?upd_length.
    intros Hlog Hnp Hb Hrest.
    assert (Hfn : firstn (Z.to_nat (npos (ctx w) + 1))
                         (upd (buf (ctx w)) (Z.to_nat (npos (ctx w))) ch)
                  = firstn (Z.to_nat (npos (ctx w))) (buf (ctx w)) ++ [ch]).
    { replace (Z.to_nat (npos (ctx w) + 1))
        with (S (Z.to_nat (npos (ctx w)))) by lia.
      apply firstn_upd_succ. lia. }
    rewrite Hfn in Hb.
    split; [exact Hlog|].
    split; [rewrite Hnp; cbn [length]; lia|].
    split; [rewrite Hb, <- app_assoc; reflexivity|].
    exact Hrest.
Qed.
End IndefiniteStringEnd.

(** The bytes of the chunks [cs] of a string of major type [major], each
    chunk with its length in its head byte. *)
Definition encode_chunks (major : Z) (cs : list (list Z)) : list Z :=
  flat_map (fun c => (32 * major + Z.of_nat (length c)) :: c) cs.

(** What the callback reads of a chunk: the reason and the string in
    [buf]. *)
Definition chunk_view (e : event) : Z * list Z :=
  (fst e, buf_string (snd e)).

Section IndefiniteStrings.
Variable ok : Z -> bool.
Variable g : Z -> lecp_callback.
Variable L : lecp_limits.

Lemma later_chunks_fed cs : forall w f0 f1 rest major to,
  st (ctx w) = f0 :: f1 :: rest -> sp (ctx w) = 1 -> st_s f1 = LECP_OPC ->
  st_opcode f0 = 32 * major -> st_indet f0 = 1 -> st_intermediate f0 = 1 ->
  (major = 2 /\ to = 15) \/ (major = 3 /\ to = 0) ->
  cb (ctx w) <> 0 -> ok (LECPCB_VAL_STR_CHUNK + to) = true ->
  npos (ctx w) = 0 -> firstn 1 (buf (ctx w)) = [0] ->
  LECP_STRING_CHUNK L <= 255 ->
  Z.of_nat (length (buf (ctx w))) = LECP_STRING_CHUNK L + 1 ->
  Forall (fun c => 1 <= Z.of_nat (length c) < 24
                   /\ Z.of_nat (length c) <= LECP_STRING_CHUNK L) cs ->
  exists w' evs f0' f1',
    feeds (answering ok g) L (encode_chunks major cs) w w'
    /\ log w' = log w ++ evs
    /\ map chunk_view evs
       = map (fun c => (LECPCB_VAL_STR_CHUNK + to, c ++ [0])) cs
    /\ st (ctx w') = f0' :: f1' :: rest
    /\ st_s f1' = LECP_OPC
    /\ st_opcode f0' = 32 * major /\ st_indet f0' = 1
    /\ st_pop_iss f0' = st_pop_iss f0 /\ st_p f0' = st_p f0
    /\ sp (ctx w') = 1 /\ npos (ctx w') = 0
    /\ firstn 1 (buf (ctx w')) = [0]
    /\ path (ctx w') = path (ctx w) /\ ppos (ctx w') = ppos (ctx w)
    /\ path_match (ctx w') = path_match (ctx w)
    /\ setup_of (ctx w') = setup_of (ctx w).
Proof.
  induction cs as [|c cs IH];
    intros w f0 f1 rest major to Hst Hsp Hs Hop0 Hind0 Hint0 Hmaj Hcb Hok
           Hnp Hb0 HC Hbuf Hcs.
  - exists w, [], f0, f1. split; [apply feeds_nil|].
    split; [rewrite app_nil_r; reflexivity|]. split; [reflexivity|].
    repeat (split; [assumption || reflexivity|]). reflexivity.
  - pose proof (Forall_inv Hcs) as (Hc24 & HcC).
    pose proof (Forall_inv_tail Hcs) as Hcs'.
    assert (Hne : buf (ctx w) <> [])
      by (apply (nonempty_by_length _ _ Hbuf); lia).
    destruct (later_chunk_head ok g L w f0 f1 rest major to
                (Z.of_nat (length c)) Hst Hsp Hs Hint0 Hne Hmaj Hc24)
      as (w1 & f1a & Hrun & Hlog1 & Hst1 & Hs1 & Hrem1 & Hind1 & Hsp1 & Hnp1
          & Hio1 & Hpa1 & Hpp1 & Hpm1 & Hbl1 & Hset1).
    assert (Hcb1 : cb (ctx w1) <> 0)
      by (unfold setup_of in Hset1; congruence).
    assert (Hcne : c <> [])
      by (intros E; rewrite E in Hc24; cbn in Hc24; lia).
    destruct (chunk_run ok g L c w1 f0 f1a rest major to Hst1 Hsp1 Hs1 Hind1
                Hrem1 Hcne Hop0 Hind0 Hio1 Hmaj Hcb1 Hok ltac:(lia)
                ltac:(lia) HC ltac:(congruence))
      as (w2 & c1 & f0b & f1b & Hfeed & Hlog2 & Hnp2 & Hb2 & Hst2 & Hs2
          & Hop2 & Hind2 & Hint2 & Hpop2 & Hp2 & Hsp2 & Hnpw2 & Hf2 & Hio2
          & Hpa2 & Hpp2 & Hpm2 & Hbl2 & Hset2).
    assert (Hcb2 : cb (ctx w2) <> 0)
      by (unfold setup_of in Hset2; congruence).
    destruct (IH w2 f0b f1b rest major to Hst2 Hsp2 Hs2 Hop2 Hind2 Hint2 Hmaj
                Hcb2 Hok Hnpw2 Hf2 HC ltac:(congruence) Hcs')
      as (w' & evs & f0' & f1' & Hfeed' & Hlog' & Hview & Hst' & Hs' & Hop'
          & Hind' & Hpop' & Hp' & Hsp' & Hnp' & Hf' & Hpa' & Hpp' & Hpm'
          & Hset').
    exists w', ((LECPCB_VAL_STR_CHUNK + to, c1) :: evs), f0', f1'.
    split.
    { cbn [encode_chunks flat_map].
      change (flat_map _ cs) with (encode_chunks major cs).
      change ((32 * major + Z.of_nat (length c) :: c) ++ encode_chunks major cs)
        with ((32 * major + Z.of_nat (length c))
              :: (c ++ encode_chunks major cs)).
      apply (feeds_cons _ _ _ _ _ _ _ Hrun).
      apply (feeds_app _ _ _ _ _ _ _ Hfeed Hfeed'). }
    split; [rewrite Hlog', Hlog2, Hlog1, <- app_assoc; reflexivity|].
    split.
    { cbn [map]. rewrite Hview. unfold chunk_view, buf_string.
      cbn [fst snd]. rewrite Hb2, Hnp1. reflexivity. }
    split; [exact Hst'|]. split; [exact Hs'|]. split; [exact Hop'|].
    split; [exact Hind'|]. split; [congruence|]. split; [congruence|].
    split; [exact Hsp'|]. split; [exact Hnp'|]. split; [exact Hf'|].
    split; [congruence|]. split; [congruence|]. split; [congruence|].
    unfold setup_of in *. congruence.
Qed.

(** X19.  A byte or text string of indefinite length, [0x5F] or [0x7F],
    whose chunks have 1 to 23 bytes each and the major type of the string,
    closed by a BREAK and fed to a context that is between items at the top
    level and has no patterns: START is delivered at the head, each chunk is
    delivered with CHUNK, its bytes in [buf], and the BREAK delivers END
    with nothing in [buf]; the feed returns 0.  The frame at the bottom of
    the stack is left with its [indet] flag set. *)
Theorem indefinite_string_of_chunks :
  forall w major to cs,
    ready (ctx w) -> cb (ctx w) <> 0 ->
    Z.of_nat (length (st (ctx w))) = LECP_MAX_DEPTH L ->
    2 <= LECP_MAX_DEPTH L ->
    Z.of_nat (length (buf (ctx w))) = LECP_STRING_CHUNK L + 1 ->
    0 <= LECP_STRING_CHUNK L <= 255 ->
    0 <= ppos (ctx w) < Z.of_nat (length (path (ctx w))) ->
    path_match (ctx w) = 0 -> count_paths (ctx w) = 0 ->
    (major = 2 /\ to = 15) \/ (major = 3 /\ to = 0) ->
    ok (LECPCB_VAL_STR_START + to) = true ->
    ok (LECPCB_VAL_STR_CHUNK + to) = true ->
    ok (LECPCB_VAL_STR_END + to) = true ->
    Forall (fun c => 1 <= Z.of_nat (length c) < 24
                     /\ Z.of_nat (length c) <= LECP_STRING_CHUNK L) cs ->
    exists w' c0 evs c2,
      lecp_parse (answering ok g) L
                 (32 * major + 31 :: encode_chunks major cs ++ [255]) w
      = Some (0, w')
      /\ log w' = log w ++ (LECPCB_VAL_STR_START + to, c0) :: evs
                        ++ [(LECPCB_VAL_STR_END + to, c2)]
      /\ map chunk_view evs
         = map (fun c => (LECPCB_VAL_STR_CHUNK + to, c ++ [0])) cs
      /\ buf_string c2 = [0]
      /\ stale_indet (ctx w')
      /\ setup_of (ctx w') = setup_of (ctx w).
Proof.
  intros w major to cs (Hsp & f & rest0 & Hst & Hs & Hind) Hcb Hstl HD Hbuf HC
         Hp Hpm Hcp Hmaj Hoks Hokc Hoke Hcs.
  destruct rest0 as [|f' rest].
  { rewrite Hst in Hstl. cbn in Hstl. lia. }
  assert (Hne : buf (ctx w) <> [])
    by (apply (nonempty_by_length _ _ Hbuf); lia).
  assert (Hto : to = 0 \/ to = 15)
    by (destruct Hmaj as [[_ ->]|[_ ->]]; auto).
  destruct (indefinite_string_head ok g L w f f' rest major to Hst Hsp Hs Hcb
              Hne ltac:(lia) Hmaj Hoks)
    as (w1 & c0 & f0 & f1 & Hrun & Hlog1 & Hst1 & Hs1 & Hop1 & Hop0 & Hind0
        & Hpop0 & Hp0 & Hsp1 & Hnp1 & Hf1 & Hio1 & Hpa1 & Hpp1 & Hpm1 & Hbl1
        & Hset1).
  rewrite (parse_next L _ _ _ _ _ Hrun).
  assert (Hcb1 : cb (ctx w1) <> 0) by (unfold setup_of in Hset1; congruence).
  assert (Hcp1 : count_paths (ctx w1) = 0)
    by (unfold setup_of in Hset1; congruence).
  assert (Hstr : is_string_opcode (32 * major) = true)
    by (destruct Hmaj as [[-> _]|[-> _]]; reflexivity).
  assert (Hclose : forall w2 f0a f1a evs,
             st (ctx w2) = f0a :: f1a :: rest -> sp (ctx w2) = 1 ->
             st_s f1a = LECP_OPC \/ st_s f1a = LECP_ONLY_SAME ->
             st_opcode f0a = 32 * major -> st_indet f0a = 1 ->
             st_pop_iss f0a = st_pop_iss f0 -> st_p f0a = st_p f0 ->
             npos (ctx w2) = 0 -> firstn 1 (buf (ctx w2)) = [0] ->
             path (ctx w2) = path (ctx w1) ->
             path_match (ctx w2) = path_match (ctx w1) ->
             setup_of (ctx w2) = setup_of (ctx w1) ->
             log w2 = log w1 ++ evs ->
             exists w' c2,
               lecp_parse (answering ok g) L [255] w2 = Some (0, w')
               /\ log w' = log w ++ (LECPCB_VAL_STR_START + to, c0) :: evs
                                 ++ [(LECPCB_VAL_STR_END + to, c2)]
               /\ buf_string c2 = [0]
               /\ stale_indet (ctx w')
               /\ setup_of (ctx w') = setup_of (ctx w)).
  { intros w2 f0a f1a evs Hst2 Hsp2 Hs2 Hop2 Hind2 Hpop2 Hp2 Hnp2 Hf2 Hpa2
           Hpm2 Hset2 Hlog2.
    assert (Hcb2 : cb (ctx w2) <> 0)
      by (unfold setup_of in Hset2; congruence).
    assert (Hcp2 : count_paths (ctx w2) = 0)
      by (unfold setup_of in Hset2; congruence).
    destruct (break_closes_string ok g L w2 f0a f1a rest to Hst2 Hsp2 Hs2
                Hind2 ltac:(rewrite Hop2; exact Hstr) ltac:(congruence) Hto
                ltac:(rewrite Hp2, Hp0, Hpa2, Hpa1; exact Hp)
                ltac:(congruence) Hcp2 Hcb2 Hoke)
      as (w' & c2 & f0' & f1' & Hrun' & Hlog' & Hnpc & Hbc & Hst' & Hs'
          & Hind' & Hsp' & Hset').
    exists w', c2. rewrite (parse_next L _ _ _ _ _ Hrun'). cbn [lecp_parse].
    split; [apply (parse_end_idle _ _ _ Hst' Hsp' Hs')|].
    split; [rewrite Hlog', Hlog2, Hlog1, <- !app_assoc; reflexivity|].
    split; [unfold buf_string; rewrite Hnpc, Hbc, Hnp2; exact Hf2|].
    split.
    { split; [exact Hsp'|]. exists f0', (f1' :: rest). auto. }
    unfold setup_of in *. congruence. }
  destruct cs as [|c cs].
  - cbn [encode_chunks flat_map app].
    destruct (Hclose w1 f0 f1 [] Hst1 Hsp1 ltac:(right; exact Hs1) Hop0 Hind0
                eq_refl eq_refl Hnp1 Hf1 eq_refl eq_refl eq_refl
                ltac:(rewrite app_nil_r; reflexivity))
      as (w' & c2 & Hparse & Hlog' & Hb2 & Hstale & Hset').
    exists w', c0, [], c2. repeat (split; [assumption || reflexivity|]).
    exact Hset'.
  - pose proof (Forall_inv Hcs) as (Hc24 & HcC).
    pose proof (Forall_inv_tail Hcs) as Hcs'.
    assert (HM : 0 <= major <= 6) by (destruct Hmaj as [[-> _]|[-> _]]; lia).
    pose proof (first_chunk_head ok g L w1 f0 f1 rest major
                  (Z.of_nat (length c)) Hst1 Hsp1 Hs1 ltac:(congruence) HM
                  Hc24) as Hrun2.
    match type of Hrun2 with runs _ _ _ ?x => set (w2 := x) in * end.
    assert (Hcne : c <> [])
      by (intros E; rewrite E in Hc24; cbn in Hc24; lia).
    destruct (chunk_run ok g L c w2
                f0 (set_st_s LECP_COLLATE
                      (set_st_collect_rem (Z.of_nat (length c))
                                          (set_st_indet 0 f1)))
                rest major to)
      as (w3 & c1 & f0b & f1b & Hfeed & Hlog3 & Hnp3 & Hb3 & Hst3 & Hs3
          & Hop3 & Hind3 & Hint3 & Hpop3 & Hp3 & Hsp3 & Hnpw3 & Hf3 & Hio3
          & Hpa3 & Hpp3 & Hpm3 & Hbl3 & Hset3);
      subst w2; fields; try assumption; try reflexivity; try lia;
      try congruence.
    unfold setup_of in Hset3.
    revert Hlog3 Hnp3 Hb3 Hpa3 Hpp3 Hpm3 Hbl3 Hset3. fields.
    intros Hlog3 Hnp3 Hb3 Hpa3 Hpp3 Hpm3 Hbl3 Hset3.
    assert (Hcb3 : cb (ctx w3) <> 0) by congruence.
    destruct (later_chunks_fed cs w3 f0b f1b rest major to Hst3 Hsp3 Hs3 Hop3
                Hind3 Hint3 Hmaj Hcb3 Hokc Hnpw3 Hf3 ltac:(lia)
                ltac:(congruence) Hcs')
      as (w4 & evs & f0c & f1c & Hfeed4 & Hlog4 & Hview & Hst4 & Hs4 & Hop4
          & Hind4 & Hpop4 & Hp4 & Hsp4 & Hnp4 & Hf4 & Hpa4 & Hpp4 & Hpm4
          & Hset4).
    destruct (Hclose w4 f0c f1c ((LECPCB_VAL_STR_CHUNK + to, c1) :: evs)
                Hst4 Hsp4 ltac:(left; exact Hs4) Hop4 Hind4
                ltac:(congruence) ltac:(congruence) Hnp4 Hf4
                ltac:(congruence) ltac:(congruence)
                ltac:(unfold setup_of in *; congruence)
                ltac:(rewrite Hlog4, Hlog3, <- app_assoc; reflexivity))
      as (w' & c2 & Hparse & Hlog' & Hb2 & Hstale & Hset').
    exists w', c0, ((LECPCB_VAL_STR_CHUNK + to, c1) :: evs), c2.
    split.
    { cbn [encode_chunks flat_map].
      change (flat_map _ cs) with (encode_chunks major cs).
      rewrite <- app_assoc. cbn [app].
      rewrite (parse_next L _ _ _ _ _ Hrun2).
      rewrite (Hfeed (encode_chunks major cs ++ [255])).
      rewrite (Hfeed4 [255]). exact Hparse. }
    split; [exact Hlog'|]. split.
    { cbn [map]. rewrite Hview. unfold chunk_view, buf_string.
      cbn [fst snd]. rewrite Hb3, Hnp1. reflexivity. }
    split; [exact Hb2|]. split; [exact Hstale|exact Hset'].
Qed.
End IndefiniteStrings.

Lemma indefinite_string_of_chunks_witness :
  exists w' c0 evs c2,
    lecp_parse (answering (one_of [LECPCB_VAL_STR_START; LECPCB_VAL_STR_CHUNK;
                                   LECPCB_VAL_STR_END]) refuse_all)
               lecp_defaults
               (32 * 3 + 31 :: encode_chunks 3 [[97; 98]; [99]] ++ [255])
               fresh
    = Some (0, w')
    /\ log w' = log fresh ++ (LECPCB_VAL_STR_START + 0, c0) :: evs
                          ++ [(LECPCB_VAL_STR_END + 0, c2)]
    /\ map chunk_view evs
       = map (fun c => (LECPCB_VAL_STR_CHUNK + 0, c ++ [0])) [[97; 98]; [99]]
    /\ buf_string c2 = [0]
    /\ stale_indet (ctx w')
    /\ setup_of (ctx w') = setup_of (ctx fresh).
Proof.
  assert (Hcb : cb (ctx fresh) <> 0) by discriminate.
  assert (HD : 2 <= LECP_MAX_DEPTH lecp_defaults)
    by (vm_compute; discriminate).
  assert (HC : 0 <= LECP_STRING_CHUNK lecp_defaults <= 255)
    by (split; vm_compute; discriminate).
  assert (Hp : 0 <= ppos (ctx fresh) < Z.of_nat (length (path (ctx fresh))))
    by (split; vm_compute; [discriminate|reflexivity]).
  assert (Hmaj : (3 = 2 /\ 0 = 15) \/ (3 = 3 /\ 0 = 0))
    by (right; split; reflexivity).
  assert (Hcs : Forall (fun c => 1 <= Z.of_nat (length c) < 24
                                 /\ Z.of_nat (length c)
                                    <= LECP_STRING_CHUNK lecp_defaults)
                       [[97; 98]; [99]]).
  { repeat constructor; vm_compute; try discriminate; reflexivity. }
  exact (indefinite_string_of_chunks
           (one_of [LECPCB_VAL_STR_START; LECPCB_VAL_STR_CHUNK;
                    LECPCB_VAL_STR_END]) refuse_all lecp_defaults fresh 3 0
           [[97; 98]; [99]] ready_fresh Hcb eq_refl HD eq_refl HC Hp eq_refl
           eq_refl Hmaj eq_refl eq_refl eq_refl Hcs).
Defined.

(** ** A map behind other items *)

Section LaterMap.
Variable ok : Z -> bool.
Variable g : Z -> lecp_callback.
Variable L : lecp_limits.

(** The last byte of a string that stands where the count of the items of
    the map so far is odd: it is taken for a value, and the path is left
    alone. *)
Lemma key_last_odd w f0 f1 rest ch :
  st (ctx w) = f0 :: f1 :: rest -> sp (ctx w) = 1 ->
  st_s f1 = LECP_COLLATE -> st_indet f1 = 0 -> st_collect_rem f1 = 1 ->
  st_opcode f0 = LWS_CBOR_MAJTYP_MAP -> st_indet f0 = 0 ->
  Z.land (st_ordinal f0) 1 = 1 ->
  2 <= st_collect_rem f0 < 18446744073709551616 ->
  0 <= npos (ctx w) -> npos (ctx w) + 1 <= LECP_STRING_CHUNK L ->
  LECP_STRING_CHUNK L <= 255 ->
  Z.of_nat (length (buf (ctx w))) = LECP_STRING_CHUNK L + 1 ->
  item_opcode (ctx w) = LWS_CBOR_MAJTYP_TSTR ->
  cb (ctx w) <> 0 -> ok LECPCB_VAL_STR_END = true ->
  exists w1 c1 f0' f1',
    runs (parse_byte (answering ok g) L ch) w Next w1
    /\ log w1 = log w ++ [(LECPCB_VAL_STR_END, c1)]
    /\ npos c1 = npos (ctx w) + 1
    /\ buf c1 = upd (upd (buf (ctx w)) (Z.to_nat (npos (ctx w))) ch)
                    (Z.to_nat (npos (ctx w) + 1)) 0
    /\ path c1 = path (ctx w) /\ ppos c1 = ppos (ctx w)
    /\ st (ctx w1) = f0' :: f1' :: rest
    /\ st_s f1' = LECP_OPC
    /\ st_opcode f0' = LWS_CBOR_MAJTYP_MAP /\ st_indet f0' = 0
    /\ st_collect_rem f0' = st_collect_rem f0 - 1
    /\ st_ordinal f0' = u32 (st_ordinal f0 + 1)
    /\ st_pop_iss f0' = st_pop_iss f0 /\ st_p f0' = st_p f0
    /\ sp (ctx w1) = 1
    /\ path (ctx w1) = path (ctx w) /\ ppos (ctx w1) = ppos (ctx w)
    /\ path_match (ctx w1) = path_match (ctx w)
    /\ setup_of (ctx w1) = setup_of (ctx w).
Proof.
  intros Hst Hsp Hs Hind Hrem Hop0 Hind0 Hodd Hrem0 Hn0 Hn1 HC Hbuf Hio Hcb
         Hok.
  set (b1 := upd (upd (buf (ctx w)) (Z.to_nat (npos (ctx w))) ch)
                 (Z.to_nat (npos (ctx w) + 1)) 0).
  assert (Hnz : nonzero (st_collect_rem f1) = true)
    by (apply nonzero_true; lia).
  assert (Hu8 : u8 (npos (ctx w) + 1) = npos (ctx w) + 1)
    by (apply u8_small; lia).
  assert (Hu64 : u64 (st_collect_rem f1 - 1) = 0)
    by (rewrite Hrem; reflexivity).
  assert (Hst0 : store (buf (ctx w)) (npos (ctx w)) ch
                 = Some (upd (buf (ctx w)) (Z.to_nat (npos (ctx w))) ch))
    by (apply store_in_range; lia).
  assert (Hst1 : store (upd (buf (ctx w)) (Z.to_nat (npos (ctx w))) ch)
                       (npos (ctx w) + 1) 0 = Some b1)
    by (apply store_in_range; rewrite upd_length; lia).
  assert (Hst2 : store b1 0 0 = Some (upd b1 0 0))
    by (apply store_in_range; unfold b1; rewrite !upd_length; lia).
  assert (Hi0 : nonzero 0 = false) by reflexivity.
  assert (Hi1 : nonzero 1 = true) by reflexivity.
  assert (Hu64' : u64 (st_collect_rem f0 - 1) = st_collect_rem f0 - 1)
    by (apply u64_small; lia).
  assert (Hnz0 : nonzero (st_collect_rem f0) = true)
    by (apply nonzero_true; lia).
  assert (Hnz0' : nonzero (st_collect_rem f0 - 1) = true)
    by (apply nonzero_true; lia).
  assert (Hmap : (LWS_CBOR_MAJTYP_MAP =? LWS_CBOR_MAJTYP_ARRAY) = false)
    by reflexivity.
  change LECPCB_VAL_STR_END with (LECPCB_VAL_STR_END + 0) in Hok.
  eexists. eexists. eexists. eexists. split.
  - unfold parse_byte.
    repeat (run_step; fields; rewrite ?Hsp, ?Hst; mem).
    rewrite Hs. unfold parse_collate.
    repeat (run_step; fields;
            rewrite ?Hsp, ?Hst, ?Hst0, ?Hst1, ?Hnz, ?Hu8, ?Hu64, ?Hi0,
              ?Hi1, ?Hop0, ?Hodd, ?Hio, ?Z.eqb_refl; mem;
            cbn [negb andb Z.sub Z.add Z.opp Z.pos_sub];
            rewrite ?andb_false_r).
    unfold lwcp_is_indet_string.
    repeat (run_step; fields;
            rewrite ?Hsp, ?Hst, ?Hind, ?Hi0, ?Hi1, ?Hop0, ?Hst2; mem;
            cbn [negb Z.sub Z.add Z.opp Z.pos_sub]).
    unfold lwcp_completed.
    repeat (run_step; fields; rewrite ?Hsp; mem).
    change (Z.to_nat 1) with 1%nat. cbn [completed_walk].
    repeat (run_step; fields;
            rewrite ?Hsp, ?Hi0, ?Hi1, ?Hop0, ?Hmap, ?Hind0, ?Hu64',
              ?Hnz0, ?Hnz0'; mem;
            cbn [negb andb Z.sub Z.add Z.opp Z.pos_sub]).
  - subst b1. fields. split; [reflexivity|].
    repeat split; fields; rewrite ?upd_length;
      first [reflexivity | rewrite ?Hsp, ?Hop0, ?Hind0; reflexivity].
Qed.

Lemma key_run_odd bs : forall w f0 f1 rest,
  st (ctx w) = f0 :: f1 :: rest -> sp (ctx w) = 1 ->
  st_s f1 = LECP_COLLATE -> st_indet f1 = 0 ->
  st_collect_rem f1 = Z.of_nat (length bs) -> bs <> [] ->
  st_opcode f0 = LWS_CBOR_MAJTYP_MAP -> st_indet f0 = 0 ->
  Z.land (st_ordinal f0) 1 = 1 ->
  2 <= st_collect_rem f0 < 18446744073709551616 ->
  0 <= npos (ctx w) ->
  npos (ctx w) + Z.of_nat (length bs) <= LECP_STRING_CHUNK L ->
  LECP_STRING_CHUNK L <= 255 ->
  Z.of_nat (length (buf (ctx w))) = LECP_STRING_CHUNK L + 1 ->
  item_opcode (ctx w) = LWS_CBOR_MAJTYP_TSTR ->
  cb (ctx w) <> 0 -> ok LECPCB_VAL_STR_END = true ->
  exists w1 c1 f0' f1',
    feeds (answering ok g) L bs w w1
    /\ log w1 = log w ++ [(LECPCB_VAL_STR_END, c1)]
    /\ npos c1 = npos (ctx w) + Z.of_nat (length bs)
    /\ firstn (Z.to_nat (npos c1) + 1) (buf c1)
       = firstn (Z.to_nat (npos (ctx w))) (buf (ctx w)) ++ bs ++ [0]
    /\ path c1 = path (ctx w) /\ ppos c1 = ppos (ctx w)
    /\ st (ctx w1) = f0' :: f1' :: rest
    /\ st_s f1' = LECP_OPC
    /\ st_opcode f0' = LWS_CBOR_MAJTYP_MAP /\ st_indet f0' = 0
    /\ st_collect_rem f0' = st_collect_rem f0 - 1
    /\ st_ordinal f0' = u32 (st_ordinal f0 + 1)
    /\ st_pop_iss f0' = st_pop_iss f0 /\ st_p f0' = st_p f0
    /\ sp (ctx w1) = 1
    /\ path (ctx w1) = path (ctx w) /\ ppos (ctx w1) = ppos (ctx w)
    /\ path_match (ctx w1) = path_match (ctx w)
    /\ setup_of (ctx w1) = setup_of (ctx w).
Proof.
  induction bs as [|ch bs IH];
    intros w f0 f1 rest Hst Hsp Hs Hind Hrem Hne Hop0 Hind0 Hodd Hrem0 Hn0
           Hn1 HC Hbuf Hio Hcb Hok; [congruence|].
  destruct bs as [|ch2 bs].
  - cbn [length] in *.
    destruct (key_last_odd w f0 f1 rest ch Hst Hsp Hs Hind Hrem Hop0 Hind0
                Hodd Hrem0 Hn0 ltac:(lia) HC Hbuf Hio Hcb Hok)
      as (w1 & c1 & f0' & f1' & Hrun & Hlog & Hnp & Hb & Hrest).
    exists w1, c1, f0', f1'.
    split; [apply (feeds_cons _ _ _ _ _ _ _ Hrun), feeds_nil|].
    split; [exact Hlog|]. split; [rewrite Hnp; lia|].
    split; [|exact Hrest].
    rewrite Hnp, Hb.
    replace (Z.to_nat (npos (ctx w) + 1) + 1)%nat
      with (S (Z.to_nat (npos (ctx w) + 1))) by lia.
    rewrite firstn_upd_succ by (rewrite upd_length; lia).
    replace (Z.to_nat (npos (ctx w) + 1))
      with (S (Z.to_nat (npos (ctx w)))) by lia.
    rewrite firstn_upd_succ by lia.
    rewrite <- app_assoc. reflexivity.
  - remember (ch2 :: bs) as bs' eqn:Ebs.
    assert (Hlen : 1 <= Z.of_nat (length bs'))
      by (subst bs'; cbn [length]; lia).
    cbn [length] in Hrem, Hn1. rewrite Nat2Z.inj_succ in Hrem, Hn1.
    pose proof (key_more ok g L w f0 f1 rest ch Hst Hsp Hs Hn0) as Hrun.
    specialize (Hrun ltac:(lia) HC ltac:(lia) ltac:(lia)).
    match type of Hrun with runs _ _ _ ?x => set (w1 := x) in * end.
    destruct (IH w1 f0 (set_st_collect_rem (st_collect_rem f1 - 1) f1) rest)
      as (w' & c1 & f0' & f1' & Hfeed & Hlog & Hnp & Hb & Hrest);
      subst w1; fields; rewrite ?upd_length;
      try assumption; try lia; try reflexivity;
      try (subst bs'; discriminate).
    exists w', c1, f0', f1'.
    split; [apply (feeds_cons _ _ _ _ _ _ _ Hrun Hfeed)|].
    unfold setup_of in Hrest.
    revert Hlog Hnp Hb Hrest. fields. rewrite ?upd_length.
    intros Hlog Hnp Hb Hrest.
    assert (Hfn : firstn (Z.to_nat (npos (ctx w) + 1))
                         (upd (buf (ctx w)) (Z.to_nat (npos (ctx w))) ch)
                  = firstn (Z.to_nat (npos (ctx w))) (buf (ctx w)) ++ [ch]).
    { replace (Z.to_nat (npos (ctx w) + 1))
        with (S (Z.to_nat (npos (ctx w)))) by lia.
      apply firstn_upd_succ. lia. }
    rewrite Hfn in Hb.
    split; [exact Hlog|].
    split; [rewrite Hnp; cbn [length]; lia|].
    split; [rewrite Hb, <- app_assoc; reflexivity|].
    exact Hrest.
Qed.

(** X20.  The frame at the bottom of the stack counts the items of the
    container it last held, and the count is not reset.  A map of one pair
    fed to a context that is between items at the top level with an odd
    count there, left by an array or map of an odd number of items: the key
    is delivered with START and END, but it is not put on the path, which
    holds the [.] alone at END and at the value. *)
Theorem key_of_a_later_map_stays_off_the_path :
  forall w k v,
    ready (ctx w) -> cb (ctx w) <> 0 ->
    (forall f rest, st (ctx w) = f :: rest ->
       Z.land (st_ordinal f) 1 = 1 /\ st_intermediate f = 0) ->
    Z.of_nat (length (st (ctx w))) = LECP_MAX_DEPTH L ->
    2 <= LECP_MAX_DEPTH L ->
    Z.of_nat (length (buf (ctx w))) = LECP_STRING_CHUNK L + 1 ->
    LECP_STRING_CHUNK L <= 255 ->
    Z.of_nat (length (path (ctx w))) = LECP_MAX_PATH L ->
    LECP_MAX_PATH L <= 256 ->
    0 <= ppos (ctx w) -> ppos (ctx w) + 1 < LECP_MAX_PATH L ->
    path_match (ctx w) = 0 -> count_paths (ctx w) = 0 ->
    ok LECPCB_OBJECT_START = true -> ok LECPCB_VAL_STR_START = true ->
    ok LECPCB_VAL_STR_END = true -> ok LECPCB_VAL_NUM_UINT = true ->
    ok LECPCB_OBJECT_END = true ->
    1 <= Z.of_nat (length k) < 24 ->
    Z.of_nat (length k) <= LECP_STRING_CHUNK L ->
    0 <= v < 24 ->
    let pre := firstn (Z.to_nat (ppos (ctx w))) (path (ctx w)) ++ [46] in
    exists w' c0 c1 c2 c3 c4,
      lecp_parse (answering ok g) L
                 (32 * 5 + 1 :: (32 * 3 + Z.of_nat (length k) :: k) ++ [v]) w
      = Some (0, w')
      /\ log w' = log w ++ [(LECPCB_OBJECT_START, c0);
                            (LECPCB_VAL_STR_START, c1);
                            (LECPCB_VAL_STR_END, c2);
                            (LECPCB_VAL_NUM_UINT, c3);
                            (LECPCB_OBJECT_END, c4)]
      /\ buf_string c2 = k ++ [0]
      /\ path_string c2 = pre ++ [0]
      /\ path_string c3 = pre ++ [0]
      /\ item_u64 c3 = v
      /\ ready (ctx w').
Proof.
  intros w k v (Hsp & f & rest0 & Hst & Hs & Hind) Hcb Hcount Hstl HD Hbuf HC
         Hpl HP Hp0 Hp1 Hpm Hcp Hoko Hoks Hoke Hoku Hokc Hk24 HkC Hv pre.
  destruct (Hcount _ _ Hst) as [Hodd Hint].
  destruct rest0 as [|f' rest].
  { rewrite Hst in Hstl. cbn in Hstl. lia. }
  assert (Hne : buf (ctx w) <> [])
    by (apply (nonempty_by_length _ _ Hbuf); lia).
  destruct (map_head ok g L w f f' rest 1 Hst Hsp Hs Hcb Hne ltac:(lia) Hp0
              Hp1 HP Hpl Hpm Hcp Hoko ltac:(lia))
    as (w1 & c0 & f0 & f1 & Hrun & Hlog & Hpa0 & Hpp0 & Hst1 & Hs1 & Hp1'
        & Hind1 & Hop0 & Hind0 & Hrem0 & Hord0 & Hint0 & Hpop0 & Hp & Hsp1
        & Hpa1 & Hpp1 & Hpm1 & Hbl1 & _ & _ & Hset1).
  rewrite (parse_next L _ _ _ _ _ Hrun).
  assert (Hcb1 : cb (ctx w1) <> 0) by (unfold setup_of in Hset1; congruence).
  assert (Hcp1 : count_paths (ctx w1) = 0)
    by (unfold setup_of in Hset1; congruence).
  assert (Hne1 : buf (ctx w1) <> []).
  { intros E. rewrite E in Hbl1. cbn in Hbl1.
    destruct (buf (ctx w)); [congruence|discriminate]. }
  destruct (key_head ok g L w1 f0 f1 rest (Z.of_nat (length k)) Hst1 Hsp1 Hs1
              ltac:(congruence) Hcb1 Hne1 Hoks Hk24)
    as (w2 & c1 & f1a & Hrun2 & Hlog2 & _ & _ & Hst2 & Hs2 & Hind2 & Hrem2
        & _ & Hsp2 & Hnp2 & Hio2 & Hpa2 & Hpp2 & Hpm2 & Hbl2 & Hset2).
  cbn [app]. rewrite (parse_next L _ _ _ _ _ Hrun2).
  assert (Hcb2 : cb (ctx w2) <> 0) by (unfold setup_of in Hset2; congruence).
  assert (Hkne : k <> []) by (intros E; rewrite E in Hk24; cbn in Hk24; lia).
  destruct (key_run_odd k w2 f0 f1a rest Hst2 Hsp2 Hs2 Hind2 Hrem2 Hkne Hop0
              Hind0 ltac:(congruence) ltac:(lia) ltac:(lia) ltac:(lia) HC
              ltac:(congruence) Hio2 Hcb2 Hoke)
    as (w3 & c2 & f0b & f1b & Hfeed & Hlog3 & Hnp3 & Hb3 & Hpa3 & Hpp3 & Hst3
        & Hs3 & Hop3 & Hind3 & Hrem3 & Hord3 & Hpop3 & Hp3 & Hsp3 & Hpaw3
        & Hppw3 & Hpm3 & Hset3).
  rewrite (Hfeed [v]).
  assert (Hcb3 : cb (ctx w3) <> 0) by (unfold setup_of in Hset3; congruence).
  assert (Hcp3 : count_paths (ctx w3) = 0)
    by (unfold setup_of in *; congruence).
  assert (Hu32 : 0 <= u32 (st_ordinal f0 + 1) < 4294967296)
    by (unfold u32; apply Z.mod_pos_bound; lia).
  assert (Heven : u32 (st_ordinal f0 + 1) <> 4294967295).
  { unfold u32. intros E.
    assert (Ho : st_ordinal f0 mod 2 = 1).
    { rewrite Hord0. revert Hodd. change 1 with (Z.ones 1) at 1.
      rewrite Z.land_ones by lia. exact (fun H => H). }
    pose proof (Z.div_mod (st_ordinal f0) 2 ltac:(lia)) as H1.
    pose proof (Z.div_mod (st_ordinal f0 + 1) 4294967296 ltac:(lia)) as H2.
    lia. }
  destruct (value_last ok g L w3 f0b f1b rest v Hst3 Hsp3 Hs3 Hop3 Hind3
              ltac:(lia) ltac:(lia) ltac:(congruence)
              ltac:(rewrite Hp3, Hp, Hpaw3, Hpa2, Hpa1, !upd_length; lia)
              ltac:(congruence) Hcp3 Hcb3 Hoku Hokc Hv)
    as (w4 & c3 & c4 & f0c & f1c & Hrun4 & Hlog4 & Hit3 & Hpa3c & Hpp3c
        & Hpp4 & Hpa4 & Hsp4c & Hst4 & Hs4 & Hind4 & Hord4 & Hsp4 & Hppw4
        & Hpaw4 & Hpm4 & _ & _ & Hset4).
  rewrite (parse_next L _ _ _ _ _ Hrun4). cbn [lecp_parse].
  assert (Hdot : forall c, path c = path (ctx w1) -> ppos c = ppos (ctx w1) ->
                   path_string c = pre ++ [0]).
  { intros c Hc1 Hc2. unfold path_string. rewrite Hc1, Hc2, Hpa1, Hpp1.
    subst pre.
    replace (Z.to_nat (ppos (ctx w) + 1) + 1)%nat
      with (S (Z.to_nat (ppos (ctx w) + 1))) by lia.
    rewrite firstn_upd_succ by (rewrite upd_length; lia).
    replace (Z.to_nat (ppos (ctx w) + 1)) with (S (Z.to_nat (ppos (ctx w))))
      by lia.
    rewrite firstn_upd_succ by lia. reflexivity. }
  exists w4, c0, c1, c2, c3, c4.
  split; [apply (parse_end_idle _ _ _ Hst4 Hsp4 Hs4)|].
  split.
  { rewrite Hlog4, Hlog3, Hlog2, Hlog, <- !app_assoc. reflexivity. }
  split.
  { unfold buf_string. rewrite Hb3, Hnp2. reflexivity. }
  split; [apply Hdot; congruence|].
  split; [apply Hdot; congruence|].
  split; [exact Hit3|].
  split; [exact Hsp4|]. exists f0c, (f1c :: rest). auto.
Qed.
End LaterMap.

(** The context after the array [[0]]. *)
Definition after_array : world :=
  Eval vm_compute in
    match lecp_parse accept_all lecp_defaults [129; 0] fresh with
    | Some (_, w) => w
    | None => fresh
    end.

Lemma ready_after_array : ready (ctx after_array).
Proof.
  split; [reflexivity|]. eexists. eexists.
  split; [reflexivity|]. split; reflexivity.
Defined.

Lemma key_of_a_later_map_stays_off_the_path_witness :
  exists w' c0 c1 c2 c3 c4,
    lecp_parse (answering (one_of [LECPCB_OBJECT_START; LECPCB_VAL_STR_START;
                                   LECPCB_VAL_STR_END; LECPCB_VAL_NUM_UINT;
                                   LECPCB_OBJECT_END]) refuse_all)
               lecp_defaults
               (32 * 5 + 1 :: (32 * 3 + Z.of_nat (length [97]) :: [97]) ++ [1])
               after_array
    = Some (0, w')
    /\ log w' = log after_array ++ [(LECPCB_OBJECT_START, c0);
                                    (LECPCB_VAL_STR_START, c1);
                                    (LECPCB_VAL_STR_END, c2);
                                    (LECPCB_VAL_NUM_UINT, c3);
                                    (LECPCB_OBJECT_END, c4)]
    /\ buf_string c2 = [97] ++ [0]
    /\ path_string c2
       = (firstn (Z.to_nat (ppos (ctx after_array))) (path (ctx after_array))
          ++ [46]) ++ [0]
    /\ path_string c3
       = (firstn (Z.to_nat (ppos (ctx after_array))) (path (ctx after_array))
          ++ [46]) ++ [0]
    /\ item_u64 c3 = 1
    /\ ready (ctx w').
Proof.
  assert (Hcb : cb (ctx after_array) <> 0) by discriminate.
  assert (Hcount : forall f rest, st (ctx after_array) = f :: rest ->
            Z.land (st_ordinal f) 1 = 1 /\ st_intermediate f = 0).
  { intros f rest E. injection E as <- _. split; reflexivity. }
  assert (HD : 2 <= LECP_MAX_DEPTH lecp_defaults)
    by (vm_compute; discriminate).
  assert (HC : LECP_STRING_CHUNK lecp_defaults <= 255)
    by (vm_compute; discriminate).
  assert (HP : LECP_MAX_PATH lecp_defaults <= 256)
    by (vm_compute; discriminate).
  assert (Hp0 : 0 <= ppos (ctx after_array)) by (vm_compute; discriminate).
  assert (Hp1 : ppos (ctx after_array) + 1 < LECP_MAX_PATH lecp_defaults)
    by (vm_compute; reflexivity).
  assert (Hk24 : 1 <= Z.of_nat (length [97]) < 24)
    by (split; vm_compute; [discriminate|reflexivity]).
  assert (HkC : Z.of_nat (length [97]) <= LECP_STRING_CHUNK lecp_defaults)
    by (vm_compute; discriminate).
  assert (Hv : 0 <= 1 < 24) by lia.
  exact (key_of_a_later_map_stays_off_the_path
           (one_of [LECPCB_OBJECT_START; LECPCB_VAL_STR_START;
                    LECPCB_VAL_STR_END; LECPCB_VAL_NUM_UINT;
                    LECPCB_OBJECT_END]) refuse_all lecp_defaults
           after_array [97] 1 ready_after_array Hcb Hcount eq_refl HD eq_refl
           HC eq_refl HP Hp0 Hp1 eq_refl eq_refl eq_refl eq_refl eq_refl
           eq_refl eq_refl Hk24 HkC Hv).
Defined.

(** ** lecp_error_to_string *)

From Stdlib Require Import String.

(** [parser_errs] *)
Definition parser_errs : list string :=
  [EmptyString; EmptyString; "Bad CBOR coding"%string;
   "Unknown"%string; "Parser callback errored (see earlier error)"%string;
   "Overflow"%string].

(** [lecp_error_to_string]; [e] is an [int], and negating the least [int]
    overflows: no result. *)
Definition lecp_error_to_string (e : Z) : option string :=
  let e1 := if e >? 0 then 0 else - e in
  if e1 >? 2147483647 then None
  else if e1 >=? Z.of_nat (List.length parser_errs)
       then Some "Unknown error"%string
       else nth_error parser_errs (Z.to_nat e1).

(** X21.  [lecp_error_to_string] has a message for every [int] but the
    least: the empty string for the codes that are no error (0,
    [LECP_CONTINUE] and every positive value), the message of
    [parser_errs] for the codes down to [LECP_STACK_OVERFLOW], and
    ["Unknown error"] below; it reads [parser_errs] inside its bounds. *)
Theorem lecp_error_to_string_total :
  forall e, -2147483648 < e <= 2147483647 ->
    exists s,
      lecp_error_to_string e = Some s
      /\ (s = "Unknown error"%string <-> e < LECP_STACK_OVERFLOW)
      /\ (s = EmptyString <-> LECP_CONTINUE <= e)
      /\ (e < LECP_STACK_OVERFLOW \/ In s parser_errs).
Proof.
  intros e He. unfold lecp_error_to_string, LECP_STACK_OVERFLOW, LECP_CONTINUE.
  destruct (e >? 0) eqn:E0.
  - apply Z.gtb_lt in E0. eexists. split; [reflexivity|].
    cbn. repeat split; try discriminate; try lia; auto.
  - assert (H0 : e <= 0) by (destruct (Z.gtb_spec e 0); [discriminate|lia]).
    cbv zeta.
    destruct (- e >? 2147483647) eqn:E1; [apply Z.gtb_lt in E1; lia|].
    change (Z.of_nat (List.length parser_errs)) with 6.
    destruct (- e >=? 6) eqn:E2; rewrite Z.geb_leb in E2.
    + assert (H6 : e <= -6) by (apply Z.leb_le in E2; lia).
      eexists. split; [reflexivity|].
      repeat split; try discriminate; try lia; auto.
    + assert (H5 : -5 <= e <= 0) by (apply Z.leb_gt in E2; lia).
      clear E0 E1 E2 He H0.
      assert (Hk : exists k, e = - k /\ 0 <= k < 0 + Z.of_nat 6)
        by (exists (- e); lia).
      destruct Hk as (k & -> & Hk). clear H5. rewrite Z.opp_involutive.
      pattern k. apply (range_cases _ 0 6); [|exact Hk].
      cbn [seq List.map]. split_Forall; eexists;
        (split; [reflexivity|]); cbn;
        repeat split; try discriminate; try lia; intros; try lia; auto 10.
Qed.

Lemma lecp_error_to_string_total_witness :
  exists s,
    lecp_error_to_string LECP_REJECT_BAD_CODING = Some s
    /\ (s = "Unknown error"%string
        <-> LECP_REJECT_BAD_CODING < LECP_STACK_OVERFLOW)
    /\ (s = EmptyString <-> LECP_CONTINUE <= LECP_REJECT_BAD_CODING)
    /\ (LECP_REJECT_BAD_CODING < LECP_STACK_OVERFLOW \/ In s parser_errs).
Proof.
  apply lecp_error_to_string_total. unfold LECP_REJECT_BAD_CODING. lia.
Defined.

